(* ===== verification/_CoqProject ===== *)
-Q . S2P
Prelude.v
QcReals.v
BinList.v
Store.v
StoreFacts.v
DenseStoreSpec.v
KeyAtRank.v
CollapsingStores.v
StoreTests.v
CollapsingAdd.v
CollapsingHighestAdd.v
CollapsingTests.v
Sketch.v
ExactMapping.v
MappingReals.v
SketchSpec.v
SketchQuantile.v
Datasets.v
UniformSqrt.v
RandomDatasets.v
Populate.v
SketchTests.v
Examples.v
