(* ===== verification/Prelude.v ===== *)
(** * A verification development of sketches-cpp (DDSketch in C++)

    This library models the header [src/includes/ddsketch/ddsketch.h] of
    the repository: the relative-error quantile sketch DDSketch.  The
    program has four parts, leaves first.

    - [BinList<RealValue>] (lines 54-192): a deque of counters with zero
      extension at either end, trimming, range replacement and a bounds
      checked range sum ([collapsed_count]).
    - The dense stores (lines 205-770): [BaseDenseStore], which keeps one
      counter per bin key in a sliding window [offset, offset + length)],
      and its two subclasses [CollapsingLowestDenseStore] and
      [CollapsingHighestDenseStore], which bound the window by
      [bin_limit] and fold the lowest (highest) bins into the first (last)
      bin.  The subclasses override the virtual methods [get_new_length],
      [adjust] and [get_index], and redefine [merge] and [copy].
    - The key mappings (lines 800-1049): [KeyMapping] and its logarithmic,
      linearly and cubically interpolated variants, mapping a positive
      value to a bin key and a key back to a representative value.
    - The sketch (lines 1051-1270): [BaseDDSketch<Store, Mapping>], which
      routes values to a positive store, a negative store or a zero
      counter, answers quantile queries and merges sketches.

    Files (in dependency order, as listed in _CoqProject):

    - [Prelude] (this file): the modelling conventions shared by every
      file.  [RealValue] (a C++ [double]) is modelled by the canonical
      rationals [Qc], so that counters, weights and ranks compute
      exactly and have Leibniz equality; [Index] ([int64_t]) is [Z].
      Exceptions and undefined behaviour are values of the [result]
      type, with a bind notation [let* x := m in k] in [ddsketch_scope]:
      [Throw InvalidArgument] is [std::invalid_argument],
      [Throw IllegalArgument] is [IllegalArgumentException],
      [Throw UnequalSketchParameters] is
      [UnequalSketchParametersException], [Throw LengthError] is
      [std::length_error] (a [resize] beyond [max_size()]), and
      [Throw UndefinedBehavior]
      marks a call outside the precondition of a [std::deque] operation
      (an index or erase range outside the container), which C++ leaves
      undefined.  A theorem that an operation returns [Ok] is therefore
      a proof that it neither throws nor has undefined behaviour.
    - [QcReals]: the embedding [QcR] of [Qc] into the reals and the
      tactic [qcR] that moves (in)equalities between rationals to [R],
      where [lra]/[nra] and the power lemmas apply.
    - [BinList]: the deque as a [list Qc] with each method of the class;
      [bin_at] reads a counter by a [Z] position, [0] outside the list.
    - [Store]: the store state as one [Record] whose [kind] field plays
      the role of the C++ dynamic type (the virtual methods dispatch on
      it) and every method of the three store classes.
    - [StoreFacts]: the store invariant [wf] (the bins sum to [count], the
      window holds [[min_key, max_key]], the counters vanish outside it,
      the collapsing bound), its decision procedure [wfb], the abstract
      content of a store (a counter per key, [content]), and the lemmas
      on windows, shifts and centring that the operation theorems share.
    - [DenseStoreSpec]: the dense store refines a map from keys to
      counters: [add] adds the weight to one key, [merge] adds two
      contents pointwise; both keep [wf] and never throw.
    - [KeyAtRank]: [key_at_rank] returns the least key whose cumulative
      count passes the rank, and [max_key] beyond the total.
    - [CollapsingStores]: the two collapsing stores' [merge] sum the
      receiver's own bins over the other store's collapsed range (a bug
      of the port: the Python original sums the other store's bins), so
      weight is lost; a [bin_limit <= 0] makes the first [add] undefined.
    - [StoreTests]: the store tests of [src/tests/ddsketch_tests.cpp]:
      [Counter] (a [std::map] as a [gmap]), whose [sum_values] keeps its
      sum in an [int] and wraps at [2^31] values, the value streams of
      [StoreTest], and [DenseStoreTest]'s [test_values], [test_store] and
      [test_merging], which pass on every stream below [2^31] values.
    - [CollapsingAdd]: the collapsing-lowest store under [add].  Its
      abstract view [clamped T kws] raises every key below
      [T = max_key - bin_limit + 1] to [T]; the invariant [lowest_holds]
      relates a store to the insertions it received, and each of the four
      cases of [CollapsingLowestDenseStore::get_index] (first key, key
      below the window, above it, inside it) keeps it, through the two
      branches of [adjust] (centring when the window fits, sliding and
      collapsing otherwise).  So a new store fed [int64_t] keys never
      throws and holds exactly the clamped insertions.  The window lemmas
      shared by both collapsing classes are stated for either kind.
    - [CollapsingHighestAdd]: the mirror for [CollapsingHighestDenseStore]:
      [clamped_high T kws] lowers every key above [T = min_key +
      bin_limit - 1] to [T]; the three branches of its [adjust] (all in the
      last bin, fold the bins above the new top, move the window) and the
      four cases of its [get_index] keep [highest_holds], so a new store
      fed [int64_t] keys never throws and holds exactly the clamped
      insertions.  The last bin of a collapse gets
      [count - cumulative (T - 1)], the weight at or above [T].
    - [CollapsingTests]: [CollapsingLowestDenseStoreTest] and
      [CollapsingHighestDenseStoreTest]: [test_values], [test_store] and
      [test_merging].  [test_store] passes exactly on the streams that are
      empty or whose largest value is at least [INT64_MIN + 1000]
      (lowest), respectively whose smallest value is at most
      [INT64_MAX - 20] (highest); beyond, the tests' own [int64_t] bound
      overflows (undefined behaviour).  [test_merging] passes on the
      registered lists and fails on those of the unregistered
      [test_merging_far_apart], where the merge defect shows.
    - [Sketch]: [BaseDDSketch] as [Module BaseDDSketch], generic over the
      type class [KeyMapping] (the [Mapping] template parameter: [key],
      [value], [gamma], [min_possible]); [add], [get_quantile_value]
      ([None] for NaN), [mergeable], [copy], [merge] and the constructors
      of [DDSketch] and the two collapsing sketches.
    - [ExactMapping]: [LogarithmicMapping] in exact arithmetic for an
      integral offset, an instance of [KeyMapping].  [ceil(log_gamma v)]
      is found by a search over the powers of [gamma]; its fuel,
      [(v + 1/v) / (gamma - 1)] steps, is enough by Bernoulli's
      inequality ([ceil_log_bounds]).  The mapping's relative accuracy
      ([log_mapping_accuracy]) and the monotonicity of [key] are proved
      over the reals.
    - [SketchSpec]: the sketch invariant [inv] (its stores are well
      formed, dense and non-negative, [count_] is the sum of its three
      parts, an empty sketch has its initial [min_], [max_], [sum_]) and
      the refinement [refines] of a weighted multiset of values: [add]
      and [merge] keep [inv], merging equals replaying the insertions,
      the two exceptions are thrown exactly when the code's checks fail,
      and [max_] is wrong on negative data.
    - [SketchQuantile]: the accuracy guarantee: for positive values of
      total weight at least [1], [get_quantile_value(q)] is within the
      relative accuracy of a value at weighted rank [q * (count - 1)];
      below total weight [1] the answer is a negative number.

    - [MappingReals]: [KeyMapping] and its three subclasses over the
      reals ([Module RealMapping]): the constructor's checks, [frexp],
      [ldexp], [log2_approx], [exp2_approx] and the cubic pair, [key]
      (with C++'s truncating cast) and [value].  The logarithmic and the
      linearly interpolated mappings keep the relative accuracy for an
      integral offset, a fractional offset breaks it, [exp2_approx] and
      [log2_approx] are inverse, and [ExactMapping]'s [key] and [value]
      agree with the real ones.
    - [Datasets]: [DataSet] of the tests' [datasets.h] (its copy
      [src/unnamed/part_000]) as [Module DataSets]: [rank], [quantile],
      [sum], [avg], [add], [resize] (throwing [std::length_error] on a
      negative size) and the [populate] of the deterministic data sets.
      [rank] is a count, [quantile] returns the element of rank
      [floor(q (size - 1))] and is undefined on an empty set, the zoom
      data sets are permutations of [0 .. size - 1] and NumberLineForward
      is descending.
    - [UniformSqrt]: [UniformSqrt::populate], a [while] loop run with
      fuel ([None] when it runs out), terminates within
      [sqrt_fuel size = 2 size + 2] passes with a permutation of
      [0 .. size - 1]; the bound holds because pass [t - 1 + size] has
      emitted every item ([em_cover]).
    - [RandomDatasets]: the random data sets of [datasets.h]
      (Exponential, Lognormal, Normal, Laplace, Bimodal, Mixed, Trimodal,
      Integers) as [Module RandomDataSets].  The engine, the draws of the
      standard distributions and [std::log] form the type class
      [RandomSource], whose state is threaded through the [std::generate]
      lambdas as the lambda's copy of [generator] is; the constructors of
      the distribution objects check their preconditions (undefined
      behaviour otherwise), the class constructors their own checks, and
      [Integers] casts each draw to [int64_t].  [counting_source] is an
      instance for evaluating the definitions.  Lognormal's constructor
      checks the unused [scale_] and not [sigma_].
    - [Populate]: the virtual [populate] over every data set, random ones
      included for any [RandomSource]: each returns exactly [size] values,
      throws on a negative size, or is undefined when a distribution
      parameter is not positive or an [Integers] cast overflows.
    - [SketchTests]: [evaluate_sketch_accuracy] of the unit tests: a
      [DDSketch] fed a data set with unit weights answers every tested
      quantile within the relative accuracy of [DataSet::quantile], and
      its count, sum and average are the data set's.

    Witnesses evaluate the definitions with [vm_compute] on the stores of
    the repository's tests and on sketches built with the mapping of
    relative accuracy [1/3] ([gamma = 2]).

    What is not modelled: floating-point rounding (every [double] is an
    exact rational, or a real in [MappingReals], so [sum] and [count] are
    exact, and [value(INT64_MIN)] is a tiny positive rational where the
    double underflows to [0]); the accuracy of the cubically interpolated
    mapping, whose bound depends on rounding the constants [A_], [B_],
    [C_] (its definitions are modelled, its theorem is not); the values
    the random data sets draw (the engine and the distributions are the
    [RandomSource] interface, nothing of the code fixes them); the I/O
    helpers ([to_string],
    [operator<<]); the test drivers of [src/tests] beyond the store
    tests, the two collapsing store tests and [evaluate_sketch_accuracy]
    (the mapping tests and the sketch tests other than the accuracy
    check); the build files.  The CRTP base class [BaseStore] only
    forwards calls (forwarders that would not compile if instantiated,
    since [underlying()] is a reference) and is not a separate
    definition.  The sketches built
    on the collapsing stores are modelled (their constructors) but their
    accuracy under collapse is left for a later part. *)

From stdpp Require Export base list numbers.
From Stdlib Require Export ZArith Lia QArith Qcanon.

(** Outcomes of code that may throw or leave its precondition. *)
Inductive exn :=
  | InvalidArgument
  | IllegalArgument
  | UnequalSketchParameters
  | LengthError
  | UndefinedBehavior.

Inductive result (A : Type) : Type :=
  | Ok (a : A)
  | Throw (e : exn).
Arguments Ok {A} a.
Arguments Throw {A} e.

#[export] Instance exn_eq_dec : EqDecision exn.
Proof. solve_decision. Defined.

Definition res_bind {A B} (m : result A) (k : A -> result B) : result B :=
  match m with
  | Ok a => k a
  | Throw e => Throw e
  end.

(** [guard_ub b m] is [m] when the precondition [b] holds and undefined
    behaviour otherwise. *)
Definition guard_ub {A} (b : bool) (m : result A) : result A :=
  if b then m else Throw UndefinedBehavior.

Declare Scope ddsketch_scope.
Delimit Scope ddsketch_scope with dd.
Notation "'let*' x ':=' m 'in' k" := (res_bind m (fun x => k))
  (at level 100, x pattern, m at level 100, k at level 200,
   format "'[v' 'let*'  x  ':='  m  'in' '/' k ']'") : ddsketch_scope.

Abbreviation RealValue := Qc.
Abbreviation Index := Z.

(** [int64_t] limits, the initial values of [min_key_] and [max_key_]. *)
Definition INT64_MAX : Z := 9223372036854775807.
Definition INT64_MIN : Z := -9223372036854775808.

(** [ceil_div a b] is [std::ceil((1.0 * a) / b)] for [b > 0], computed
    exactly on integers. *)
Definition ceil_div (a b : Z) : Z := (- ((- a) / b))%Z.

(** [std::accumulate] over a range of counters, starting from [0]. *)
Definition accumulate (l : list Qc) : Qc := fold_left Qcplus l 0%Qc.

Lemma res_bind_Ok {A B} (a : A) (k : A -> result B) : res_bind (Ok a) k = k a.
Proof. reflexivity. Qed.

Lemma res_bind_Ok_inv {A B} (m : result A) (k : A -> result B) (b : B) :
  res_bind m k = Ok b -> exists a, m = Ok a /\ k a = Ok b.
Proof. destruct m; simpl; [eauto | discriminate]. Qed.

Lemma guard_ub_Ok_inv {A} b (m : result A) (a : A) :
  guard_ub b m = Ok a -> b = true /\ m = Ok a.
Proof. destruct b; simpl; [auto | discriminate]. Qed.

Create HintDb ddsketch discriminated.
Create Rewrite HintDb ddsketch_rw.
#[export] Hint Rewrite @res_bind_Ok : ddsketch_rw.

(** Break every [res_bind ... = Ok _] and [guard_ub ... = Ok _] hypothesis. *)
Ltac inv_res :=
  repeat match goal with
  | H : res_bind _ _ = Ok _ |- _ =>
      let a := fresh "r" in let Ha := fresh "Hr" in
      apply res_bind_Ok_inv in H as [a [Ha H]]
  | H : guard_ub _ _ = Ok _ |- _ =>
      let Hb := fresh "Hg" in apply guard_ub_Ok_inv in H as [Hb H]
  | H : Ok _ = Ok _ |- _ => injection H as H; subst
  | H : Throw _ = Ok _ |- _ => discriminate H
  end.

(** Decide the [Z] comparisons of the goal whose outcome [lia] proves. *)
Ltac zbool :=
  repeat match goal with
  | |- context [Z.leb ?a ?b] =>
      first [ rewrite (proj2 (Z.leb_le a b)) by lia
            | rewrite (proj2 (Z.leb_gt a b)) by lia ]
  | |- context [Z.ltb ?a ?b] =>
      first [ rewrite (proj2 (Z.ltb_lt a b)) by lia
            | rewrite (proj2 (Z.ltb_ge a b)) by lia ]
  | |- context [Z.eqb ?a ?b] =>
      first [ rewrite (proj2 (Z.eqb_eq a b)) by lia
            | rewrite (proj2 (Z.eqb_neq a b)) by lia ]
  end; cbn [andb orb negb guard_ub].

(** Prove an equation between closed [Qc] values by computation. *)
Ltac qc_compute := apply Qc_is_canon; vm_compute; reflexivity.

(** ** Shared arithmetic *)

Local Open Scope Z_scope.


Lemma ceil_div_spec a b : 0 < b -> b * ceil_div a b >= a /\ b * ceil_div a b < a + b.
Proof.
  intros Hb. unfold ceil_div.
  pose proof (Z.div_mod (- a) b ltac:(lia)).
  pose proof (Z.mod_pos_bound (- a) b Hb). lia.
Qed.

Lemma ceil_div_pos a b : 0 < b -> 0 < a -> 0 < ceil_div a b.
Proof. intros Hb Ha. pose proof (ceil_div_spec a b Hb). nia. Qed.

(** ** Shared facts on [Qc] sums *)

Local Open Scope Qc_scope.


Lemma fold_left_Qcplus_acc (l : list Qc) (a : Qc) :
  fold_left Qcplus l a = a + fold_left Qcplus l 0.
Proof.
  revert a. induction l as [|x l IH]; intros a; simpl.
  - ring.
  - rewrite (IH (a + x)), (IH (0 + x)). ring.
Qed.

Lemma accumulate_nil : accumulate [] = 0.
Proof. reflexivity. Qed.

Lemma accumulate_cons x l : accumulate (x :: l) = x + accumulate l.
Proof. unfold accumulate. simpl. rewrite fold_left_Qcplus_acc. ring. Qed.

Lemma accumulate_app l1 l2 : accumulate (l1 ++ l2) = accumulate l1 + accumulate l2.
Proof.
  induction l1 as [|x l1 IH]; simpl.
  - rewrite accumulate_nil. ring.
  - rewrite !accumulate_cons, IH. ring.
Qed.

Lemma accumulate_replicate_0 n : accumulate (replicate n 0) = 0.
Proof. induction n as [|n IH]; simpl; [done|]. rewrite accumulate_cons, IH. ring. Qed.

Lemma accumulate_take_drop n l : accumulate (take n l) + accumulate (drop n l) = accumulate l.
Proof. rewrite <- accumulate_app, take_drop. reflexivity. Qed.

#[export] Hint Rewrite accumulate_nil accumulate_cons accumulate_app
  accumulate_replicate_0 : ddsketch_rw.
