(* ===== verification/QcReals.v ===== *)
(** * Transferring [Qc] facts to the reals

    [RealValue] is modelled by [Qc]; the key mappings compute logarithms
    and powers, whose properties are proved over [R].  [QcR] embeds [Qc]
    into [R] and commutes with the field operations, so that an inequality
    between rationals can be proved by [lra]/[nra] after [qcR]. *)

From S2P Require Import Prelude.
From Stdlib Require Export Reals Qreals Lra Qround.

Definition QcR (x : Qc) : R := Q2R (this x).

(** [Qpower] with an integer exponent, canonicalised. *)
Definition qpow (g : Qc) (k : Z) : Qc := Q2Qc (Qpower (this g) k).

Section Transfer.
Implicit Types x y : Qc.

Lemma QcR_Q2Qc q : QcR (Q2Qc q) = Q2R q.
Proof. unfold QcR. simpl. apply Qeq_eqR, Qred_correct. Qed.

Lemma QcR_plus x y : QcR (x + y) = (QcR x + QcR y)%R.
Proof. unfold Qcplus. rewrite QcR_Q2Qc. apply Q2R_plus. Qed.

Lemma QcR_mult x y : QcR (x * y) = (QcR x * QcR y)%R.
Proof. unfold Qcmult. rewrite QcR_Q2Qc. apply Q2R_mult. Qed.

Lemma QcR_opp x : QcR (- x) = (- QcR x)%R.
Proof. unfold Qcopp. rewrite QcR_Q2Qc. apply Q2R_opp. Qed.

Lemma QcR_minus x y : QcR (x - y) = (QcR x - QcR y)%R.
Proof. unfold Qcminus. rewrite QcR_plus, QcR_opp. ring. Qed.

Lemma QcR_0 : QcR 0 = 0%R.
Proof. unfold QcR. simpl. apply RMicromega.Q2R_0. Qed.

Lemma QcR_1 : QcR 1 = 1%R.
Proof. unfold QcR. simpl. apply RMicromega.Q2R_1. Qed.

Lemma QcR_2 : QcR 2 = 2%R.
Proof. unfold QcR. simpl. unfold Q2R. simpl. rewrite Rinv_1, Rmult_1_r. reflexivity. Qed.

Lemma QcR_inj x y : QcR x = QcR y -> x = y.
Proof. intros H. apply Qc_is_canon. by apply eqR_Qeq. Qed.

Lemma QcR_neq0 x : x <> 0%Qc -> QcR x <> 0%R.
Proof. intros H E. apply H, QcR_inj. by rewrite E, QcR_0. Qed.

Lemma QcR_inv x : x <> 0%Qc -> QcR (/ x) = (/ QcR x)%R.
Proof.
  intros H. unfold Qcinv. rewrite QcR_Q2Qc. apply Q2R_inv.
  intros E. apply H. apply Qc_is_canon. by rewrite E.
Qed.

Lemma QcR_div x y : y <> 0%Qc -> QcR (x / y) = (QcR x / QcR y)%R.
Proof. intros H. unfold Qcdiv. by rewrite QcR_mult, QcR_inv. Qed.

Lemma QcR_le x y : (x <= y)%Qc <-> (QcR x <= QcR y)%R.
Proof. split; [apply Qle_Rle | apply Rle_Qle]. Qed.

Lemma QcR_lt x y : (x < y)%Qc <-> (QcR x < QcR y)%R.
Proof. split; [apply Qlt_Rlt | apply Rlt_Qlt]. Qed.

Lemma QcR_of_Z z : QcR (Qc_of_Z z) = IZR z.
Proof. unfold QcR. simpl. unfold Q2R. simpl. field. Qed.

Lemma QcR_qpow g k : g <> 0%Qc -> QcR (qpow g k) = powerRZ (QcR g) k.
Proof.
  intros H. unfold qpow. rewrite QcR_Q2Qc. apply RMicromega.Q2RpowerRZ.
  left. intros E. apply H, Qc_is_canon. by rewrite E.
Qed.

End Transfer.

Create Rewrite HintDb qcR.
#[export] Hint Rewrite QcR_plus QcR_mult QcR_opp QcR_minus QcR_0 QcR_1 QcR_2 QcR_of_Z : qcR.

(** Turn a (negated) comparison or equation between rationals into one
    between reals. *)
Ltac qcR :=
  repeat match goal with
  | |- (_ <= _)%Qc => apply QcR_le
  | |- (_ < _)%Qc => apply QcR_lt
  | |- @eq Qc _ _ => apply QcR_inj
  | H : (_ <= _)%Qc |- _ => apply QcR_le in H
  | H : (_ < _)%Qc |- _ => apply QcR_lt in H
  | H : ~ (_ <= _)%Qc |- _ => rewrite QcR_le in H
  | H : ~ (_ < _)%Qc |- _ => rewrite QcR_lt in H
  | H : @eq Qc _ _ |- _ => apply (f_equal QcR) in H
  end;
  autorewrite with qcR in *.
