(* ===== verification/BinList.v ===== *)
(** * BinList: the counter deque of [ddsketch.h] (class [BinList], lines 54-192)

    A [BinList<RealValue>] is a [std::deque<double>]; it is modelled as a
    [list Qc].  Counts and indices arrive from the stores as [Index]
    ([int64_t]) values and are converted to [size_t] or [int] by C++; a
    negative count or an index or erase range outside the deque is
    undefined behaviour there and [Throw UndefinedBehavior] here.
    [collapsed_count] is the one method that checks its indices and throws
    [std::invalid_argument].  [bin_at l i] is the counter at position [i],
    read as [0] outside the list; the lemmas of this file describe every
    method through it. *)

From S2P Require Import Prelude.

Local Open Scope Z_scope.
Local Open Scope ddsketch_scope.

Abbreviation BinList := (list Qc).

(** [size()] as an [Index]. *)
Definition size (l : BinList) : Z := Z.of_nat (length l).

(** [initialize_with_zeros(num_zeros)] *)
Definition initialize_with_zeros (num_zeros : Z) : result BinList :=
  guard_ub (0 <=? num_zeros) (Ok (replicate (Z.to_nat num_zeros) 0%Qc)).

(** [extend_front_with_zeros(count)] *)
Definition extend_front_with_zeros (count : Z) (l : BinList) : result BinList :=
  guard_ub (0 <=? count) (Ok (replicate (Z.to_nat count) 0%Qc ++ l)).

(** [extend_back_with_zeros(count)] *)
Definition extend_back_with_zeros (count : Z) (l : BinList) : result BinList :=
  guard_ub (0 <=? count) (Ok (l ++ replicate (Z.to_nat count) 0%Qc)).

(** [remove_trailing_elements(count)]: [erase(end() - count, end())]. *)
Definition remove_trailing_elements (count : Z) (l : BinList) : result BinList :=
  guard_ub ((0 <=? count) && (count <=? size l))
    (Ok (take (Z.to_nat (size l - count)) l)).

(** [remove_leading_elements(count)]: [erase(begin(), begin() + count)]. *)
Definition remove_leading_elements (count : Z) (l : BinList) : result BinList :=
  guard_ub ((0 <=? count) && (count <=? size l)) (Ok (drop (Z.to_nat count) l)).

(** [replace_range_with_zeros(start_idx, end_idx, num_zeros)]: erase
    [[start_idx, end_idx)], then insert [num_zeros] zeros at [start_idx]. *)
Definition replace_range_with_zeros (start_idx end_idx num_zeros : Z) (l : BinList)
    : result BinList :=
  guard_ub ((0 <=? start_idx) && (start_idx <=? end_idx) && (end_idx <=? size l)
            && (0 <=? num_zeros))
    (Ok (take (Z.to_nat start_idx) l ++ replicate (Z.to_nat num_zeros) 0%Qc
         ++ drop (Z.to_nat end_idx) l)).

(** [index_outside_bounds(idx)]: the [int] argument is converted to
    [size_t], so a negative index is outside the bounds as well. *)
Definition index_outside_bounds (idx : Z) (l : BinList) : bool :=
  (idx <? 0) || (size l <? idx).

(** [collapsed_count(start_idx, end_idx)]: the sum of [[start_idx, end_idx)];
    [std::accumulate] over a range whose first iterator is past its last is
    undefined. *)
Definition collapsed_count (start_idx end_idx : Z) (l : BinList) : result Qc :=
  if index_outside_bounds start_idx l || index_outside_bounds end_idx l
  then Throw InvalidArgument
  else guard_ub (start_idx <=? end_idx)
         (Ok (accumulate (take (Z.to_nat (end_idx - start_idx))
                            (drop (Z.to_nat start_idx) l)))).

(** [sum()] is [collapsed_count(0, size())], which never throws. *)
Definition sum (l : BinList) : Qc := accumulate l.

(** [has_only_zeros()] *)
Definition has_only_zeros (l : BinList) : bool :=
  forallb (fun x => bool_decide (x = 0%Qc)) l.

(** [operator[](idx)] read. *)
Definition get (idx : Z) (l : BinList) : result Qc :=
  guard_ub (0 <=? idx)
    (match l !! Z.to_nat idx with Some x => Ok x | None => Throw UndefinedBehavior end).

(** [operator[](idx) += w] *)
Definition add_at (idx : Z) (w : Qc) (l : BinList) : result BinList :=
  guard_ub ((0 <=? idx) && (idx <? size l)) (Ok (alter (fun x => (x + w)%Qc) (Z.to_nat idx) l)).

(** [operator[](idx) = v] *)
Definition set_at (idx : Z) (v : Qc) (l : BinList) : result BinList :=
  guard_ub ((0 <=? idx) && (idx <? size l)) (Ok (<[Z.to_nat idx := v]> l)).

(** [first() += w] and [last() += w]. *)
Definition add_first (w : Qc) (l : BinList) : result BinList := add_at 0 w l.
Definition add_last (w : Qc) (l : BinList) : result BinList := add_at (size l - 1) w l.

(** The counter at a position, [0] outside the list. *)
Definition bin_at (l : BinList) (i : Z) : Qc :=
  if decide (0 <= i) then default 0%Qc (l !! Z.to_nat i) else 0%Qc.

(** [range_sum l base n key] is the sum of the counters at positions
    [key - base, ..., key + n - 1 - base]: the sum of the bins of the keys
    [key .. key + n - 1] of a store whose offset is [base]. *)
Fixpoint range_sum (l : BinList) (base : Z) (n : nat) (key : Z) : Qc :=
  match n with
  | O => 0%Qc
  | S n' => (bin_at l (key - base) + range_sum l base n' (key + 1))%Qc
  end.

(** ** Reading the methods through [bin_at] *)

Section BinAt.
Implicit Types (l : BinList) (i j n : Z).

Lemma bin_at_neg l i : i < 0 -> bin_at l i = 0%Qc.
Proof. intros. unfold bin_at. case_decide; [lia | done]. Qed.

Lemma bin_at_ge l i : size l <= i -> bin_at l i = 0%Qc.
Proof.
  unfold bin_at, size. intros. case_decide; [|done].
  rewrite lookup_ge_None_2; [done | lia].
Qed.

Lemma bin_at_nil i : bin_at [] i = 0%Qc.
Proof. unfold bin_at. by case_decide. Qed.

Lemma bin_at_replicate_0 (m : nat) i : bin_at (replicate m 0%Qc) i = 0%Qc.
Proof.
  unfold bin_at. case_decide; [|done].
  destruct (replicate m 0%Qc !! Z.to_nat i) eqn:E; [|done].
  by apply lookup_replicate in E as [-> _].
Qed.

Lemma bin_at_zeros_app (m : nat) l i :
  bin_at (replicate m 0%Qc ++ l) i = bin_at l (i - Z.of_nat m).
Proof.
  unfold bin_at. repeat case_decide; try lia; try done.
  - rewrite lookup_app_r; rewrite length_replicate; [|lia].
    f_equal. f_equal. lia.
  - rewrite lookup_app_l; rewrite ?length_replicate; [|lia].
    destruct (replicate m 0%Qc !! Z.to_nat i) eqn:E; [|done].
    by apply lookup_replicate in E as [-> _].
Qed.

Lemma bin_at_app_zeros l (m : nat) i : bin_at (l ++ replicate m 0%Qc) i = bin_at l i.
Proof.
  unfold bin_at. case_decide; [|done].
  destruct (decide (Z.to_nat i < length l)%nat).
  - by rewrite lookup_app_l.
  - rewrite lookup_app_r by lia. rewrite (lookup_ge_None_2 l) by lia.
    destruct (replicate m 0%Qc !! _) eqn:E; [|done].
    by apply lookup_replicate in E as [-> _].
Qed.

Lemma bin_at_take (m : nat) l i :
  bin_at (take m l) i = if decide (i < Z.of_nat m) then bin_at l i else 0%Qc.
Proof.
  unfold bin_at. repeat case_decide; try done; try lia.
  - by rewrite lookup_take_lt by lia.
  - by rewrite lookup_take_ge by lia.
Qed.

Lemma bin_at_drop (m : nat) l i :
  bin_at (drop m l) i = if decide (0 <= i) then bin_at l (i + Z.of_nat m) else 0%Qc.
Proof.
  unfold bin_at. repeat case_decide; try done; try lia.
  rewrite lookup_drop. f_equal. f_equal. lia.
Qed.

Lemma bin_at_alter_add l (j : nat) (w : Qc) i :
  bin_at (alter (fun x => (x + w)%Qc) j l) i
  = if decide (i = Z.of_nat j /\ (j < length l)%nat) then (bin_at l i + w)%Qc
    else bin_at l i.
Proof.
  unfold bin_at. repeat case_decide; try done; try lia.
  - destruct H0 as [-> Hj]. rewrite Nat2Z.id, list_lookup_alter_eq.
    destruct (lookup_lt_is_Some_2 l j Hj) as [x ->]. done.
  - destruct (decide (Z.to_nat i = j)) as [<-|Hne].
    + rewrite list_lookup_alter_eq.
      destruct (decide (Z.to_nat i < length l)%nat).
      * exfalso. apply H0. split; [lia | done].
      * by rewrite (lookup_ge_None_2 l) by lia.
    + by rewrite list_lookup_alter_ne.
Qed.

Lemma bin_at_insert l (j : nat) (v : Qc) i :
  bin_at (<[j := v]> l) i
  = if decide (i = Z.of_nat j /\ (j < length l)%nat) then v else bin_at l i.
Proof.
  unfold bin_at. repeat case_decide; try done; try lia.
  - destruct H0 as [-> Hj]. rewrite Nat2Z.id, list_lookup_insert_eq; done.
  - destruct (decide (Z.to_nat i = j)) as [<-|Hne].
    + rewrite list_insert_ge; [done|]. destruct (decide (Z.to_nat i < length l)%nat); [|lia].
      exfalso. apply H0. split; [lia | done].
    + by rewrite list_lookup_insert_ne.
Qed.

End BinAt.

(** Close a goal [bin_at l i = bin_at l j] or [bin_at l i = 0] whose side
    conditions are linear arithmetic. *)
Ltac bin_at_close :=
  first [ reflexivity
        | (f_equal; lia)
        | (apply bin_at_neg; lia)
        | (apply bin_at_ge; lia)
        | (symmetry; apply bin_at_neg; lia)
        | (symmetry; apply bin_at_ge; lia) ].

#[export] Hint Rewrite bin_at_replicate_0 bin_at_zeros_app bin_at_app_zeros
  bin_at_nil : ddsketch_rw.

(** ** Lengths and sums *)

Lemma size_app l1 l2 : size (l1 ++ l2) = size l1 + size l2.
Proof. unfold size. rewrite length_app. lia. Qed.

Lemma size_replicate (m : nat) (x : Qc) : size (replicate m x) = Z.of_nat m.
Proof. unfold size. by rewrite length_replicate. Qed.

Lemma size_alter f (j : nat) l : size (alter f j l) = size l.
Proof. unfold size. by rewrite length_alter. Qed.

Lemma size_insert (j : nat) (v : Qc) l : size (<[j := v]> l) = size l.
Proof. unfold size. by rewrite length_insert. Qed.

Lemma size_take (m : nat) l : size (take m l) = Z.min (Z.of_nat m) (size l).
Proof. unfold size. rewrite length_take. lia. Qed.

Lemma size_drop (m : nat) l : size (drop m l) = size l - Z.min (Z.of_nat m) (size l).
Proof. unfold size. rewrite length_drop. lia. Qed.

Lemma size_nonneg l : 0 <= size l.
Proof. unfold size. lia. Qed.

#[export] Hint Rewrite size_app size_replicate size_alter size_insert : ddsketch_rw.

Lemma bin_at_elem l x : x ∈ l -> exists i, 0 <= i < size l /\ bin_at l i = x.
Proof.
  intros Hx. apply list_elem_of_lookup in Hx as [j Hj].
  exists (Z.of_nat j). unfold bin_at, size. split.
  - apply lookup_lt_Some in Hj. lia.
  - case_decide; [|lia]. by rewrite Nat2Z.id, Hj.
Qed.

Lemma bin_at_cons_succ x l i : 0 <= i -> bin_at (x :: l) (i + 1) = bin_at l i.
Proof.
  intros Hi. unfold bin_at. repeat case_decide; try lia.
  by replace (Z.to_nat (i + 1)) with (S (Z.to_nat i)) by lia.
Qed.

(** A list whose every position reads [0] sums to [0]. *)
Lemma accumulate_zeros l :
  (forall i, 0 <= i < size l -> bin_at l i = 0%Qc) -> accumulate l = 0%Qc.
Proof.
  intros H. induction l as [|x l IH]; [done|].
  assert (x = 0%Qc) as ->.
  { destruct (bin_at_elem (x :: l) x) as [i [Hi <-]]; [left|]. by apply H. }
  rewrite accumulate_cons, IH; [done|].
  intros i Hi. rewrite <- (bin_at_cons_succ 0%Qc l i) by lia. apply H.
  unfold size in *. simpl. lia.
Qed.

Lemma accumulate_alter_add l (j : nat) w :
  (j < length l)%nat -> accumulate (alter (fun x => (x + w)%Qc) j l) = (accumulate l + w)%Qc.
Proof.
  revert j. induction l as [|x l IH]; intros [|j] Hj; simpl in Hj; try lia.
  - change (accumulate ((x + w)%Qc :: l) = (accumulate (x :: l) + w)%Qc).
    rewrite !accumulate_cons. ring.
  - change (accumulate (x :: alter (fun x => (x + w)%Qc) j l) = (accumulate (x :: l) + w)%Qc).
    rewrite !accumulate_cons, IH by lia. ring.
Qed.

Lemma accumulate_insert l (j : nat) v x :
  l !! j = Some x -> accumulate (<[j := v]> l) = (accumulate l - x + v)%Qc.
Proof.
  revert j. induction l as [|y l IH]; intros [|j] Hj; simpl in Hj; try discriminate.
  - injection Hj as ->. change (accumulate (v :: l) = (accumulate (x :: l) - x + v)%Qc).
    rewrite !accumulate_cons. ring.
  - change (accumulate (y :: <[j := v]> l) = (accumulate (y :: l) - x + v)%Qc).
    rewrite !accumulate_cons, (IH j Hj). ring.
Qed.

(** ** Sums over a range of positions *)

Lemma range_sum_add l base n m key :
  range_sum l base (n + m) key = (range_sum l base n key + range_sum l base m (key + Z.of_nat n))%Qc.
Proof.
  revert key. induction n as [|n IH]; intros key; cbn [range_sum Nat.add].
  - replace (key + Z.of_nat 0) with key by lia. ring.
  - rewrite IH. replace (key + 1 + Z.of_nat n) with (key + Z.of_nat (S n)) by lia.
    ring.
Qed.

Lemma range_sum_zero l base n key :
  (forall i, 0 <= i < Z.of_nat n -> bin_at l (key + i - base) = 0%Qc) ->
  range_sum l base n key = 0%Qc.
Proof.
  revert key. induction n as [|n IH]; intros key H; cbn [range_sum]; [done|].
  rewrite (IH (key + 1)).
  - specialize (H 0 ltac:(lia)). replace (key + 0 - base) with (key - base) in H by lia.
    rewrite H. ring.
  - intros i Hi. replace (key + 1 + i - base) with (key + (i + 1) - base) by lia. apply H. lia.
Qed.

Lemma range_sum_cons x l base n key :
  base <= key -> range_sum (x :: l) base n (key + 1) = range_sum l base n key.
Proof.
  revert key. induction n as [|n IH]; intros key Hk; cbn [range_sum]; [done|].
  rewrite IH by lia. replace (key + 1 - base) with ((key - base) + 1) by lia.
  rewrite bin_at_cons_succ by lia. done.
Qed.

Lemma range_sum_rebase l base n key : range_sum l base n key = range_sum l 0 n (key - base).
Proof.
  revert key. induction n as [|n IH]; intros key; cbn [range_sum]; [done|].
  rewrite IH, Z.sub_0_r. do 2 f_equal. lia.
Qed.

(** The whole list as a range sum. *)
Lemma accumulate_range_sum l : accumulate l = range_sum l 0 (length l) 0.
Proof.
  induction l as [|x l IH]; [done|].
  rewrite accumulate_cons, IH. cbn [range_sum length].
  rewrite <- (range_sum_cons x l 0 (length l) 0) by lia. done.
Qed.

(** A list sums to the range sum of any window of positions outside of
    which it holds only zeros. *)
Lemma accumulate_window l lo (n : nat) :
  0 <= lo -> lo + Z.of_nat n <= size l ->
  (forall i, 0 <= i < size l -> ~ (lo <= i < lo + Z.of_nat n) -> bin_at l i = 0%Qc) ->
  accumulate l = range_sum l 0 n lo.
Proof.
  intros Hlo Hhi Hz. unfold size in *. rewrite accumulate_range_sum.
  replace (length l) with (Z.to_nat lo + (n + (length l - Z.to_nat lo - n)))%nat by lia.
  rewrite !range_sum_add.
  rewrite (range_sum_zero l 0 (Z.to_nat lo)), (range_sum_zero l 0 (length l - _ - _)).
  - replace (0 + Z.of_nat (Z.to_nat lo)) with lo by lia. ring.
  - intros i Hi. apply Hz; lia.
  - intros i Hi. apply Hz; lia.
Qed.

Lemma bin_at_cons_0 x l : bin_at (x :: l) 0 = x.
Proof. reflexivity. Qed.

Lemma accumulate_nonneg l : (forall i, (0 <= bin_at l i)%Qc) -> (0 <= accumulate l)%Qc.
Proof.
  induction l as [|x l IH]; intros H; [done|].
  rewrite accumulate_cons. apply Qcplus_nonneg_nonneg.
  - rewrite <- (bin_at_cons_0 x l). apply H.
  - apply IH. intros i. destruct (decide (0 <= i)).
    + rewrite <- (bin_at_cons_succ x l i) by lia. apply H.
    + rewrite bin_at_neg by lia. done.
Qed.

(** Non-negative counters summing to [0] are all [0]. *)
Lemma accumulate_nonneg_zero l :
  (forall i, (0 <= bin_at l i)%Qc) -> accumulate l = 0%Qc -> forall i, bin_at l i = 0%Qc.
Proof.
  induction l as [|x l IH]; intros H Hs i; [apply bin_at_nil|].
  rewrite accumulate_cons in Hs.
  assert (Hl : forall i, (0 <= bin_at l i)%Qc).
  { intros j. destruct (decide (0 <= j)).
    - rewrite <- (bin_at_cons_succ x l j) by lia. apply H.
    - rewrite bin_at_neg by lia. done. }
  pose proof (accumulate_nonneg l Hl) as Ha.
  assert (Hx : (0 <= x)%Qc) by (rewrite <- (bin_at_cons_0 x l); apply H).
  assert (Hx0 : x = 0%Qc).
  { apply Qcle_antisym; [|done]. rewrite <- Hs.
    rewrite <- (Qcplus_0_r x) at 1. by apply Qcplus_le_mono_l. }
  subst x. rewrite Qcplus_0_l in Hs.
  destruct (decide (i = 0)) as [->|Hi]; [done|].
  destruct (decide (0 <= i)).
  - replace i with ((i - 1) + 1) by lia. rewrite bin_at_cons_succ by lia. apply IH; auto.
  - apply bin_at_neg. lia.
Qed.
