(* ===== verification/Store.v ===== *)
(** * The dense stores of [ddsketch.h] (lines 205-770)

    One [Store] record holds the fields of [BaseDenseStore] ([count_],
    [min_key_], [max_key_], [chunk_size_], [offset_], [bins_]) and the
    [is_collapsed_] flag of the collapsing subclasses; its [kind] field is
    the dynamic type of the object and carries the subclasses' [bin_limit_].
    [get_new_length], [adjust] and [get_index] are virtual in C++: the
    definitions of those names below dispatch on [kind] to the method of
    each class, and the base-class code that calls them ([extend_range],
    [add]) calls the dispatching definition, as the virtual call does.
    [merge] and [copy] are redefined (not overridden) per class and are
    dispatched the same way, the receiver's class choosing the code.

    Every method that may throw or step outside a deque precondition
    returns a [result]. *)

From S2P Require Import Prelude BinList.

Local Open Scope Z_scope.
Local Open Scope ddsketch_scope.

(** The dynamic type of a store. *)
Inductive StoreKind :=
  | Dense
  | CollapsingLowest (bin_limit : Z)
  | CollapsingHighest (bin_limit : Z).

Record Store := mkStore {
  kind : StoreKind;
  count : Qc;          (** The sum of the counts for the bins *)
  min_key : Z;         (** The minimum key bin *)
  max_key : Z;         (** The maximum key bin *)
  chunk_size : Z;      (** The number of bins to grow by *)
  offset : Z;          (** The difference between the keys and their index *)
  bins : BinList;
  is_collapsed : bool  (** Read and set by the collapsing stores only *)
}.

(** ** Field updates *)

Definition set_count (st : Store) (c : Qc) : Store :=
  mkStore (kind st) c (min_key st) (max_key st) (chunk_size st) (offset st) (bins st)
    (is_collapsed st).
Definition set_min_key (st : Store) (k : Z) : Store :=
  mkStore (kind st) (count st) k (max_key st) (chunk_size st) (offset st) (bins st)
    (is_collapsed st).
Definition set_max_key (st : Store) (k : Z) : Store :=
  mkStore (kind st) (count st) (min_key st) k (chunk_size st) (offset st) (bins st)
    (is_collapsed st).
Definition set_offset (st : Store) (o : Z) : Store :=
  mkStore (kind st) (count st) (min_key st) (max_key st) (chunk_size st) o (bins st)
    (is_collapsed st).
Definition set_bins (st : Store) (b : BinList) : Store :=
  mkStore (kind st) (count st) (min_key st) (max_key st) (chunk_size st) (offset st) b
    (is_collapsed st).
Definition set_collapsed (st : Store) (c : bool) : Store :=
  mkStore (kind st) (count st) (min_key st) (max_key st) (chunk_size st) (offset st) (bins st)
    c.
Definition set_keys (st : Store) (lo hi : Z) : Store := set_max_key (set_min_key st lo) hi.

(** ** Construction *)

Definition kChunkSize : Z := 128.

(** [BaseDenseStore(chunk_size)] *)
Definition BaseDenseStore_new (chunk_size : Z) : Store :=
  mkStore Dense 0%Qc INT64_MAX INT64_MIN chunk_size 0 [] false.

(** [CollapsingLowestDenseStore(bin_limit, chunk_size)] *)
Definition CollapsingLowestDenseStore_new (bin_limit chunk_size : Z) : Store :=
  mkStore (CollapsingLowest bin_limit) 0%Qc INT64_MAX INT64_MIN chunk_size 0 [] false.

(** [CollapsingHighestDenseStore(bin_limit, chunk_size)] *)
Definition CollapsingHighestDenseStore_new (bin_limit chunk_size : Z) : Store :=
  mkStore (CollapsingHighest bin_limit) 0%Qc INT64_MAX INT64_MIN chunk_size 0 [] false.

(** [bin_limit()] of the collapsing stores. *)
Definition bin_limit (st : Store) : Z :=
  match kind st with
  | Dense => 0
  | CollapsingLowest bl | CollapsingHighest bl => bl
  end.

(** ** Accessors *)

Definition length (st : Store) : Z := size (bins st).

Definition kEmptyStoreLength : Z := 0.

Definition is_empty (st : Store) : bool := length st =? kEmptyStoreLength.

(** ** [get_new_length] *)

Definition dense_get_new_length (st : Store) (new_min_key new_max_key : Z) : Z :=
  let desired_length := new_max_key - new_min_key + 1 in
  let num_chunks := ceil_div desired_length (chunk_size st) in
  chunk_size st * num_chunks.

Definition lowest_get_new_length (st : Store) (new_min_key new_max_key : Z) : Z :=
  let desired_length := new_max_key - new_min_key + 1 in
  let num_chunks := ceil_div desired_length (chunk_size st) in
  Z.min (chunk_size st * num_chunks) (bin_limit st).

Definition highest_get_new_length (st : Store) (new_min_key new_max_key : Z) : Z :=
  let desired_length := new_max_key - new_min_key + 1 in
  let num_chunks := ceil_div desired_length (chunk_size st) in
  Z.min (chunk_size st * num_chunks) (bin_limit st).

Definition get_new_length (st : Store) : Z -> Z -> Z :=
  match kind st with
  | Dense => dense_get_new_length st
  | CollapsingLowest _ => lowest_get_new_length st
  | CollapsingHighest _ => highest_get_new_length st
  end.

(** ** Shifting and centring ([BaseDenseStore], not virtual) *)

(** [shift_bins(shift)] *)
Definition shift_bins (st : Store) (shift : Z) : result Store :=
  if 0 <? shift then
    let* b1 := remove_trailing_elements shift (bins st) in
    let* b2 := extend_front_with_zeros shift b1 in
    Ok (set_offset (set_bins st b2) (offset st - shift))
  else
    let abs_shift := Z.abs shift in
    let* b1 := remove_leading_elements abs_shift (bins st) in
    let* b2 := extend_back_with_zeros abs_shift b1 in
    Ok (set_offset (set_bins st b2) (offset st - shift)).

(** [center_bins(new_min_key, new_max_key)]; C++ integer division
    truncates toward zero, which is [Z.quot]. *)
Definition center_bins (st : Store) (new_min_key new_max_key : Z) : result Store :=
  let middle_key := new_min_key + Z.quot (new_max_key - new_min_key + 1) 2 in
  shift_bins st (offset st + Z.quot (length st) 2 - middle_key).

(** ** [adjust] *)

(** [BaseDenseStore::adjust] *)
Definition dense_adjust (st : Store) (new_min_key new_max_key : Z) : result Store :=
  let* st1 := center_bins st new_min_key new_max_key in
  Ok (set_keys st1 new_min_key new_max_key).

(** [CollapsingLowestDenseStore::adjust] *)
Definition lowest_adjust (st : Store) (new_min_key new_max_key : Z) : result Store :=
  if length st <? new_max_key - new_min_key + 1 then
    let new_min_key := new_max_key - length st + 1 in
    let* st1 :=
      if max_key st <=? new_min_key then
        (* Put everything in the first bin *)
        let* b0 := initialize_with_zeros (length st) in
        let* b1 := set_at 0 (count st) b0 in
        Ok (set_bins (set_min_key (set_offset st new_min_key) new_min_key) b1)
      else
        let shift := offset st - new_min_key in
        if shift <? 0 then
          let collapse_start_index := min_key st - offset st in
          let collapse_end_index := new_min_key - offset st in
          let* collapsed := collapsed_count collapse_start_index collapse_end_index (bins st) in
          let* b1 := replace_range_with_zeros collapse_start_index collapse_end_index
                       (new_min_key - min_key st) (bins st) in
          let* b2 := add_at collapse_end_index collapsed b1 in
          shift_bins (set_min_key (set_bins st b2) new_min_key) shift
        else
          shift_bins (set_min_key st new_min_key) shift in
    Ok (set_collapsed (set_max_key st1 new_max_key) true)
  else
    let* st1 := center_bins st new_min_key new_max_key in
    Ok (set_keys st1 new_min_key new_max_key).

(** [CollapsingHighestDenseStore::adjust] *)
Definition highest_adjust (st : Store) (new_min_key new_max_key : Z) : result Store :=
  if length st <? new_max_key - new_min_key + 1 then
    let new_max_key := new_min_key + length st - 1 in
    let* st1 :=
      if new_max_key <=? min_key st then
        (* Put everything in the last bin *)
        let* b0 := initialize_with_zeros (length st) in
        let* b1 := set_at (size b0 - 1) (count st) b0 in
        Ok (set_bins (set_max_key (set_offset st new_min_key) new_max_key) b1)
      else
        let shift := offset st - new_min_key in
        if 0 <? shift then
          let collapse_start_index := new_max_key - offset st + 1 in
          let collapse_end_index := max_key st - offset st + 1 in
          let* collapsed := collapsed_count collapse_start_index collapse_end_index (bins st) in
          let* b1 := replace_range_with_zeros collapse_start_index collapse_end_index
                       (max_key st - new_max_key) (bins st) in
          let* b2 := add_at (collapse_start_index - 1) collapsed b1 in
          shift_bins (set_max_key (set_bins st b2) new_max_key) shift
        else
          shift_bins (set_max_key st new_max_key) shift in
    Ok (set_collapsed (set_min_key st1 new_min_key) true)
  else
    let* st1 := center_bins st new_min_key new_max_key in
    Ok (set_keys st1 new_min_key new_max_key).

Definition adjust (st : Store) : Z -> Z -> result Store :=
  match kind st with
  | Dense => dense_adjust st
  | CollapsingLowest _ => lowest_adjust st
  | CollapsingHighest _ => highest_adjust st
  end.

(** ** [extend_range] ([BaseDenseStore], calls the virtual methods) *)

Definition extend_range (st : Store) (key second_key : Z) : result Store :=
  let new_min_key := Z.min key (Z.min second_key (min_key st)) in
  let new_max_key := Z.max key (Z.max second_key (max_key st)) in
  if is_empty st then
    (* Initialize bins *)
    let new_length := get_new_length st new_min_key new_max_key in
    let* b := initialize_with_zeros new_length in
    adjust (set_offset (set_bins st b) new_min_key) new_min_key new_max_key
  else if (min_key st <=? new_min_key) && (new_max_key <? offset st + length st) then
    (* No need to change the range; just update min/max keys *)
    Ok (set_keys st new_min_key new_max_key)
  else
    (* Grow the bins *)
    let new_length := get_new_length st new_min_key new_max_key in
    let* st1 :=
      if length st <? new_length then
        let* b := extend_back_with_zeros (new_length - length st) (bins st) in
        Ok (set_bins st b)
      else Ok st in
    adjust st1 new_min_key new_max_key.

(** ** [get_index] *)

(** [BaseDenseStore::get_index] *)
Definition dense_get_index (st : Store) (key : Z) : result (Store * Z) :=
  if (key <? min_key st) || (max_key st <? key) then
    let* st1 := extend_range st key key in
    Ok (st1, key - offset st1)
  else Ok (st, key - offset st).

(** [CollapsingLowestDenseStore::get_index] *)
Definition lowest_get_index (st : Store) (key : Z) : result (Store * Z) :=
  if key <? min_key st then
    if is_collapsed st then Ok (st, 0)
    else
      let* st1 := extend_range st key key in
      if is_collapsed st1 then Ok (st1, 0) else Ok (st1, key - offset st1)
  else if max_key st <? key then
    let* st1 := extend_range st key key in
    Ok (st1, key - offset st1)
  else Ok (st, key - offset st).

(** [CollapsingHighestDenseStore::get_index] *)
Definition highest_get_index (st : Store) (key : Z) : result (Store * Z) :=
  if max_key st <? key then
    if is_collapsed st then Ok (st, length st - 1)
    else
      let* st1 := extend_range st key key in
      if is_collapsed st1 then Ok (st1, length st1 - 1) else Ok (st1, key - offset st1)
  else if key <? min_key st then
    let* st1 := extend_range st key key in
    Ok (st1, key - offset st1)
  else Ok (st, key - offset st).

Definition get_index (st : Store) : Z -> result (Store * Z) :=
  match kind st with
  | Dense => dense_get_index st
  | CollapsingLowest _ => lowest_get_index st
  | CollapsingHighest _ => highest_get_index st
  end.

(** ** [add] *)

(** [add(key, weight)]: [bins_[get_index(key)] += weight; count_ += weight]. *)
Definition add (st : Store) (key : Z) (weight : Qc) : result Store :=
  let* (st1, idx) := get_index st key in
  let* b := add_at idx weight (bins st1) in
  Ok (set_count (set_bins st1 b) (count st1 + weight)%Qc).

(** ** [key_at_rank] *)

(** The loop's test [(lower && running_ct > rank) ||
    (!lower && running_ct >= rank + 1)]. *)
Definition rank_reached (rank : Qc) (lower : bool) (running_ct : Qc) : bool :=
  (lower && bool_decide (rank < running_ct)%Qc)
  || (negb lower && bool_decide (rank + 1 <= running_ct)%Qc).

Fixpoint key_at_rank_loop (l : BinList) (rank : Qc) (lower : bool) (running_ct : Qc)
    (idx : Z) : option Z :=
  match l with
  | [] => None
  | bin_ct :: l' =>
      let running_ct := (running_ct + bin_ct)%Qc in
      if rank_reached rank lower running_ct then Some idx
      else key_at_rank_loop l' rank lower running_ct (idx + 1)
  end.

(** [key_at_rank(rank, lower)] *)
Definition key_at_rank (st : Store) (rank : Qc) (lower : bool) : Z :=
  match key_at_rank_loop (bins st) rank lower 0%Qc 0 with
  | Some idx => idx + offset st
  | None => max_key st
  end.

(** ** [copy] *)

(** [BaseDenseStore::copy]: every field but [chunk_size_]. *)
Definition dense_copy (st other : Store) : Store :=
  mkStore (kind st) (count other) (min_key other) (max_key other) (chunk_size st)
    (offset other) (bins other) (is_collapsed st).

(** [CollapsingLowestDenseStore::copy]: also [bin_limit_] and [is_collapsed_]. *)
Definition lowest_copy (st other : Store) : Store :=
  mkStore (CollapsingLowest (bin_limit other)) (count other) (min_key other) (max_key other)
    (chunk_size st) (offset other) (bins other) (is_collapsed other).

(** [CollapsingHighestDenseStore::copy] *)
Definition highest_copy (st other : Store) : Store :=
  mkStore (CollapsingHighest (bin_limit other)) (count other) (min_key other) (max_key other)
    (chunk_size st) (offset other) (bins other) (is_collapsed other).

Definition copy (st : Store) : Store -> Store :=
  match kind st with
  | Dense => dense_copy st
  | CollapsingLowest _ => lowest_copy st
  | CollapsingHighest _ => highest_copy st
  end.

(** ** [merge] *)

(** The loop [for (key = first; n iterations; ++key)
    dst[key - dst_offset] += src[key - src_offset]]. *)
Fixpoint add_bins_from (src : BinList) (src_offset dst_offset : Z) (n : nat) (key : Z)
    (dst : BinList) : result BinList :=
  match n with
  | O => Ok dst
  | S n' =>
      let* x := get (key - src_offset) src in
      let* dst' := add_at (key - dst_offset) x dst in
      add_bins_from src src_offset dst_offset n' (key + 1) dst'
  end.

(** [store.min_key_ < min_key_ || store.max_key_ > max_key_] then
    [extend_range(store.min_key_, store.max_key_)]. *)
Definition merge_extend (st other : Store) : result Store :=
  if (min_key other <? min_key st) || (max_key st <? max_key other)
  then extend_range st (min_key other) (max_key other)
  else Ok st.

(** [BaseDenseStore::merge] *)
Definition dense_merge (st other : Store) : result Store :=
  if bool_decide (count other = 0%Qc) then Ok st
  else if bool_decide (count st = 0%Qc) then Ok (dense_copy st other)
  else
    let* st1 := merge_extend st other in
    let* b := add_bins_from (bins other) (offset other) (offset st1)
                (Z.to_nat (max_key other - min_key other + 1)) (min_key other) (bins st1) in
    Ok (set_count (set_bins st1 b) (count st1 + count other)%Qc).

(** [CollapsingLowestDenseStore::merge].  The C++ code sums the range
    [[collapse_start_idx, collapse_end_idx)] of its own [bins_], although
    the indices are relative to [store.offset_]; the model keeps this. *)
Definition lowest_merge (st other : Store) : result Store :=
  if bool_decide (count other = 0%Qc) then Ok st
  else if bool_decide (count st = 0%Qc) then Ok (lowest_copy st other)
  else
    let* st1 := merge_extend st other in
    let collapse_start_idx := min_key other - offset other in
    let collapse_end_idx := Z.min (min_key st1) (max_key other + 1) - offset other in
    let* (b1, collapse_end_idx) :=
      if collapse_start_idx <? collapse_end_idx then
        let* collapsed := collapsed_count collapse_start_idx collapse_end_idx (bins st1) in
        let* b := add_first collapsed (bins st1) in
        Ok (b, collapse_end_idx)
      else Ok (bins st1, collapse_start_idx) in
    let first_key := collapse_end_idx + offset other in
    let* b2 := add_bins_from (bins other) (offset other) (offset st1)
                 (Z.to_nat (max_key other - first_key + 1)) first_key b1 in
    Ok (set_count (set_bins st1 b2) (count st1 + count other)%Qc).

(** [CollapsingHighestDenseStore::merge], with the same reading of its own
    [bins_] in the collapsed range. *)
Definition highest_merge (st other : Store) : result Store :=
  if bool_decide (count other = 0%Qc) then Ok st
  else if bool_decide (count st = 0%Qc) then Ok (highest_copy st other)
  else
    let* st1 := merge_extend st other in
    let collapse_end_idx := max_key other - offset other + 1 in
    let collapse_start_idx := Z.max (max_key st1 + 1) (min_key other) - offset other in
    let* (b1, collapse_start_idx) :=
      if collapse_start_idx <? collapse_end_idx then
        let* collapsed := collapsed_count collapse_start_idx collapse_end_idx (bins st1) in
        let* b := add_last collapsed (bins st1) in
        Ok (b, collapse_start_idx)
      else Ok (bins st1, collapse_end_idx) in
    let* b2 := add_bins_from (bins other) (offset other) (offset st1)
                 (Z.to_nat (collapse_start_idx + offset other - min_key other))
                 (min_key other) b1 in
    Ok (set_count (set_bins st1 b2) (count st1 + count other)%Qc).

Definition merge (st : Store) : Store -> result Store :=
  match kind st with
  | Dense => dense_merge st
  | CollapsingLowest _ => lowest_merge st
  | CollapsingHighest _ => highest_merge st
  end.

(** Replaying a sequence of [add(key, weight)] calls, stopping at the
    first exception. *)
Fixpoint add_all (st : Store) (kws : list (Z * Qc)) : result Store :=
  match kws with
  | [] => Ok st
  | (k, w) :: kws' => let* st1 := add st k w in add_all st1 kws'
  end.
