(* ===== verification/StoreFacts.v ===== *)
(** * The store invariant and the lemmas the store theorems share

    [content st k] is the counter the store holds for key [k] (the bin at
    index [k - offset]), the abstract view of a store as a map from keys
    to counters.  [wf] is the invariant every store operation preserves:
    positive chunk size, the sum of the bins equal to [count], the empty
    store in its constructed state, the active keys inside the window
    [offset, offset + length)], no counter outside [min_key, max_key]],
    and for the collapsing stores a window no longer than [bin_limit]
    that, once collapsed, starts at [min_key] and is [bin_limit] long.

    The lemmas describe [shift_bins], [center_bins], the centring branch
    of every [adjust], and [add_at] on the bins, through [content]. *)

From S2P Require Import Prelude BinList Store.

Local Open Scope Z_scope.
Local Open Scope ddsketch_scope.

Definition content (st : Store) (k : Z) : Qc := bin_at (bins st) (k - offset st).

Definition kind_wf (st : Store) : Prop :=
  match kind st with
  | Dense => is_collapsed st = false
  | CollapsingLowest L | CollapsingHighest L =>
      0 < L /\ length st <= L /\
      (is_collapsed st = true ->
         offset st = min_key st /\ max_key st = offset st + length st - 1 /\ length st = L)
  end.

Record wf (st : Store) : Prop := {
  wf_chunk : 0 < chunk_size st;
  wf_sum : accumulate (bins st) = count st;
  wf_empty : bins st = [] ->
             min_key st = INT64_MAX /\ max_key st = INT64_MIN /\ is_collapsed st = false;
  wf_window : bins st <> [] ->
              offset st <= min_key st <= max_key st /\ max_key st < offset st + length st;
  wf_support : forall k, content st k <> 0%Qc -> min_key st <= k <= max_key st;
  wf_kind : kind_wf st
}.

(** What a range extension that does not collapse guarantees. *)
Record extended (st st' : Store) (nmin nmax : Z) : Prop := {
  ext_kind : kind st' = kind st;
  ext_count : count st' = count st;
  ext_chunk : chunk_size st' = chunk_size st;
  ext_collapsed : is_collapsed st' = is_collapsed st;
  ext_min : min_key st' = nmin;
  ext_max : max_key st' = nmax;
  ext_window : offset st' <= nmin /\ nmax < offset st' + length st';
  ext_len : length st <= length st' <= Z.max (length st) (get_new_length st nmin nmax);
  ext_content : forall k, content st' k = content st k;
  ext_sum : accumulate (bins st') = accumulate (bins st)
}.

(** ** A decision procedure for [wf]

    [wfb] checks the invariant on a concrete store; [wfb_sound] lets a
    proof about a concrete store discharge [wf] by computation. *)

(** Every non-zero counter at positions [pos, pos + 1, ...] lies in
    [[lo, hi]]. *)
Fixpoint support_ok (l : BinList) (pos lo hi : Z) : bool :=
  match l with
  | [] => true
  | x :: l' =>
      (bool_decide (x = 0%Qc) || ((lo <=? pos) && (pos <=? hi))) && support_ok l' (pos + 1) lo hi
  end.

#[export] Instance StoreKind_eq_dec : EqDecision StoreKind.
Proof. solve_decision. Defined.

Definition kind_wfb (st : Store) : bool :=
  match kind st with
  | Dense => negb (is_collapsed st)
  | CollapsingLowest L | CollapsingHighest L =>
      (0 <? L) && (length st <=? L) &&
      (negb (is_collapsed st) ||
       ((offset st =? min_key st) && (max_key st =? offset st + length st - 1) &&
        (length st =? L)))
  end.

Definition wfb (st : Store) : bool :=
  (0 <? chunk_size st) && bool_decide (accumulate (bins st) = count st) &&
  match bins st with
  | [] => (min_key st =? INT64_MAX) && (max_key st =? INT64_MIN) && negb (is_collapsed st)
  | _ :: _ =>
      (offset st <=? min_key st) && (min_key st <=? max_key st) &&
      (max_key st <? offset st + length st) &&
      support_ok (bins st) (offset st) (min_key st) (max_key st)
  end && kind_wfb st.

(** ** Field projections of the updates *)

Lemma set_bins_proj st b :
  kind (set_bins st b) = kind st /\ count (set_bins st b) = count st /\
  min_key (set_bins st b) = min_key st /\ max_key (set_bins st b) = max_key st /\
  chunk_size (set_bins st b) = chunk_size st /\ offset (set_bins st b) = offset st /\
  bins (set_bins st b) = b /\ is_collapsed (set_bins st b) = is_collapsed st.
Proof. repeat split. Qed.

(** Unfold every field update under a projection. *)
Ltac simpl_store :=
  cbn [set_count set_min_key set_max_key set_offset set_bins set_collapsed set_keys
       kind count min_key max_key chunk_size offset bins is_collapsed] in *.

Lemma content_empty st k : bins st = [] -> content st k = 0%Qc.
Proof. intros Hb. unfold content. rewrite Hb. apply bin_at_nil. Qed.

Lemma content_outside st k :
  k < offset st \/ offset st + length st <= k -> content st k = 0%Qc.
Proof.
  unfold content, length. intros [H|H]; [apply bin_at_neg | apply bin_at_ge]; lia.
Qed.

Lemma length_nonneg st : 0 <= length st.
Proof. apply size_nonneg. Qed.

Lemma length_pos st : bins st <> [] -> 0 < length st.
Proof. unfold length, size. destruct (bins st); simpl; [done | lia]. Qed.

Lemma length_zero st : length st = 0 -> bins st = [].
Proof. unfold length, size. destruct (bins st); simpl; [done | lia]. Qed.

(** ** [shift_bins] *)

(** A shift by at most the length keeps the length, moves the window by
    [-shift], and keeps every counter whose key stays in the window. *)
Lemma shift_bins_spec st shift :
  - length st <= shift <= length st ->
  exists st', shift_bins st shift = Ok st' /\
    st' = set_offset (set_bins st (bins st')) (offset st - shift) /\
    length st' = length st /\
    (forall k, content st' k =
      if decide (offset st - shift <= k < offset st - shift + length st)
      then content st k else 0%Qc) /\
    ((forall k, ~ (offset st - shift <= k < offset st - shift + length st) ->
        content st k = 0%Qc) ->
     accumulate (bins st') = accumulate (bins st)).
Proof.
  unfold shift_bins, remove_trailing_elements, extend_front_with_zeros,
    remove_leading_elements, extend_back_with_zeros, content, length.
  intros Hs. pose proof (size_nonneg (bins st)).
  destruct (Z.ltb_spec 0 shift); zbool; cbn; zbool; cbn.
  - eexists; split; [reflexivity|]. split; [reflexivity|]. simpl_store. split.
    + rewrite size_app, size_replicate, size_take. lia.
    + split.
      * intros k. rewrite bin_at_zeros_app, bin_at_take.
        repeat case_decide; try lia; bin_at_close.
      * intros Hz. rewrite accumulate_app, accumulate_replicate_0,
          <- (accumulate_take_drop (Z.to_nat (size (bins st) - shift)) (bins st)).
        rewrite (accumulate_zeros (drop _ _)); [ring|].
        intros i Hi. rewrite size_drop in Hi. rewrite bin_at_drop. case_decide; [|lia].
        rewrite <- (Hz (offset st + i + Z.of_nat (Z.to_nat (size (bins st) - shift)))) by lia.
        bin_at_close.
  - eexists; split; [reflexivity|]. split; [reflexivity|]. simpl_store. split.
    + rewrite size_app, size_replicate, size_drop. lia.
    + split.
      * intros k. rewrite bin_at_app_zeros, bin_at_drop.
        repeat case_decide; try lia; bin_at_close.
      * intros Hz. rewrite accumulate_app, accumulate_replicate_0,
          <- (accumulate_take_drop (Z.to_nat (Z.abs shift)) (bins st)).
        rewrite (accumulate_zeros (take _ _)); [ring|].
        intros i Hi. rewrite size_take in Hi. rewrite bin_at_take. case_decide; [|lia].
        rewrite <- (Hz (offset st + i)) by lia. bin_at_close.
Qed.

(** ** [center_bins] and the centring branch of [adjust] *)

(** The centred window holds [[new_min_key, new_max_key]] when the range
    fits in the bins and meets the current window; the shift is then at
    most the length. *)
Lemma center_bins_window st nmin nmax :
  nmin <= nmax -> nmax - nmin + 1 <= length st ->
  offset st <= nmax -> nmin < offset st + length st ->
  let shift := offset st + Z.quot (length st) 2 - (nmin + Z.quot (nmax - nmin + 1) 2) in
  - length st <= shift <= length st /\
  offset st - shift <= nmin /\ nmax < offset st - shift + length st.
Proof.
  intros H1 H2 H3 H4 shift. subst shift.
  rewrite !Z.quot_div_nonneg by lia.
  pose proof (Z.div_mod (length st) 2 ltac:(lia)).
  pose proof (Z.mod_pos_bound (length st) 2 ltac:(lia)).
  pose proof (Z.div_mod (nmax - nmin + 1) 2 ltac:(lia)).
  pose proof (Z.mod_pos_bound (nmax - nmin + 1) 2 ltac:(lia)).
  lia.
Qed.

(** Centring a store whose counters lie in [[new_min_key, new_max_key]]
    keeps every counter and the sum. *)
Lemma center_bins_spec st nmin nmax :
  nmin <= nmax -> nmax - nmin + 1 <= length st ->
  offset st <= nmax -> nmin < offset st + length st ->
  (forall k, content st k <> 0%Qc -> nmin <= k <= nmax) ->
  exists st', center_bins st nmin nmax = Ok st' /\
    st' = set_offset (set_bins st (bins st')) (offset st') /\
    length st' = length st /\ offset st' <= nmin /\ nmax < offset st' + length st /\
    (forall k, content st' k = content st k) /\
    accumulate (bins st') = accumulate (bins st).
Proof.
  intros H1 H2 H3 H4 Hsup. unfold center_bins.
  destruct (center_bins_window st nmin nmax H1 H2 H3 H4) as (Hs & Hlo & Hhi).
  destruct (shift_bins_spec st _ Hs) as (st' & Hsh & Heq & Hlen & Hc & Hacc).
  set (shift := offset st + _ - _) in *.
  assert (Hoff : offset st' = offset st - shift) by (rewrite Heq; reflexivity).
  rewrite <- Hoff in Heq, Hc, Hacc, Hlo, Hhi.
  assert (Hz : forall k, ~ (offset st' <= k < offset st' + length st) -> content st k = 0%Qc).
  { intros k Hk. destruct (decide (content st k = 0%Qc)) as [|Hne]; [done|].
    specialize (Hsup k Hne). lia. }
  exists st'. repeat split; auto.
  intros k. rewrite Hc. case_decide; [done|]. symmetry. by apply Hz.
Qed.

(** [adjust] takes its centring branch, the whole of [BaseDenseStore::adjust],
    whenever the requested range fits in the bins. *)
Lemma adjust_fits st nmin nmax :
  nmax - nmin + 1 <= length st -> adjust st nmin nmax = dense_adjust st nmin nmax.
Proof.
  intros H. unfold adjust, lowest_adjust, highest_adjust.
  destruct (kind st); [done | |]; zbool; reflexivity.
Qed.

Lemma dense_adjust_spec st nmin nmax :
  nmin <= nmax -> nmax - nmin + 1 <= length st ->
  offset st <= nmax -> nmin < offset st + length st ->
  (forall k, content st k <> 0%Qc -> nmin <= k <= nmax) ->
  exists st', dense_adjust st nmin nmax = Ok st' /\
    kind st' = kind st /\ count st' = count st /\ chunk_size st' = chunk_size st /\
    is_collapsed st' = is_collapsed st /\ min_key st' = nmin /\ max_key st' = nmax /\
    length st' = length st /\ offset st' <= nmin /\ nmax < offset st' + length st /\
    (forall k, content st' k = content st k) /\ accumulate (bins st') = accumulate (bins st).
Proof.
  intros H1 H2 H3 H4 Hsup.
  destruct (center_bins_spec st nmin nmax H1 H2 H3 H4 Hsup)
    as (st1 & Hc & Heq & Hlen & Hlo & Hhi & Hcont & Hacc).
  unfold dense_adjust. rewrite Hc. cbn [res_bind].
  eexists; split; [reflexivity|].
  rewrite Heq. unfold content, length in *. rewrite Heq in Hcont, Hlen, Hacc, Hlo, Hhi.
  simpl_store. repeat split; auto.
Qed.

(** [extend_range] when the new range fits in the grown bins: the keys
    become the hull, every counter stays, the window holds the hull. *)
Lemma extend_range_fits st k1 k2 :
  wf st ->
  let nmin := Z.min k1 (Z.min k2 (min_key st)) in
  let nmax := Z.max k1 (Z.max k2 (max_key st)) in
  nmax - nmin + 1 <= Z.max (length st) (get_new_length st nmin nmax) ->
  exists st', extend_range st k1 k2 = Ok st' /\ extended st st' nmin nmax.
Proof.
  intros Hwf nmin nmax Hfit. pose proof (length_nonneg st).
  assert (Hmm : nmin <= nmax) by (unfold nmin, nmax; lia).
  unfold extend_range. fold nmin nmax.
  destruct (is_empty st) eqn:He.
  - (* Initialize bins *)
    unfold is_empty, kEmptyStoreLength in He. apply Z.eqb_eq in He.
    assert (Hb : bins st = []) by (by apply length_zero).
    assert (Hl0 : length st = 0) by (unfold length; rewrite Hb; reflexivity).
    set (nl := get_new_length st nmin nmax) in *.
    unfold initialize_with_zeros. zbool. cbn [res_bind].
    remember (set_offset (set_bins st (replicate (Z.to_nat nl) 0%Qc)) nmin) as st0 eqn:Hst0.
    assert (Hl : length st0 = nl)
      by (subst st0; unfold length; simpl_store; rewrite size_replicate; lia).
    assert (Hc0 : forall k, content st0 k = 0%Qc)
      by (intros; subst st0; unfold content; simpl_store; apply bin_at_replicate_0).
    assert (Ho0 : offset st0 = nmin) by (subst st0; reflexivity).
    rewrite adjust_fits by lia.
    destruct (dense_adjust_spec st0 nmin nmax) as (st' & Hadj & Hk & Hcnt & Hch & Hcol & Hmin
      & Hmax & Hlen & Hlo & Hhi & Hcont & Hacc); try lia.
    { intros k Hk. by rewrite Hc0 in Hk. }
    exists st'. rewrite Hadj. split; [done|].
    constructor; try (rewrite Hst0 in *; simpl_store; done); try lia.
    + intros k. rewrite Hcont, Hc0. symmetry. apply content_empty. exact Hb.
    + rewrite Hacc, Hb, Hst0. simpl_store. apply accumulate_replicate_0.
  - assert (Hne : bins st <> []).
    { intros Hb. unfold is_empty, length in He. rewrite Hb in He. discriminate. }
    destruct (wf_window _ Hwf Hne) as [Hw1 Hw2].
    pose proof (wf_support _ Hwf) as Hsup.
    destruct ((min_key st <=? nmin) && (nmax <? offset st + length st)) eqn:Hin.
    + (* No need to change the range *)
      apply andb_true_iff in Hin as [Hin1 Hin2]. apply Z.leb_le in Hin1. apply Z.ltb_lt in Hin2.
      eexists; split; [reflexivity|]. constructor; unfold content, length in *; simpl_store; auto; try lia.
    + (* Grow the bins *)
      set (nl := get_new_length st nmin nmax) in *.
      assert (Hgrow : exists st1, (if length st <? nl then
          let* b := extend_back_with_zeros (nl - length st) (bins st) in Ok (set_bins st b)
          else Ok st) = Ok st1 /\ st1 = set_bins st (bins st1) /\
          length st1 = Z.max (length st) nl /\ (forall k, content st1 k = content st k) /\
          accumulate (bins st1) = accumulate (bins st)).
      { destruct (Z.ltb_spec (length st) nl).
        - unfold extend_back_with_zeros. zbool. cbn [res_bind].
          eexists; split; [reflexivity|]. unfold content, length. simpl_store.
          rewrite size_app, size_replicate, accumulate_app, accumulate_replicate_0.
          split; [reflexivity|]. split; [lia|].
          split; [intros k; apply bin_at_app_zeros | ring].
        - exists st. split; [reflexivity|]. split; [by destruct st|]. split; [lia|]. done. }
      destruct Hgrow as (st1 & Hg & Heq1 & Hl1 & Hc1 & Ha1). rewrite Hg. cbn [res_bind].
      assert (Hk1 : forall A (f : Store -> A), f st1 = f (set_bins st (bins st1)))
        by (intros; by rewrite <- Heq1).
      rewrite adjust_fits by lia.
      destruct (dense_adjust_spec st1 nmin nmax) as (st' & Hadj & Hk & Hcnt & Hch & Hcol & Hmin
        & Hmax & Hlen & Hlo & Hhi & Hcont & Hacc); try lia.
      { rewrite (Hk1 _ offset). simpl_store. lia. }
      { rewrite (Hk1 _ offset). simpl_store. lia. }
      { intros k Hk. rewrite Hc1 in Hk. apply Hsup in Hk. lia. }
      exists st'. split; [done|].
      rewrite (Hk1 _ kind), (Hk1 _ count), (Hk1 _ chunk_size), (Hk1 _ is_collapsed) in *.
      simpl_store. constructor; auto; try lia.
      * intros k. by rewrite Hcont, Hc1.
      * by rewrite Hacc, Ha1.
Qed.

(** A non-collapsing extension of a well-formed store to the hull of its
    keys is well formed when the dynamic type's condition holds. *)
Lemma extended_wf st st' nmin nmax :
  wf st -> extended st st' nmin nmax -> nmin <= nmax ->
  nmin <= min_key st -> max_key st <= nmax -> kind_wf st' -> wf st'.
Proof.
  intros Hwf Hext Hmm Hlo Hhi Hk. destruct Hext.
  assert (Hne : bins st' <> []).
  { intros Hb. assert (length st' = 0) by (unfold length; rewrite Hb; reflexivity). lia. }
  constructor; auto.
  - rewrite ext_chunk0. apply (wf_chunk _ Hwf).
  - rewrite ext_sum0, ext_count0. apply (wf_sum _ Hwf).
  - done.
  - intros _. lia.
  - intros k Hc. rewrite ext_content0 in Hc. apply (wf_support _ Hwf) in Hc. lia.
Qed.

(** [bins_[idx] += w] on an index inside the bins. *)
Lemma add_at_store st idx w :
  0 <= idx < length st ->
  exists b, add_at idx w (bins st) = Ok b /\ size b = size (bins st) /\
    accumulate b = (accumulate (bins st) + w)%Qc /\
    forall k, content (set_bins st b) k =
      if decide (k = idx + offset st) then (content st k + w)%Qc else content st k.
Proof.
  intros Hi. unfold add_at, length in *. zbool.
  eexists; split; [reflexivity|]. split; [apply size_alter|].
  split; [apply accumulate_alter_add; unfold size in Hi; lia|].
  intros k. unfold content. simpl_store. rewrite bin_at_alter_add.
  unfold size in Hi. repeat case_decide; try done; lia.
Qed.

(** ** The merge loop and sums over key ranges *)

Lemma get_in_range l i : 0 <= i < size l -> get i l = Ok (bin_at l i).
Proof.
  intros Hi. unfold get, bin_at, size in *. zbool. case_decide; [|lia].
  destruct (l !! Z.to_nat i) eqn:E; [done|].
  apply lookup_ge_None_1 in E. lia.
Qed.

(** [for key in [first, first + n)] bins_[key - offset_] +=
    src[key - src_offset]] with every index in range. *)
Lemma add_bins_from_spec st src so (n : nat) key :
  (0 < n)%nat -> so <= key -> key + Z.of_nat n <= so + size src ->
  offset st <= key -> key + Z.of_nat n <= offset st + length st ->
  exists b, add_bins_from src so (offset st) n key (bins st) = Ok b /\
    size b = size (bins st) /\
    accumulate b = (accumulate (bins st) + range_sum src so n key)%Qc /\
    forall j, content (set_bins st b) j =
      if decide (key <= j < key + Z.of_nat n) then (content st j + bin_at src (j - so))%Qc
      else content st j.
Proof.
  revert st key. induction n as [|n IH]; intros st key Hn H1 H2 H3 H4; [lia|].
  cbn [add_bins_from]. rewrite get_in_range by lia. cbn [res_bind].
  destruct (add_at_store st (key - offset st) (bin_at src (key - so)))
    as (b1 & Hb1 & Hs1 & Ha1 & Hc1); [lia|].
  rewrite Hb1. cbn [res_bind].
  destruct n as [|n].
  - cbn [add_bins_from]. eexists; split; [reflexivity|]. split; [done|].
    split; [rewrite Ha1; cbn [range_sum]; ring|].
    intros j. rewrite Hc1. repeat case_decide; try done; try lia.
    replace j with key by lia. done.
  - set (st1 := set_bins st b1).
    assert (Ho : offset st1 = offset st) by reflexivity.
    assert (Hl : length st1 = length st) by (unfold length; simpl; done).
    destruct (IH st1 (key + 1)) as (b & Hb & Hs & Ha & Hc); try lia.
    rewrite Ho in Hb. unfold st1 in Hb. cbn [set_bins bins] in Hb.
    rewrite Hb. eexists; split; [reflexivity|].
    split; [rewrite Hs; exact Hs1|].
    split; [rewrite Ha; simpl; rewrite Ha1; cbn [range_sum]; ring|].
    intros j. specialize (Hc j).
    replace (content (set_bins st b) j) with (content (set_bins st1 b) j) by reflexivity.
    rewrite Hc. unfold st1. rewrite Hc1. repeat case_decide; try lia; try done.
    replace j with key by lia. done.
Qed.

(** The bins of a non-empty well-formed store sum to the counters of the
    keys [min_key .. max_key]. *)
Lemma store_sum_range st :
  wf st -> bins st <> [] ->
  accumulate (bins st) =
    range_sum (bins st) (offset st) (Z.to_nat (max_key st - min_key st + 1)) (min_key st).
Proof.
  intros Hwf Hne. destruct (wf_window _ Hwf Hne) as [Hw1 Hw2].
  rewrite (accumulate_window (bins st) (min_key st - offset st)
             (Z.to_nat (max_key st - min_key st + 1))).
  - by rewrite (range_sum_rebase _ (offset st)).
  - lia.
  - unfold length in Hw2. lia.
  - intros i Hi Hout. pose proof (wf_support _ Hwf (i + offset st)) as Hs.
    unfold content in Hs. replace (i + offset st - offset st) with i in Hs by lia.
    destruct (decide (bin_at (bins st) i = 0%Qc)) as [|Hnz]; [done|].
    specialize (Hs Hnz). lia.
Qed.

(** ** Soundness of [wfb] *)

Lemma support_ok_spec l pos lo hi :
  support_ok l pos lo hi = true ->
  forall i, bin_at l i <> 0%Qc -> lo <= i + pos <= hi.
Proof.
  revert pos. induction l as [|x l IH]; intros pos H i Hi.
  - by rewrite bin_at_nil in Hi.
  - cbn [support_ok] in H. apply andb_true_iff in H as [Hx Hl].
    destruct (decide (i = 0)) as [->|Hne].
    + rewrite bin_at_cons_0 in Hi. apply orb_true_iff in Hx as [Hx|Hx].
      * by apply bool_decide_eq_true in Hx.
      * apply andb_true_iff in Hx as [H1 H2]. apply Z.leb_le in H1, H2. lia.
    + destruct (decide (0 <= i)).
      * replace i with ((i - 1) + 1) in Hi by lia. rewrite bin_at_cons_succ in Hi by lia.
        specialize (IH (pos + 1) Hl (i - 1) Hi). lia.
      * by rewrite bin_at_neg in Hi by lia.
Qed.

Lemma wfb_sound st : wfb st = true -> wf st.
Proof.
  unfold wfb. intros H.
  apply andb_true_iff in H as [H Hk]. apply andb_true_iff in H as [H Hb].
  apply andb_true_iff in H as [Hc Hs].
  apply Z.ltb_lt in Hc. apply bool_decide_eq_true in Hs.
  assert (Hkw : kind_wf st).
  { unfold kind_wfb, kind_wf in *. destruct (kind st); [by apply negb_true_iff|..];
      repeat (apply andb_true_iff in Hk as [Hk ?]); apply Z.ltb_lt in Hk;
      match goal with H : (_ <=? _) = true |- _ => apply Z.leb_le in H end;
      (split; [lia | split; [lia|]]); intros Hcol;
      match goal with H : _ || _ = true |- _ => rewrite Hcol in H; cbn in H end;
      repeat (apply andb_true_iff in H as [H ?]); repeat match goal with
      | H : (_ =? _) = true |- _ => apply Z.eqb_eq in H end; lia. }
  destruct (bins st) as [|x l] eqn:Hbins.
  - repeat (apply andb_true_iff in Hb as [Hb ?]).
    constructor; auto; try (rewrite Hbins; exact Hs).
    + intros _. repeat match goal with H : (_ =? _) = true |- _ => apply Z.eqb_eq in H end.
      split; [done|]. split; [done|]. by apply negb_true_iff.
    + intros H'. by exfalso.
    + intros k Hk'. exfalso. apply Hk'. by apply content_empty.
  - rewrite <- Hbins in Hb. repeat (apply andb_true_iff in Hb as [Hb ?]).
    repeat match goal with
    | H : (_ <=? _) = true |- _ => apply Z.leb_le in H
    | H : (_ <? _) = true |- _ => apply Z.ltb_lt in H end.
    constructor; auto; try (rewrite Hbins; exact Hs).
    + intros Hnil. by rewrite Hbins in Hnil.
    + intros k Hk'. unfold content in Hk'.
      match goal with H : support_ok _ _ _ _ = true |- _ => pose proof (support_ok_spec _ _ _ _ H _ Hk') end.
      lia.
Qed.

(** ** Construction *)

(** A store with no bins and a positive chunk size is well formed as
    soon as its kind's parameters are. *)
Lemma empty_store_wf k chunk :
  0 < chunk -> kind_wf (mkStore k 0%Qc INT64_MAX INT64_MIN chunk 0 [] false) ->
  wf (mkStore k 0%Qc INT64_MAX INT64_MIN chunk 0 [] false).
Proof.
  intros Hc Hk. constructor.
  - cbn. lia.
  - reflexivity.
  - intros _. cbn. repeat split.
  - intros H. exfalso. by apply H.
  - intros j Hj. exfalso. apply Hj. by apply content_empty.
  - exact Hk.
Qed.


