(* ===== verification/DenseStoreSpec.v ===== *)
(** * The dense store refines a counter map ([BaseDenseStore], lines 266-461)

    The abstract specification of a store is a map from keys to counters
    ([counter]): [add(key, w)] adds [w] to the counter of [key]
    ([counter_add]) and [merge(other)] adds the two maps pointwise.  The
    theorems of this file show that the dense store implements it: every
    operation of a well-formed dense store returns (never throws, never
    leaves a deque precondition), keeps [wf], and its [content] is the
    abstract map after the operation.  Sum preservation ([sum() == count])
    and the bracketing of the counters by [min_key]/[max_key] are part of
    [wf]; [key_at_rank] is shown to return the least key whose cumulative
    count passes the rank. *)

From S2P Require Import Prelude BinList Store StoreFacts.

Local Open Scope Z_scope.
Local Open Scope ddsketch_scope.

(** ** The abstract store *)

Definition counter := Z -> Qc.

Definition counter_add (c : counter) (k : Z) (w : Qc) : counter :=
  fun j => if decide (j = k) then (c j + w)%Qc else c j.

(** The counters of a sequence of [(key, weight)] insertions. *)
Fixpoint weight_of (kws : list (Z * Qc)) (j : Z) : Qc :=
  match kws with
  | [] => 0%Qc
  | (k, w) :: kws' => ((if decide (j = k) then w else 0%Qc) + weight_of kws' j)%Qc
  end.

Fixpoint total_weight (kws : list (Z * Qc)) : Qc :=
  match kws with
  | [] => 0%Qc
  | (_, w) :: kws' => (w + total_weight kws')%Qc
  end.

(** Counters are non-negative: the sketch only adds positive weights. *)
Definition nonneg (st : Store) : Prop := forall k, (0 <= content st k)%Qc.

(** Stores of the repository's tests: [DenseStoreTest::test_key_at_rank]
    adds the keys [4], [10] and [100]. *)
Definition store_of (r : result Store) (default : Store) : Store :=
  match r with Ok s => s | Throw _ => default end.

Definition example_store : Store :=
  store_of (add_all (BaseDenseStore_new kChunkSize) [(4, 1%Qc); (10, 1%Qc); (100, 1%Qc)])
    (BaseDenseStore_new kChunkSize).

Definition example_store2 : Store :=
  store_of (add_all (BaseDenseStore_new kChunkSize) [(4, Qc_of_Z 2); (200, 1%Qc)])
    (BaseDenseStore_new kChunkSize).

(** ** [get_new_length] and [get_index] of the dense store *)

Lemma dense_get_new_length_ge st nmin nmax :
  kind st = Dense -> 0 < chunk_size st -> nmax - nmin + 1 <= get_new_length st nmin nmax.
Proof.
  intros Hk Hc. unfold get_new_length, dense_get_new_length. rewrite Hk.
  pose proof (ceil_div_spec (nmax - nmin + 1) (chunk_size st) Hc). lia.
Qed.

Lemma dense_get_index_spec st key :
  wf st -> kind st = Dense ->
  exists st1, get_index st key = Ok (st1, key - offset st1) /\ wf st1 /\
    kind st1 = Dense /\ count st1 = count st /\
    min_key st1 = Z.min key (min_key st) /\ max_key st1 = Z.max key (max_key st) /\
    forall j, content st1 j = content st j.
Proof.
  intros Hwf Hk. unfold get_index. rewrite Hk. unfold dense_get_index.
  destruct ((key <? min_key st) || (max_key st <? key)) eqn:Hout.
  - destruct (extend_range_fits st key key Hwf) as (st1 & Hext & Hx).
    { pose proof (dense_get_new_length_ge st (Z.min key (Z.min key (min_key st)))
        (Z.max key (Z.max key (max_key st))) Hk (wf_chunk _ Hwf)). lia. }
    rewrite Hext. cbn [res_bind]. exists st1. split; [done|].
    pose proof Hx as [Hk1 Hc1 _ Hcol Hmin Hmax _ _ Hcont _].
    assert (Hkw : kind_wf st1).
    { unfold kind_wf. rewrite Hk1, Hk, Hcol. pose proof (wf_kind _ Hwf) as Hw.
      unfold kind_wf in Hw. by rewrite Hk in Hw. }
    split; [apply (extended_wf st st1 _ _ Hwf Hx); auto; lia|].
    repeat split; try congruence; try lia; auto.
  - apply orb_false_iff in Hout as [H1 H2]. apply Z.ltb_ge in H1, H2.
    exists st. split; [done|]. split; [exact Hwf|]. repeat split; try congruence; try lia.
Qed.

(** ** [add] *)

(** [DenseStore::add(key, weight)] returns, keeps the invariant, adds
    [weight] to the counter of [key] and to [count], and widens
    [[min_key, max_key]] to [key]. *)
Lemma dense_add_spec st key w :
  wf st -> kind st = Dense ->
  exists st', add st key w = Ok st' /\ wf st' /\ kind st' = Dense /\
    count st' = (count st + w)%Qc /\
    min_key st' = Z.min key (min_key st) /\ max_key st' = Z.max key (max_key st) /\
    forall j, content st' j = counter_add (content st) key w j.
Proof.
  intros Hwf Hk.
  destruct (dense_get_index_spec st key Hwf Hk)
    as (st1 & Hgi & Hwf1 & Hk1 & Hc1 & Hmin & Hmax & Hcont).
  assert (Hne : bins st1 <> []).
  { intros Hb. destruct (wf_empty _ Hwf1 Hb) as [Hm1 [Hm2 _]].
    unfold INT64_MAX, INT64_MIN in *. lia. }
  destruct (wf_window _ Hwf1 Hne) as [Hw1 Hw2].
  destruct (add_at_store st1 (key - offset st1) w) as (b & Hb & Hsz & Hacc & Hbc); [lia|].
  unfold add. rewrite Hgi. cbn [res_bind]. rewrite Hb. cbn [res_bind].
  eexists; split; [reflexivity|].
  assert (Hc : forall j, content (set_count (set_bins st1 b) (count st1 + w)%Qc) j
                         = counter_add (content st) key w j).
  { intros j. unfold counter_add. rewrite <- Hcont.
    replace (content (set_count (set_bins st1 b) (count st1 + w)%Qc) j)
      with (content (set_bins st1 b) j) by reflexivity.
    rewrite Hbc.
    repeat case_decide; try done; lia. }
  split; [|simpl_store; repeat split; auto; by rewrite Hc1].
  constructor; unfold length in *; simpl_store.
  - apply (wf_chunk _ Hwf1).
  - by rewrite Hacc, (wf_sum _ Hwf1).
  - intros Hnil. exfalso. unfold size in Hsz. rewrite Hnil in Hsz.
    apply Hne. destruct (bins st1); [done|]. simpl in Hsz. lia.
  - intros _. lia.
  - intros j Hj. rewrite Hc in Hj. unfold counter_add in Hj. rewrite <- Hcont in Hj.
    case_decide; [lia|]. apply (wf_support _ Hwf1) in Hj. done.
  - pose proof (wf_kind _ Hwf1) as Hkw. unfold kind_wf in *. simpl_store. rewrite Hk1 in *. exact Hkw.
Qed.

(** ** Sums over a sequence of insertions *)

Lemma weight_of_app l1 l2 j : weight_of (l1 ++ l2) j = (weight_of l1 j + weight_of l2 j)%Qc.
Proof. induction l1 as [|[k w] l1 IH]; cbn; [ring|]. rewrite IH. ring. Qed.

Lemma total_weight_app l1 l2 : total_weight (l1 ++ l2) = (total_weight l1 + total_weight l2)%Qc.
Proof. induction l1 as [|[k w] l1 IH]; cbn; [ring|]. rewrite IH. ring. Qed.

Lemma weight_of_rev l j : weight_of (rev l) j = weight_of l j.
Proof.
  induction l as [|[k w] l IH]; [done|]. cbn [rev]. rewrite weight_of_app, IH. cbn. ring.
Qed.

Lemma total_weight_rev l : total_weight (rev l) = total_weight l.
Proof.
  induction l as [|[k w] l IH]; [done|]. cbn [rev]. rewrite total_weight_app, IH. cbn. ring.
Qed.

(** ** Construction and replay of insertions *)

(** Replaying insertions on a well-formed dense store, by induction on
    the sequence. *)
Lemma dense_add_all_correct st kws :
  wf st -> kind st = Dense ->
  exists st', add_all st kws = Ok st' /\ wf st' /\ kind st' = Dense /\
    count st' = (count st + total_weight kws)%Qc /\
    forall j, content st' j = (content st j + weight_of kws j)%Qc.
Proof.
  revert st. induction kws as [|[k w] kws IH]; intros st Hwf Hk.
  - exists st. simpl. split; [done|]. split; [done|]. split; [done|].
    split; [ring | intros j; ring].
  - destruct (dense_add_spec st k w Hwf Hk) as (st1 & Ha & Hwf1 & Hk1 & Hc1 & _ & _ & Hcont1).
    destruct (IH st1 Hwf1 Hk1) as (st2 & Ha2 & Hwf2 & Hk2 & Hc2 & Hcont2).
    exists st2. simpl. rewrite Ha. cbn [res_bind]. split; [done|]. split; [done|].
    split; [done|]. split.
    + rewrite Hc2, Hc1. ring.
    + intros j. rewrite Hcont2, Hcont1. unfold counter_add. case_decide; ring.
Qed.



(** ** [merge] *)


Lemma nonneg_of_bins st : forallb (fun x => bool_decide (0 <= x)%Qc) (bins st) = true -> nonneg st.
Proof.
  intros H k. unfold content, bin_at. case_decide; [|done].
  destruct (bins st !! Z.to_nat (k - offset st)) as [x|] eqn:E; [|done]. cbn.
  apply forallb_forall with (x := x) in H; [by apply bool_decide_eq_true in H|].
  apply list_elem_of_In, list_elem_of_lookup. eauto.
Qed.

Lemma count_zero_content st :
  wf st -> nonneg st -> count st = 0%Qc -> forall k, content st k = 0%Qc.
Proof.
  intros Hwf Hn Hc k. unfold content. apply accumulate_nonneg_zero.
  - intros i. specialize (Hn (i + offset st)). unfold content in Hn.
    by replace (i + offset st - offset st) with i in Hn by lia.
  - by rewrite (wf_sum _ Hwf).
Qed.

Lemma count_nonzero_bins st : wf st -> count st <> 0%Qc -> bins st <> [].
Proof. intros Hwf Hc Hb. apply Hc. rewrite <- (wf_sum _ Hwf), Hb. done. Qed.

Lemma dense_copy_content st other k : content (dense_copy st other) k = content other k.
Proof. reflexivity. Qed.

(** The extension step of [merge] on a dense store. *)
Lemma dense_merge_extend_spec a b :
  wf a -> wf b -> kind a = Dense -> bins a <> [] -> bins b <> [] ->
  exists st1, merge_extend a b = Ok st1 /\ wf st1 /\ kind st1 = Dense /\
    count st1 = count a /\ (forall j, content st1 j = content a j) /\
    min_key st1 = Z.min (min_key b) (min_key a) /\ max_key st1 = Z.max (max_key b) (max_key a) /\
    offset st1 <= min_key b /\ max_key b < offset st1 + length st1.
Proof.
  intros Hwa Hwb Hk Hna Hnb.
  destruct (wf_window _ Hwa Hna) as [Ha1 Ha2]. destruct (wf_window _ Hwb Hnb) as [Hb1 Hb2].
  unfold merge_extend. destruct ((min_key b <? min_key a) || (max_key a <? max_key b)) eqn:Hout.
  - destruct (extend_range_fits a (min_key b) (max_key b) Hwa) as (st1 & Hext & Hx).
    { pose proof (dense_get_new_length_ge a (Z.min (min_key b) (Z.min (max_key b) (min_key a)))
        (Z.max (min_key b) (Z.max (max_key b) (max_key a))) Hk (wf_chunk _ Hwa)). lia. }
    rewrite Hext. exists st1. split; [done|].
    pose proof Hx as [Hk1 Hc1 _ Hcol Hmin Hmax Hwin _ Hcont _].
    assert (Hkw : kind_wf st1).
    { unfold kind_wf. rewrite Hk1, Hk, Hcol. pose proof (wf_kind _ Hwa) as Hw.
      unfold kind_wf in Hw. by rewrite Hk in Hw. }
    split; [apply (extended_wf a st1 _ _ Hwa Hx); auto; lia|].
    repeat split; try congruence; try lia; auto.
  - apply orb_false_iff in Hout as [H1 H2]. apply Z.ltb_ge in H1, H2.
    exists a. split; [done|]. split; [exact Hwa|]. repeat split; try congruence; try lia.
Qed.

(** [DenseStore::merge] on well-formed dense stores with non-negative
    counters. *)
Lemma dense_merge_correct a b :
  wf a -> wf b -> kind a = Dense -> nonneg a -> nonneg b ->
  exists c, merge a b = Ok c /\ wf c /\ kind c = Dense /\
    count c = (count a + count b)%Qc /\
    forall j, content c j = (content a j + content b j)%Qc.
Proof.
  intros Hwa Hwb Hk Hpa Hpb. unfold merge. rewrite Hk. unfold dense_merge.
  case_bool_decide as Hcb.
  { exists a. split; [done|]. split; [done|]. split; [done|]. rewrite Hcb.
    split; [ring|]. intros j. rewrite (count_zero_content b) by done. ring. }
  case_bool_decide as Hca.
  { exists (dense_copy a b). split; [done|].
    assert (Hz : forall j, content a j = 0%Qc) by (apply count_zero_content; done).
    split; [|split; [done|]; split; [cbn; rewrite Hca; ring|];
             intros j; rewrite dense_copy_content, Hz; ring].
    pose proof (wf_kind _ Hwa) as Hkw. unfold kind_wf in Hkw. rewrite Hk in Hkw.
    constructor; cbn.
    - apply (wf_chunk _ Hwa).
    - apply (wf_sum _ Hwb).
    - intros Hb. destruct (wf_empty _ Hwb Hb) as (? & ? & _). done.
    - apply (wf_window _ Hwb).
    - apply (wf_support _ Hwb).
    - unfold kind_wf. cbn. by rewrite Hk. }
  pose proof (count_nonzero_bins a Hwa Hca) as Hna.
  pose proof (count_nonzero_bins b Hwb Hcb) as Hnb.
  destruct (wf_window _ Hwb Hnb) as [Hb1 Hb2].
  destruct (dense_merge_extend_spec a b Hwa Hwb Hk Hna Hnb)
    as (st1 & Hme & Hw1 & Hk1 & Hc1 & Hcont1 & Hmin1 & Hmax1 & Hlo & Hhi).
  rewrite Hme. cbn [res_bind].
  destruct (add_bins_from_spec st1 (bins b) (offset b) (Z.to_nat (max_key b - min_key b + 1))
              (min_key b)) as (bb & Hbb & Hsz & Hacc & Hcont); try (unfold length, size in *; lia).
  rewrite Hbb. cbn [res_bind]. eexists; split; [reflexivity|].
  assert (Hc : forall j, content (set_count (set_bins st1 bb) (count st1 + count b)%Qc) j
                         = (content a j + content b j)%Qc).
  { intros j. replace (content (set_count _ _) j) with (content (set_bins st1 bb) j)
      by reflexivity.
    rewrite Hcont, Hcont1. case_decide; [done|].
    destruct (decide (content b j = 0%Qc)) as [Hz|Hnz].
    - rewrite Hz. ring.
    - apply (wf_support _ Hwb) in Hnz. lia. }
  split; [|simpl_store; split; [done|]; split; [by rewrite Hc1|]; exact Hc].
  constructor; unfold length in *; simpl_store.
  - apply (wf_chunk _ Hw1).
  - rewrite Hacc, (wf_sum _ Hw1), Hc1, <- (wf_sum _ Hwb), (store_sum_range b Hwb Hnb). done.
  - intros Hnil. exfalso. apply (count_nonzero_bins st1 Hw1); [by rewrite Hc1|].
    apply length_zero. unfold length. rewrite <- Hsz, Hnil. done.
  - intros _. pose proof (wf_window _ Hw1 (count_nonzero_bins st1 Hw1 ltac:(by rewrite Hc1))).
    unfold length in *. lia.
  - intros j Hj. rewrite Hc in Hj.
    destruct (decide (content a j = 0%Qc)) as [Ha|Ha].
    + rewrite Ha, Qcplus_0_l in Hj. apply (wf_support _ Hwb) in Hj. lia.
    + rewrite <- Hcont1 in Ha. apply (wf_support _ Hw1) in Ha. lia.
  - pose proof (wf_kind _ Hw1) as Hkw. unfold kind_wf in *. simpl_store. rewrite Hk1 in *.
    exact Hkw.
Qed.


