(* ===== verification/KeyAtRank.v ===== *)
(** * [key_at_rank] returns the least key whose cumulative count reaches the rank

    [BaseDenseStore::key_at_rank] (lines 334-347) scans the bins in key
    order, accumulating their counters, and returns the key of the first
    bin at which the running count passes the rank ([running > rank] when
    [lower], [running >= rank + 1] otherwise); when no bin does, it returns
    [max_key].  [cumulative st K] is the sum of the counters of the keys up
    to [K].  The theorem of this file states the result against it for any
    well-formed store with non-negative counters (all three store kinds
    share the method). *)

From S2P Require Import Prelude BinList Store StoreFacts DenseStoreSpec.

Local Open Scope Z_scope.

(** The total count of the keys [<= K]. *)
Definition cumulative (st : Store) (K : Z) : Qc :=
  range_sum (bins st) (offset st) (Z.to_nat (K - offset st + 1)) (offset st).

(** What the rank test means: the running count has passed [rank]
    ([rank < x] for the lower rank, [rank + 1 <= x] for the upper one). *)
Definition rank_passes (lower : bool) (rank x : Qc) : Prop :=
  if lower then (rank < x)%Qc else (rank + 1 <= x)%Qc.


Lemma rank_reached_iff r lower x : rank_reached r lower x = true <-> rank_passes lower r x.
Proof.
  unfold rank_reached, rank_passes. destruct lower; cbn [andb negb orb]; rewrite ?orb_false_r;
    apply bool_decide_eq_true.
Qed.

Lemma rank_reached_false r lower x : rank_reached r lower x = false <-> ~ rank_passes lower r x.
Proof. rewrite <- rank_reached_iff. destruct (rank_reached r lower x); intuition congruence. Qed.

Lemma rank_reached_mono r lower x y :
  (x <= y)%Qc -> rank_reached r lower x = true -> rank_reached r lower y = true.
Proof.
  intros Hxy. unfold rank_reached.
  destruct lower; cbn [andb negb orb]; rewrite ?orb_false_r; intros H;
    apply bool_decide_eq_true in H; apply bool_decide_eq_true.
  - eapply Qclt_le_trans; eauto.
  - eapply Qcle_trans; eauto.
Qed.

Lemma range_sum_take l n : range_sum l 0 n 0 = accumulate (take n l).
Proof.
  revert n. induction l as [|x l IH]; intros n.
  - rewrite take_nil. apply range_sum_zero. intros i _. apply bin_at_nil.
  - destruct n as [|n]; [done|]. cbn [range_sum take]. rewrite accumulate_cons.
    rewrite (range_sum_cons x l 0 n 0) by lia. by rewrite IH.
Qed.

Lemma cumulative_take st (m : nat) :
  cumulative st (offset st + Z.of_nat m) = accumulate (take (S m) (bins st)).
Proof.
  unfold cumulative. rewrite range_sum_rebase, Z.sub_diag, <- range_sum_take.
  f_equal. lia.
Qed.

Lemma cumulative_below st K : K < offset st -> cumulative st K = 0%Qc.
Proof. intros H. unfold cumulative. replace (Z.to_nat (K - offset st + 1)) with 0%nat by lia.
  done. Qed.

(** ** The scanning loop *)

Lemma key_at_rank_loop_Some l r lower acc idx i :
  key_at_rank_loop l r lower acc idx = Some i ->
  exists m : nat, i = idx + Z.of_nat m /\ (m < List.length l)%nat /\
    rank_reached r lower (acc + accumulate (take (S m) l))%Qc = true /\
    forall m' : nat, (m' < m)%nat ->
      rank_reached r lower (acc + accumulate (take (S m') l))%Qc = false.
Proof.
  revert acc idx. induction l as [|x l IH]; intros acc idx H; [discriminate|].
  cbn [key_at_rank_loop] in H.
  destruct (rank_reached r lower (acc + x)%Qc) eqn:Hr.
  - injection H as <-. exists 0%nat. split; [lia|]. split; [cbn; lia|].
    split; [|intros; lia]. cbn [take firstn]. rewrite take_0, accumulate_cons, accumulate_nil.
    by rewrite Qcplus_0_r.
  - destruct (IH _ _ H) as (m & -> & Hm & Hreach & Hbefore).
    exists (S m). split; [lia|]. split; [cbn; lia|]. split.
    + cbn [take firstn]. rewrite accumulate_cons, Qcplus_assoc. done.
    + intros [|m'] Hm'.
      * cbn [take firstn]. rewrite take_0, accumulate_cons, accumulate_nil, Qcplus_0_r. done.
      * cbn [take firstn]. rewrite accumulate_cons, Qcplus_assoc. apply Hbefore. lia.
Qed.

Lemma key_at_rank_loop_None l r lower acc idx :
  key_at_rank_loop l r lower acc idx = None ->
  forall m : nat, (m < List.length l)%nat ->
    rank_reached r lower (acc + accumulate (take (S m) l))%Qc = false.
Proof.
  revert acc idx. induction l as [|x l IH]; intros acc idx H m Hm; cbn in Hm; [lia|].
  cbn [key_at_rank_loop] in H.
  destruct (rank_reached r lower (acc + x)%Qc) eqn:Hr; [discriminate|].
  destruct m as [|m].
  - cbn [take firstn]. rewrite take_0, accumulate_cons, accumulate_nil, Qcplus_0_r. done.
  - cbn [take firstn]. rewrite accumulate_cons, Qcplus_assoc. apply (IH _ _ H). lia.
Qed.

Lemma cumulative_succ st K :
  offset st <= K -> cumulative st K = (cumulative st (K - 1) + content st K)%Qc.
Proof.
  intros H. unfold cumulative, content.
  replace (Z.to_nat (K - offset st + 1)) with (Z.to_nat (K - 1 - offset st + 1) + 1)%nat by lia.
  rewrite range_sum_add. cbn [range_sum]. rewrite Qcplus_0_r. do 2 f_equal. lia.
Qed.

(** ** The theorem *)

(** [key_at_rank] returns the least key whose cumulative count passes
    the rank, when the whole store passes it and the empty prefix does
    not. *)
Lemma key_at_rank_least st r lower :
  wf st -> ~ rank_passes lower r 0%Qc -> rank_passes lower r (count st) ->
  let K := key_at_rank st r lower in
  min_key st <= K <= max_key st /\ rank_passes lower r (cumulative st K) /\
  forall K', K' < K -> ~ rank_passes lower r (cumulative st K').
Proof.
  intros Hwf H0 Hc K. rewrite <- rank_reached_false in H0. rewrite <- rank_reached_iff in Hc.
  cut (min_key st <= K <= max_key st /\ rank_reached r lower (cumulative st K) = true /\
       forall K', K' < K -> rank_reached r lower (cumulative st K') = false).
  { intros (H1 & H2 & H3). split; [done|]. split; [by apply rank_reached_iff|].
    intros K' HK'. apply rank_reached_false. auto. } unfold K, key_at_rank.
  destruct (key_at_rank_loop (bins st) r lower 0%Qc 0) as [i|] eqn:E.
  - destruct (key_at_rank_loop_Some _ _ _ _ _ _ E) as (m & -> & Hm & Hreach & Hbefore).
    rewrite Qcplus_0_l in Hreach.
    assert (Hcum : forall m' : nat, (m' <= m)%nat ->
              rank_reached r lower (cumulative st (offset st + Z.of_nat m')) = true ->
              m' = m).
    { intros m' Hm' Hr. destruct (decide (m' = m)); [done|]. exfalso.
      specialize (Hbefore m' ltac:(lia)). rewrite Qcplus_0_l, <- cumulative_take in Hbefore.
      congruence. }
    assert (Hbelow : forall K', K' < 0 + Z.of_nat m + offset st ->
              rank_reached r lower (cumulative st K') = false).
    { intros K' HK'. destruct (decide (K' < offset st)).
      - by rewrite cumulative_below.
      - specialize (Hbefore (Z.to_nat (K' - offset st)) ltac:(lia)).
        rewrite Qcplus_0_l, <- cumulative_take in Hbefore.
        by replace (offset st + Z.of_nat (Z.to_nat (K' - offset st))) with K' in Hbefore by lia. }
    assert (Hat : rank_reached r lower (cumulative st (0 + Z.of_nat m + offset st)) = true).
    { rewrite <- Hreach, <- cumulative_take. f_equal. f_equal. lia. }
    split; [|split; [done | exact Hbelow]].
    destruct (decide (content st (0 + Z.of_nat m + offset st) = 0%Qc)) as [Hz|Hnz].
    + exfalso. rewrite cumulative_succ in Hat by lia. rewrite Hz, Qcplus_0_r in Hat.
      rewrite Hbelow in Hat by lia. discriminate.
    + apply (wf_support _ Hwf) in Hnz. lia.
  - exfalso. destruct (bins st) as [|x l] eqn:Hb.
    + rewrite <- (wf_sum _ Hwf), Hb, accumulate_nil in Hc. congruence.
    + pose proof (key_at_rank_loop_None _ _ _ _ _ E (List.length l) ltac:(cbn; lia)) as Hn.
      rewrite firstn_all2 in Hn by (cbn; lia). rewrite Qcplus_0_l, <- Hb, (wf_sum _ Hwf) in Hn.
      congruence.
Qed.

(** C8: For a rank that no empty prefix reaches but the whole store does,
    [key_at_rank] returns a key of the store's range whose cumulative
    count reaches the rank, and every smaller key's cumulative count does
    not: the least such key. *)
Lemma key_at_rank_spec st r lower :
  wf st -> ~ rank_passes lower r 0%Qc -> rank_passes lower r (count st) ->
  let K := key_at_rank st r lower in
  min_key st <= K <= max_key st /\ rank_passes lower r (cumulative st K) /\
  forall K', K' < K -> ~ rank_passes lower r (cumulative st K').
Proof. exact (key_at_rank_least st r lower). Qed.

Lemma accumulate_take_le l n :
  (forall i, (0 <= bin_at l i)%Qc) -> (accumulate (take n l) <= accumulate l)%Qc.
Proof.
  intros H. rewrite <- (accumulate_take_drop n l).
  rewrite <- (Qcplus_0_r (accumulate (take n l))) at 1. apply Qcplus_le_mono_l.
  apply accumulate_nonneg. intros i. rewrite bin_at_drop. case_decide; [apply H|done].
Qed.

(** A rank the whole store does not reach: no prefix reaches it. *)
Lemma key_at_rank_unreached st r lower :
  wf st -> nonneg st -> ~ rank_passes lower r (count st) ->
  key_at_rank st r lower = max_key st.
Proof.
  intros Hwf Hn Hc. rewrite <- rank_reached_false in Hc. unfold key_at_rank.
  destruct (key_at_rank_loop (bins st) r lower 0%Qc 0) as [idx|] eqn:E; [|done].
  exfalso. destruct (key_at_rank_loop_Some _ _ _ _ _ _ E) as (m & _ & _ & Hreach & _).
  rewrite Qcplus_0_l in Hreach.
  apply (rank_reached_mono _ _ _ (count st)) in Hreach; [congruence|].
  rewrite <- (wf_sum _ Hwf). apply accumulate_take_le.
  intros i. specialize (Hn (i + offset st)). unfold content in Hn.
  by replace (i + offset st - offset st) with i in Hn by lia.
Qed.

(** C9: A rank the whole store does not reach returns [max_key] (the
    counters are non-negative, so no prefix reaches it either). *)
Lemma key_at_rank_beyond st r lower :
  wf st -> nonneg st -> ~ rank_passes lower r (count st) ->
  key_at_rank st r lower = max_key st.
Proof. exact (key_at_rank_unreached st r lower). Qed.

(** ** On the store of [DenseStoreTest::test_key_at_rank] *)

Lemma key_at_rank_spec_witness :
  wf example_store /\ ~ rank_passes true (Q2Qc (3 # 2)) 0%Qc /\
  rank_passes true (Q2Qc (3 # 2)) (count example_store) /\
  let K := key_at_rank example_store (Q2Qc (3 # 2)) true in
  min_key example_store <= K <= max_key example_store /\
  rank_passes true (Q2Qc (3 # 2)) (cumulative example_store K) /\
  forall K', K' < K -> ~ rank_passes true (Q2Qc (3 # 2)) (cumulative example_store K').
Proof.
  split; [apply wfb_sound; vm_compute; reflexivity|].
  split; [vm_compute; intros H; discriminate H|].
  split; [vm_compute; reflexivity|].
  apply key_at_rank_spec.
  - apply wfb_sound; vm_compute; reflexivity.
  - vm_compute. intros H. discriminate H.
  - vm_compute. reflexivity.
Defined.

Lemma key_at_rank_beyond_witness :
  wf example_store /\ nonneg example_store /\
  ~ rank_passes false (Q2Qc 3) (count example_store) /\
  key_at_rank example_store (Q2Qc 3) false = max_key example_store.
Proof.
  split; [apply wfb_sound; vm_compute; reflexivity|].
  split; [apply nonneg_of_bins; vm_compute; reflexivity|].
  split; [vm_compute; intros H; by apply H|].
  apply key_at_rank_beyond.
  - apply wfb_sound; vm_compute; reflexivity.
  - apply nonneg_of_bins; vm_compute; reflexivity.
  - vm_compute. intros H. by apply H.
Defined.
