(* ===== verification/CollapsingStores.v ===== *)
(** * The collapsing stores ([CollapsingLowestDenseStore],
    [CollapsingHighestDenseStore], lines 465-770)

    Facts about the two bounded stores that the model exhibits on
    concrete stores built by the code's own operations.

    - [merge] of either collapsing store sums the receiver's own [bins_]
      over the indices of the other store's collapsed range (lines
      513-515 and 667-669), where the Python original it was ported from
      sums [store.bins].  Merging loses the other store's weight: the
      merged bins no longer sum to [count], and differ from replaying the
      other store's insertions.
      [bins_as_adds] states the contract the merge misses: merging a
      store is adding each of its non-empty bins.
    - A collapsing store constructed with [bin_limit <= 0] reaches
      undefined behaviour (a negative [size_t] count, or [first()] or
      [back()] on an empty deque) on its first [add]; only the sketch
      constructors substitute the default limit.  [store_new] is the
      constructor of each store class. *)

From S2P Require Import Prelude BinList Store StoreFacts.

Local Open Scope Z_scope.

(** The constructor of the class whose objects have dynamic type [k]. *)
Definition store_new (k : StoreKind) (chunk_size : Z) : Store :=
  match k with
  | Dense => BaseDenseStore_new chunk_size
  | CollapsingLowest L => CollapsingLowestDenseStore_new L chunk_size
  | CollapsingHighest L => CollapsingHighestDenseStore_new L chunk_size
  end.

(** The non-empty bins of a list starting at key [k], as [add(key, count)]
    calls in key order. *)
Fixpoint adds_from (k : Z) (l : BinList) : list (Z * Qc) :=
  match l with
  | [] => []
  | c :: l' => (if bool_decide (c = 0%Qc) then [] else [(k, c)]) ++ adds_from (k + 1) l'
  end.

(** What merging [st] means: adding each of its non-empty bins. *)
Definition bins_as_adds (st : Store) : list (Z * Qc) := adds_from (offset st) (bins st).

(** ** [merge] loses the other store's collapsed weight *)

(** C10: Merging [{0 -> 5}] into [{10 -> 1, 11 -> 1}] with [bin_limit = 2]:
    the merge must fold key [0] into key [10] (giving [6]), as adding the
    other store's bins does; the code adds the receiver's own first counter
    instead, and the bins sum to [3] while [count] is [7]. *)
Lemma collapsing_lowest_merge_loses_weight :
  exists a b c d,
    add_all (CollapsingLowestDenseStore_new 2 kChunkSize) [(10, 1%Qc); (11, 1%Qc)] = Ok a /\
    add_all (CollapsingLowestDenseStore_new 2 kChunkSize) [(0, Qc_of_Z 5)] = Ok b /\
    merge a b = Ok c /\ add_all a (bins_as_adds b) = Ok d /\
    wf a /\ wf b /\ wf d /\
    content c 10 = Qc_of_Z 2 /\ content d 10 = Qc_of_Z 6 /\
    sum (bins c) = Qc_of_Z 3 /\ count c = Qc_of_Z 7.
Proof.
  do 4 eexists.
  split; [cbv; reflexivity|]. split; [cbv; reflexivity|].
  split; [cbv; reflexivity|]. split; [cbv; reflexivity|].
  split; [apply wfb_sound; vm_compute; reflexivity|].
  split; [apply wfb_sound; vm_compute; reflexivity|].
  split; [apply wfb_sound; vm_compute; reflexivity|].
  repeat split; qc_compute.
Qed.

(** C11: The mirror image for the highest store: merging [{10 -> 5}] into
    [{0 -> 1, 1 -> 1}] must fold key [10] into key [1], as adding the other
    store's bins does. *)
Lemma collapsing_highest_merge_loses_weight :
  exists a b c d,
    add_all (CollapsingHighestDenseStore_new 2 kChunkSize) [(0, 1%Qc); (1, 1%Qc)] = Ok a /\
    add_all (CollapsingHighestDenseStore_new 2 kChunkSize) [(10, Qc_of_Z 5)] = Ok b /\
    merge a b = Ok c /\ add_all a (bins_as_adds b) = Ok d /\
    wf a /\ wf b /\ wf d /\
    content c 1 = Qc_of_Z 2 /\ content d 1 = Qc_of_Z 6 /\
    sum (bins c) = Qc_of_Z 3 /\ count c = Qc_of_Z 7.
Proof.
  do 4 eexists.
  split; [cbv; reflexivity|]. split; [cbv; reflexivity|].
  split; [cbv; reflexivity|]. split; [cbv; reflexivity|].
  split; [apply wfb_sound; vm_compute; reflexivity|].
  split; [apply wfb_sound; vm_compute; reflexivity|].
  split; [apply wfb_sound; vm_compute; reflexivity|].
  repeat split; qc_compute.
Qed.

(** ** A non-positive [bin_limit] *)

Lemma lowest_get_new_length_limit st nmin nmax :
  0 < chunk_size st -> nmin <= nmax ->
  bin_limit st <= 0 -> lowest_get_new_length st nmin nmax = bin_limit st.
Proof.
  intros Hc Hm Hl. unfold lowest_get_new_length.
  pose proof (ceil_div_spec (nmax - nmin + 1) (chunk_size st) Hc). lia.
Qed.

Lemma lowest_nonpositive_limit_ub L chunk key w :
  L <= 0 -> 0 < chunk -> INT64_MIN <= key <= INT64_MAX ->
  add (CollapsingLowestDenseStore_new L chunk) key w = Throw UndefinedBehavior.
Proof.
  intros HL Hc Hk. unfold INT64_MIN, INT64_MAX in Hk.
  assert (Hext : extend_range (CollapsingLowestDenseStore_new L chunk) key key
                 = Throw UndefinedBehavior).
  { unfold extend_range. simpl.
    replace (Z.min key (Z.min key INT64_MAX)) with key by (unfold INT64_MAX; lia).
    replace (Z.max key (Z.max key INT64_MIN)) with key by (unfold INT64_MIN; lia).
    unfold get_new_length. cbn [kind CollapsingLowestDenseStore_new].
    rewrite lowest_get_new_length_limit by (cbn; lia).
    cbn [bin_limit kind CollapsingLowestDenseStore_new].
    unfold initialize_with_zeros. destruct (Z.eqb_spec L 0) as [->|HL0].
    - cbn. unfold lowest_adjust, length, size. simpl. unfold INT64_MIN. zbool.
      reflexivity.
    - zbool. reflexivity. }
  unfold add, get_index. cbn [kind CollapsingLowestDenseStore_new]. unfold lowest_get_index.
  cbn [min_key max_key is_collapsed CollapsingLowestDenseStore_new].
  unfold INT64_MAX, INT64_MIN.
  destruct (Z.ltb_spec key 9223372036854775807).
  - rewrite Hext. reflexivity.
  - zbool. unfold INT64_MAX, INT64_MIN in Hext. rewrite Hext. reflexivity.
Qed.

Lemma highest_get_new_length_limit st nmin nmax :
  0 < chunk_size st -> nmin <= nmax ->
  bin_limit st <= 0 -> highest_get_new_length st nmin nmax = bin_limit st.
Proof.
  intros Hc Hm Hl. unfold highest_get_new_length.
  pose proof (ceil_div_spec (nmax - nmin + 1) (chunk_size st) Hc). lia.
Qed.

Lemma highest_nonpositive_limit_ub L chunk key w :
  L <= 0 -> 0 < chunk -> INT64_MIN <= key <= INT64_MAX ->
  add (CollapsingHighestDenseStore_new L chunk) key w = Throw UndefinedBehavior.
Proof.
  intros HL Hc Hk. unfold INT64_MIN, INT64_MAX in Hk.
  assert (Hext : extend_range (CollapsingHighestDenseStore_new L chunk) key key
                 = Throw UndefinedBehavior).
  { unfold extend_range. simpl.
    replace (Z.min key (Z.min key INT64_MAX)) with key by (unfold INT64_MAX; lia).
    replace (Z.max key (Z.max key INT64_MIN)) with key by (unfold INT64_MIN; lia).
    unfold get_new_length. cbn [kind CollapsingHighestDenseStore_new].
    rewrite highest_get_new_length_limit by (cbn; lia).
    cbn [bin_limit kind CollapsingHighestDenseStore_new].
    unfold initialize_with_zeros. destruct (Z.eqb_spec L 0) as [->|HL0].
    - cbn. unfold highest_adjust, length, size. simpl. unfold INT64_MAX. zbool.
      reflexivity.
    - zbool. reflexivity. }
  unfold add, get_index. cbn [kind CollapsingHighestDenseStore_new]. unfold highest_get_index.
  cbn [min_key max_key is_collapsed CollapsingHighestDenseStore_new].
  unfold INT64_MAX, INT64_MIN.
  destruct (Z.ltb_spec (-9223372036854775808) key).
  - unfold INT64_MAX, INT64_MIN in Hext. rewrite Hext. reflexivity.
  - zbool. unfold INT64_MAX, INT64_MIN in Hext. rewrite Hext. reflexivity.
Qed.



