(* ===== verification/StoreTests.v ===== *)
(** * The store tests of [src/tests/ddsketch_tests.cpp] (lines 142-475)

    [Counter] (lines 142-221) counts the values of a test stream in a
    [std::map<int64_t, int64_t>], modelled by a [gmap Z Z]; its
    [sum_values] accumulates with [std::accumulate] from the [int] literal
    [0], so the running sum is converted back to a 32-bit [int] after each
    step ([wrap_int]).  [StoreTest] (lines 223-403) feeds fixed streams of
    [int64_t] keys to [test_store] and [test_merging]; [DenseStoreTest]
    (lines 405-475) adds each key with weight [1] to a [DenseStore] (or
    merges the stores of several streams) and checks with [test_values]
    that [bins().sum()] is the number of values and that every non-zero
    bin holds the count of its key.  A gtest [EXPECT_*] records a failure
    and goes on, so a test is modelled as the conjunction of its checks;
    a store operation that throws or has undefined behaviour makes the
    whole test a [Throw].

    The theorems show that the dense store's tests pass on every stream
    of fewer than [2^31] values, which is the refinement of
    [DenseStoreSpec] seen through the test's own oracle, and that
    [sum_values] is wrong beyond that bound. *)

From S2P Require Import Prelude BinList Store StoreFacts DenseStoreSpec.
From stdpp Require Import gmap.

Local Open Scope Z_scope.
Local Open Scope ddsketch_scope.

(** ** [Counter] *)

(** [std::map<StoreValue, StoreValue>] *)
Abbreviation Counter := (gmap Z Z) (only parsing).

(** The conversion of an [int64_t] to a 32-bit [int] (modulo [2^32]). *)
Definition wrap_int (z : Z) : Z := (z + 2 ^ 31) mod 2 ^ 32 - 2 ^ 31.

(** One step of [Counter(values)]: [map_[value] = 1] for a new key,
    [++map_[value]] otherwise. *)
Definition counter_insert (m : Counter) (value : Z) : Counter :=
  match m !! value with
  | None => <[value := 1]> m
  | Some c => <[value := c + 1]> m
  end.

(** [explicit Counter(const StoreValues& values)] *)
Definition Counter_new (values : list Z) : Counter := foldl counter_insert ∅ values.

(** [operator[](key)]: [map_[key]], [0] for a key never counted (the
    [std::map] inserts it; no later read of the tests depends on that). *)
Definition Counter_get (m : Counter) (key : Z) : Z := default 0 (m !! key).

(** [sum_values()]: [std::accumulate] in the map's key order from the
    [int] [0]; the lambda's [partial_sum + p.second] is an [int64_t]
    stored back into the [int] accumulator. *)
Definition sum_values (m : Counter) : Z :=
  foldl (fun partial_sum p => wrap_int (partial_sum + p.2)) 0 (map_to_list m).

(** [max_value()]: [std::accumulate] from [numeric_limits<int64_t>::min()]
    keeping the larger key. *)
Definition max_value (m : Counter) : Z :=
  foldl (fun partial_max p => Z.max partial_max p.1) INT64_MIN (map_to_list m).

(** [min_value()]: [std::accumulate] from [numeric_limits<int64_t>::max()]
    keeping the smaller key. *)
Definition min_value (m : Counter) : Z :=
  foldl (fun partial_min p => Z.min partial_min p.1) INT64_MAX (map_to_list m).

(** ** [DenseStoreTest] *)

(** The loop of [test_values] over [store.bins()]: each non-zero bin at
    index [idx] must hold [counter[idx + store.offset()]]. *)
Fixpoint bins_match (counter : Counter) (l : BinList) (idx offset : Z) : bool :=
  match l with
  | [] => true
  | item :: l' =>
      (bool_decide (item = 0%Qc) || bool_decide (Qc_of_Z (Counter_get counter (idx + offset)) = item))
      && bins_match counter l' (idx + 1) offset
  end.

(** [DenseStoreTest::test_values(store, values)] *)
Definition dense_test_values (st : Store) (values : list Z) : bool :=
  let counter := Counter_new values in
  let expected_total_count := sum_values counter in
  bool_decide (Qc_of_Z expected_total_count = BinList.sum (bins st)) &&
  (if expected_total_count =? 0 then has_only_zeros (bins st)
   else negb (has_only_zeros (bins st)) && bins_match counter (bins st) 0 (offset st)).

(** [store.add(value)] for each value, with the default weight [1]. *)
Definition unit_adds (values : list Z) : list (Z * Qc) := map (fun v => (v, 1%Qc)) values.

(** [DenseStoreTest::test_store(values)] *)
Definition dense_test_store (values : list Z) : result bool :=
  let* st := add_all (BaseDenseStore_new kChunkSize) (unit_adds values) in
  Ok (dense_test_values st values).

(** [StoreTest::flatten(values_list)]: the concatenation (its [reserve]
    has no effect on the result). *)
Definition flatten (values_list : list (list Z)) : list Z := concat values_list.

(** The loop of [DenseStoreTest::test_merging]: each list fills an
    intermediate store, which is merged into [store]. *)
Fixpoint merge_stores (st : Store) (values_list : list (list Z)) : result Store :=
  match values_list with
  | [] => Ok st
  | store_values :: rest =>
      let* intermediate_store := add_all (BaseDenseStore_new kChunkSize) (unit_adds store_values) in
      let* st1 := Store.merge st intermediate_store in
      merge_stores st1 rest
  end.

(** [DenseStoreTest::test_merging(values_list)] *)
Definition dense_test_merging (values_list : list (list Z)) : result bool :=
  let* st := merge_stores (BaseDenseStore_new kChunkSize) values_list in
  Ok (dense_test_values st (flatten values_list)).

(** ** The streams of [StoreTest] *)

(** [test_empty] *)
Definition empty_values : list Z := [].

(** [test_constant]: [kNumValues = 10000] copies of [0]. *)
Definition constant_values : list Z := repeat 0 (Z.to_nat 10000).

(** [test_increasing_linearly]: [std::generate] with [n++] from [0]. *)
Definition increasing_linearly_values : list Z := seqZ 0 10000.

(** [test_decreasing_linearly]: [n--] from [kNumValues - 1]. *)
Definition decreasing_linearly_values : list Z := map (fun i => 10000 - 1 - i) (seqZ 0 10000).

(** [test_increasing_exponentially]: [std::pow(2, power++)] for 16 powers. *)
Definition increasing_exponentially_values : list Z := map (fun p => 2 ^ p) (seqZ 0 16).

(** [test_decreasing_exponentially]: [std::pow(2, power--)] from [15]. *)
Definition decreasing_exponentially_values : list Z := map (fun p => 2 ^ (16 - 1 - p)) (seqZ 0 16).

(** [test_bin_counts]: [2 x] copies of [x] (then of [-x]) for [x < 10]. *)
Definition bin_counts_values (sign : Z) : list Z :=
  concat (map (fun x => repeat (sign * x) (Z.to_nat (2 * x))) (seqZ 0 10)).

(** [test_merging_empty] and the two calls of [test_merging_constant]. *)
Definition merging_empty_lists : list (list Z) := [[]; []].
Definition merging_constant_lists : list (list Z) := [[2; 2]; [2; 2; 2]; [2]].
Definition merging_constant_lists' : list (list Z) := [[-8; -8]; [-8]].

(** The exact sum of the counts of a list of map entries. *)
Definition entries_total (l : list (Z * Z)) : Z := foldr (fun p acc => p.2 + acc) 0 l.

(** ** [Counter] counts *)

Lemma Counter_get_insert m v k :
  Counter_get (counter_insert m v) k = Counter_get m k + (if decide (k = v) then 1 else 0).
Proof.
  unfold counter_insert, Counter_get.
  case_decide as Hkv; [subst k|]; destruct (m !! v) as [c|] eqn:E;
    rewrite ?lookup_insert_eq, ?E; rewrite ?lookup_insert_ne by congruence; cbn [default id]; lia.
Qed.

Lemma Counter_get_foldl values m k :
  Qc_of_Z (Counter_get (foldl counter_insert m values) k) =
  (Qc_of_Z (Counter_get m k) + weight_of (unit_adds values) k)%Qc.
Proof.
  revert m. induction values as [|v values IH]; intros m; cbn [foldl unit_adds map weight_of].
  - ring.
  - fold (unit_adds values). rewrite IH, Counter_get_insert, Z2Qc_inj_add.
    case_decide; [replace (Qc_of_Z 1) with 1%Qc by qc_compute
                 | replace (Qc_of_Z 0) with 0%Qc by qc_compute]; ring.
Qed.

(** [counter[k]] of [Counter(values)] is the weight [add] gave to [k]. *)
Lemma Counter_get_new values k :
  Qc_of_Z (Counter_get (Counter_new values) k) = weight_of (unit_adds values) k.
Proof.
  unfold Counter_new. rewrite Counter_get_foldl. unfold Counter_get at 1. rewrite lookup_empty.
  cbn [default]. replace (Qc_of_Z 0) with 0%Qc by qc_compute. ring.
Qed.

Lemma total_weight_unit values : total_weight (unit_adds values) = Qc_of_Z (Z.of_nat (length values)).
Proof.
  induction values as [|v values IH]; [qc_compute|]. cbn [unit_adds map total_weight length].
  fold (unit_adds values). rewrite IH, Nat2Z.inj_succ, <- Z.add_1_l, Z2Qc_inj_add.
  by replace (Qc_of_Z 1) with 1%Qc by qc_compute.
Qed.

(** ** [sum_values] *)

Lemma wrap_int_add a b : wrap_int (wrap_int a + b) = wrap_int (a + b).
Proof.
  unfold wrap_int. f_equal.
  replace ((a + 2 ^ 31) mod 2 ^ 32 - 2 ^ 31 + b + 2 ^ 31) with ((a + 2 ^ 31) mod 2 ^ 32 + b) by lia.
  rewrite Zplus_mod_idemp_l. f_equal. lia.
Qed.

Lemma wrap_int_small z : - 2 ^ 31 <= z < 2 ^ 31 -> wrap_int z = z.
Proof. intros H. unfold wrap_int. rewrite Z.mod_small; lia. Qed.

Lemma entries_total_perm l1 l2 : l1 ≡ₚ l2 -> entries_total l1 = entries_total l2.
Proof. induction 1; unfold entries_total in *; cbn; lia. Qed.

Lemma foldl_wrap l a :
  foldl (fun partial_sum p => wrap_int (partial_sum + p.2)) (wrap_int a) l =
  wrap_int (a + entries_total l).
Proof.
  revert a. induction l as [|p l IH]; intros a; cbn [foldl entries_total foldr].
  - f_equal. lia.
  - rewrite wrap_int_add, IH. f_equal. fold (entries_total l). lia.
Qed.

Lemma entries_total_insert m v :
  entries_total (map_to_list (counter_insert m v)) = entries_total (map_to_list m) + 1.
Proof.
  unfold counter_insert. destruct (m !! v) as [c|] eqn:E.
  - rewrite <- insert_delete_eq.
    rewrite (entries_total_perm _ _ (map_to_list_insert _ _ _ (lookup_delete_eq m v))).
    rewrite <- (entries_total_perm _ _ (map_to_list_delete m v c E)).
    unfold entries_total. cbn [foldr snd]. lia.
  - rewrite (entries_total_perm _ _ (map_to_list_insert _ _ _ E)).
    unfold entries_total. cbn [foldr snd]. lia.
Qed.

Lemma entries_total_new values :
  entries_total (map_to_list (Counter_new values)) = Z.of_nat (length values).
Proof.
  unfold Counter_new.
  assert (H : forall m, entries_total (map_to_list (foldl counter_insert m values)) =
                        entries_total (map_to_list m) + Z.of_nat (length values)).
  { induction values as [|v values IH]; intros m; cbn [foldl length]; [lia|].
    rewrite IH, entries_total_insert. lia. }
  rewrite H, map_to_list_empty. cbn. lia.
Qed.

(** [sum_values()] of [Counter(values)] is the number of values, reduced
    to an [int]. *)
Lemma sum_values_wrap values : sum_values (Counter_new values) = wrap_int (Z.of_nat (length values)).
Proof.
  unfold sum_values. change 0 with (wrap_int 0). rewrite foldl_wrap, entries_total_new. f_equal.
Qed.

(** ** [test_values] on a store that holds the counts *)

Lemma has_only_zeros_sum l : has_only_zeros l = true -> BinList.sum l = 0%Qc.
Proof.
  unfold has_only_zeros, BinList.sum. induction l as [|x l IH]; [done|].
  cbn [forallb]. intros [Hx Hl]%andb_prop. apply bool_decide_eq_true in Hx. subst x.
  rewrite accumulate_cons, IH by done. ring.
Qed.

Lemma content_lookup st i x : bins st !! i = Some x -> content st (Z.of_nat i + offset st) = x.
Proof.
  intros Hi. unfold content, bin_at.
  replace (Z.of_nat i + offset st - offset st) with (Z.of_nat i) by lia.
  rewrite decide_True by lia. rewrite Nat2Z.id, Hi. done.
Qed.

Lemma bins_match_spec counter l idx off :
  (forall i x, l !! i = Some x -> x <> 0%Qc ->
     Qc_of_Z (Counter_get counter (idx + Z.of_nat i + off)) = x) ->
  bins_match counter l idx off = true.
Proof.
  revert idx. induction l as [|x l IH]; intros idx H; [done|]. cbn [bins_match].
  apply andb_true_intro. split.
  - destruct (decide (x = 0%Qc)) as [->|Hx]; [by rewrite bool_decide_eq_true_2|].
    apply orb_true_intro. right. apply bool_decide_eq_true.
    rewrite <- (H 0%nat x) by done. do 2 f_equal. lia.
  - apply IH. intros i y Hy Hy0. rewrite <- (H (S i) y) by done. do 2 f_equal. lia.
Qed.

(** The three checks of [test_values], each on the store facts it needs. *)
Lemma sum_values_small values :
  Z.of_nat (length values) < 2 ^ 31 -> sum_values (Counter_new values) = Z.of_nat (length values).
Proof. intros Hlen. by rewrite sum_values_wrap, wrap_int_small by lia. Qed.

Lemma sum_check_pass st n :
  wf st -> count st = Qc_of_Z n -> bool_decide (Qc_of_Z n = BinList.sum (bins st)) = true.
Proof. intros Hwf Hc. apply bool_decide_eq_true. unfold BinList.sum. by rewrite (wf_sum _ Hwf). Qed.

Lemma only_zeros_pass st : (forall j, content st j = 0%Qc) -> has_only_zeros (bins st) = true.
Proof.
  intros Hcont. unfold has_only_zeros. apply forallb_forall.
  intros x Hx%list_elem_of_In%list_elem_of_lookup. destruct Hx as [i Hi].
  apply bool_decide_eq_true. by rewrite <- (content_lookup _ _ _ Hi), Hcont.
Qed.

Lemma not_only_zeros_pass st n :
  wf st -> count st = Qc_of_Z n -> n <> 0 -> has_only_zeros (bins st) = false.
Proof.
  intros Hwf Hc H0. destruct (has_only_zeros (bins st)) eqn:E; [|done].
  apply has_only_zeros_sum in E. unfold BinList.sum in E. rewrite (wf_sum _ Hwf), Hc in E.
  exfalso. apply H0. apply Z2Qc_inj. by rewrite Z2Qc_inj_0.
Qed.

Lemma bins_match_content counter st :
  (forall j, Qc_of_Z (Counter_get counter j) = content st j) ->
  bins_match counter (bins st) 0 (offset st) = true.
Proof.
  intros Hcont. apply bins_match_spec. intros i x Hi _.
  rewrite Hcont, <- (content_lookup _ _ _ Hi). try (f_equal; lia).
Qed.

(** A well-formed store whose content is the count of each key and whose
    [count] is the number of values passes [test_values], below [2^31]
    values. *)
Lemma test_values_pass st values :
  wf st -> Z.of_nat (length values) < 2 ^ 31 ->
  count st = Qc_of_Z (Z.of_nat (length values)) ->
  (forall j, content st j = weight_of (unit_adds values) j) ->
  dense_test_values st values = true.
Proof.
  intros Hwf Hlen Hc Hcont. unfold dense_test_values. cbv zeta.
  rewrite sum_values_small by done. rewrite (sum_check_pass _ _ Hwf Hc). cbn [andb].
  destruct (Z.eqb_spec (Z.of_nat (length values)) 0) as [H0|H0].
  - destruct values; [|cbn in H0; lia]. apply only_zeros_pass. intros j. by rewrite Hcont.
  - rewrite (not_only_zeros_pass _ _ Hwf Hc H0). apply bins_match_content.
    intros j. by rewrite Counter_get_new, Hcont.
Qed.

(** ** The dense store passes its tests *)

Lemma weight_of_unit_nonneg values j : (0 <= weight_of (unit_adds values) j)%Qc.
Proof.
  rewrite <- Counter_get_new, <- Z2Qc_inj_0. apply (proj1 (Z2Qc_inj_le _ _)).
  unfold Counter_new, Counter_get.
  assert (H : forall m, map_Forall (fun _ c => 0 <= c) m ->
              map_Forall (fun _ c => 0 <= c) (foldl counter_insert m values)).
  { induction values as [|v values IH]; intros m Hm; [done|]. cbn [foldl]. apply IH.
    unfold counter_insert. destruct (m !! v) as [c|] eqn:E; apply map_Forall_insert_2; try done.
    specialize (Hm v c E). cbn in Hm |- *. lia. }
  destruct (foldl counter_insert ∅ values !! j) eqn:E; [|done].
  apply (H ∅ (map_Forall_empty _) j z E).
Qed.

Lemma unit_adds_app l1 l2 : unit_adds (l1 ++ l2) = unit_adds l1 ++ unit_adds l2.
Proof. apply map_app. Qed.

Lemma new_dense_wf : wf (BaseDenseStore_new kChunkSize).
Proof. apply wfb_sound. vm_compute. reflexivity. Qed.

(** The store of one stream: [add] with weight [1] for each value. *)
Lemma unit_store values :
  exists st, add_all (BaseDenseStore_new kChunkSize) (unit_adds values) = Ok st /\
    wf st /\ kind st = Dense /\ nonneg st /\
    count st = Qc_of_Z (Z.of_nat (length values)) /\
    forall j, content st j = weight_of (unit_adds values) j.
Proof.
  destruct (dense_add_all_correct _ (unit_adds values) new_dense_wf eq_refl)
    as (st & Ha & Hwf & Hk & Hc & Hcont).
  assert (Hcont' : forall j, content st j = weight_of (unit_adds values) j).
  { intros j. rewrite Hcont, content_empty by done. ring. }
  exists st. split; [done|]. split; [done|]. split; [done|]. split.
  - intros j. rewrite Hcont'. apply weight_of_unit_nonneg.
  - split; [|done]. rewrite Hc, total_weight_unit. cbn. ring.
Qed.

(** The loop of [test_merging] merges the counts of all its streams. *)
Lemma merge_stores_spec st values_list :
  wf st -> kind st = Dense -> nonneg st ->
  exists st', merge_stores st values_list = Ok st' /\ wf st' /\ kind st' = Dense /\
    nonneg st' /\
    count st' = (count st + Qc_of_Z (Z.of_nat (length (flatten values_list))))%Qc /\
    forall j, content st' j = (content st j + weight_of (unit_adds (flatten values_list)) j)%Qc.
Proof.
  revert st. induction values_list as [|vs rest IH]; intros st Hwf Hk Hn.
  - exists st. cbn. split; [done|]. do 3 (split; [done|]).
    split; intros; rewrite ?Nat2Z.inj_0, ?Z2Qc_inj_0; ring.
  - destruct (unit_store vs) as (ist & Ha & Hwi & Hki & Hni & Hci & Hconti).
    destruct (dense_merge_correct st ist Hwf Hwi Hk Hn Hni) as (c & Hm & Hwc & Hkc & Hcc & Hcontc).
    assert (Hnc : nonneg c).
    { intros j. rewrite Hcontc. apply Qcplus_nonneg_nonneg; [apply Hn | apply Hni]. }
    destruct (IH c Hwc Hkc Hnc) as (st' & Hr & Hw' & Hk' & Hn' & Hc' & Hcont').
    exists st'. cbn [merge_stores]. rewrite Ha. cbn [res_bind]. rewrite Hm. cbn [res_bind].
    split; [done|]. do 3 (split; [done|]). unfold flatten in *. cbn [concat].
    split.
    + rewrite Hc', Hcc, Hci, length_app, Nat2Z.inj_add, Z2Qc_inj_add. ring.
    + intros j. rewrite Hcont', Hcontc, Hconti, unit_adds_app, weight_of_app. ring.
Qed.

Lemma dense_test_store_ok values :
  Z.of_nat (length values) < 2 ^ 31 -> dense_test_store values = Ok true.
Proof.
  intros Hlen. destruct (unit_store values) as (st & Ha & Hwf & _ & _ & Hc & Hcont).
  unfold dense_test_store. rewrite Ha. cbn [res_bind]. f_equal. by apply test_values_pass.
Qed.

Lemma dense_test_merging_ok values_list :
  Z.of_nat (length (flatten values_list)) < 2 ^ 31 -> dense_test_merging values_list = Ok true.
Proof.
  intros Hlen.
  destruct (merge_stores_spec _ values_list new_dense_wf eq_refl) as (st & Hm & Hwf & _ & _ & Hc & Hcont).
  { intros j. by rewrite content_empty. }
  unfold dense_test_merging. rewrite Hm. cbn [res_bind]. f_equal. apply test_values_pass; [done|done| |].
  - rewrite Hc. cbn. ring.
  - intros j. rewrite Hcont, content_empty by done. ring.
Qed.

(** C35: [Counter::sum_values] is the number of values of the stream
    below [2^31] values; at [2^31] values its [int] accumulator wraps and
    it returns [-2^31]. *)
Theorem sum_values_bounds values :
  (Z.of_nat (length values) < 2 ^ 31 -> sum_values (Counter_new values) = Z.of_nat (length values)) /\
  (Z.of_nat (length values) = 2 ^ 31 -> sum_values (Counter_new values) = - 2 ^ 31).
Proof.
  rewrite sum_values_wrap. split; intros H.
  - apply wrap_int_small. lia.
  - rewrite H. reflexivity.
Qed.



Lemma sum_values_bounds_witness :
  (Z.of_nat (length increasing_exponentially_values) < 2 ^ 31 ->
   sum_values (Counter_new increasing_exponentially_values) =
   Z.of_nat (length increasing_exponentially_values)) /\
  (Z.of_nat (length (repeat 0 (Z.to_nat (2 ^ 31)))) = 2 ^ 31 ->
   sum_values (Counter_new (repeat 0 (Z.to_nat (2 ^ 31)))) = - 2 ^ 31).
Proof.
  split.
  - apply (sum_values_bounds increasing_exponentially_values).
  - apply (sum_values_bounds (repeat 0 (Z.to_nat (2 ^ 31)))).
Defined.


