(* ===== verification/CollapsingAdd.v ===== *)
(** * [CollapsingLowestDenseStore::add] keeps the counts of clamped keys
    ([ddsketch.h] lines 465-617)

    A [CollapsingLowestDenseStore] keeps at most [bin_limit] bins.  When
    a key widens the range of keys beyond the bins, [adjust] (lines
    558-607) folds every bin below [new_max_key - length() + 1] into that
    key's bin and marks the store collapsed; afterwards [get_index] sends
    every key below [min_key_] to the first bin.  The abstract view of the
    store is therefore the map that counts every inserted key [k] at
    [max(k, max_key - bin_limit + 1)] ([clamped]): the lowest keys are
    clamped to the lowest key the store can hold.

    [lowest_holds L st hist] is the invariant: [st] is a well-formed store
    of limit [L] whose counters are those of the clamped insertions
    [hist], whose [max_key] is the largest inserted key, and which, while
    not collapsed, holds every key at its own bin.  [lowest_add_step]
    shows that [add] keeps it in each of the four cases of [get_index];
    [lowest_add_all_correct] that replaying insertions of [int64_t] keys
    on a new store never throws, never reaches undefined behaviour and
    ends in the invariant.  The lemmas on the window that both collapsing
    classes share ([collapsing], [collapsing_extend_fits],
    [add_in_window]) are stated for either kind and reused by
    [CollapsingHighestAdd]. *)

From S2P Require Import Prelude BinList Store StoreFacts DenseStoreSpec KeyAtRank.

Local Open Scope Z_scope.
Local Open Scope ddsketch_scope.

(** ** The abstract store *)

(** Every key below [T] counted at [T]. *)
Definition clamped (T : Z) (kws : list (Z * Qc)) : list (Z * Qc) :=
  map (fun kw => (Z.max kw.1 T, kw.2)) kws.

(** The total weight of the keys up to [K]. *)
Fixpoint weight_upto (kws : list (Z * Qc)) (K : Z) : Qc :=
  match kws with
  | [] => 0%Qc
  | (k, w) :: kws' => ((if k <=? K then w else 0%Qc) + weight_upto kws' K)%Qc
  end.

(** The largest key ([numeric_limits<int64_t>::min()] for none). *)
Fixpoint keys_max (kws : list (Z * Qc)) : Z :=
  match kws with
  | [] => INT64_MIN
  | (k, _) :: kws' => Z.max k (keys_max kws')
  end.

(** Positive weights: what [add] is called with. *)
Definition pos_adds (kws : list (Z * Qc)) : Prop := Forall (fun kw => (0 < kw.2)%Qc) kws.

(** The keys are [int64_t] values. *)
Definition int64_keys (kws : list (Z * Qc)) : Prop :=
  Forall (fun kw => INT64_MIN <= kw.1 <= INT64_MAX) kws.

(** The two collapsing store classes of limit [L]. *)
Definition collapsing (k : StoreKind) (L : Z) : Prop :=
  k = CollapsingLowest L \/ k = CollapsingHighest L.

(** The invariant of a collapsing-lowest store of limit [L] after the
    insertions [hist] (the latest first). *)
Record lowest_holds (L : Z) (st : Store) (hist : list (Z * Qc)) : Prop := {
  lh_wf : wf st;
  lh_kind : kind st = CollapsingLowest L;
  lh_count : count st = total_weight hist;
  lh_empty : bins st = [] <-> hist = [];
  lh_max : hist <> [] -> max_key st = keys_max hist;
  lh_keys : is_collapsed st = false -> Forall (fun kw => min_key st <= kw.1) hist;
  lh_content : forall j, content st j = weight_of (clamped (max_key st - L + 1) hist) j
}.

(** What the collapsing branch of [adjust] leaves: the window starts at
    [T], every counter below [T] is folded into [T]'s, the others stay. *)
Record collapsed_to (st st' : Store) (T M L : Z) : Prop := {
  col_kind : kind st' = kind st;
  col_count : count st' = count st;
  col_chunk : chunk_size st' = chunk_size st;
  col_flag : is_collapsed st' = true;
  col_offset : offset st' = T;
  col_min : min_key st' = T;
  col_max : max_key st' = M;
  col_length : length st' = L;
  col_sum : accumulate (bins st') = accumulate (bins st);
  col_content : forall j, content st' j =
    if decide (j < T) then 0%Qc else if decide (j = T) then cumulative st T else content st j
}.

(** ** Clamped weights *)

Section Clamp.
Implicit Types (kws : list (Z * Qc)) (T K j : Z).

Lemma clamped_above T0 T kws j :
  T0 <= T -> T < j -> weight_of (clamped T kws) j = weight_of (clamped T0 kws) j.
Proof. unfold clamped.
  intros H0 Hj. induction kws as [|[k w] kws IH]; [done|]. cbn [map weight_of fst snd].
  rewrite IH. repeat case_decide; try ring; lia.
Qed.

Lemma clamped_below T kws j : j < T -> weight_of (clamped T kws) j = 0%Qc.
Proof. unfold clamped.
  intros Hj. induction kws as [|[k w] kws IH]; [done|]. cbn [map weight_of fst snd].
  rewrite IH. case_decide; [lia|]. ring.
Qed.

Lemma clamped_at T kws : weight_of (clamped T kws) T = weight_upto kws T.
Proof. unfold clamped.
  induction kws as [|[k w] kws IH]; [done|]. cbn [map weight_of weight_upto fst snd].
  rewrite IH. case_decide; destruct (Z.leb_spec k T); try ring; lia.
Qed.

Lemma clamped_upto T0 T kws : T0 <= T -> weight_upto (clamped T0 kws) T = weight_upto kws T.
Proof. unfold clamped.
  intros H. induction kws as [|[k w] kws IH]; [done|]. cbn [map weight_upto fst snd].
  rewrite IH. destruct (Z.leb_spec (Z.max k T0) T), (Z.leb_spec k T); try ring; lia.
Qed.

Lemma clamped_id T kws :
  Forall (fun kw => T <= kw.1) kws -> clamped T kws = kws.
Proof.
  unfold clamped. induction 1 as [|[k w] kws Hk _ IH]; [done|]. cbn [map fst snd] in *.
  rewrite IH. by replace (Z.max k T) with k by lia.
Qed.

Lemma weight_upto_succ kws K :
  weight_upto kws K = (weight_upto kws (K - 1) + weight_of kws K)%Qc.
Proof.
  induction kws as [|[k w] kws IH]; cbn; [ring|]. rewrite IH.
  destruct (Z.leb_spec k K), (Z.leb_spec k (K - 1)); case_decide; try ring; lia.
Qed.

Lemma weight_upto_below kws K :
  Forall (fun kw => K < kw.1) kws -> weight_upto kws K = 0%Qc.
Proof.
  induction 1 as [|[k w] kws Hk _ IH]; [done|]. cbn in *. rewrite IH.
  destruct (Z.leb_spec k K); [lia|]. ring.
Qed.

Lemma weight_of_nonneg kws k : pos_adds kws -> (0 <= weight_of kws k)%Qc.
Proof.
  induction 1 as [|[k' w'] kws Hw _ IH]; [done|]. cbn [weight_of] in *.
  case_decide; [|by rewrite Qcplus_0_l]. apply Qcplus_nonneg_nonneg; [by apply Qclt_le_weak | done].
Qed.

Lemma weight_of_pos kws k w :
  pos_adds kws -> In (k, w) kws -> (w <= weight_of kws k)%Qc.
Proof.
  intros Hp. pose proof Hp as Hp'. revert Hp'.
  induction Hp as [|[k' w'] kws Hw Hr IH]; intros Hp' Hin; [done|]. cbn [weight_of] in *.
  pose proof (weight_of_nonneg kws k Hr) as Hnn.
  destruct Hin as [[= -> ->]|Hin].
  - rewrite decide_True by done. rewrite <- (Qcplus_0_r w) at 1. by apply Qcplus_le_mono_l.
  - specialize (IH Hr Hin). case_decide.
    + eapply Qcle_trans; [exact IH|]. rewrite <- (Qcplus_0_l (weight_of kws k)) at 1.
      apply Qcplus_le_mono_r. by apply Qclt_le_weak.
    + by rewrite Qcplus_0_l.
Qed.

Lemma keys_max_ge kws k w : In (k, w) kws -> k <= keys_max kws.
Proof.
  induction kws as [|[k' w'] kws IH]; intros Hin; [done|]. cbn.
  destruct Hin as [[= -> ->]|Hin]; [lia|]. specialize (IH Hin). lia.
Qed.

End Clamp.

(** ** The two collapsing kinds *)

Lemma collapsing_wf_kind st L :
  wf st -> collapsing (kind st) L ->
  0 < L /\ length st <= L /\
  (is_collapsed st = true ->
     offset st = min_key st /\ max_key st = offset st + length st - 1 /\ length st = L).
Proof.
  intros Hwf Hk. pose proof (wf_kind _ Hwf) as Hkw. unfold kind_wf in Hkw.
  by destruct Hk as [Hk|Hk]; rewrite Hk in Hkw.
Qed.

Lemma collapsing_kind_wf_intro st L :
  collapsing (kind st) L -> 0 < L -> length st <= L ->
  (is_collapsed st = true ->
     offset st = min_key st /\ max_key st = offset st + length st - 1 /\ length st = L) ->
  kind_wf st.
Proof. intros Hk. unfold kind_wf. by destruct Hk as [Hk|Hk]; rewrite Hk. Qed.

(** Both classes' [get_new_length] round up to chunks and cap at [bin_limit]. *)
Lemma collapsing_get_new_length st L nmin nmax :
  collapsing (kind st) L ->
  get_new_length st nmin nmax = Z.min (chunk_size st * ceil_div (nmax - nmin + 1) (chunk_size st)) L.
Proof.
  intros Hk. unfold get_new_length, lowest_get_new_length, highest_get_new_length, bin_limit.
  by destruct Hk as [Hk|Hk]; rewrite Hk.
Qed.

(** ** Cumulative counts *)

Lemma cumulative_weight st l K :
  (forall j, content st j = weight_of l j) -> Forall (fun kw => offset st <= kw.1) l ->
  cumulative st K = weight_upto l K.
Proof.
  intros Hc Hl. destruct (Z.ltb_spec K (offset st)) as [HK|HK].
  { rewrite cumulative_below by done. symmetry. apply weight_upto_below.
    eapply Forall_impl; [|exact Hl]. intros kw H. cbn in H. lia. }
  assert (H : forall n : nat, cumulative st (offset st - 1 + Z.of_nat n) =
                              weight_upto l (offset st - 1 + Z.of_nat n)).
  { induction n as [|n IH].
    - rewrite cumulative_below by lia. symmetry. apply weight_upto_below.
      eapply Forall_impl; [|exact Hl]. intros kw H. cbn in H. lia.
    - rewrite cumulative_succ, weight_upto_succ by lia.
      replace (offset st - 1 + Z.of_nat (S n) - 1) with (offset st - 1 + Z.of_nat n) by lia.
      by rewrite IH, Hc. }
  specialize (H (Z.to_nat (K - offset st + 1))).
  by replace (offset st - 1 + Z.of_nat (Z.to_nat (K - offset st + 1))) with K in H by lia.
Qed.

(** Above [max_key] the cumulative count no longer grows. *)
Lemma cumulative_flat st K1 K2 :
  wf st -> offset st <= K1 -> max_key st <= K1 <= K2 -> cumulative st K1 = cumulative st K2.
Proof.
  intros Hwf Ho [Hm H12].
  assert (H : forall n : nat, cumulative st (K1 + Z.of_nat n) = cumulative st K1).
  { induction n as [|n IH]; [by rewrite Z.add_0_r|].
    rewrite cumulative_succ by lia.
    replace (K1 + Z.of_nat (S n) - 1) with (K1 + Z.of_nat n) by lia. rewrite IH.
    destruct (decide (content st (K1 + Z.of_nat (S n)) = 0%Qc)) as [->|Hnz]; [ring|].
    apply (wf_support _ Hwf) in Hnz. lia. }
  specialize (H (Z.to_nat (K2 - K1))). by rewrite Z2Nat.id, Zplus_minus in H by lia.
Qed.

(** At or above [max_key] the cumulative count is [count]. *)
Lemma cumulative_all st K :
  wf st -> bins st <> [] -> max_key st <= K -> cumulative st K = count st.
Proof.
  intros Hwf Hne HK. destruct (wf_window _ Hwf Hne) as [[Ho1 Ho2] Hw].
  pose proof (length_pos st Hne) as Hl.
  assert (HE : cumulative st (offset st + Z.of_nat (Z.to_nat (length st - 1))) = count st).
  { rewrite cumulative_take, <- (wf_sum _ Hwf). f_equal. apply take_ge.
    unfold Store.length, size in *. lia. }
  rewrite Z2Nat.id in HE by lia. rewrite <- HE.
  destruct (Z.leb_spec K (offset st + (length st - 1))).
  - apply cumulative_flat; [done | lia | lia].
  - symmetry. apply cumulative_flat; [done | lia | lia].
Qed.

(** ** Bins read through [bin_at] *)

Lemma bin_at_app l1 l2 i :
  bin_at (l1 ++ l2) i = if decide (i < size l1) then bin_at l1 i else bin_at l2 (i - size l1).
Proof.
  unfold bin_at, size. repeat case_decide; try done; try lia.
  - rewrite lookup_app_l by lia. done.
  - rewrite lookup_app_r by lia. do 3 f_equal. lia.
Qed.

(** [replace_range_with_zeros(s, e, e - s)] zeroes the positions [[s, e)]. *)
Lemma bin_at_replace_range l s e i :
  0 <= s <= e -> e <= size l ->
  bin_at (take (Z.to_nat s) l ++ replicate (Z.to_nat (e - s)) 0%Qc ++ drop (Z.to_nat e) l) i =
  if decide (s <= i < e) then 0%Qc else bin_at l i.
Proof.
  intros Hs He. rewrite !bin_at_app, size_take, size_replicate, bin_at_take, bin_at_drop.
  rewrite bin_at_replicate_0. repeat case_decide; try lia; try done; f_equal; lia.
Qed.

(** The sum of [[s, s + n)] ([std::accumulate] over an iterator range). *)
Lemma accumulate_take_drop_range l s (n : nat) :
  0 <= s -> accumulate (take n (drop (Z.to_nat s) l)) = range_sum l 0 n s.
Proof.
  intros Hs. revert s Hs. induction n as [|n IH]; intros s Hs.
  - by rewrite take_0.
  - destruct (drop (Z.to_nat s) l) as [|x r] eqn:E.
    + rewrite take_nil, accumulate_nil. symmetry. apply range_sum_zero.
      intros i Hi. apply bin_at_ge. apply (f_equal List.length) in E.
      rewrite length_drop in E. cbn in E. unfold size. lia.
    + cbn [take range_sum]. rewrite accumulate_cons. f_equal.
      * unfold bin_at. rewrite decide_True by lia. rewrite Z.sub_0_r.
        replace (l !! Z.to_nat s) with (drop (Z.to_nat s) l !! 0%nat)
          by (rewrite lookup_drop; f_equal; lia).
        by rewrite E.
      * rewrite <- IH by lia. f_equal.
        replace (Z.to_nat (s + 1)) with (Z.to_nat s + 1)%nat by lia.
        rewrite <- drop_drop, E. done.
Qed.

(** Below [T] the cumulative count is the sum of the bins from [min_key]. *)
Lemma cumulative_from_min st T :
  wf st -> bins st <> [] -> offset st <= min_key st <= T ->
  cumulative st (T - 1) = range_sum (bins st) 0 (Z.to_nat (T - min_key st)) (min_key st - offset st).
Proof.
  intros Hwf Hne Hm. unfold cumulative.
  replace (Z.to_nat (T - 1 - offset st + 1))
    with (Z.to_nat (min_key st - offset st) + Z.to_nat (T - min_key st))%nat by lia.
  rewrite range_sum_add, range_sum_zero, Qcplus_0_l.
  - rewrite range_sum_rebase. f_equal. lia.
  - intros i Hi. destruct (decide (bin_at (bins st) (offset st + i - offset st) = 0%Qc)) as [|Hnz];
      [done|]. exfalso.
    replace (bin_at (bins st) (offset st + i - offset st)) with (content st (offset st + i)) in Hnz
      by reflexivity.
    apply (wf_support _ Hwf) in Hnz. lia.
Qed.

(** ** The collapsing branch of [CollapsingLowestDenseStore::adjust] *)

Lemma lowest_adjust_collapse st L nmin nmax :
  wf st -> kind st = CollapsingLowest L -> bins st <> [] -> length st = L ->
  L < nmax - nmin + 1 -> max_key st <= nmax ->
  (offset st < nmax - L + 1 -> min_key st <= nmax - L + 1) ->
  exists st', lowest_adjust st nmin nmax = Ok st' /\ collapsed_to st st' (nmax - L + 1) nmax L.
Proof.
  intros Hwf Hk Hne HL Hd Hmax Hmin.
  pose proof (length_pos st Hne) as Hl0.
  destruct (wf_window _ Hwf Hne) as [[Ho1 Ho2] Hw].
  assert (Hsz : size (bins st) = L) by (rewrite <- HL; reflexivity).
  assert (Hsupp : forall j, max_key st < j -> content st j = 0%Qc).
  { intros j Hj. destruct (decide (content st j = 0%Qc)) as [|Hnz]; [done|].
    apply (wf_support _ Hwf) in Hnz. lia. }
  assert (Hlow : forall j, j < min_key st -> content st j = 0%Qc).
  { intros j Hj. destruct (decide (content st j = 0%Qc)) as [|Hnz]; [done|].
    apply (wf_support _ Hwf) in Hnz. lia. }
  unfold lowest_adjust. rewrite (proj2 (Z.ltb_lt _ _)) by lia. cbv zeta. rewrite HL.
  set (T := nmax - L + 1).
  destruct (Z.leb_spec (max_key st) T) as [HmT|HmT].
  - (* everything in the first bin *)
    unfold initialize_with_zeros, set_at. zbool. cbn [res_bind guard_ub].
    rewrite size_replicate. zbool. cbn [res_bind guard_ub andb].
    eexists; split; [reflexivity|].
    constructor; unfold Store.length, content in *; simpl_store; try done.
    + rewrite size_insert, size_replicate. lia.
    + rewrite (accumulate_insert _ _ _ 0%Qc) by (apply lookup_replicate; split; [done | lia]).
      rewrite accumulate_replicate_0, (wf_sum _ Hwf). ring.
    + intros j. rewrite bin_at_insert, bin_at_replicate_0, length_replicate.
      repeat case_decide; try lia; try done.
      * by rewrite cumulative_all by (done || lia).
      * rewrite Hsupp by lia. done.
  - destruct (Z.ltb_spec (offset st - T) 0) as [Hs|Hs].
    + (* fold the bins of [[min_key, T)] into [T]'s, then shift the window up *)
      specialize (Hmin ltac:(lia)).
      unfold collapsed_count, index_outside_bounds, replace_range_with_zeros. zbool.
      cbn [orb negb guard_ub res_bind andb].
      replace (T - min_key st) with (T - offset st - (min_key st - offset st)) by lia.
      set (s := min_key st - offset st) in *. set (e := T - offset st) in *.
      set (C := accumulate (take (Z.to_nat (e - s)) (drop (Z.to_nat s) (bins st)))).
      set (b1 := take (Z.to_nat s) (bins st) ++ replicate (Z.to_nat (e - s)) 0%Qc
                 ++ drop (Z.to_nat e) (bins st)).
      assert (Hb1 : size b1 = L).
      { unfold b1. rewrite !size_app, size_take, size_replicate, size_drop. lia. }
      unfold add_at. rewrite Hb1. zbool. cbn [guard_ub res_bind andb].
      set (b2 := alter (fun x => (x + C)%Qc) (Z.to_nat e) b1).
      assert (Hb2 : forall i, bin_at b2 i =
                if decide (i = e) then (bin_at (bins st) e + C)%Qc
                else if decide (s <= i < e) then 0%Qc else bin_at (bins st) i).
      { intros i. unfold b2. rewrite bin_at_alter_add. unfold b1.
        rewrite !bin_at_replace_range by lia.
        assert (Hl1 : Z.of_nat (List.length b1) = L) by exact Hb1.
        fold b1. repeat case_decide; subst; try lia; try done. }
      assert (HC : cumulative st T = (bin_at (bins st) e + C)%Qc).
      { rewrite cumulative_succ by lia. rewrite cumulative_from_min by (done || lia).
        unfold C. rewrite accumulate_take_drop_range by lia.
        replace (Z.to_nat (e - s)) with (Z.to_nat (T - min_key st)) by lia.
        unfold content. change (min_key st - offset st) with s. change (T - offset st) with e. ring. }
      destruct (shift_bins_spec (set_min_key (set_bins st b2) T) (offset st - T))
        as (st2 & Hsh & Heq & Hlen & Hc & Hacc).
      { unfold Store.length. simpl_store. unfold b2. rewrite size_alter. lia. }
      rewrite Hsh. cbn [res_bind]. eexists; split; [reflexivity|].
      assert (Hlb2 : size b2 = L) by (unfold b2; rewrite size_alter; done).
      assert (Hc2 : forall j, content st2 j =
                if decide (T <= j < T + L) then bin_at b2 (j - offset st) else 0%Qc).
      { intros j. rewrite Hc. unfold Store.length. simpl_store. rewrite Hlb2.
        replace (offset st - (offset st - T)) with T by lia. reflexivity. }
      rewrite Heq in Hc2 |- *. unfold Store.length in *.
      constructor; simpl_store; try done; try lia.
      * unfold Store.length. simpl_store. lia.
      * rewrite Hacc.
        -- unfold b2. rewrite accumulate_alter_add by (unfold size in Hb1; lia).
           unfold b1, C. rewrite !accumulate_app, accumulate_replicate_0.
           rewrite <- (accumulate_take_drop (Z.to_nat s) (bins st)).
           rewrite <- (accumulate_take_drop (Z.to_nat (e - s)) (drop (Z.to_nat s) (bins st))).
           rewrite drop_drop. replace (Z.to_nat s + Z.to_nat (e - s))%nat with (Z.to_nat e) by lia.
           ring.
        -- intros k Hko. unfold content. simpl_store. rewrite Hlb2 in Hko. rewrite Hb2.
           repeat case_decide; unfold s, e, T in *; try lia; try done.
           destruct (Z.ltb_spec k (min_key st)); [apply Hlow | apply Hsupp]; lia.
      * intros j. etransitivity; [|etransitivity; [apply Hc2|]]; [reflexivity|].
        rewrite Hb2. repeat case_decide; unfold s, e, T in *; try lia; try done;
          first [rewrite HC; do 2 f_equal; lia | rewrite Hsupp by lia; done].
    + (* the window already starts at or above [T]: shift it down *)
      destruct (shift_bins_spec (set_min_key st T) (offset st - T)) as (st2 & Hsh & Heq & Hlen & Hc & Hacc).
      { unfold Store.length in *. simpl_store. lia. }
      rewrite Hsh. cbn [res_bind]. eexists; split; [reflexivity|].
      assert (Hc2 : forall j, content st2 j =
                if decide (T <= j < T + L) then content st j else 0%Qc).
      { intros j. rewrite Hc. unfold Store.length. simpl_store. rewrite Hsz.
        replace (offset st - (offset st - T)) with T by lia. reflexivity. }
      rewrite Heq in Hc2 |- *. unfold Store.length in *.
      constructor; simpl_store; try done; try lia.
      * unfold Store.length. simpl_store. lia.
      * apply Hacc. intros k Hko. simpl_store. rewrite Hsz in Hko.
        destruct (Z.ltb_spec k T); [apply Hlow; lia | apply Hsupp; lia].
      * intros j. etransitivity; [|etransitivity; [apply Hc2|]]; [reflexivity|].
        repeat case_decide; try lia; try done.
        -- subst j. destruct (Z.eq_dec T (offset st)) as [->|HT].
           ++ rewrite cumulative_succ, cumulative_below by lia. ring.
           ++ rewrite cumulative_below, Hlow by lia. done.
        -- rewrite Hsupp by lia. done.
Qed.

(** The collapsed store is well formed. *)
Lemma collapsed_wf st st' L M :
  wf st -> 0 < L -> max_key st <= M -> collapsed_to st st' (M - L + 1) M L ->
  kind st' = CollapsingLowest L -> wf st'.
Proof.
  intros Hwf HL HM [Hk Hc Hch Hf Ho Hmin Hmax Hlen Hsum Hcont] Hk'.
  constructor.
  - rewrite Hch. apply (wf_chunk _ Hwf).
  - rewrite Hsum, Hc. apply (wf_sum _ Hwf).
  - intros Hb. exfalso. assert (Hs : size (bins st') = L) by exact Hlen.
    rewrite Hb in Hs. unfold size in Hs. cbn in Hs. lia.
  - intros _. lia.
  - intros j Hj. rewrite Hcont in Hj. repeat case_decide; try done; try lia.
    apply (wf_support _ Hwf) in Hj. lia.
  - unfold kind_wf. rewrite Hk'. lia.
Qed.

(** Two stores with the same offset and content have the same cumulative
    counts. *)
Lemma cumulative_ext st st' K :
  offset st' = offset st -> (forall j, content st' j = content st j) ->
  cumulative st' K = cumulative st K.
Proof.
  intros Ho Hc. unfold cumulative. rewrite Ho.
  generalize (Z.to_nat (K - offset st + 1)) as n. generalize (offset st) at 2 4 as key.
  intros key n. revert key. induction n as [|n IH]; intros key; cbn [range_sum]; [done|].
  rewrite IH. f_equal. specialize (Hc key). unfold content in Hc. by rewrite Ho in Hc.
Qed.

Lemma collapsing_get_new_length_cap st nmin nmax L :
  collapsing (kind st) L -> 0 < chunk_size st -> L < nmax - nmin + 1 ->
  get_new_length st nmin nmax = L.
Proof.
  intros Hk Hc Hd. rewrite (collapsing_get_new_length _ _ _ _ Hk).
  pose proof (ceil_div_spec (nmax - nmin + 1) (chunk_size st) Hc). lia.
Qed.

(** The bins of a store grown at the back with zeros. *)
Lemma grown_content st (m : nat) j :
  content (set_bins st (bins st ++ replicate m 0%Qc)) j = content st j.
Proof. unfold content. simpl_store. apply bin_at_app_zeros. Qed.

Lemma collapsing_grow_wf st L (m : nat) :
  wf st -> collapsing (kind st) L -> bins st <> [] -> length st + Z.of_nat m <= L ->
  wf (set_bins st (bins st ++ replicate m 0%Qc)).
Proof.
  intros Hwf Hk Hne Hm. pose proof (collapsing_wf_kind _ _ Hwf Hk) as Hkw.
  destruct (wf_window _ Hwf Hne) as [Hw1 Hw2].
  assert (Hsz : size (bins st ++ replicate m 0%Qc) = length st + Z.of_nat m)
    by (rewrite size_app, size_replicate; reflexivity).
  constructor; unfold Store.length in *; simpl_store.
  - apply (wf_chunk _ Hwf).
  - rewrite accumulate_app, accumulate_replicate_0, Qcplus_0_r. apply (wf_sum _ Hwf).
  - intros Hb. exfalso. by apply app_eq_nil in Hb as [? _].
  - intros _. rewrite Hsz. lia.
  - intros j Hj. rewrite grown_content in Hj. by apply (wf_support _ Hwf).
  - apply (collapsing_kind_wf_intro _ L); [exact Hk | lia | unfold Store.length; simpl_store; lia|].
    unfold Store.length. simpl_store. rewrite Hsz. intros Hc. destruct Hkw as (_ & _ & Hkw).
    specialize (Hkw Hc). unfold Store.length in Hkw. lia.
Qed.

(** A collapse of the grown store is a collapse of the store. *)
Lemma collapsed_grown st st' (m : nat) T M L :
  collapsed_to (set_bins st (bins st ++ replicate m 0%Qc)) st' T M L -> collapsed_to st st' T M L.
Proof.
  intros [Hk Hc Hch Hf Ho Hmin Hmax Hlen Hsum Hcont]. constructor; simpl_store; try done.
  - rewrite Hsum, accumulate_app, accumulate_replicate_0. ring.
  - intros j. rewrite Hcont, grown_content.
    rewrite (cumulative_ext st) by (done || apply grown_content). done.
Qed.

(** [extend_range(key)] on a non-empty collapsing-lowest store when the
    new range is wider than [bin_limit]: the bins grow to [bin_limit] and
    [adjust] collapses. *)
Lemma lowest_extend_collapse st L k :
  wf st -> kind st = CollapsingLowest L -> bins st <> [] ->
  let nmin := Z.min k (Z.min k (min_key st)) in
  let nmax := Z.max k (Z.max k (max_key st)) in
  L < nmax - nmin + 1 ->
  (offset st < nmax - L + 1 -> min_key st <= nmax - L + 1) ->
  exists st', extend_range st k k = Ok st' /\ collapsed_to st st' (nmax - L + 1) nmax L.
Proof.
  intros Hwf Hk Hne nmin nmax Hd Hmin.
  pose proof (collapsing_wf_kind _ _ Hwf (or_introl Hk)) as Hkw.
  destruct Hkw as (HL & HlL & Hcol).
  destruct (wf_window _ Hwf Hne) as [[Ho1 Ho2] Hw].
  pose proof (length_pos st Hne) as Hl0.
  assert (Hgl : get_new_length st nmin nmax = L)
    by (apply (collapsing_get_new_length_cap _ _ _ L); [by left | apply (wf_chunk _ Hwf) | done]).
  unfold extend_range. fold nmin nmax.
  assert (He : is_empty st = false).
  { unfold is_empty, kEmptyStoreLength. apply Z.eqb_neq. lia. }
  rewrite He.
  replace ((min_key st <=? nmin) && (nmax <? offset st + length st)) with false
    by (symmetry; apply andb_false_iff; destruct (Z.leb_spec (min_key st) nmin);
        [right; apply Z.ltb_ge; unfold nmin, nmax in *; lia | by left]).
  rewrite Hgl. destruct (Z.ltb_spec (length st) L) as [Hlt|Hge].
  - unfold extend_back_with_zeros. zbool. cbn [guard_ub res_bind].
    set (m := Z.to_nat (L - length st)).
    assert (Hwf1 : wf (set_bins st (bins st ++ replicate m 0%Qc)))
      by (apply (collapsing_grow_wf _ L); unfold m; (by left) || done || lia).
    destruct (lowest_adjust_collapse (set_bins st (bins st ++ replicate m 0%Qc)) L nmin nmax)
      as (st' & Ha & Hc); simpl_store; try done.
    + intros Hb. by apply app_eq_nil in Hb as [? _].
    + unfold Store.length. simpl_store. rewrite size_app, size_replicate. fold (length st).
      unfold m. lia.
    + unfold nmax. lia.
    + exists st'. split; [|by apply collapsed_grown in Hc].
      unfold adjust. simpl_store. by rewrite Hk.
  - assert (HlenL : length st = L) by lia.
    destruct (lowest_adjust_collapse st L nmin nmax) as (st' & Ha & Hc); try done.
    + unfold nmax. lia.
    + exists st'. split; [|done]. zbool. cbn [res_bind]. unfold adjust. by rewrite Hk.
Qed.

(** ** [add] *)

(** A non-empty collapsing-lowest store holds no key below
    [max_key - bin_limit + 1]. *)
Lemma lowest_threshold_offset st L :
  wf st -> kind st = CollapsingLowest L -> bins st <> [] -> max_key st - L + 1 <= offset st.
Proof.
  intros Hwf Hk Hne. pose proof (collapsing_wf_kind _ _ Hwf (or_introl Hk)) as Hkw.
  destruct (wf_window _ Hwf Hne). lia.
Qed.

(** [bins_[idx] += weight; count_ += weight] at a key of the window of a
    well-formed store keeps it well formed, whichever the store class. *)
Lemma add_in_window st1 idx w :
  wf st1 -> bins st1 <> [] -> min_key st1 <= idx + offset st1 <= max_key st1 ->
  exists st', (let* b := add_at idx w (bins st1) in
               Ok (set_count (set_bins st1 b) (count st1 + w)%Qc)) = Ok st' /\
    wf st' /\ kind st' = kind st1 /\ count st' = (count st1 + w)%Qc /\
    bins st' <> [] /\ min_key st' = min_key st1 /\ max_key st' = max_key st1 /\
    is_collapsed st' = is_collapsed st1 /\
    forall j, content st' j = if decide (j = idx + offset st1) then (content st1 j + w)%Qc else content st1 j.
Proof.
  intros Hwf Hne Hin. destruct (wf_window _ Hwf Hne) as [Hw1 Hw2].
  destruct (add_at_store st1 idx w) as (b & Hb & Hsz & Hacc & Hbc); [lia|].
  rewrite Hb. cbn [res_bind]. eexists; split; [reflexivity|].
  assert (Hbne : b <> []).
  { intros ->. unfold size in Hsz. cbn in Hsz. apply Hne. destruct (bins st1); [done|]. cbn in Hsz. lia. }
  split; [|by repeat split].
  constructor; unfold Store.length in *; simpl_store.
  - apply (wf_chunk _ Hwf).
  - by rewrite Hacc, (wf_sum _ Hwf).
  - intros Hnil. done.
  - intros _. rewrite Hsz. lia.
  - intros j Hj. change (content (set_count (set_bins st1 b) (count st1 + w)%Qc) j)
      with (content (set_bins st1 b) j) in Hj. rewrite Hbc in Hj.
    case_decide; [lia|]. by apply (wf_support _ Hwf).
  - pose proof (wf_kind _ Hwf) as Hkw. unfold kind_wf, Store.length in *. simpl_store.
    destruct (kind st1); [done | by rewrite Hsz | by rewrite Hsz].
Qed.

(** The final step of [add] on a collapsing-lowest store. *)
Lemma lowest_finish L st1 hist k w idx :
  wf st1 -> kind st1 = CollapsingLowest L -> bins st1 <> [] ->
  count st1 = total_weight hist ->
  max_key st1 = keys_max ((k, w) :: hist) ->
  (is_collapsed st1 = false -> Forall (fun kw => min_key st1 <= kw.1) ((k, w) :: hist)) ->
  (forall j, content st1 j = weight_of (clamped (max_key st1 - L + 1) hist) j) ->
  idx + offset st1 = Z.max k (max_key st1 - L + 1) ->
  min_key st1 <= idx + offset st1 <= max_key st1 ->
  exists st', (let* b := add_at idx w (bins st1) in
               Ok (set_count (set_bins st1 b) (count st1 + w)%Qc)) = Ok st' /\
    lowest_holds L st' ((k, w) :: hist).
Proof.
  intros Hwf Hk Hne Hc Hmax Hkeys Hcont Hidx Hin.
  destruct (add_in_window st1 idx w Hwf Hne Hin)
    as (st' & Ha & Hwf' & Hk' & Hc' & Hne' & Hmin' & Hmax' & Hcol' & Hcont').
  exists st'. split; [done|]. constructor.
  - done.
  - congruence.
  - rewrite Hc', Hc. cbn [total_weight]. ring.
  - split; [done|discriminate].
  - intros _. congruence.
  - rewrite Hmin', Hcol'. done.
  - intros j. rewrite Hcont', Hmax', Hcont. unfold clamped. cbn [map weight_of fst snd].
    fold (clamped (max_key st1 - L + 1) hist). repeat case_decide; try ring; lia.
Qed.

(** [extend_range(key)] on a store that is not collapsed, when the new
    range fits in [bin_limit] bins. *)
Lemma collapsing_extend_fits st L k :
  wf st -> collapsing (kind st) L -> is_collapsed st = false ->
  let nmin := Z.min k (Z.min k (min_key st)) in
  let nmax := Z.max k (Z.max k (max_key st)) in
  nmax - nmin + 1 <= L ->
  exists st1, extend_range st k k = Ok st1 /\ extended st st1 nmin nmax /\ wf st1.
Proof.
  intros Hwf Hk Hcol nmin nmax Hfit.
  destruct (collapsing_wf_kind _ _ Hwf Hk) as (HL & HlL & _).
  pose proof (collapsing_get_new_length st L nmin nmax Hk) as Hg.
  pose proof (ceil_div_spec (nmax - nmin + 1) (chunk_size st) (wf_chunk _ Hwf)).
  destruct (extend_range_fits st k k Hwf) as (st1 & He & Hx); [fold nmin nmax; lia|].
  exists st1. split; [done|]. split; [done|].
  apply (extended_wf st st1 nmin nmax Hwf Hx); try (unfold nmin, nmax; lia).
  pose proof Hx as [Hk1 _ _ Hc1 _ _ _ Hl1 _ _].
  apply (collapsing_kind_wf_intro _ L); [by rewrite Hk1 | done | |by rewrite Hc1, Hcol].
  fold nmin nmax in Hl1. lia.
Qed.

(** What a collapse at [T] does to the clamped counts. *)
Lemma lowest_collapse_content L st hist st1 T M :
  lowest_holds L st hist -> hist <> [] -> max_key st - L + 1 <= T ->
  collapsed_to st st1 T M L -> forall j, content st1 j = weight_of (clamped T hist) j.
Proof.
  intros Hh Hne HT Hc j. pose proof (lh_wf _ _ _ Hh) as Hwf.
  assert (Hbne : bins st <> []) by (intro Hb; by apply (lh_empty _ _ _ Hh) in Hb).
  assert (Hoff : Forall (fun kw => offset st <= kw.1) (clamped (max_key st - L + 1) hist)).
  { pose proof (lowest_threshold_offset st L Hwf (lh_kind _ _ _ Hh) Hbne) as H0.
    unfold clamped. apply Forall_fmap. destruct (is_collapsed st) eqn:Hcol.
    - pose proof (collapsing_wf_kind _ _ Hwf (or_introl (lh_kind _ _ _ Hh))) as Hkw.
      destruct Hkw as (_ & _ & Hkw). destruct (Hkw Hcol) as (Ho & Hm & Hl).
      apply Forall_forall. intros kw _. cbn [compose fst snd]. lia.
    - eapply Forall_impl; [|exact (lh_keys _ _ _ Hh Hcol)]. intros kw Hkw. cbn [compose fst snd].
      cbv beta in Hkw. destruct (wf_window _ Hwf Hbne). lia. }
  rewrite (col_content _ _ _ _ _ Hc). repeat case_decide.
  - symmetry. apply clamped_below. done.
  - subst j. rewrite (cumulative_weight st _ T (lh_content _ _ _ Hh) Hoff).
    rewrite clamped_upto, clamped_at by done. done.
  - rewrite (lh_content _ _ _ Hh). symmetry. apply clamped_above; lia.
Qed.

Lemma add_get_index st k w st1 idx :
  get_index st k = Ok (st1, idx) ->
  add st k w = (let* b := add_at idx w (bins st1) in
                Ok (set_count (set_bins st1 b) (count st1 + w)%Qc)).
Proof. intros H. unfold add. rewrite H. reflexivity. Qed.

Lemma extended_nonempty st st1 nmin nmax :
  extended st st1 nmin nmax -> nmin <= nmax -> bins st1 <> [].
Proof.
  intros Hx Hle Hb. destruct Hx as [_ _ _ _ _ _ Hw _ _ _].
  unfold Store.length, size in Hw. rewrite Hb in Hw. cbn in Hw. lia.
Qed.

(** The first [add] of a collapsing-lowest store. *)
Lemma lowest_add_first L st k w :
  lowest_holds L st [] -> INT64_MIN <= k <= INT64_MAX ->
  exists st', add st k w = Ok st' /\ lowest_holds L st' [(k, w)].
Proof.
  intros Hh Hk. pose proof (lh_wf _ _ _ Hh) as Hwf. pose proof (lh_kind _ _ _ Hh) as Hkd.
  assert (Hb : bins st = []) by (by apply (lh_empty _ _ _ Hh)).
  destruct (wf_empty _ Hwf Hb) as (Hmin & Hmax & Hcol).
  destruct (collapsing_extend_fits st L k Hwf (or_introl Hkd) Hcol) as (st1 & He & Hx & Hwf1).
  { pose proof (collapsing_wf_kind _ _ Hwf (or_introl Hkd)) as Hkw.
    rewrite Hmin, Hmax. unfold INT64_MIN, INT64_MAX in *. lia. }
  pose proof Hx as [Hk1 Hc1 _ Hcol1 Hmin1 Hmax1 _ _ Hcont1 _].
  rewrite Hmin in Hmin1. rewrite Hmax in Hmax1. unfold INT64_MIN, INT64_MAX in *.
  replace (Z.min k (Z.min k 9223372036854775807)) with k in Hmin1 by lia.
  replace (Z.max k (Z.max k (-9223372036854775808))) with k in Hmax1 by lia.
  assert (Hgi : get_index st k = Ok (st1, k - offset st1)).
  { unfold get_index. rewrite Hkd. unfold lowest_get_index. rewrite Hmin, Hmax, Hcol.
    unfold INT64_MIN, INT64_MAX. destruct (Z.ltb_spec k 9223372036854775807).
    - rewrite He. cbn [res_bind]. by rewrite Hcol1, Hcol.
    - zbool. by rewrite He. }
  rewrite (add_get_index _ _ _ _ _ Hgi).
  pose proof (collapsing_wf_kind _ _ Hwf (or_introl Hkd)) as Hkw.
  apply lowest_finish; try congruence.
  - apply (extended_nonempty _ _ _ _ Hx). lia.
  - rewrite Hc1. apply (lh_count _ _ _ Hh).
  - rewrite Hmax1. cbn. unfold INT64_MIN. lia.
  - intros _. constructor; [cbn; lia | constructor].
  - intros j. rewrite Hcont1, (lh_content _ _ _ Hh). reflexivity.
  - lia.
  - lia.
Qed.

(** Facts of a non-empty collapsing-lowest store. *)
Lemma lowest_nonempty_facts L st hist :
  lowest_holds L st hist -> hist <> [] ->
  bins st <> [] /\ 0 < L /\ length st <= L /\
  offset st <= min_key st <= max_key st /\ max_key st < offset st + length st /\
  max_key st = keys_max hist /\
  (is_collapsed st = true -> offset st = min_key st /\ min_key st = max_key st - L + 1).
Proof.
  intros Hh Hne. pose proof (lh_wf _ _ _ Hh) as Hwf.
  assert (Hb : bins st <> []) by (intro Hb; by apply (lh_empty _ _ _ Hh) in Hb).
  pose proof (collapsing_wf_kind _ _ Hwf (or_introl (lh_kind _ _ _ Hh))) as Hkw.
  destruct (wf_window _ Hwf Hb) as [Hw1 Hw2]. destruct Hkw as (HL & HlL & Hc).
  split; [done|]. split; [done|]. split; [done|]. split; [done|]. split; [done|].
  split; [by apply (lh_max _ _ _ Hh)|]. intros Hcol. specialize (Hc Hcol). lia.
Qed.

(** [add] of a key below [min_key]. *)
Lemma lowest_add_below L st hist k w :
  lowest_holds L st hist -> hist <> [] -> k < min_key st ->
  exists st', add st k w = Ok st' /\ lowest_holds L st' ((k, w) :: hist).
Proof.
  intros Hh Hne Hk. pose proof (lh_wf _ _ _ Hh) as Hwf. pose proof (lh_kind _ _ _ Hh) as Hkd.
  destruct (lowest_nonempty_facts _ _ _ Hh Hne) as (Hb & HL & HlL & Hw1 & Hw2 & HM & Hcf).
  assert (HMk : keys_max ((k, w) :: hist) = max_key st) by (cbn; lia).
  destruct (is_collapsed st) eqn:Hcol.
  - (* collapsed: [get_index] returns the first bin *)
    specialize (Hcf eq_refl).
    assert (Hgi : get_index st k = Ok (st, 0)).
    { unfold get_index. rewrite Hkd. unfold lowest_get_index. zbool. by rewrite Hcol. }
    rewrite (add_get_index _ _ _ _ _ Hgi).
    apply lowest_finish; try done; try lia.
    + apply (lh_count _ _ _ Hh).
    + intros Hf. congruence.
    + apply (lh_content _ _ _ Hh).
  - destruct (Z.leb_spec (max_key st - k + 1) L) as [Hfit|Hnf].
    + destruct (collapsing_extend_fits st L k Hwf (or_introl Hkd) Hcol) as (st1 & He & Hx & Hwf1); [lia|].
      pose proof Hx as [Hk1 Hc1 _ Hcol1 Hmin1 Hmax1 _ _ Hcont1 _].
      replace (Z.min k (Z.min k (min_key st))) with k in Hmin1 by lia.
      replace (Z.max k (Z.max k (max_key st))) with (max_key st) in Hmax1 by lia.
      assert (Hgi : get_index st k = Ok (st1, k - offset st1)).
      { unfold get_index. rewrite Hkd. unfold lowest_get_index. zbool. rewrite Hcol, He.
        cbn [res_bind]. by rewrite Hcol1, Hcol. }
      rewrite (add_get_index _ _ _ _ _ Hgi).
      apply lowest_finish; try congruence; try lia.
      * apply (extended_nonempty _ _ _ _ Hx). lia.
      * rewrite Hc1. apply (lh_count _ _ _ Hh).
      * intros _. rewrite Hmin1. constructor; [cbn; lia|].
        eapply Forall_impl; [|exact (lh_keys _ _ _ Hh Hcol)]. cbn. lia.
      * intros j. rewrite Hcont1, Hmax1. apply (lh_content _ _ _ Hh).
    + destruct (lowest_extend_collapse st L k Hwf Hkd Hb) as (st1 & He & Hc).
      { lia. }
      { intros H. exfalso. lia. }
      replace (Z.max k (Z.max k (max_key st))) with (max_key st) in Hc by lia.
      pose proof Hc as [Hk1 Hc1 _ Hcol1 Ho1 Hmin1 Hmax1 Hlen1 _ _].
      assert (Hgi : get_index st k = Ok (st1, 0)).
      { unfold get_index. rewrite Hkd. unfold lowest_get_index. zbool. rewrite Hcol, He.
        cbn [res_bind]. by rewrite Hcol1. }
      rewrite (add_get_index _ _ _ _ _ Hgi).
      apply lowest_finish; try congruence; try lia.
      * apply (collapsed_wf st st1 L (max_key st)); try done; try lia; congruence.
      * intros Hb1. unfold Store.length, size in Hlen1. rewrite Hb1 in Hlen1. cbn in Hlen1. lia.
      * rewrite Hc1. apply (lh_count _ _ _ Hh).
      * intros j. rewrite Hmax1. apply (lowest_collapse_content L st hist st1 _ (max_key st)); done || lia.
Qed.

(** [add] of a key above [max_key]. *)
Lemma lowest_add_above L st hist k w :
  lowest_holds L st hist -> hist <> [] -> max_key st < k ->
  exists st', add st k w = Ok st' /\ lowest_holds L st' ((k, w) :: hist).
Proof.
  intros Hh Hne Hk. pose proof (lh_wf _ _ _ Hh) as Hwf. pose proof (lh_kind _ _ _ Hh) as Hkd.
  destruct (lowest_nonempty_facts _ _ _ Hh Hne) as (Hb & HL & HlL & Hw1 & Hw2 & HM & Hcf).
  assert (HMk : keys_max ((k, w) :: hist) = k) by (cbn; lia).
  assert (Hgi : forall st1, extend_range st k k = Ok st1 ->
            get_index st k = Ok (st1, k - offset st1)).
  { intros st1 He. unfold get_index. rewrite Hkd. unfold lowest_get_index. zbool.
    by rewrite He. }
  destruct (Z.leb_spec (k - min_key st + 1) L) as [Hfit|Hnf].
  - assert (Hcol : is_collapsed st = false).
    { destruct (is_collapsed st) eqn:Hcol; [|done]. specialize (Hcf eq_refl). lia. }
    destruct (collapsing_extend_fits st L k Hwf (or_introl Hkd) Hcol) as (st1 & He & Hx & Hwf1); [lia|].
    pose proof Hx as [Hk1 Hc1 _ Hcol1 Hmin1 Hmax1 _ _ Hcont1 _].
    replace (Z.min k (Z.min k (min_key st))) with (min_key st) in Hmin1 by lia.
    replace (Z.max k (Z.max k (max_key st))) with k in Hmax1 by lia.
    rewrite (add_get_index _ _ _ _ _ (Hgi _ He)).
    pose proof (lh_keys _ _ _ Hh Hcol) as Hkeys.
    apply lowest_finish; try congruence; try lia.
    + apply (extended_nonempty _ _ _ _ Hx). lia.
    + rewrite Hc1. apply (lh_count _ _ _ Hh).
    + intros _. rewrite Hmin1. by constructor; [cbn; lia|].
    + intros j. rewrite Hcont1, Hmax1, (lh_content _ _ _ Hh), !clamped_id; [done| |];
        (eapply Forall_impl; [|exact Hkeys]); cbn; lia.
  - destruct (lowest_extend_collapse st L k Hwf Hkd Hb) as (st1 & He & Hc).
    { lia. }
    { intros _. lia. }
    replace (Z.max k (Z.max k (max_key st))) with k in Hc by lia.
    pose proof Hc as [Hk1 Hc1 _ Hcol1 Ho1 Hmin1 Hmax1 Hlen1 _ _].
    rewrite (add_get_index _ _ _ _ _ (Hgi _ He)).
    apply lowest_finish; try congruence; try lia.
    + apply (collapsed_wf st st1 L k); try done; try lia; congruence.
    + intros Hb1. unfold Store.length, size in Hlen1. rewrite Hb1 in Hlen1. cbn in Hlen1. lia.
    + rewrite Hc1. apply (lh_count _ _ _ Hh).
    + intros j. rewrite Hmax1. apply (lowest_collapse_content L st hist st1 _ k); done || lia.
Qed.

(** [add] of a key inside [[min_key, max_key]]. *)
Lemma lowest_add_inside L st hist k w :
  lowest_holds L st hist -> hist <> [] -> min_key st <= k <= max_key st ->
  exists st', add st k w = Ok st' /\ lowest_holds L st' ((k, w) :: hist).
Proof.
  intros Hh Hne Hk. pose proof (lh_wf _ _ _ Hh) as Hwf. pose proof (lh_kind _ _ _ Hh) as Hkd.
  destruct (lowest_nonempty_facts _ _ _ Hh Hne) as (Hb & HL & HlL & Hw1 & Hw2 & HM & Hcf).
  pose proof (lowest_threshold_offset st L Hwf Hkd Hb) as HT.
  assert (Hgi : get_index st k = Ok (st, k - offset st)).
  { unfold get_index. rewrite Hkd. unfold lowest_get_index. by zbool. }
  rewrite (add_get_index _ _ _ _ _ Hgi).
  apply lowest_finish; try done; try lia.
  - apply (lh_count _ _ _ Hh).
  - cbn. lia.
  - intros Hcol. constructor; [cbn; lia|]. apply (lh_keys _ _ _ Hh Hcol).
  - apply (lh_content _ _ _ Hh).
Qed.

(** ** Replaying insertions *)

Lemma keys_max_lb l : INT64_MIN <= keys_max l.
Proof. induction l as [|[k w] l IH]; cbn; lia. Qed.

Lemma keys_max_app l1 l2 : keys_max (l1 ++ l2) = Z.max (keys_max l1) (keys_max l2).
Proof.
  induction l1 as [|[k w] l1 IH]; cbn [app keys_max].
  - pose proof (keys_max_lb l2). lia.
  - rewrite IH. lia.
Qed.

Lemma keys_max_rev l : keys_max (rev l) = keys_max l.
Proof.
  induction l as [|[k w] l IH]; [done|]. cbn [rev]. rewrite keys_max_app, IH. cbn.
  pose proof (keys_max_lb l). lia.
Qed.

Lemma weight_of_clamped_rev T l j : weight_of (clamped T (rev l)) j = weight_of (clamped T l) j.
Proof. unfold clamped. by rewrite map_rev, weight_of_rev. Qed.

(** One [add] of an [int64_t] key keeps the invariant. *)
Lemma lowest_add_step L st hist k w :
  lowest_holds L st hist -> INT64_MIN <= k <= INT64_MAX ->
  exists st', add st k w = Ok st' /\ lowest_holds L st' ((k, w) :: hist).
Proof.
  intros Hh Hk. destruct hist as [|kw hist]; [by apply lowest_add_first|].
  assert (Hne : kw :: hist <> []) by done.
  destruct (Z.ltb_spec k (min_key st)); [by apply lowest_add_below|].
  destruct (Z.ltb_spec (max_key st) k); [by apply lowest_add_above|].
  apply lowest_add_inside; [done | done | lia].
Qed.

Lemma lowest_add_all_holds L st hist kws :
  lowest_holds L st hist -> int64_keys kws ->
  exists st', add_all st kws = Ok st' /\ lowest_holds L st' (rev kws ++ hist).
Proof.
  revert st hist. induction kws as [|[k w] kws IH]; intros st hist Hh Hk.
  - by exists st.
  - inversion Hk as [|? ? Hk0 Hks]; subst.
    destruct (lowest_add_step L st hist k w Hh Hk0) as (st1 & Ha & Hh1).
    destruct (IH st1 _ Hh1 Hks) as (st2 & Ha2 & Hh2).
    exists st2. cbn [add_all]. rewrite Ha. cbn [res_bind]. split; [done|].
    cbn [rev]. by rewrite <- app_assoc.
Qed.

Lemma lowest_new_holds L chunk :
  0 < L -> 0 < chunk -> lowest_holds L (CollapsingLowestDenseStore_new L chunk) [].
Proof.
  intros HL Hc. constructor; try done.
  - apply empty_store_wf; [done|]. unfold kind_wf, length, size. cbn. lia.
  - intros j. rewrite content_empty by done. reflexivity.
Qed.

(** ** The collapsing-lowest store after a sequence of insertions *)

Lemma lowest_add_all_correct L chunk kws :
  0 < L -> 0 < chunk -> int64_keys kws ->
  exists st, add_all (CollapsingLowestDenseStore_new L chunk) kws = Ok st /\ wf st /\
    kind st = CollapsingLowest L /\
    count st = total_weight kws /\ (kws <> [] -> max_key st = keys_max kws) /\
    forall j, content st j = weight_of (clamped (keys_max kws - L + 1) kws) j.
Proof.
  intros HL Hc Hk.
  destruct (lowest_add_all_holds L _ [] kws (lowest_new_holds L chunk HL Hc) Hk) as (st & Ha & Hh).
  rewrite app_nil_r in Hh. exists st. split; [done|]. split; [apply (lh_wf _ _ _ Hh)|].
  split; [apply (lh_kind _ _ _ Hh)|].
  split; [by rewrite (lh_count _ _ _ Hh), total_weight_rev|].
  assert (Hm : kws <> [] -> max_key st = keys_max kws).
  { intros Hne. rewrite (lh_max _ _ _ Hh), keys_max_rev; [done|].
    intros Hr. apply Hne. by apply (f_equal (@rev _)) in Hr; rewrite rev_involutive in Hr. }
  split; [done|]. intros j. rewrite (lh_content _ _ _ Hh), weight_of_clamped_rev.
  destruct kws as [|kw kws]; [done|]. by rewrite Hm.
Qed.

