(* ===== verification/CollapsingHighestAdd.v ===== *)
(** * [CollapsingHighestDenseStore::add] keeps the counts of clamped keys
    ([ddsketch.h] lines 620-770)

    The mirror of [CollapsingAdd].  A [CollapsingHighestDenseStore] keeps
    at most [bin_limit] bins; when a key widens the range beyond them,
    [adjust] (lines 707-756) keeps the window [[new_min_key, new_min_key +
    length() - 1]], folds every bin above it into its last bin and marks
    the store collapsed; afterwards [get_index] sends every key above
    [max_key_] to the last bin.  The abstract view counts every inserted
    key [k] at [min(k, min_key + bin_limit - 1)] ([clamped_high]).

    [highest_holds L st hist] is the invariant, [highest_add_step] shows
    that each of the four cases of [get_index] keeps it, and
    [highest_add_all_correct] that a new store fed [int64_t] keys never
    throws and holds the clamped insertions.  The last bin of a collapse
    receives the weight of every key at or above it, written
    [count - cumulative (T - 1)] with the [cumulative] counts of
    [KeyAtRank]. *)

From S2P Require Import Prelude BinList Store StoreFacts DenseStoreSpec KeyAtRank CollapsingAdd.

Local Open Scope Z_scope.
Local Open Scope ddsketch_scope.

(** ** The abstract store *)

(** Every key above [T] counted at [T]. *)
Definition clamped_high (T : Z) (kws : list (Z * Qc)) : list (Z * Qc) :=
  map (fun kw => (Z.min kw.1 T, kw.2)) kws.

(** The smallest key ([numeric_limits<int64_t>::max()] for none). *)
Fixpoint keys_min (kws : list (Z * Qc)) : Z :=
  match kws with
  | [] => INT64_MAX
  | (k, _) :: kws' => Z.min k (keys_min kws')
  end.

(** The invariant of a collapsing-highest store of limit [L] after the
    insertions [hist] (the latest first). *)
Record highest_holds (L : Z) (st : Store) (hist : list (Z * Qc)) : Prop := {
  hh_wf : wf st;
  hh_kind : kind st = CollapsingHighest L;
  hh_count : count st = total_weight hist;
  hh_empty : bins st = [] <-> hist = [];
  hh_min : hist <> [] -> min_key st = keys_min hist;
  hh_keys : is_collapsed st = false -> Forall (fun kw => kw.1 <= max_key st) hist;
  hh_content : forall j, content st j = weight_of (clamped_high (min_key st + L - 1) hist) j
}.

(** What the collapsing branch of [adjust] leaves: the window
    [[B, B + L - 1]], every counter above its top folded into the top. *)
Record collapsed_high_to (st st' : Store) (B L : Z) : Prop := {
  ch_kind : kind st' = kind st;
  ch_count : count st' = count st;
  ch_chunk : chunk_size st' = chunk_size st;
  ch_flag : is_collapsed st' = true;
  ch_offset : offset st' = B;
  ch_min : min_key st' = B;
  ch_max : max_key st' = B + L - 1;
  ch_length : length st' = L;
  ch_sum : accumulate (bins st') = accumulate (bins st);
  ch_content : forall j, content st' j =
    if decide (B + L - 1 < j) then 0%Qc
    else if decide (j = B + L - 1) then (count st - cumulative st (B + L - 2))%Qc
    else content st j
}.

(** ** Clamped weights *)

Section ClampHigh.
Implicit Types (kws : list (Z * Qc)) (T K j : Z).

Lemma clamped_high_below T kws j : j < T -> weight_of (clamped_high T kws) j = weight_of kws j.
Proof.
  unfold clamped_high. intros Hj. induction kws as [|[k w] kws IH]; [done|].
  cbn [map weight_of fst snd]. rewrite IH. repeat case_decide; try done; lia.
Qed.

Lemma clamped_high_above T kws j : T < j -> weight_of (clamped_high T kws) j = 0%Qc.
Proof.
  unfold clamped_high. intros Hj. induction kws as [|[k w] kws IH]; [done|].
  cbn [map weight_of fst snd]. rewrite IH. case_decide; [lia|]. ring.
Qed.

Lemma clamped_high_at T kws :
  weight_of (clamped_high T kws) T = (total_weight kws - weight_upto kws (T - 1))%Qc.
Proof.
  unfold clamped_high. induction kws as [|[k w] kws IH]; cbn [map weight_of weight_upto total_weight fst snd];
    [ring|]. rewrite IH. case_decide; destruct (Z.leb_spec k (T - 1)); try ring; lia.
Qed.

Lemma clamped_high_upto T K kws : K < T -> weight_upto (clamped_high T kws) K = weight_upto kws K.
Proof.
  unfold clamped_high. intros H. induction kws as [|[k w] kws IH]; [done|]. cbn [map weight_upto fst snd].
  rewrite IH. destruct (Z.leb_spec (Z.min k T) K), (Z.leb_spec k K); try ring; lia.
Qed.

Lemma clamped_high_id T kws : Forall (fun kw => kw.1 <= T) kws -> clamped_high T kws = kws.
Proof.
  unfold clamped_high. induction 1 as [|[k w] kws Hk _ IH]; [done|]. cbn [map fst snd] in *.
  rewrite IH. by replace (Z.min k T) with k by lia.
Qed.

Lemma keys_min_le kws k w : In (k, w) kws -> keys_min kws <= k.
Proof.
  induction kws as [|[k' w'] kws IH]; intros Hin; [done|]. cbn.
  destruct Hin as [[= -> ->]|Hin]; [lia|]. specialize (IH Hin). lia.
Qed.

Lemma keys_min_ub kws : keys_min kws <= INT64_MAX.
Proof. induction kws as [|[k w] kws IH]; cbn; lia. Qed.

Lemma keys_min_app l1 l2 : keys_min (l1 ++ l2) = Z.min (keys_min l1) (keys_min l2).
Proof.
  induction l1 as [|[k w] l1 IH]; cbn [app keys_min].
  - pose proof (keys_min_ub l2). lia.
  - rewrite IH. lia.
Qed.

Lemma keys_min_rev l : keys_min (rev l) = keys_min l.
Proof.
  induction l as [|[k w] l IH]; [done|]. cbn [rev]. rewrite keys_min_app, IH. cbn.
  pose proof (keys_min_ub l). lia.
Qed.

Lemma weight_of_clamped_high_rev T l j :
  weight_of (clamped_high T (rev l)) j = weight_of (clamped_high T l) j.
Proof. unfold clamped_high. by rewrite map_rev, weight_of_rev. Qed.

End ClampHigh.

(** ** Cumulative counts from the top *)

Lemma cumulative_split st K1 K2 :
  offset st - 1 <= K1 <= K2 ->
  cumulative st K2 =
    (cumulative st K1 + range_sum (bins st) 0 (Z.to_nat (K2 - K1)) (K1 + 1 - offset st))%Qc.
Proof.
  intros H. unfold cumulative.
  replace (Z.to_nat (K2 - offset st + 1))
    with (Z.to_nat (K1 - offset st + 1) + Z.to_nat (K2 - K1))%nat by lia.
  rewrite range_sum_add, (range_sum_rebase _ (offset st) (Z.to_nat (K2 - K1))). do 3 f_equal. lia.
Qed.

Lemma cumulative_below_min st K : wf st -> K < min_key st -> cumulative st K = 0%Qc.
Proof.
  intros Hwf HK. destruct (Z.ltb_spec K (offset st)); [by apply cumulative_below|].
  unfold cumulative. apply range_sum_zero. intros i Hi.
  destruct (decide (bin_at (bins st) (offset st + i - offset st) = 0%Qc)) as [|Hnz]; [done|].
  exfalso. change (content st (offset st + i) <> 0%Qc) in Hnz.
  apply (wf_support _ Hwf) in Hnz. lia.
Qed.

(** The weight at or above [T] is [count - cumulative (T - 1)]. *)
Lemma suffix_at_top st T :
  wf st -> bins st <> [] -> offset st <= T -> max_key st <= T ->
  (count st - cumulative st (T - 1))%Qc = content st T.
Proof.
  intros Hwf Hne Ho HT. rewrite <- (cumulative_all st T Hwf Hne HT), cumulative_succ by done. ring.
Qed.

(** A well-formed store counts nothing outside [[min_key, max_key]]. *)
Lemma content_unsupported st k :
  wf st -> k < min_key st \/ max_key st < k -> content st k = 0%Qc.
Proof.
  intros Hwf Hk. destruct (decide (content st k = 0%Qc)) as [|Hnz]; [done|].
  apply (wf_support _ Hwf) in Hnz. lia.
Qed.

(** ** The collapsing branches of [CollapsingHighestDenseStore::adjust] *)

(** The new window lies below every key: everything goes to the last bin. *)
Lemma highest_adjust_last_bin st L nmin nmax :
  wf st -> bins st <> [] -> length st = L -> L < nmax - nmin + 1 -> nmin + L - 1 <= min_key st ->
  exists st', highest_adjust st nmin nmax = Ok st' /\ collapsed_high_to st st' nmin L.
Proof.
  intros Hwf Hne HL Hd HT. pose proof (length_pos st Hne) as Hl0.
  unfold highest_adjust. rewrite (proj2 (Z.ltb_lt _ _)) by lia. cbv zeta. rewrite HL.
  rewrite (proj2 (Z.leb_le _ _)) by lia.
  unfold initialize_with_zeros, set_at. zbool. cbn [res_bind guard_ub].
  rewrite size_replicate. zbool. cbn [res_bind guard_ub andb].
  eexists; split; [reflexivity|].
  constructor; unfold Store.length, content in *; simpl_store; try done; try lia.
  - rewrite size_insert, size_replicate. lia.
  - rewrite (accumulate_insert _ _ _ 0%Qc) by (apply lookup_replicate; split; [done | lia]).
    rewrite accumulate_replicate_0, (wf_sum _ Hwf). ring.
  - intros j. rewrite bin_at_insert, bin_at_replicate_0, length_replicate.
    repeat case_decide; try lia; try done.
    + rewrite cumulative_below_min by (done || lia). ring.
    + symmetry. apply (content_unsupported st j Hwf). lia.
Qed.

(** The window moves up (or stays) and already holds every key. *)
Lemma highest_adjust_shift st L nmin nmax :
  wf st -> bins st <> [] -> length st = L -> L < nmax - nmin + 1 -> nmin <= min_key st ->
  min_key st < nmin + L - 1 -> offset st <= nmin -> max_key st <= nmin + L - 1 ->
  exists st', highest_adjust st nmin nmax = Ok st' /\ collapsed_high_to st st' nmin L.
Proof.
  intros Hwf Hne HL Hd Hm HT Ho HM. destruct (wf_window _ Hwf Hne) as [[Ho1 Ho2] Hw].
  unfold highest_adjust. rewrite (proj2 (Z.ltb_lt _ _)) by lia. cbv zeta. rewrite HL.
  rewrite (proj2 (Z.leb_gt _ _)) by lia. rewrite (proj2 (Z.ltb_ge _ _)) by lia.
  destruct (shift_bins_spec (set_max_key st (nmin + L - 1)) (offset st - nmin))
    as (st2 & Hsh & Heq & Hlen & Hc & Hacc).
  { unfold Store.length in *. simpl_store. lia. }
  rewrite Hsh. cbn [res_bind]. eexists; split; [reflexivity|].
  unfold Store.length in *. simpl_store. rewrite HL in Hc, Hacc.
  replace (offset st - (offset st - nmin)) with nmin in Hc, Hacc by lia.
  rewrite Heq in Hc, Hlen |- *. constructor; simpl_store; try done; try lia.
  - unfold Store.length. simpl_store. lia.
  - apply Hacc. intros k Hk. apply (content_unsupported st k Hwf). lia.
  - intros j. etransitivity; [apply Hc|]. repeat case_decide; try lia; try done.
    + subst j. transitivity (content st (nmin + L - 1)); [reflexivity|].
      rewrite <- (suffix_at_top st (nmin + L - 1)) by (done || lia). replace (nmin + L - 2) with (nmin + L - 1 - 1) by lia. reflexivity.
    + symmetry. apply (content_unsupported st j Hwf). lia.
Qed.

(** The weight of the keys [[T, max_key]] is [count - cumulative (T - 1)]. *)
Lemma suffix_split st T :
  wf st -> bins st <> [] -> offset st <= T < max_key st ->
  (count st - cumulative st (T - 1))%Qc =
  (content st T + range_sum (bins st) 0 (Z.to_nat (max_key st - T)) (T + 1 - offset st))%Qc.
Proof.
  intros Hwf Hne HT. rewrite <- (cumulative_all st (max_key st) Hwf Hne) by lia.
  rewrite (cumulative_split st T (max_key st)), cumulative_succ by lia. ring.
Qed.

(** The new window starts below the old one: the bins above its top are
    folded into the top, then the window moves down. *)
Lemma highest_adjust_fold st L nmin nmax :
  wf st -> bins st <> [] -> length st = L -> L < nmax - nmin + 1 -> nmin <= min_key st ->
  min_key st < nmin + L - 1 -> nmin < offset st -> nmin + L - 1 < max_key st ->
  exists st', highest_adjust st nmin nmax = Ok st' /\ collapsed_high_to st st' nmin L.
Proof.
  intros Hwf Hne HL Hd Hm HT Ho HM. destruct (wf_window _ Hwf Hne) as [[Ho1 Ho2] Hw].
  assert (Hsz : size (bins st) = L) by (rewrite <- HL; reflexivity).
  unfold highest_adjust. rewrite (proj2 (Z.ltb_lt _ _)) by lia. cbv zeta. rewrite HL.
  rewrite (proj2 (Z.leb_gt _ _)) by lia. rewrite (proj2 (Z.ltb_lt _ _)) by lia.
  set (T := nmin + L - 1) in *.
  unfold collapsed_count, index_outside_bounds, replace_range_with_zeros. zbool.
  cbn [orb negb guard_ub res_bind andb].
  replace (max_key st - T) with (max_key st - offset st + 1 - (T - offset st + 1)) by lia.
  set (s := T - offset st + 1) in *. set (e := max_key st - offset st + 1) in *.
  set (C := accumulate (take (Z.to_nat (e - s)) (drop (Z.to_nat s) (bins st)))).
  set (b1 := take (Z.to_nat s) (bins st) ++ replicate (Z.to_nat (e - s)) 0%Qc ++ drop (Z.to_nat e) (bins st)).
  assert (Hb1 : size b1 = L).
  { unfold b1. rewrite !size_app, size_take, size_replicate, size_drop. lia. }
  unfold add_at. rewrite Hb1. zbool. cbn [guard_ub res_bind andb].
  set (b2 := alter (fun x => (x + C)%Qc) (Z.to_nat (s - 1)) b1).
  assert (Hb2 : forall i, bin_at b2 i =
            if decide (i = s - 1) then (bin_at (bins st) (s - 1) + C)%Qc
            else if decide (s <= i < e) then 0%Qc else bin_at (bins st) i).
  { intros i. unfold b2. rewrite bin_at_alter_add. unfold b1.
    rewrite !bin_at_replace_range by lia.
    assert (Hl1 : Z.of_nat (List.length b1) = L) by exact Hb1.
    fold b1. repeat case_decide; subst; try lia; try done. }
  assert (HC : (count st - cumulative st (T - 1))%Qc = (bin_at (bins st) (s - 1) + C)%Qc).
  { rewrite suffix_split by (done || lia). unfold C. rewrite accumulate_take_drop_range by lia.
    unfold content, s, e. replace (T - offset st + 1 - 1) with (T - offset st) by lia.
    replace (max_key st - offset st + 1 - (T - offset st + 1)) with (max_key st - T) by lia.
    by replace (T + 1 - offset st) with (T - offset st + 1) by lia. }
  destruct (shift_bins_spec (set_max_key (set_bins st b2) T) (offset st - nmin))
    as (st2 & Hsh & Heq & Hlen & Hc & Hacc).
  { unfold Store.length. simpl_store. unfold b2. rewrite size_alter. lia. }
  rewrite Hsh. cbn [res_bind]. eexists; split; [reflexivity|].
  assert (Hlb2 : size b2 = L) by (unfold b2; rewrite size_alter; done).
  assert (Hc2 : forall j, content st2 j =
            if decide (nmin <= j < nmin + L) then bin_at b2 (j - offset st) else 0%Qc).
  { intros j. rewrite Hc. unfold Store.length. simpl_store. rewrite Hlb2.
    replace (offset st - (offset st - nmin)) with nmin by lia. reflexivity. }
  rewrite Heq in Hc2 |- *. unfold Store.length in *.
  constructor; simpl_store; try done; try lia.
  - unfold Store.length. simpl_store. lia.
  - rewrite Hacc.
    + unfold b2. rewrite accumulate_alter_add by (unfold size in Hb1; lia).
      unfold b1, C. rewrite !accumulate_app, accumulate_replicate_0.
      rewrite <- (accumulate_take_drop (Z.to_nat s) (bins st)).
      rewrite <- (accumulate_take_drop (Z.to_nat (e - s)) (drop (Z.to_nat s) (bins st))).
      rewrite drop_drop. replace (Z.to_nat s + Z.to_nat (e - s))%nat with (Z.to_nat e) by lia.
      ring.
    + intros k Hko. unfold content. simpl_store. rewrite Hlb2 in Hko. rewrite Hb2.
      repeat case_decide; unfold s, e, T in *; try lia; try done;
        first [apply bin_at_neg; lia | apply (content_unsupported st k Hwf); lia].
  - intros j. etransitivity; [|etransitivity; [apply Hc2|]]; [reflexivity|].
    rewrite Hb2. repeat case_decide; unfold s, e, T in *; try lia; try done;
      first [ replace (nmin + L - 2) with (nmin + L - 1 - 1) by lia; by rewrite HC
            | symmetry; apply (content_unsupported st j Hwf); lia ].
Qed.

Lemma highest_adjust_collapse st L nmin nmax :
  wf st -> bins st <> [] -> length st = L -> L < nmax - nmin + 1 -> nmin <= min_key st ->
  (nmin < offset st -> nmax <= max_key st) -> (offset st <= nmin -> max_key st <= nmin + L - 1) ->
  exists st', highest_adjust st nmin nmax = Ok st' /\ collapsed_high_to st st' nmin L.
Proof.
  intros Hwf Hne HL Hd Hm Hlo Hhi.
  destruct (Z.leb_spec (nmin + L - 1) (min_key st)); [by apply highest_adjust_last_bin|].
  destruct (Z.ltb_spec nmin (offset st)) as [Ho|Ho].
  - specialize (Hlo Ho). apply highest_adjust_fold; (done || lia).
  - specialize (Hhi Ho). apply highest_adjust_shift; (done || lia).
Qed.

(** The collapsed store is well formed. *)
Lemma collapsed_high_wf st st' B L :
  wf st -> 0 < L -> B <= min_key st -> collapsed_high_to st st' B L ->
  kind st' = CollapsingHighest L -> wf st'.
Proof.
  intros Hwf HL HB [Hk Hc Hch Hf Ho Hmin Hmax Hlen Hsum Hcont] Hk'.
  constructor.
  - rewrite Hch. apply (wf_chunk _ Hwf).
  - rewrite Hsum, Hc. apply (wf_sum _ Hwf).
  - intros Hb. exfalso. assert (Hs : size (bins st') = L) by exact Hlen.
    rewrite Hb in Hs. unfold size in Hs. cbn in Hs. lia.
  - intros _. lia.
  - intros j Hj. rewrite Hcont in Hj. repeat case_decide; try done; try lia.
    apply (wf_support _ Hwf) in Hj. lia.
  - apply (collapsing_kind_wf_intro _ L); [by right | done | lia | lia].
Qed.

(** A collapse of the grown store is a collapse of the store. *)
Lemma collapsed_high_grown st st' (m : nat) B L :
  collapsed_high_to (set_bins st (bins st ++ replicate m 0%Qc)) st' B L -> collapsed_high_to st st' B L.
Proof.
  intros [Hk Hc Hch Hf Ho Hmin Hmax Hlen Hsum Hcont]. constructor; simpl_store; try done.
  - rewrite Hsum, accumulate_app, accumulate_replicate_0. ring.
  - intros j. rewrite Hcont, grown_content.
    rewrite (cumulative_ext st) by (done || apply grown_content). done.
Qed.

(** [extend_range(key)] on a non-empty collapsing-highest store when the
    new range is wider than [bin_limit]: the bins grow to [bin_limit] and
    [adjust] collapses. *)
Lemma highest_extend_collapse st L k :
  wf st -> kind st = CollapsingHighest L -> bins st <> [] ->
  let nmin := Z.min k (Z.min k (min_key st)) in
  let nmax := Z.max k (Z.max k (max_key st)) in
  L < nmax - nmin + 1 ->
  (nmin < offset st -> nmax <= max_key st) -> (offset st <= nmin -> max_key st <= nmin + L - 1) ->
  exists st', extend_range st k k = Ok st' /\ collapsed_high_to st st' nmin L.
Proof.
  intros Hwf Hk Hne nmin nmax Hd Hlo Hhi.
  destruct (collapsing_wf_kind _ _ Hwf (or_intror Hk)) as (HL & HlL & Hcol).
  destruct (wf_window _ Hwf Hne) as [[Ho1 Ho2] Hw].
  pose proof (length_pos st Hne) as Hl0.
  assert (Hgl : get_new_length st nmin nmax = L)
    by (apply (collapsing_get_new_length_cap _ _ _ L); [by right | apply (wf_chunk _ Hwf) | done]).
  unfold extend_range. fold nmin nmax.
  assert (He : is_empty st = false).
  { unfold is_empty, kEmptyStoreLength. apply Z.eqb_neq. lia. }
  rewrite He.
  replace ((min_key st <=? nmin) && (nmax <? offset st + length st)) with false
    by (symmetry; apply andb_false_iff; destruct (Z.leb_spec (min_key st) nmin);
        [right; apply Z.ltb_ge; unfold nmin, nmax in *; lia | by left]).
  rewrite Hgl. destruct (Z.ltb_spec (length st) L) as [Hlt|Hge].
  - unfold extend_back_with_zeros. zbool. cbn [guard_ub res_bind].
    set (m := Z.to_nat (L - length st)).
    destruct (highest_adjust_collapse (set_bins st (bins st ++ replicate m 0%Qc)) L nmin nmax)
      as (st' & Ha & Hc); simpl_store; try done.
    + apply (collapsing_grow_wf _ L); unfold m; (by right) || done || lia.
    + intros Hb. by apply app_eq_nil in Hb as [? _].
    + unfold Store.length. simpl_store. rewrite size_app, size_replicate. fold (length st).
      unfold m. lia.
    + unfold nmin. lia.
    + exists st'. split; [|by apply collapsed_high_grown in Hc].
      unfold adjust. simpl_store. by rewrite Hk.
  - assert (HlenL : length st = L) by lia.
    destruct (highest_adjust_collapse st L nmin nmax) as (st' & Ha & Hc); try done.
    + unfold nmin. lia.
    + exists st'. split; [|done]. zbool. cbn [res_bind]. unfold adjust. by rewrite Hk.
Qed.

(** ** [add] *)

(** The final step of [add] on a collapsing-highest store. *)
Lemma highest_finish L st1 hist k w idx :
  wf st1 -> kind st1 = CollapsingHighest L -> bins st1 <> [] ->
  count st1 = total_weight hist ->
  min_key st1 = keys_min ((k, w) :: hist) ->
  (is_collapsed st1 = false -> Forall (fun kw => kw.1 <= max_key st1) ((k, w) :: hist)) ->
  (forall j, content st1 j = weight_of (clamped_high (min_key st1 + L - 1) hist) j) ->
  idx + offset st1 = Z.min k (min_key st1 + L - 1) ->
  min_key st1 <= idx + offset st1 <= max_key st1 ->
  exists st', (let* b := add_at idx w (bins st1) in
               Ok (set_count (set_bins st1 b) (count st1 + w)%Qc)) = Ok st' /\
    highest_holds L st' ((k, w) :: hist).
Proof.
  intros Hwf Hk Hne Hc Hmin Hkeys Hcont Hidx Hin.
  destruct (add_in_window st1 idx w Hwf Hne Hin)
    as (st' & Ha & Hwf' & Hk' & Hc' & Hne' & Hmin' & Hmax' & Hcol' & Hcont').
  exists st'. split; [done|]. constructor.
  - done.
  - congruence.
  - rewrite Hc', Hc. cbn [total_weight]. ring.
  - split; [done|discriminate].
  - intros _. congruence.
  - rewrite Hmax', Hcol'. done.
  - intros j. rewrite Hcont', Hmin', Hcont. unfold clamped_high. cbn [map weight_of fst snd].
    fold (clamped_high (min_key st1 + L - 1) hist). repeat case_decide; try ring; lia.
Qed.

(** Facts of a non-empty collapsing-highest store. *)
Lemma highest_nonempty_facts L st hist :
  highest_holds L st hist -> hist <> [] ->
  bins st <> [] /\ 0 < L /\ length st <= L /\
  offset st <= min_key st <= max_key st /\ max_key st < offset st + length st /\
  min_key st = keys_min hist /\ Forall (fun kw => min_key st <= kw.1) hist /\
  (is_collapsed st = true -> offset st = min_key st /\ max_key st = min_key st + L - 1).
Proof.
  intros Hh Hne. pose proof (hh_wf _ _ _ Hh) as Hwf.
  assert (Hb : bins st <> []) by (intro Hb; by apply (hh_empty _ _ _ Hh) in Hb).
  destruct (collapsing_wf_kind _ _ Hwf (or_intror (hh_kind _ _ _ Hh))) as (HL & HlL & Hc).
  destruct (wf_window _ Hwf Hb) as [Hw1 Hw2].
  split; [done|]. split; [done|]. split; [done|]. split; [done|]. split; [done|].
  split; [by apply (hh_min _ _ _ Hh)|].
  split.
  - apply List.Forall_forall. intros [k w] Hin. rewrite (hh_min _ _ _ Hh Hne). exact (keys_min_le _ _ _ Hin).
  - intros Hcol. specialize (Hc Hcol). lia.
Qed.

(** What a collapse at [[B, B + L - 1]] does to the clamped counts. *)
Lemma highest_collapse_content L st hist st1 B :
  highest_holds L st hist -> hist <> [] -> B <= min_key st ->
  collapsed_high_to st st1 B L -> forall j, content st1 j = weight_of (clamped_high (B + L - 1) hist) j.
Proof.
  intros Hh Hne HB Hc j.
  destruct (highest_nonempty_facts _ _ _ Hh Hne) as (Hb & HL & HlL & Hw1 & Hw2 & HM & Hkeys & Hcf).
  assert (Hoff : Forall (fun kw => offset st <= kw.1) (clamped_high (min_key st + L - 1) hist)).
  { unfold clamped_high. apply Forall_fmap. eapply List.Forall_impl; [|exact Hkeys].
    intros kw Hkw. cbv beta in Hkw. cbn [compose fst snd]. lia. }
  rewrite (ch_content _ _ _ _ Hc). repeat case_decide.
  - symmetry. apply clamped_high_above. done.
  - subst j. rewrite (cumulative_weight st _ _ (hh_content _ _ _ Hh) Hoff), (hh_count _ _ _ Hh).
    rewrite clamped_high_upto by lia. rewrite clamped_high_at. by replace (B + L - 1 - 1) with (B + L - 2) by lia.
  - rewrite (hh_content _ _ _ Hh), !clamped_high_below by lia. done.
Qed.

(** The first [add] of a collapsing-highest store. *)
Lemma highest_add_first L st k w :
  highest_holds L st [] -> INT64_MIN <= k <= INT64_MAX ->
  exists st', add st k w = Ok st' /\ highest_holds L st' [(k, w)].
Proof.
  intros Hh Hk. pose proof (hh_wf _ _ _ Hh) as Hwf. pose proof (hh_kind _ _ _ Hh) as Hkd.
  assert (Hb : bins st = []) by (by apply (hh_empty _ _ _ Hh)).
  destruct (wf_empty _ Hwf Hb) as (Hmin & Hmax & Hcol).
  pose proof (collapsing_wf_kind _ _ Hwf (or_intror Hkd)) as Hkw.
  destruct (collapsing_extend_fits st L k Hwf (or_intror Hkd) Hcol) as (st1 & He & Hx & Hwf1).
  { rewrite Hmin, Hmax. unfold INT64_MIN, INT64_MAX in *. lia. }
  pose proof Hx as [Hk1 Hc1 _ Hcol1 Hmin1 Hmax1 _ _ Hcont1 _].
  rewrite Hmin in Hmin1. rewrite Hmax in Hmax1. unfold INT64_MIN, INT64_MAX in *.
  replace (Z.min k (Z.min k 9223372036854775807)) with k in Hmin1 by lia.
  replace (Z.max k (Z.max k (-9223372036854775808))) with k in Hmax1 by lia.
  assert (Hgi : get_index st k = Ok (st1, k - offset st1)).
  { unfold get_index. rewrite Hkd. unfold highest_get_index. rewrite Hmin, Hmax, Hcol.
    unfold INT64_MIN, INT64_MAX. destruct (Z.ltb_spec (-9223372036854775808) k).
    - rewrite He. cbn [res_bind]. by rewrite Hcol1, Hcol.
    - zbool. by rewrite He. }
  rewrite (add_get_index _ _ _ _ _ Hgi).
  apply highest_finish; try congruence.
  - apply (extended_nonempty _ _ _ _ Hx). lia.
  - rewrite Hc1. apply (hh_count _ _ _ Hh).
  - rewrite Hmin1. cbn. unfold INT64_MAX. lia.
  - intros _. constructor; [cbn; lia | constructor].
  - intros j. rewrite Hcont1, (hh_content _ _ _ Hh). reflexivity.
  - lia.
  - lia.
Qed.

(** [add] of a key above [max_key]. *)
Lemma highest_add_above L st hist k w :
  highest_holds L st hist -> hist <> [] -> max_key st < k ->
  exists st', add st k w = Ok st' /\ highest_holds L st' ((k, w) :: hist).
Proof.
  intros Hh Hne Hk. pose proof (hh_wf _ _ _ Hh) as Hwf. pose proof (hh_kind _ _ _ Hh) as Hkd.
  destruct (highest_nonempty_facts _ _ _ Hh Hne) as (Hb & HL & HlL & Hw1 & Hw2 & HM & Hkeys & Hcf).
  assert (HMk : keys_min ((k, w) :: hist) = min_key st) by (cbn; lia).
  destruct (is_collapsed st) eqn:Hcol.
  - (* collapsed: [get_index] returns the last bin *)
    specialize (Hcf eq_refl).
    assert (Hgi : get_index st k = Ok (st, length st - 1)).
    { unfold get_index. rewrite Hkd. unfold highest_get_index. zbool. by rewrite Hcol. }
    rewrite (add_get_index _ _ _ _ _ Hgi).
    apply highest_finish; try done; try lia.
    + apply (hh_count _ _ _ Hh).
    + intros Hf. congruence.
    + apply (hh_content _ _ _ Hh).
  - destruct (Z.leb_spec (k - min_key st + 1) L) as [Hfit|Hnf].
    + destruct (collapsing_extend_fits st L k Hwf (or_intror Hkd) Hcol) as (st1 & He & Hx & Hwf1); [lia|].
      pose proof Hx as [Hk1 Hc1 _ Hcol1 Hmin1 Hmax1 _ _ Hcont1 _].
      replace (Z.min k (Z.min k (min_key st))) with (min_key st) in Hmin1 by lia.
      replace (Z.max k (Z.max k (max_key st))) with k in Hmax1 by lia.
      assert (Hgi : get_index st k = Ok (st1, k - offset st1)).
      { unfold get_index. rewrite Hkd. unfold highest_get_index. zbool. rewrite Hcol, He.
        cbn [res_bind]. by rewrite Hcol1, Hcol. }
      rewrite (add_get_index _ _ _ _ _ Hgi).
      pose proof (hh_keys _ _ _ Hh Hcol) as Hk0.
      apply highest_finish; try congruence; try lia.
      * apply (extended_nonempty _ _ _ _ Hx). lia.
      * rewrite Hc1. apply (hh_count _ _ _ Hh).
      * intros _. rewrite Hmax1. constructor; [cbn; lia|].
        eapply List.Forall_impl; [|exact Hk0]. cbn. lia.
      * intros j. rewrite Hcont1, Hmin1. apply (hh_content _ _ _ Hh).
    + destruct (highest_extend_collapse st L k Hwf Hkd Hb) as (st1 & He & Hc).
      { lia. }
      { intros H. exfalso. lia. }
      { intros _. lia. }
      replace (Z.min k (Z.min k (min_key st))) with (min_key st) in Hc by lia.
      pose proof Hc as [Hk1 Hc1 _ Hcol1 Ho1 Hmin1 Hmax1 Hlen1 _ _].
      assert (Hgi : get_index st k = Ok (st1, length st1 - 1)).
      { unfold get_index. rewrite Hkd. unfold highest_get_index. zbool. rewrite Hcol, He.
        cbn [res_bind]. by rewrite Hcol1. }
      rewrite (add_get_index _ _ _ _ _ Hgi).
      apply highest_finish; try congruence; try lia.
      * apply (collapsed_high_wf st st1 (min_key st) L); try done; try lia; congruence.
      * intros Hb1. unfold Store.length, size in Hlen1. rewrite Hb1 in Hlen1. cbn in Hlen1. lia.
      * rewrite Hc1. apply (hh_count _ _ _ Hh).
      * intros j. rewrite Hmin1. apply (highest_collapse_content L st hist st1 _); done || lia.
Qed.

(** [add] of a key below [min_key]. *)
Lemma highest_add_below L st hist k w :
  highest_holds L st hist -> hist <> [] -> k < min_key st ->
  exists st', add st k w = Ok st' /\ highest_holds L st' ((k, w) :: hist).
Proof.
  intros Hh Hne Hk. pose proof (hh_wf _ _ _ Hh) as Hwf. pose proof (hh_kind _ _ _ Hh) as Hkd.
  destruct (highest_nonempty_facts _ _ _ Hh Hne) as (Hb & HL & HlL & Hw1 & Hw2 & HM & Hkeys & Hcf).
  assert (HMk : keys_min ((k, w) :: hist) = k) by (cbn; lia).
  assert (Hgi : forall st1, extend_range st k k = Ok st1 -> get_index st k = Ok (st1, k - offset st1)).
  { intros st1 He. unfold get_index. rewrite Hkd. unfold highest_get_index. zbool. by rewrite He. }
  destruct (Z.leb_spec (max_key st - k + 1) L) as [Hfit|Hnf].
  - assert (Hcol : is_collapsed st = false).
    { destruct (is_collapsed st) eqn:Hcol; [|done]. specialize (Hcf eq_refl). lia. }
    destruct (collapsing_extend_fits st L k Hwf (or_intror Hkd) Hcol) as (st1 & He & Hx & Hwf1); [lia|].
    pose proof Hx as [Hk1 Hc1 _ Hcol1 Hmin1 Hmax1 _ _ Hcont1 _].
    replace (Z.min k (Z.min k (min_key st))) with k in Hmin1 by lia.
    replace (Z.max k (Z.max k (max_key st))) with (max_key st) in Hmax1 by lia.
    rewrite (add_get_index _ _ _ _ _ (Hgi _ He)).
    pose proof (hh_keys _ _ _ Hh Hcol) as Hk0.
    apply highest_finish; try congruence; try lia.
    + apply (extended_nonempty _ _ _ _ Hx). lia.
    + rewrite Hc1. apply (hh_count _ _ _ Hh).
    + intros _. rewrite Hmax1. by constructor; [cbn; lia|].
    + intros j. rewrite Hcont1, Hmin1, (hh_content _ _ _ Hh), !clamped_high_id; [done| |];
        (eapply List.Forall_impl; [|exact Hk0]); cbn; lia.
  - destruct (highest_extend_collapse st L k Hwf Hkd Hb) as (st1 & He & Hc).
    { lia. }
    { intros _. lia. }
    { intros Ho. lia. }
    replace (Z.min k (Z.min k (min_key st))) with k in Hc by lia.
    pose proof Hc as [Hk1 Hc1 _ Hcol1 Ho1 Hmin1 Hmax1 Hlen1 _ _].
    rewrite (add_get_index _ _ _ _ _ (Hgi _ He)).
    apply highest_finish; try congruence; try lia.
    + apply (collapsed_high_wf st st1 k L); try done; try lia; congruence.
    + intros Hb1. unfold Store.length, size in Hlen1. rewrite Hb1 in Hlen1. cbn in Hlen1. lia.
    + rewrite Hc1. apply (hh_count _ _ _ Hh).
    + intros j. rewrite Hmin1. apply (highest_collapse_content L st hist st1 _); done || lia.
Qed.

(** [add] of a key inside [[min_key, max_key]]. *)
Lemma highest_add_inside L st hist k w :
  highest_holds L st hist -> hist <> [] -> min_key st <= k <= max_key st ->
  exists st', add st k w = Ok st' /\ highest_holds L st' ((k, w) :: hist).
Proof.
  intros Hh Hne Hk. pose proof (hh_wf _ _ _ Hh) as Hwf. pose proof (hh_kind _ _ _ Hh) as Hkd.
  destruct (highest_nonempty_facts _ _ _ Hh Hne) as (Hb & HL & HlL & Hw1 & Hw2 & HM & Hkeys & Hcf).
  assert (Hgi : get_index st k = Ok (st, k - offset st)).
  { unfold get_index. rewrite Hkd. unfold highest_get_index. by zbool. }
  rewrite (add_get_index _ _ _ _ _ Hgi).
  apply highest_finish; try done; try lia.
  - apply (hh_count _ _ _ Hh).
  - cbn. lia.
  - intros Hcol. constructor; [cbn; lia|]. apply (hh_keys _ _ _ Hh Hcol).
  - apply (hh_content _ _ _ Hh).
Qed.

(** One [add] of an [int64_t] key keeps the invariant. *)
Lemma highest_add_step L st hist k w :
  highest_holds L st hist -> INT64_MIN <= k <= INT64_MAX ->
  exists st', add st k w = Ok st' /\ highest_holds L st' ((k, w) :: hist).
Proof.
  intros Hh Hk. destruct hist as [|kw hist]; [by apply highest_add_first|].
  assert (Hne : kw :: hist <> []) by done.
  destruct (Z.ltb_spec (max_key st) k); [by apply highest_add_above|].
  destruct (Z.ltb_spec k (min_key st)); [by apply highest_add_below|].
  apply highest_add_inside; [done | done | lia].
Qed.

Lemma highest_add_all_holds L st hist kws :
  highest_holds L st hist -> int64_keys kws ->
  exists st', add_all st kws = Ok st' /\ highest_holds L st' (rev kws ++ hist).
Proof.
  revert st hist. induction kws as [|[k w] kws IH]; intros st hist Hh Hk.
  - by exists st.
  - inversion Hk as [|? ? Hk0 Hks]; subst.
    destruct (highest_add_step L st hist k w Hh Hk0) as (st1 & Ha & Hh1).
    destruct (IH st1 _ Hh1 Hks) as (st2 & Ha2 & Hh2).
    exists st2. cbn [add_all]. rewrite Ha. cbn [res_bind]. split; [done|].
    cbn [rev]. by rewrite <- app_assoc.
Qed.

Lemma highest_new_holds L chunk :
  0 < L -> 0 < chunk -> highest_holds L (CollapsingHighestDenseStore_new L chunk) [].
Proof.
  intros HL Hc. constructor; try done.
  - apply empty_store_wf; [done|]. unfold kind_wf, length, size. cbn. lia.
  - intros j. rewrite content_empty by done. reflexivity.
Qed.

Lemma highest_add_all_correct L chunk kws :
  0 < L -> 0 < chunk -> int64_keys kws ->
  exists st, add_all (CollapsingHighestDenseStore_new L chunk) kws = Ok st /\ wf st /\
    kind st = CollapsingHighest L /\
    count st = total_weight kws /\ (kws <> [] -> min_key st = keys_min kws) /\
    forall j, content st j = weight_of (clamped_high (keys_min kws + L - 1) kws) j.
Proof.
  intros HL Hc Hk.
  destruct (highest_add_all_holds L _ [] kws (highest_new_holds L chunk HL Hc) Hk) as (st & Ha & Hh).
  rewrite app_nil_r in Hh. exists st. split; [done|]. split; [apply (hh_wf _ _ _ Hh)|].
  split; [apply (hh_kind _ _ _ Hh)|].
  split; [by rewrite (hh_count _ _ _ Hh), total_weight_rev|].
  assert (Hm : kws <> [] -> min_key st = keys_min kws).
  { intros Hne. rewrite (hh_min _ _ _ Hh), keys_min_rev; [done|].
    intros Hr. apply Hne. by apply (f_equal (@rev _)) in Hr; rewrite rev_involutive in Hr. }
  split; [done|]. intros j. rewrite (hh_content _ _ _ Hh), weight_of_clamped_high_rev.
  destruct kws as [|kw kws]; [done|]. by rewrite Hm.
Qed.

(** ** The two collapsing stores after a sequence of insertions *)


