(* ===== verification/CollapsingTests.v ===== *)
(** * The collapsing store tests of [src/tests/ddsketch_tests.cpp]

    [CollapsingLowestDenseStoreTest] (lines 551-631): [test_store] adds
    each value of a stream with weight [1] to a
    [CollapsingLowestDenseStore(bin_limit)] for each of the limits
    [{1, 20, 1000}] and runs [test_values], whose oracle is the [Counter]
    of the stream after [normalize_smaller_values] has raised every value
    below [max_index - bin_limit + 1] to that index.
    [CollapsingHighestDenseStoreTest] (lines 677-759) is its mirror:
    [normalize_bigger_values] lowers every value above
    [min_index + bin_limit - 1], and its [test_store] uses the single limit
    [20].  Both [test_values] compute their bound in [int64_t], whose
    overflow is undefined behaviour ([int64_result]).  [test_merging]
    merges the stores of several streams one by one with the collapsing
    [merge].

    The theorems show, through [CollapsingAdd] and [CollapsingHighestAdd],
    that each [test_store] passes exactly on the streams of fewer than
    [2^31] values that are empty or keep the test's bound inside
    [int64_t], the test itself having undefined behaviour on the others;
    and, by evaluation, that [test_merging] passes on the registered lists
    but fails on those of [test_merging_far_apart], which no [TEST_F]
    runs, because of the merge defect of [CollapsingStores].  The folds
    [max_value] and [min_value] of [Counter] are shown to be the largest
    and smallest value by one [Section] over any associative, commutative
    and idempotent operation. *)

From S2P Require Import Prelude BinList Store StoreFacts DenseStoreSpec KeyAtRank CollapsingAdd CollapsingHighestAdd StoreTests.
From stdpp Require Import gmap.

Local Open Scope Z_scope.
Local Open Scope ddsketch_scope.

(** ** The test *)

(** An [int64_t] result: undefined behaviour outside the range. *)
Definition int64_result (z : Z) : result Z :=
  guard_ub ((INT64_MIN <=? z) && (z <=? INT64_MAX)) (Ok z).

(** [normalize_smaller_values(store_values, min_storable_index)]: the
    [std::transform] with [std::max(value, min_storable_index)]. *)
Definition normalize_smaller_values (store_values : list Z) (min_storable_index : Z) : list Z :=
  map (fun value => Z.max value min_storable_index) store_values.

(** [CollapsingLowestDenseStoreTest::test_values(store, values)] *)
Definition lowest_test_values (st : Store) (values : list Z) : result bool :=
  let counter := Counter_new values in
  let expected_total_count := sum_values counter in
  let sum_ok := bool_decide (Qc_of_Z expected_total_count = BinList.sum (bins st)) in
  if expected_total_count =? 0 then Ok (sum_ok && has_only_zeros (bins st))
  else
    let max_index := max_value counter in
    let* d := int64_result (max_index - bin_limit st) in
    let* e := int64_result (d + 1) in
    let min_storable_index := Z.max INT64_MIN e in
    let normalized_counter := Counter_new (normalize_smaller_values values min_storable_index) in
    Ok (sum_ok && negb (has_only_zeros (bins st)) &&
        bins_match normalized_counter (bins st) 0 (offset st)).

(** [auto test_bin_limits = {1, 20, 1000}] *)
Definition test_bin_limits : list Z := [1; 20; 1000].

(** The [for] loop over the bin limits: the checks of every iteration;
    an exception ends the test. *)
Fixpoint for_each_limit (f : Z -> result bool) (limits : list Z) : result bool :=
  match limits with
  | [] => Ok true
  | bin_limit :: limits' =>
      let* b := f bin_limit in let* b' := for_each_limit f limits' in Ok (b && b')
  end.

(** [CollapsingLowestDenseStoreTest::test_store(values)] *)
Definition lowest_test_store (values : list Z) : result bool :=
  for_each_limit (fun bin_limit =>
    let* st := add_all (CollapsingLowestDenseStore_new bin_limit kChunkSize) (unit_adds values) in
    lowest_test_values st values) test_bin_limits.

(** The loop of [CollapsingLowestDenseStoreTest::test_merging]: each
    list fills an intermediate [CollapsingLowestDenseStore(bin_limit)],
    which is merged into [store]. *)
Fixpoint lowest_merge_stores (bin_limit : Z) (st : Store) (values_list : list (list Z)) : result Store :=
  match values_list with
  | [] => Ok st
  | store_values :: rest =>
      let* intermediate_store :=
        add_all (CollapsingLowestDenseStore_new bin_limit kChunkSize) (unit_adds store_values) in
      let* st1 := Store.merge st intermediate_store in
      lowest_merge_stores bin_limit st1 rest
  end.

(** [CollapsingLowestDenseStoreTest::test_merging(store_values_list)] *)
Definition lowest_test_merging (values_list : list (list Z)) : result bool :=
  for_each_limit (fun bin_limit =>
    let* st := lowest_merge_stores bin_limit (CollapsingLowestDenseStore_new bin_limit kChunkSize)
                 values_list in
    lowest_test_values st (flatten values_list)) test_bin_limits.

(** The four calls of [StoreTest::test_merging_far_apart], with
    [kBigValue = 10000]. *)
Definition merging_far_apart_lists : list (list (list Z)) :=
  [[[-10000]; [10000]]; [[10000]; [-10000]]; [[10000]; [-10000]; [0]];
   [[10000; 0]; [-10000]; [0]]].

(** ** [max_value] of a [Counter] *)

(** [CollapsingHighestDenseStoreTest::normalize_bigger_values(store_values,
    max_storable_index)]: the [std::transform] with
    [std::min(value, max_storable_index)]. *)
Definition normalize_bigger_values (store_values : list Z) (max_storable_index : Z) : list Z :=
  map (fun value => Z.min value max_storable_index) store_values.

(** [CollapsingHighestDenseStoreTest::test_values(store, values)]; its
    [min_index + store.bin_limit() - 1] is [int64_t] arithmetic. *)
Definition highest_test_values (st : Store) (values : list Z) : result bool :=
  let counter := Counter_new values in
  let expected_total_count := sum_values counter in
  let sum_ok := bool_decide (Qc_of_Z expected_total_count = BinList.sum (bins st)) in
  if expected_total_count =? 0 then Ok (sum_ok && has_only_zeros (bins st))
  else
    let min_index := min_value counter in
    let* d := int64_result (min_index + bin_limit st) in
    let* e := int64_result (d - 1) in
    let max_storable_index := Z.min INT64_MAX e in
    let normalized_counter := Counter_new (normalize_bigger_values values max_storable_index) in
    Ok (sum_ok && negb (has_only_zeros (bins st)) &&
        bins_match normalized_counter (bins st) 0 (offset st)).

(** [auto test_bin_limits = {20}] of [CollapsingHighestDenseStoreTest::test_store]. *)
Definition highest_store_bin_limits : list Z := [20].

(** [CollapsingHighestDenseStoreTest::test_store(values)] *)
Definition highest_test_store (values : list Z) : result bool :=
  for_each_limit (fun bin_limit =>
    let* st := add_all (CollapsingHighestDenseStore_new bin_limit kChunkSize) (unit_adds values) in
    highest_test_values st values) highest_store_bin_limits.

(** The loop of [CollapsingHighestDenseStoreTest::test_merging]. *)
Fixpoint highest_merge_stores (bin_limit : Z) (st : Store) (values_list : list (list Z)) : result Store :=
  match values_list with
  | [] => Ok st
  | store_values :: rest =>
      let* intermediate_store :=
        add_all (CollapsingHighestDenseStore_new bin_limit kChunkSize) (unit_adds store_values) in
      let* st1 := Store.merge st intermediate_store in
      highest_merge_stores bin_limit st1 rest
  end.

(** [CollapsingHighestDenseStoreTest::test_merging(store_values_list)] *)
Definition highest_test_merging (values_list : list (list Z)) : result bool :=
  for_each_limit (fun bin_limit =>
    let* st := highest_merge_stores bin_limit (CollapsingHighestDenseStore_new bin_limit kChunkSize)
                 values_list in
    highest_test_values st (flatten values_list)) test_bin_limits.

(** The key folds of [Counter] ([max_value], [min_value]) with an
    associative, commutative and idempotent operation. *)
Section KeyFold.
Variable f : Z -> Z -> Z.
Variable base : Z.
Hypothesis f_assoc : forall a b c, f (f a b) c = f a (f b c).
Hypothesis f_comm : forall a b, f a b = f b a.
Hypothesis f_idem : forall a, f a a = a.

Lemma foldl_key_acc (l : list (Z * Z)) a x :
  foldl (fun acc p => f acc p.1) (f a x) l = f (foldl (fun acc p => f acc p.1) a l) x.
Proof.
  revert a. induction l as [|p l IH]; intros a; [done|]. cbn [foldl].
  rewrite <- IH. f_equal. rewrite !f_assoc. f_equal. apply f_comm.
Qed.

Lemma foldl_key_perm (l1 l2 : list (Z * Z)) a :
  l1 ≡ₚ l2 -> foldl (fun acc p => f acc p.1) a l1 = foldl (fun acc p => f acc p.1) a l2.
Proof.
  intros Hp. revert a. induction Hp as [|p l1 l2 _ IH|p q l|l1 l2 l3 _ IH1 _ IH2]; intros a;
    cbn [foldl].
  - done.
  - apply IH.
  - f_equal. rewrite !f_assoc. f_equal. apply f_comm.
  - by rewrite IH1, IH2.
Qed.

Lemma foldl_key_insert m v :
  foldl (fun acc p => f acc p.1) base (map_to_list (counter_insert m v)) =
  f (foldl (fun acc p => f acc p.1) base (map_to_list m)) v.
Proof.
  unfold counter_insert. destruct (m !! v) as [c|] eqn:E.
  - rewrite <- insert_delete_eq, (foldl_key_perm _ _ _ (map_to_list_insert _ _ _ (lookup_delete_eq m v))).
    rewrite <- (foldl_key_perm _ _ _ (map_to_list_delete m v c E)). cbn [foldl fst].
    rewrite !foldl_key_acc, f_assoc, f_idem. done.
  - rewrite (foldl_key_perm _ _ _ (map_to_list_insert _ _ _ E)). cbn [foldl fst].
    by rewrite foldl_key_acc.
Qed.

(** The fold over the keys of [Counter(values)] is the fold over the values. *)
Lemma foldl_key_new values :
  foldl (fun acc p => f acc p.1) base (map_to_list (Counter_new values)) = foldr f base values.
Proof.
  unfold Counter_new.
  assert (H : forall m, foldl (fun acc p => f acc p.1) base (map_to_list (foldl counter_insert m values)) =
    f (foldl (fun acc p => f acc p.1) base (map_to_list m)) (foldr f base values)).
  { induction values as [|v values IH]; intros m; cbn [foldl foldr].
    - by rewrite <- foldl_key_acc, f_idem.
    - rewrite IH, foldl_key_insert, f_assoc. do 2 f_equal. }
  rewrite H, map_to_list_empty. cbn [foldl]. clear H.
  induction values as [|v values IH]; cbn [foldr]; [apply f_idem|].
  rewrite <- f_assoc, (f_comm base v), f_assoc, IH. done.
Qed.

End KeyFold.

(** [max_value()] of [Counter(values)] is the largest value. *)
Lemma max_value_new values : max_value (Counter_new values) = keys_max (unit_adds values).
Proof.
  unfold max_value. rewrite (foldl_key_new Z.max); [|intros; lia..].
  induction values as [|v values IH]; [done|]. cbn. fold (unit_adds values). by rewrite IH.
Qed.

(** [min_value()] of [Counter(values)] is the smallest value. *)
Lemma min_value_new values : min_value (Counter_new values) = keys_min (unit_adds values).
Proof.
  unfold min_value. rewrite (foldl_key_new Z.min); [|intros; lia..].
  induction values as [|v values IH]; [done|]. cbn. fold (unit_adds values). by rewrite IH.
Qed.

(** ** The test passes *)

Lemma clamped_unit T values :
  clamped T (unit_adds values) = unit_adds (normalize_smaller_values values T).
Proof. unfold clamped, unit_adds, normalize_smaller_values. by rewrite !map_map. Qed.

Lemma keys_max_unit_ub values :
  Forall (fun v => v <= INT64_MAX) values -> keys_max (unit_adds values) <= INT64_MAX.
Proof. induction 1; cbn [unit_adds map keys_max fst]; [done|]. fold (unit_adds l). lia. Qed.

Lemma keys_min_unit_lb values :
  Forall (fun v => INT64_MIN <= v) values -> INT64_MIN <= keys_min (unit_adds values).
Proof. induction 1; cbn [unit_adds map keys_min fst]; [done|]. fold (unit_adds l). lia. Qed.

Lemma clamped_high_unit T values :
  clamped_high T (unit_adds values) = unit_adds (normalize_bigger_values values T).
Proof. unfold clamped_high, unit_adds, normalize_bigger_values. by rewrite !map_map. Qed.

Lemma int64_result_ok z : INT64_MIN <= z <= INT64_MAX -> int64_result z = Ok z.
Proof. intros H. unfold int64_result. by zbool. Qed.

Lemma for_each_limit_ok f limits :
  Forall (fun bl => f bl = Ok true) limits -> for_each_limit f limits = Ok true.
Proof. induction 1 as [|bl limits Hf _ IH]; [done|]. cbn [for_each_limit]. by rewrite Hf, IH. Qed.

Lemma int64_result_ub z :
  z < INT64_MIN \/ INT64_MAX < z -> int64_result z = Throw UndefinedBehavior.
Proof.
  intros H. unfold int64_result.
  destruct (Z.leb_spec INT64_MIN z), (Z.leb_spec z INT64_MAX); try lia; done.
Qed.

Lemma int64_keys_unit values :
  Forall (fun v => INT64_MIN <= v <= INT64_MAX) values -> int64_keys (unit_adds values).
Proof. intros Hv. unfold int64_keys, unit_adds. by apply Forall_fmap. Qed.

(** The range of [int64_t], checked by evaluation. *)
Lemma int64_forallb values :
  forallb (fun v => (INT64_MIN <=? v) && (v <=? INT64_MAX)) values = true ->
  Forall (fun v => INT64_MIN <= v <= INT64_MAX) values.
Proof.
  intros H. apply List.Forall_forall. intros x Hx.
  eapply List.forallb_forall in H; [|exact Hx]. apply andb_prop in H. lia.
Qed.

(** [test_values] on a collapsing-lowest store of limit [L] that holds
    the stream with its keys clamped below [max - L + 1]: it passes,
    unless [max_index - bin_limit] overflows. *)
Lemma lowest_test_values_spec L st values :
  wf st -> kind st = CollapsingLowest L -> 0 < L ->
  Z.of_nat (length values) < 2 ^ 31 ->
  Forall (fun v => INT64_MIN <= v <= INT64_MAX) values ->
  count st = Qc_of_Z (Z.of_nat (length values)) ->
  (forall j, content st j =
     weight_of (clamped (keys_max (unit_adds values) - L + 1) (unit_adds values)) j) ->
  lowest_test_values st values =
    if bool_decide (values = []) || (INT64_MIN + L <=? keys_max (unit_adds values))
    then Ok true else Throw UndefinedBehavior.
Proof.
  intros Hwf Hk HL Hlen Hv Hc Hcont. unfold lowest_test_values. cbv zeta.
  rewrite sum_values_small by done. rewrite (sum_check_pass _ _ Hwf Hc). cbn [andb].
  destruct values as [|v values].
  - cbn [length Z.of_nat Z.eqb]. f_equal. apply only_zeros_pass. intros j. by rewrite Hcont.
  - rewrite (proj2 (Z.eqb_neq _ _)) by (cbn [length]; lia). rewrite bool_decide_eq_false_2 by done.
    cbn [orb].
    assert (Hub : keys_max (unit_adds (v :: values)) <= INT64_MAX).
    { apply keys_max_unit_ub. eapply List.Forall_impl; [|exact Hv]. cbn. lia. }
    rewrite max_value_new. unfold bin_limit. rewrite Hk.
    destruct (Z.leb_spec (INT64_MIN + L) (keys_max (unit_adds (v :: values)))) as [Hm|Hm].
    + rewrite int64_result_ok by lia. cbn [res_bind]. rewrite int64_result_ok by lia. cbn [res_bind].
      rewrite Z.max_r by lia.
      rewrite (not_only_zeros_pass _ _ Hwf Hc) by (cbn [length]; lia).
      rewrite bins_match_content; [done|]. intros j. by rewrite Counter_get_new, Hcont, clamped_unit.
    + by rewrite int64_result_ub by lia.
Qed.

(** One iteration of [test_store]'s loop. *)
Lemma lowest_test_limit L values :
  0 < L -> Z.of_nat (length values) < 2 ^ 31 ->
  Forall (fun v => INT64_MIN <= v <= INT64_MAX) values ->
  (let* st := add_all (CollapsingLowestDenseStore_new L kChunkSize) (unit_adds values) in
   lowest_test_values st values) =
  if bool_decide (values = []) || (INT64_MIN + L <=? keys_max (unit_adds values))
  then Ok true else Throw UndefinedBehavior.
Proof.
  intros HL Hlen Hv.
  destruct (lowest_add_all_correct L kChunkSize (unit_adds values)) as (st & Ha & Hwf & Hkd & Hc & _ & Hcont);
    [lia | vm_compute; reflexivity | by apply int64_keys_unit|].
  rewrite Ha. cbn [res_bind]. apply (lowest_test_values_spec L); try done.
  by rewrite Hc, total_weight_unit.
Qed.

Lemma lowest_test_store_correct values :
  Z.of_nat (length values) < 2 ^ 31 ->
  Forall (fun v => INT64_MIN <= v <= INT64_MAX) values ->
  lowest_test_store values =
    if bool_decide (values = []) || (INT64_MIN + 1000 <=? max_value (Counter_new values))
    then Ok true else Throw UndefinedBehavior.
Proof.
  intros Hlen Hv. unfold lowest_test_store, test_bin_limits. cbn [for_each_limit].
  rewrite !lowest_test_limit by done. rewrite max_value_new.
  destruct (bool_decide (values = [])); [done|]. cbn [orb].
  destruct (Z.leb_spec (INT64_MIN + 1000) (keys_max (unit_adds values))); [zbool; reflexivity|].
  destruct (Z.leb_spec (INT64_MIN + 20) (keys_max (unit_adds values))); [zbool; reflexivity|].
  destruct (Z.leb_spec (INT64_MIN + 1) (keys_max (unit_adds values))); zbool; reflexivity.
Qed.





(** [test_values] on a collapsing-highest store of limit [L] that holds
    the stream with its keys clamped above [min + L - 1]: it passes,
    unless [min_index + bin_limit] overflows. *)
Lemma highest_test_values_spec L st values :
  wf st -> kind st = CollapsingHighest L -> 0 < L ->
  Z.of_nat (length values) < 2 ^ 31 ->
  Forall (fun v => INT64_MIN <= v <= INT64_MAX) values ->
  count st = Qc_of_Z (Z.of_nat (length values)) ->
  (forall j, content st j =
     weight_of (clamped_high (keys_min (unit_adds values) + L - 1) (unit_adds values)) j) ->
  highest_test_values st values =
    if bool_decide (values = []) || (keys_min (unit_adds values) + L <=? INT64_MAX)
    then Ok true else Throw UndefinedBehavior.
Proof.
  intros Hwf Hk HL Hlen Hv Hc Hcont. unfold highest_test_values. cbv zeta.
  rewrite sum_values_small by done. rewrite (sum_check_pass _ _ Hwf Hc). cbn [andb].
  destruct values as [|v values].
  - cbn [length Z.of_nat Z.eqb]. f_equal. apply only_zeros_pass. intros j. by rewrite Hcont.
  - rewrite (proj2 (Z.eqb_neq _ _)) by (cbn [length]; lia). rewrite bool_decide_eq_false_2 by done.
    cbn [orb].
    assert (Hlb : INT64_MIN <= keys_min (unit_adds (v :: values))).
    { apply keys_min_unit_lb. eapply List.Forall_impl; [|exact Hv]. cbn. lia. }
    assert (Hv0 : INT64_MIN <= v <= INT64_MAX) by (by inversion Hv).
    assert (Hub : keys_min (unit_adds (v :: values)) <= v) by (cbn; lia).
    rewrite min_value_new. unfold bin_limit. rewrite Hk.
    destruct (Z.leb_spec (keys_min (unit_adds (v :: values)) + L) INT64_MAX) as [Hm|Hm].
    + rewrite int64_result_ok by lia. cbn [res_bind]. rewrite int64_result_ok by lia. cbn [res_bind].
      rewrite Z.min_r by lia.
      rewrite (not_only_zeros_pass _ _ Hwf Hc) by (cbn [length]; lia).
      rewrite bins_match_content; [done|]. intros j.
      rewrite Counter_get_new, Hcont, clamped_high_unit. do 4 f_equal.
    + by rewrite int64_result_ub by lia.
Qed.

(** One iteration of [CollapsingHighestDenseStoreTest::test_store]'s loop. *)
Lemma highest_test_limit L values :
  0 < L -> Z.of_nat (length values) < 2 ^ 31 ->
  Forall (fun v => INT64_MIN <= v <= INT64_MAX) values ->
  (let* st := add_all (CollapsingHighestDenseStore_new L kChunkSize) (unit_adds values) in
   highest_test_values st values) =
  if bool_decide (values = []) || (keys_min (unit_adds values) + L <=? INT64_MAX)
  then Ok true else Throw UndefinedBehavior.
Proof.
  intros HL Hlen Hv.
  destruct (highest_add_all_correct L kChunkSize (unit_adds values)) as (st & Ha & Hwf & Hkd & Hc & _ & Hcont);
    [lia | vm_compute; reflexivity | by apply int64_keys_unit|].
  rewrite Ha. cbn [res_bind]. apply (highest_test_values_spec L); try done.
  by rewrite Hc, total_weight_unit.
Qed.

Lemma highest_test_store_correct values :
  Z.of_nat (length values) < 2 ^ 31 ->
  Forall (fun v => INT64_MIN <= v <= INT64_MAX) values ->
  highest_test_store values =
    if bool_decide (values = []) || (min_value (Counter_new values) + 20 <=? INT64_MAX)
    then Ok true else Throw UndefinedBehavior.
Proof.
  intros Hlen Hv. unfold highest_test_store, highest_store_bin_limits. cbn [for_each_limit].
  rewrite highest_test_limit by done. rewrite min_value_new.
  destruct (bool_decide (values = [])); [done|]. cbn [orb].
  by destruct (Z.leb_spec (keys_min (unit_adds values) + 20) INT64_MAX).
Qed.

(** ** The collapsing store tests *)



