(* ===== verification/Sketch.v ===== *)
(** * The sketch ([BaseDDSketch], [DDSketch], [LogCollapsing*DDSketch],
    ddsketch.h lines 1050-1270)

    [BaseDDSketch<Store, Mapping>] is generic in its key mapping: it only
    calls [key], [value], [gamma] and [min_possible] on it.  The class
    [KeyMapping] below is that interface; the sketch's definitions and
    theorems are stated for any instance, and [ExactMapping.v] gives an
    executable one.  The store parameter is the [Store] record of
    [Store.v], whose [kind] is the store's dynamic class.

    A [Sketch] has the eight members of the C++ object.  [add],
    [get_quantile_value], [merge], [mergeable] and [copy] are the member
    functions; [get_quantile_value] returns [None] where the code returns
    [std::nan("")]. *)

From S2P Require Import Prelude BinList Store StoreFacts DenseStoreSpec.

Local Open Scope Z_scope.
Local Open Scope ddsketch_scope.

(** ** The mapping interface *)

(** What [BaseDDSketch] uses of its [Mapping] template parameter
    ([KeyMapping::key], [value], [gamma], [min_possible], lines 816-860). *)
Class KeyMapping (M : Type) := {
  key : M -> RealValue -> Index;
  value : M -> Index -> RealValue;
  gamma : M -> RealValue;
  min_possible : M -> RealValue
}.

(** [std::numeric_limits<double>::max()] and [::min()] (the least positive
    normal double, [2^-1022]), exactly. *)
Definition DBL_MAX : Qc := Qc_of_Z ((2 ^ 53 - 1) * 2 ^ 971).
Definition DBL_MIN : Qc := Q2Qc (1 # Z.to_pos (2 ^ 1022)).

(** [kDefaultBinLimit] and [BaseDDSketch::adjust_bin_limit]. *)
Definition kDefaultBinLimit : Index := 2048.

Definition adjust_bin_limit (bin_limit : Index) : Index :=
  if bin_limit <=? 0 then kDefaultBinLimit else bin_limit.

Module BaseDDSketch.
Section Sketch.
Context {M : Type} `{!KeyMapping M}.

Record Sketch := mkSketch {
  mapping_ : M;
  store_ : Store;
  negative_store_ : Store;
  zero_count_ : RealValue;
  count_ : RealValue;
  min_ : RealValue;
  max_ : RealValue;
  sum_ : RealValue
}.

(** The constructor: [min_] starts at [DBL_MAX] and [max_] at [DBL_MIN]. *)
Definition new (mapping : M) (store negative_store : Store) : Sketch :=
  mkSketch mapping store negative_store 0 0 DBL_MAX DBL_MIN 0.

Definition num_values (s : Sketch) : RealValue := count_ s.
Definition sum (s : Sketch) : RealValue := sum_ s.

(** [avg] divides by [count_]; [Qcinv 0 = 0] where the double is NaN, so the
    model only speaks of non-empty sketches. *)
Definition avg (s : Sketch) : RealValue := (sum_ s / count_ s)%Qc.

(** Where [add] routes a value: the positive store, the negative store or
    the zero counter. *)
Inductive route := ToStore | ToNegativeStore | ToZero.

Definition route_of (m : M) (val : RealValue) : route :=
  if bool_decide (min_possible m < val)%Qc then ToStore
  else if bool_decide (val < - min_possible m)%Qc then ToNegativeStore
  else ToZero.

(** [BaseDDSketch::add(val, weight)]. *)
Definition add (s : Sketch) (val weight : RealValue) : result Sketch :=
  if bool_decide (weight <= 0)%Qc then Throw IllegalArgument else
  let m := mapping_ s in
  let* (st, (nst, zc)) :=
    match route_of m val with
    | ToStore =>
        let* st := Store.add (store_ s) (key m val) weight in
        Ok (st, (negative_store_ s, zero_count_ s))
    | ToNegativeStore =>
        let* nst := Store.add (negative_store_ s) (key m (- val)) weight in
        Ok (store_ s, (nst, zero_count_ s))
    | ToZero => Ok (store_ s, (negative_store_ s, (zero_count_ s + weight)%Qc))
    end in
  Ok (mkSketch m st nst zc (count_ s + weight)%Qc
         (if bool_decide (val < min_ s)%Qc then val else min_ s)
         (if bool_decide (max_ s < val)%Qc then val else max_ s)
         (sum_ s + val * weight)%Qc).

(** The insertion loops of the sketch tests ([sketch.add(value, count)]
    for each pair). *)
Fixpoint add_all (s : Sketch) (vws : list (RealValue * RealValue)) : result Sketch :=
  match vws with
  | [] => Ok s
  | (v, w) :: r => let* s' := add s v w in add_all s' r
  end.

(** [BaseDDSketch::get_quantile_value(quantile)]; [None] is NaN. *)
Definition get_quantile_value (s : Sketch) (quantile : RealValue) : option RealValue :=
  if bool_decide (quantile < 0)%Qc || bool_decide (1 < quantile)%Qc
     || bool_decide (count_ s = 0)%Qc then None
  else
    let m := mapping_ s in
    let rank := (quantile * (count_ s - 1))%Qc in
    let ncount := count (negative_store_ s) in
    if bool_decide (rank < ncount)%Qc then
      let reversed_rank := (ncount - rank - 1)%Qc in
      let k := key_at_rank (negative_store_ s) reversed_rank false in
      Some (- value m k)%Qc
    else if bool_decide (rank < zero_count_ s + ncount)%Qc then Some 0%Qc
    else
      let k := key_at_rank (store_ s) (rank - zero_count_ s - ncount)%Qc true in
      Some (value m k).

(** [BaseDDSketch::mergeable]: equal [gamma]. *)
Definition mergeable (s other : Sketch) : bool :=
  bool_decide (gamma (mapping_ s) = gamma (mapping_ other)).

(** [BaseDDSketch::copy]: the stores are copied with [Store::copy], the
    mapping is kept. *)
Definition copy (s other : Sketch) : Sketch :=
  mkSketch (mapping_ s) (Store.copy (store_ s) (store_ other))
    (Store.copy (negative_store_ s) (negative_store_ other))
    (zero_count_ other) (count_ other) (min_ other) (max_ other) (sum_ other).

(** [BaseDDSketch::merge]. *)
Definition merge (s other : Sketch) : result Sketch :=
  if negb (mergeable s other) then Throw UnequalSketchParameters
  else if bool_decide (count_ other = 0)%Qc then Ok s
  else if bool_decide (count_ s = 0)%Qc then Ok (copy s other)
  else
    let* st := Store.merge (store_ s) (store_ other) in
    let* nst := Store.merge (negative_store_ s) (negative_store_ other) in
    Ok (mkSketch (mapping_ s) st nst (zero_count_ s + zero_count_ other)%Qc
          (count_ s + count_ other)%Qc
          (if bool_decide (min_ other < min_ s)%Qc then min_ other else min_ s)
          (if bool_decide (max_ s < max_ other)%Qc then max_ other else max_ s)
          (sum_ s + sum_ other)%Qc).

(** The three concrete sketches (lines 1214-1270), for a mapping already
    constructed. *)
Definition DDSketch_new (mapping : M) : Sketch :=
  new mapping (BaseDenseStore_new kChunkSize) (BaseDenseStore_new kChunkSize).

Definition LogCollapsingLowestDenseDDSketch_new (mapping : M) (bin_limit : Index) : Sketch :=
  new mapping (CollapsingLowestDenseStore_new (adjust_bin_limit bin_limit) kChunkSize)
    (CollapsingLowestDenseStore_new (adjust_bin_limit bin_limit) kChunkSize).

Definition LogCollapsingHighestDenseDDSketch_new (mapping : M) (bin_limit : Index) : Sketch :=
  new mapping (CollapsingHighestDenseStore_new (adjust_bin_limit bin_limit) kChunkSize)
    (CollapsingHighestDenseStore_new (adjust_bin_limit bin_limit) kChunkSize).

End Sketch.
End BaseDDSketch.

#[export] Instance route_eq_dec : EqDecision BaseDDSketch.route.
Proof. solve_decision. Defined.
