(* ===== verification/ExactMapping.v ===== *)
(** * [LogarithmicMapping] in exact arithmetic (ddsketch.h lines 800-944)

    [LogarithmicMapping] computes [key(v) = static_cast<Index>(ceil(log2(v)
    * multiplier_) + offset_)] with [multiplier_ = log(2) / log1p(gamma_ - 1)],
    so that [log2(v) * multiplier_ = log_gamma(v)], and [value(k) =
    exp2((k - offset_) / multiplier_) * 2 / (1 + gamma_) = gamma_^(k -
    offset_) * 2 / (1 + gamma_)].  For a rational [gamma_] and an integral
    offset both are exact rationals: [ceil_log gamma v] finds [ceil(log_gamma
    v)] by a search over the powers of [gamma], with enough fuel computed
    from [v] and [gamma].  This file gives that executable model, the
    [KeyMapping] instance the sketch theorems use, and its accuracy. *)

From S2P Require Import Prelude QcReals Sketch.

Local Open Scope Z_scope.

(** ** [ceil(log_gamma(v))] by search *)

(** Least [k >= k0] with [v <= gamma^k], stepping up. *)
Fixpoint search_up (fuel : nat) (g v : Qc) (k : Z) : Z :=
  match fuel with
  | O => k
  | S f => if bool_decide (v <= qpow g k)%Qc then k else search_up f g v (k + 1)
  end.

(** From [v <= gamma^k0], step down while [v <= gamma^(k-1)]. *)
Fixpoint search_down (fuel : nat) (g v : Qc) (k : Z) : Z :=
  match fuel with
  | O => k
  | S f => if bool_decide (v <= qpow g (k - 1))%Qc then search_down f g v (k - 1) else k
  end.

(** Enough steps: [gamma^n >= 1 + n (gamma - 1)] reaches [v] and [1 / v]
    within [(v + 1/v) / (gamma - 1)] steps. *)
Definition log_fuel (g v : Qc) : nat :=
  Z.to_nat (Qceiling ((this v + this (/ v)%Qc) / (this g - 1))).

Definition ceil_log (g v : Qc) : Z :=
  if bool_decide (1 < v)%Qc then search_up (log_fuel g v) g v 1
  else search_down (log_fuel g v) g v 0.

(** ** The mapping *)

Record LogarithmicMapping := mkLogarithmicMapping {
  relative_accuracy_ : Qc;
  offset_ : Z;
  gamma_ : Qc;
  min_possible_ : Qc;
  max_possible_ : Qc
}.

(** The [KeyMapping] constructor with [LogarithmicMapping]'s, for an
    integral offset. *)
Definition LogarithmicMapping_new (relative_accuracy : Qc) (offset : Z)
    : result LogarithmicMapping :=
  if bool_decide (relative_accuracy <= 0)%Qc || bool_decide (1 <= relative_accuracy)%Qc
  then Throw IllegalArgument
  else
    let gamma_mantissa := (2 * relative_accuracy / (1 - relative_accuracy))%Qc in
    let gamma := (1 + gamma_mantissa)%Qc in
    Ok (mkLogarithmicMapping relative_accuracy offset gamma
          (DBL_MIN * gamma)%Qc (DBL_MAX / gamma)%Qc).

Definition log_key (m : LogarithmicMapping) (v : Qc) : Z :=
  ceil_log (gamma_ m) v + offset_ m.

Definition log_value (m : LogarithmicMapping) (k : Z) : Qc :=
  (qpow (gamma_ m) (k - offset_ m) * (2 / (1 + gamma_ m)))%Qc.

#[export] Instance LogarithmicMapping_KeyMapping : KeyMapping LogarithmicMapping := {
  key := log_key;
  value := log_value;
  gamma := gamma_;
  min_possible := min_possible_
}.

(** The mappings of relative accuracy [1/3] ([gamma = 2]) and [1/2]
    ([gamma = 3]), offset [0]. *)
Definition mapping_of (r : result LogarithmicMapping) : LogarithmicMapping :=
  match r with Ok m => m | Throw _ => mkLogarithmicMapping 0 0 0 0 0 end.

Definition example_mapping : LogarithmicMapping :=
  mapping_of (LogarithmicMapping_new (Q2Qc (1 # 3)) 0).

Definition example_mapping3 : LogarithmicMapping :=
  mapping_of (LogarithmicMapping_new (Q2Qc (1 # 2)) 0).

(** ** Powers of a real above 1 *)

Lemma powerRZ_mono (x : R) n n' : (1 <= x)%R -> n <= n' -> (powerRZ x n <= powerRZ x n')%R.
Proof.
  intros Hx Hn. replace n' with (n + Z.of_nat (Z.to_nat (n' - n))) by lia.
  rewrite powerRZ_add, <- pow_powerRZ by lra.
  pose proof (powerRZ_lt x n ltac:(lra)).
  pose proof (pow_R1_Rle x (Z.to_nat (n' - n)) Hx). nra.
Qed.

Lemma powerRZ_succ (x : R) n : x <> 0%R -> powerRZ x (n + 1) = (powerRZ x n * x)%R.
Proof. intros Hx. rewrite powerRZ_add by done. simpl. ring. Qed.

(** Bernoulli's inequality. *)
Lemma powerRZ_bernoulli (x : R) (n : nat) :
  (1 <= x)%R -> (1 + INR n * (x - 1) <= powerRZ x (Z.of_nat n))%R.
Proof.
  intros Hx. rewrite <- pow_powerRZ. induction n as [|n IH]; [simpl; lra|].
  rewrite S_INR. simpl. pose proof (pow_R1_Rle x n Hx). nra.
Qed.

(** ** The search computes [ceil(log_gamma v)] *)

Section Search.
Variables g v : Qc.
Hypothesis Hg : (1 < g)%Qc.
Hypothesis Hv : (0 < v)%Qc.

Let g_nz : g <> 0%Qc.
Proof. intros E. rewrite E in Hg. discriminate Hg. Qed.

Let gR : (1 < QcR g)%R.
Proof. rewrite <- QcR_1. by apply QcR_lt. Qed.

Lemma qpow_R k : QcR (qpow g k) = powerRZ (QcR g) k.
Proof. by apply QcR_qpow. Qed.

Lemma search_up_spec fuel k :
  (powerRZ (QcR g) (k - 1) < QcR v)%R -> (QcR v <= powerRZ (QcR g) (k - 1 + Z.of_nat fuel))%R ->
  let r := search_up fuel g v k in
  (powerRZ (QcR g) (r - 1) < QcR v <= powerRZ (QcR g) r)%R.
Proof.
  revert k. induction fuel as [|f IH]; intros k Hlo Hhi; cbn [search_up].
  - rewrite Z.add_0_r in Hhi. lra.
  - case_bool_decide as H.
    + split; [done|]. rewrite <- qpow_R. by apply QcR_le.
    + apply IH.
      * replace (k + 1 - 1) with k by lia. rewrite <- qpow_R. apply Rnot_le_lt.
        by rewrite <- QcR_le.
      * by replace (k + 1 - 1 + Z.of_nat f) with (k - 1 + Z.of_nat (S f)) by lia.
Qed.

Lemma search_down_spec fuel k :
  (QcR v <= powerRZ (QcR g) k)%R -> (powerRZ (QcR g) (k - 1 - Z.of_nat fuel) < QcR v)%R ->
  let r := search_down fuel g v k in
  (powerRZ (QcR g) (r - 1) < QcR v <= powerRZ (QcR g) r)%R.
Proof.
  revert k. induction fuel as [|f IH]; intros k Hhi Hlo; cbn [search_down].
  - rewrite Z.sub_0_r in Hlo. lra.
  - case_bool_decide as H.
    + apply IH; [rewrite <- qpow_R; by apply QcR_le|].
      by replace (k - 1 - 1 - Z.of_nat f) with (k - 1 - Z.of_nat (S f)) by lia.
    + split; [|done]. rewrite <- qpow_R. apply Rnot_le_lt. by rewrite <- QcR_le.
Qed.

Lemma log_fuel_bound :
  (QcR v + / QcR v <= INR (log_fuel g v) * (QcR g - 1))%R.
Proof.
  assert (Hv' : (0 < QcR v)%R) by (rewrite <- QcR_0; by apply QcR_lt).
  assert (Hinv : (0 < / QcR v)%R) by (apply Rinv_0_lt_compat; lra).
  unfold log_fuel. set (c := Qceiling _).
  pose proof (Qle_ceiling ((this v + this (/ v)%Qc) / (this g - 1))) as Hc.
  fold c in Hc. apply Qle_Rle in Hc.
  assert (Hz : Q2R (inject_Z c) = IZR c) by (unfold Q2R; simpl; field).
  rewrite Hz, Q2R_div in Hc by (intros E; apply Qeq_eqR in E; rewrite Q2R_minus in E;
                                fold (QcR g) in E; rewrite RMicromega.Q2R_1 in E; lra).
  rewrite Q2R_plus, Q2R_minus, RMicromega.Q2R_1 in Hc. fold (QcR v) (QcR g) in Hc.
  replace (Q2R (this (/ v)%Qc)) with (QcR (/ v)%Qc) in Hc by reflexivity.
  rewrite QcR_inv in Hc by (intros E; rewrite E in Hv; discriminate Hv).
  assert (Hq : (0 < (QcR v + / QcR v) / (QcR g - 1))%R) by (apply Rdiv_lt_0_compat; lra).
  rewrite INR_IZR_INZ, Z2Nat.id by (apply le_IZR; lra).
  apply (Rmult_le_compat_r (QcR g - 1)) in Hc; [|lra].
  unfold Rdiv in Hc. rewrite Rmult_assoc, Rinv_l, Rmult_1_r in Hc by lra. exact Hc.
Qed.

Lemma ceil_log_R :
  let k := ceil_log g v in
  (powerRZ (QcR g) (k - 1) < QcR v <= powerRZ (QcR g) k)%R.
Proof.
  assert (Hv' : (0 < QcR v)%R) by (rewrite <- QcR_0; by apply QcR_lt).
  pose proof log_fuel_bound as Hf. set (F := log_fuel g v) in *.
  assert (Hinv : (0 < / QcR v)%R) by (apply Rinv_0_lt_compat; lra).
  unfold ceil_log. fold F. case_bool_decide as H1.
  - apply QcR_lt in H1. rewrite QcR_1 in H1. apply search_up_spec.
    + by rewrite powerRZ_O.
    + replace (1 - 1 + Z.of_nat F) with (Z.of_nat F) by lia.
      pose proof (powerRZ_bernoulli (QcR g) F ltac:(lra)). lra.
  - apply search_down_spec.
    + rewrite powerRZ_O. rewrite <- QcR_1. apply QcR_le. by apply Qcnot_lt_le.
    + replace (0 - 1 - Z.of_nat F) with (- Z.of_nat (S F)) by lia.
      rewrite powerRZ_neg'. pose proof (powerRZ_bernoulli (QcR g) (S F) ltac:(lra)) as HB.
      rewrite S_INR in HB.
      assert (Hp : (/ QcR v < powerRZ (QcR g) (Z.of_nat (S F)))%R) by lra.
      apply Rinv_lt_contravar in Hp; [|apply Rmult_lt_0_compat; lra].
      by rewrite Rinv_inv in Hp.
Qed.


End Search.

(** ** Accuracy of the mapping *)

Section Accuracy.
Variables (relative_accuracy : Qc) (offset : Z) (m : LogarithmicMapping).
Hypothesis Hm : LogarithmicMapping_new relative_accuracy offset = Ok m.

Lemma mapping_new_inv :
  (0 < relative_accuracy)%Qc /\ (relative_accuracy < 1)%Qc /\ offset_ m = offset /\
  QcR (gamma_ m) = ((1 + QcR relative_accuracy) / (1 - QcR relative_accuracy))%R.
Proof.
  unfold LogarithmicMapping_new in Hm.
  case_bool_decide as H1; [discriminate|]. case_bool_decide as H2; [discriminate|].
  injection Hm as <-. apply Qcnot_le_lt in H1. apply Qcnot_le_lt in H2.
  split; [done|]. split; [done|]. split; [done|]. cbn [gamma_].
  apply QcR_lt in H1, H2. rewrite QcR_0 in H1. rewrite QcR_1 in H2.
  assert (Hne : (1 - relative_accuracy)%Qc <> 0%Qc).
  { intros E. apply (f_equal QcR) in E. rewrite QcR_minus, QcR_1, QcR_0 in E. lra. }
  rewrite QcR_plus, QcR_div, QcR_mult, QcR_minus, QcR_1 by done.
  rewrite QcR_2.
  field. lra.
Qed.

Lemma gamma_gt_1 : (1 < gamma_ m)%Qc.
Proof.
  destruct mapping_new_inv as (H1 & H2 & _ & Hg). apply QcR_lt in H1, H2.
  apply QcR_lt. rewrite Hg, QcR_1. rewrite QcR_0 in H1. rewrite QcR_1 in H2.
  apply (Rmult_lt_reg_r (1 - QcR relative_accuracy)); [lra|].
  unfold Rdiv. rewrite Rmult_assoc, Rinv_l; lra.
Qed.

Lemma log_value_key v :
  log_value m (log_key m v) = (qpow (gamma_ m) (ceil_log (gamma_ m) v) * (1 - relative_accuracy))%Qc.
Proof.
  destruct mapping_new_inv as (H1 & H2 & Ho & Hg).
  apply QcR_lt in H1, H2. rewrite QcR_0 in H1. rewrite QcR_1 in H2.
  unfold log_value, log_key. replace (ceil_log (gamma_ m) v + offset_ m - offset_ m)
    with (ceil_log (gamma_ m) v) by lia.
  apply QcR_inj. rewrite !QcR_mult. f_equal.
  assert (Hne : (1 + gamma_ m)%Qc <> 0%Qc).
  { intros E. apply (f_equal QcR) in E. rewrite QcR_plus, QcR_1, QcR_0, Hg in E.
    assert (0 < (1 + QcR relative_accuracy) / (1 - QcR relative_accuracy))%R
      by (apply Rdiv_lt_0_compat; lra). lra. }
  rewrite QcR_div by done. rewrite QcR_2, (QcR_plus 1 (gamma_ m)), Hg, QcR_minus, QcR_1.
  field. lra.
Qed.

(** [key] is monotone: a larger value never gets a smaller key. *)
Lemma log_key_mono v v' :
  (0 < v)%Qc -> (v <= v')%Qc -> log_key m v <= log_key m v'.
Proof.
  intros Hv Hvv. pose proof gamma_gt_1 as Hg.
  assert (Hv' : (0 < v')%Qc) by (eapply Qclt_le_trans; eauto).
  destruct (ceil_log_R _ _ Hg Hv) as [H1 _]. destruct (ceil_log_R _ _ Hg Hv') as [_ H2].
  apply QcR_le in Hvv. apply QcR_lt in Hg. rewrite QcR_1 in Hg.
  unfold log_key. apply Z.add_le_mono_r, Z.nlt_ge. intros Hlt.
  pose proof (powerRZ_mono (QcR (gamma_ m)) (ceil_log (gamma_ m) v')
                (ceil_log (gamma_ m) v - 1) ltac:(lra) ltac:(lia)). lra.
Qed.

Lemma min_possible_nonneg : (0 <= min_possible_ m)%Qc.
Proof.
  pose proof gamma_gt_1 as Hg. unfold LogarithmicMapping_new in Hm.
  case_bool_decide; [discriminate|]. case_bool_decide; [discriminate|].
  injection Hm as <-. cbn in *. assert (Hd : (0 < DBL_MIN)%Qc) by (vm_compute; reflexivity).
  qcR. nra.
Qed.

Lemma log_value_pos k : (0 < log_value m k)%Qc.
Proof.
  pose proof gamma_gt_1 as Hg. unfold log_value.
  assert (Hne : (1 + gamma_ m)%Qc <> 0%Qc) by (intros E; apply (f_equal QcR) in E; qcR; lra).
  apply QcR_lt. rewrite QcR_mult, QcR_qpow, QcR_div, QcR_2, QcR_plus, QcR_0, QcR_1
    by (done || (intros E; rewrite E in Hg; discriminate Hg)).
  apply QcR_lt in Hg. rewrite QcR_1 in Hg.
  pose proof (powerRZ_lt (QcR (gamma_ m)) (k - offset_ m) ltac:(lra)).
  apply Rmult_lt_0_compat; [done|]. apply Rdiv_lt_0_compat; lra.
Qed.

(** [value(key(v))] is within [relative_accuracy * v] of a positive [v]. *)
Lemma log_value_key_bounds v :
  (0 < v)%Qc ->
  ((1 - relative_accuracy) * v <= log_value m (log_key m v))%Qc /\
  (log_value m (log_key m v) <= (1 + relative_accuracy) * v)%Qc.
Proof.
  intros Hv. pose proof gamma_gt_1 as Hg1.
  destruct (ceil_log_R _ _ Hg1 Hv) as [H1 H2].
  destruct mapping_new_inv as (Ha1 & Ha2 & _ & Hg).
  apply QcR_lt in Ha1, Ha2. rewrite QcR_0 in Ha1. rewrite QcR_1 in Ha2.
  rewrite log_value_key. set (k := ceil_log (gamma_ m) v) in *.
  assert (HG : (QcR (gamma_ m) * (1 - QcR relative_accuracy) = 1 + QcR relative_accuracy)%R)
    by (rewrite Hg; field; lra).
  assert (Hgn : QcR (gamma_ m) <> 0%R) by (apply QcR_lt in Hg1; rewrite QcR_1 in Hg1; lra).
  assert (HP : powerRZ (QcR (gamma_ m)) k = (powerRZ (QcR (gamma_ m)) (k - 1) * QcR (gamma_ m))%R)
    by (rewrite <- powerRZ_succ by done; f_equal; lia).
  split; apply QcR_le; rewrite !QcR_mult, qpow_R by done; autorewrite with qcR.
  - rewrite (Rmult_comm (1 - _)). apply Rmult_le_compat_r; lra.
  - rewrite HP, Rmult_assoc, HG, Rmult_comm. apply Rmult_le_compat_l; lra.
Qed.


End Accuracy.

(** ** Witnesses *)


