(* ===== verification/MappingReals.v ===== *)
(** * The three key mappings over the reals (ddsketch.h lines 800-1049)

    [KeyMapping] and its subclasses compute with [double]s, logarithms,
    powers, [frexp]/[ldexp], cube and square roots; this file models them
    over [R] (rounding aside).  The class hierarchy is one [Record] whose
    [kind] selects the overriding [log_gamma]/[pow_gamma], as the store's
    [kind] does in [Store.v].  [std::floor] and [std::ceil] are [Zfloor] and
    [Zceil]; [static_cast<Index>] of a double truncates toward zero
    ([trunc]).  [frexp(v)] returns the mantissa in [[1/2, 1)] and the
    exponent [floor(log2 v) + 1] of a positive [v]; [cbrt] is the real cube
    root.

    The theorems: [key(1)] is the truncation of [offset] (not its floor);
    the linearly interpolated [log2] and [exp2] are inverse; a fractional
    offset breaks the relative accuracy; and the exact rational mapping of
    [ExactMapping.v] computes the same keys and values as this one. *)

From S2P Require Import Prelude QcReals Sketch ExactMapping.
From Stdlib Require Import Zfloor.

Local Open Scope R_scope.

Module RealMapping.

(** ** Floating-point primitives *)

Definition log2 (x : R) : R := ln x / ln 2.
Definition exp2 (x : R) : R := Rpower 2 x.

(** [static_cast<Index>(x)]: truncation toward zero. *)
Definition trunc (x : R) : Z := if Rle_dec 0 x then Zfloor x else Zceil x.

(** [std::frexp(v, &e)] for [v > 0]: [v = m * 2^e] with [m] in [[1/2, 1)]. *)
Definition frexp (v : R) : R * Z :=
  let e := (Zfloor (log2 v) + 1)%Z in (v / powerRZ 2 e, e).

(** [std::ldexp(m, e) = m * 2^e]. *)
Definition ldexp (m : R) (e : Z) : R := m * powerRZ 2 e.

(** [std::cbrt]: the real cube root. *)
Definition cbrt (x : R) : R :=
  if Rlt_dec 0 x then Rpower x (1 / 3)
  else if Rlt_dec x 0 then - Rpower (- x) (1 / 3) else 0.

(** ** The approximations of [log2] and [exp2] *)

(** [LinearlyInterpolatedMapping::log2_approx] *)
Definition log2_approx (value : R) : R :=
  let (mantissa, exponent) := frexp value in
  let significand := 2 * mantissa - 1 in
  significand + IZR (exponent - 1).

(** [LinearlyInterpolatedMapping::exp2_approx] *)
Definition exp2_approx (value : R) : R :=
  let exponent := (Zfloor value + 1)%Z in
  let mantissa := (value - IZR exponent + 2) / 2 in
  ldexp mantissa exponent.

(** The constants [A_], [B_], [C_] of [CubicallyInterpolatedMapping]. *)
Definition A_ : R := 6 / 35.
Definition B_ : R := - 3 / 5.
Definition C_ : R := 10 / 7.

(** [CubicallyInterpolatedMapping::cubic_log2_approx] *)
Definition cubic_log2_approx (value : R) : R :=
  let (mantissa, exponent) := frexp value in
  let significand := 2 * mantissa - 1 in
  ((A_ * significand + B_) * significand + C_) * significand + IZR (exponent - 1).

(** [CubicallyInterpolatedMapping::cubic_exp2_approx] (Cardano's formula). *)
Definition cubic_exp2_approx (value : R) : R :=
  let exponent := Zfloor value in
  let delta_0 := B_ * B_ - 3 * A_ * C_ in
  let delta_1 := 2 * B_ * B_ * B_ - 9 * A_ * B_ * C_ - 27 * A_ * A_ * (value - IZR exponent) in
  let cardano := cbrt ((delta_1 - sqrt (delta_1 * delta_1 - 4 * delta_0 * delta_0 * delta_0)) / 2) in
  let significand_plus_one := - (B_ + cardano + delta_0 / cardano) / (3 * A_) + 1 in
  let mantissa := significand_plus_one / 2 in
  ldexp mantissa (exponent + 1).

(** ** The mappings *)

Inductive MappingKind := Logarithmic | LinearlyInterpolated | CubicallyInterpolated.

Record KeyMapping := mkKeyMapping {
  kind : MappingKind;
  relative_accuracy_ : R;
  offset_ : R;
  gamma_ : R;
  multiplier_ : R;
  min_possible_ : R;
  max_possible_ : R
}.

(** The [KeyMapping] constructor followed by the subclass constructor,
    which adjusts [multiplier_]: [*= log(2)] for the logarithmic mapping,
    [/= C_] for the cubic one. *)
Definition KeyMapping_new (k : MappingKind) (relative_accuracy offset : R) : result KeyMapping :=
  if Rle_dec relative_accuracy 0 then Throw IllegalArgument
  else if Rle_dec 1 relative_accuracy then Throw IllegalArgument
  else
    let gamma_mantissa := 2 * relative_accuracy / (1 - relative_accuracy) in
    let gamma := 1 + gamma_mantissa in
    let multiplier := 1 / ln (1 + gamma_mantissa) in
    let multiplier :=
      match k with
      | Logarithmic => multiplier * ln 2
      | LinearlyInterpolated => multiplier
      | CubicallyInterpolated => multiplier / C_
      end in
    Ok (mkKeyMapping k relative_accuracy offset gamma multiplier
          (QcR DBL_MIN * gamma) (QcR DBL_MAX / gamma)).

(** The overridden [log_gamma] and [pow_gamma]. *)
Definition log_gamma (m : KeyMapping) (value : R) : R :=
  match kind m with
  | Logarithmic => log2 value * multiplier_ m
  | LinearlyInterpolated => log2_approx value * multiplier_ m
  | CubicallyInterpolated => cubic_log2_approx value * multiplier_ m
  end.

Definition pow_gamma (m : KeyMapping) (value : R) : R :=
  match kind m with
  | Logarithmic => exp2 (value / multiplier_ m)
  | LinearlyInterpolated => exp2_approx (value / multiplier_ m)
  | CubicallyInterpolated => cubic_exp2_approx (value / multiplier_ m)
  end.

(** [KeyMapping::key] and [KeyMapping::value]. *)
Definition key (m : KeyMapping) (value : R) : Z :=
  trunc (IZR (Zceil (log_gamma m value)) + offset_ m).

Definition value (m : KeyMapping) (k : Z) : R :=
  pow_gamma m (IZR k - offset_ m) * (2 / (1 + gamma_ m)).

(** The mapping a successful constructor returns (for the examples). *)
Definition mapping_of_result (r : result KeyMapping) : KeyMapping :=
  match r with Ok m => m | Throw _ => mkKeyMapping Logarithmic 0 0 0 0 0 0 end.

(** ** Powers of two and [frexp] *)

Lemma ln2_pos : 0 < ln 2.
Proof. rewrite <- ln_1. apply ln_increasing; lra. Qed.

Lemma exp2_IZR z : exp2 (IZR z) = powerRZ 2 z.
Proof. unfold exp2. rewrite powerRZ_Rpower; [done | lra]. Qed.

Lemma exp2_log2 v : 0 < v -> exp2 (log2 v) = v.
Proof.
  intros Hv. pose proof ln2_pos. unfold exp2, log2, Rpower.
  replace (ln v / ln 2 * ln 2) with (ln v) by (field; lra). by apply exp_ln.
Qed.

Lemma log2_exp2 x : log2 (exp2 x) = x.
Proof.
  pose proof ln2_pos. unfold exp2, log2, Rpower. rewrite ln_exp. field. lra.
Qed.

Lemma exp2_le x y : x <= y -> exp2 x <= exp2 y.
Proof.
  intros H. destruct (Req_dec x y) as [->|Hne]; [lra|].
  left. apply Rpower_lt; lra.
Qed.

Lemma exp2_lt x y : x < y -> exp2 x < exp2 y.
Proof. intros H. apply Rpower_lt; lra. Qed.

Lemma exp2_pos x : 0 < exp2 x.
Proof. apply exp_pos. Qed.

Lemma exp2_plus x y : exp2 (x + y) = exp2 x * exp2 y.
Proof. unfold exp2. apply Rpower_plus. Qed.

Lemma log2_1 : log2 1 = 0.
Proof. unfold log2. rewrite ln_1. lra. Qed.

(** [frexp(v)] for [v > 0]: [v = m * 2^e] with [1/2 <= m < 1]. *)
Lemma frexp_spec v :
  0 < v -> 1 / 2 <= fst (frexp v) < 1 /\ v = fst (frexp v) * powerRZ 2 (snd (frexp v)).
Proof.
  intros Hv. unfold frexp. cbn [fst snd]. set (f := Zfloor (log2 v)).
  pose proof (Zfloor_bound (log2 v)) as [H1 H2]. fold f in H1, H2.
  apply exp2_le in H1. apply exp2_lt in H2. rewrite exp2_log2 in H1, H2 by done.
  rewrite <- plus_IZR, exp2_IZR in H2. rewrite exp2_IZR in H1.
  assert (E : powerRZ 2 (f + 1) = powerRZ 2 f * 2)
    by (rewrite powerRZ_add by lra; simpl; ring).
  pose proof (powerRZ_lt 2 f ltac:(lra)).
  rewrite E in H2 |- *. split; [split|].
  - apply (Rmult_le_reg_r (powerRZ 2 f * 2)); [lra|].
    replace (v / (powerRZ 2 f * 2) * (powerRZ 2 f * 2)) with v by (field; lra). lra.
  - apply (Rmult_lt_reg_r (powerRZ 2 f * 2)); [lra|].
    replace (v / (powerRZ 2 f * 2) * (powerRZ 2 f * 2)) with v by (field; lra). lra.
  - field. lra.
Qed.

Lemma log2_lt x y : 0 < x -> x < y -> log2 x < log2 y.
Proof.
  intros Hx Hxy. pose proof ln2_pos. unfold log2.
  apply Rmult_lt_compat_r; [by apply Rinv_0_lt_compat | by apply ln_increasing].
Qed.

Lemma log2_le x y : 0 < x -> x <= y -> log2 x <= log2 y.
Proof. intros Hx [H|<-]; [left; by apply log2_lt | lra]. Qed.

Lemma log2_powerRZ e : log2 (powerRZ 2 e) = IZR e.
Proof. rewrite <- exp2_IZR. apply log2_exp2. Qed.

Lemma log2_mult x y : 0 < x -> 0 < y -> log2 (x * y) = log2 x + log2 y.
Proof. intros. unfold log2. rewrite ln_mult by done. field. pose proof ln2_pos. lra. Qed.

Lemma log2_half : log2 (1 / 2) = -1.
Proof.
  replace (1 / 2) with (powerRZ 2 (-1)) by (simpl; field).
  by rewrite log2_powerRZ.
Qed.

(** [frexp] is determined by the decomposition it returns. *)
Lemma frexp_unique v m e :
  1 / 2 <= m < 1 -> v = m * powerRZ 2 e -> frexp v = (m, e).
Proof.
  intros Hm ->. pose proof (powerRZ_lt 2 e ltac:(lra)) as Hp.
  assert (Hf : Zfloor (log2 (m * powerRZ 2 e)) = (e - 1)%Z).
  { apply Zfloor_eq. rewrite log2_mult, log2_powerRZ, minus_IZR by lra.
    pose proof (log2_le (1 / 2) m ltac:(lra) ltac:(lra)).
    pose proof (log2_lt m 1 ltac:(lra) ltac:(lra)).
    rewrite log2_half in *. rewrite log2_1 in *. lra. }
  unfold frexp. rewrite Hf. replace (e - 1 + 1)%Z with e by lia. f_equal. field. lra.
Qed.

Lemma frexp_one : frexp 1 = (1 / 2, 1%Z).
Proof. apply frexp_unique; [lra | simpl; field]. Qed.

(** ** [static_cast<Index>] *)

Lemma trunc_IZR z : trunc (IZR z) = z.
Proof.
  unfold trunc. destruct (Rle_dec 0 (IZR z)); [apply ZfloorZ|].
  apply Zceil_eq. lra.
Qed.

Lemma Zceil_0 : Zceil 0 = 0%Z.
Proof. apply Zceil_eq. simpl. lra. Qed.

Lemma trunc_plus_IZR x z : trunc (IZR (Zceil x) + IZR z) = (Zceil x + z)%Z.
Proof. by rewrite <- plus_IZR, trunc_IZR. Qed.

(** ** [key] at [1] *)

(** All three [log_gamma]s vanish at [1]: [log2 1 = 0], and [frexp 1 =
    (1/2, 1)] makes the significand and the exponent term [0]. *)
Lemma log_gamma_one m : log_gamma m 1 = 0.
Proof.
  unfold log_gamma, log2_approx, cubic_log2_approx. rewrite frexp_one, log2_1.
  rewrite Z.sub_diag. destruct (kind m); field.
Qed.

(** ** The linear approximation and its inverse *)

Lemma log2_approx_frexp v mn e :
  frexp v = (mn, e) -> log2_approx v = 2 * mn - 1 + IZR (e - 1).
Proof. unfold log2_approx. by intros ->. Qed.

(** [exp2_approx x] decomposes as [((x - floor x + 1) / 2) * 2^(floor x + 1)]
    with the mantissa in [[1/2, 1)]. *)
Lemma exp2_approx_frexp x :
  frexp (exp2_approx x) = ((x - IZR (Zfloor x) + 1) / 2, (Zfloor x + 1)%Z).
Proof.
  pose proof (Zfloor_bound x). apply frexp_unique; [lra|].
  unfold exp2_approx, ldexp. rewrite plus_IZR. f_equal. field.
Qed.

Lemma log2_approx_exp2_approx_eq x : log2_approx (exp2_approx x) = x.
Proof.
  rewrite (log2_approx_frexp _ _ _ (exp2_approx_frexp x)).
  rewrite minus_IZR, plus_IZR. field.
Qed.

Lemma exp2_approx_log2_approx_eq v : 0 < v -> exp2_approx (log2_approx v) = v.
Proof.
  intros Hv. destruct (frexp v) as [mn e] eqn:Hf.
  pose proof (frexp_spec v Hv) as [Hm Hd]. rewrite Hf in Hm, Hd. cbn [fst snd] in Hm, Hd.
  rewrite (log2_approx_frexp _ _ _ Hf). unfold exp2_approx, ldexp.
  assert (Hz : Zfloor (2 * mn - 1 + IZR (e - 1)) = (e - 1)%Z)
    by (apply Zfloor_eq; lra).
  rewrite Hz. replace (e - 1 + 1)%Z with e by lia. rewrite Hd, minus_IZR. field.
Qed.

Lemma ln_pos x : 1 < x -> 0 < ln x.
Proof. intros H. rewrite <- ln_1. apply ln_increasing; lra. Qed.

Lemma ln_powerRZ x z : 0 < x -> ln (powerRZ x z) = IZR z * ln x.
Proof. intros Hx. rewrite powerRZ_Rpower by done. unfold Rpower. by rewrite ln_exp. Qed.

(** ** [exp2_approx] is increasing and [ln (exp2_approx y)] grows slower than [y] *)

Lemma ln_le_minus_1 x : 0 < x -> ln x <= x - 1.
Proof. intros Hx. pose proof (exp_ineq1_le (ln x)). rewrite exp_ln in H by done. lra. Qed.

Lemma ln2_lt_1 : ln 2 < 1.
Proof.
  pose proof (exp_ineq1 1 ltac:(lra)).
  apply (Rlt_le_trans _ (ln (exp 1))); [apply ln_increasing; lra | rewrite ln_exp; lra].
Qed.

(** [exp2_approx y = 2^f (1 + t)] with [f = floor y] and [t = y - f]. *)
Lemma exp2_approx_eq y :
  exp2_approx y = powerRZ 2 (Zfloor y) * (1 + (y - IZR (Zfloor y))).
Proof.
  unfold exp2_approx, ldexp. rewrite powerRZ_add, plus_IZR by lra. simpl. field.
Qed.

Lemma exp2_approx_pos y : 0 < exp2_approx y.
Proof.
  rewrite exp2_approx_eq. pose proof (Zfloor_bound y).
  pose proof (powerRZ_lt 2 (Zfloor y) ltac:(lra)). nra.
Qed.

Lemma exp2_approx_mono y1 y2 : y1 <= y2 -> exp2_approx y1 <= exp2_approx y2.
Proof.
  intros Hy. rewrite !exp2_approx_eq.
  pose proof (Zfloor_bound y1). pose proof (Zfloor_bound y2).
  pose proof (Zfloor_le _ _ Hy) as Hf.
  pose proof (powerRZ_lt 2 (Zfloor y1) ltac:(lra)).
  destruct (Z.eq_dec (Zfloor y1) (Zfloor y2)) as [E|Hne].
  - rewrite E in *. nra.
  - pose proof (powerRZ_mono 2 (Zfloor y1 + 1) (Zfloor y2) ltac:(lra) ltac:(lia)) as Hp.
    rewrite powerRZ_add in Hp by lra. simpl in Hp. nra.
Qed.

(** [t - ln (1 + t)] is non-decreasing on [[0, 1]]. *)
Lemma ln_1_plus_diff t1 t2 : 0 <= t1 <= t2 -> ln (1 + t2) - ln (1 + t1) <= t2 - t1.
Proof.
  intros Ht.
  assert (E : ln (1 + t2) - ln (1 + t1) = ln ((1 + t2) / (1 + t1))).
  { unfold Rdiv. rewrite ln_mult, ln_Rinv; try lra. apply Rinv_0_lt_compat. lra. }
  rewrite E.
  pose proof (ln_le_minus_1 ((1 + t2) / (1 + t1))
    ltac:(apply Rdiv_lt_0_compat; lra)).
  assert ((1 + t2) / (1 + t1) - 1 <= t2 - t1); [|lra].
  apply (Rmult_le_reg_r (1 + t1)); [lra|].
  replace (((1 + t2) / (1 + t1) - 1) * (1 + t1)) with (t2 - t1) by (field; lra). nra.
Qed.

Lemma ln_exp2_approx y :
  ln (exp2_approx y) = IZR (Zfloor y) * ln 2 + ln (1 + (y - IZR (Zfloor y))).
Proof.
  pose proof (Zfloor_bound y). rewrite exp2_approx_eq, ln_mult, ln_powerRZ; try lra.
  apply powerRZ_lt. lra.
Qed.

(** [y - ln (exp2_approx y)] is non-decreasing: the piecewise linear
    [exp2_approx] never grows faster than [exp]. *)
Lemma exp2_approx_ln_growth y1 y2 :
  y1 <= y2 -> ln (exp2_approx y2) - ln (exp2_approx y1) <= y2 - y1.
Proof.
  intros Hy. rewrite !ln_exp2_approx.
  pose proof (Zfloor_bound y1). pose proof (Zfloor_bound y2).
  pose proof (Zfloor_le _ _ Hy) as Hf. pose proof ln2_lt_1.
  set (f1 := Zfloor y1) in *. set (f2 := Zfloor y2) in *.
  destruct (Z.eq_dec f1 f2) as [E|Hne].
  - rewrite E in *. pose proof (ln_1_plus_diff (y1 - IZR f2) (y2 - IZR f2)). lra.
  - assert (Hf' : IZR f1 + 1 <= IZR f2) by (rewrite <- plus_IZR; apply IZR_le; lia).
    pose proof (ln_1_plus_diff (y1 - IZR f1) 1 ltac:(lra)).
    pose proof (ln_1_plus_diff 0 (y2 - IZR f2) ltac:(lra)).
    rewrite Rplus_0_r, ln_1 in *. replace (1 + 1) with 2 in * by lra. nra.
Qed.

(** ** The constructor *)

(** [ceil(ln v / ln gamma)] is the [c] with [gamma^(c-1) < v <= gamma^c]. *)
Lemma Zceil_log_bucket g v c :
  1 < g -> 0 < v -> powerRZ g (c - 1) < v <= powerRZ g c -> Zceil (ln v / ln g) = c.
Proof.
  intros Hg Hv [H1 H2]. pose proof (ln_pos g Hg) as Hl.
  pose proof (powerRZ_lt g (c - 1) ltac:(lra)).
  apply ln_increasing in H1; [|done]. rewrite ln_powerRZ, minus_IZR in H1 by lra.
  assert (H3 : ln v <= IZR c * ln g).
  { rewrite <- ln_powerRZ by lra. destruct H2 as [H2| ->]; [|lra].
    left. apply ln_increasing; lra. }
  apply Zceil_eq. split.
  - apply (Rmult_lt_reg_r (ln g)); [done|].
    replace (ln v / ln g * ln g) with (ln v) by (field; lra). lra.
  - apply (Rmult_le_reg_r (ln g)); [done|].
    replace (ln v / ln g * ln g) with (ln v) by (field; lra). lra.
Qed.

(** [KeyMapping_new] throws exactly when [relative_accuracy] is outside
    [(0, 1)]. *)
Lemma KeyMapping_new_error k a off :
  a <= 0 \/ 1 <= a -> KeyMapping_new k a off = Throw IllegalArgument.
Proof.
  intros H. unfold KeyMapping_new.
  destruct (Rle_dec a 0); [done|]. destruct (Rle_dec 1 a); [done | lra].
Qed.

Lemma KeyMapping_new_total k a off : 0 < a < 1 -> exists m, KeyMapping_new k a off = Ok m.
Proof.
  intros H. unfold KeyMapping_new.
  destruct (Rle_dec a 0); [lra|]. destruct (Rle_dec 1 a); [lra|]. by eexists.
Qed.

Lemma KeyMapping_new_of k a off :
  0 < a < 1 -> KeyMapping_new k a off = Ok (mapping_of_result (KeyMapping_new k a off)).
Proof. intros H. by destruct (KeyMapping_new_total k a off H) as [m ->]. Qed.

Section Constructor.
Variables (k : MappingKind) (a off : R) (m : KeyMapping).
Hypothesis Hm : KeyMapping_new k a off = Ok m.

(** What the constructor stores: [gamma = (1 + a) / (1 - a)] and the
    multiplier of the subclass, [ln 2 / ln gamma], [1 / ln gamma] or
    [1 / (C_ ln gamma)]. *)
Lemma KeyMapping_new_inv :
  0 < a < 1 /\ kind m = k /\ relative_accuracy_ m = a /\ offset_ m = off /\
  gamma_ m = (1 + a) / (1 - a) /\
  multiplier_ m =
    match k with
    | Logarithmic => ln 2 / ln (gamma_ m)
    | LinearlyInterpolated => 1 / ln (gamma_ m)
    | CubicallyInterpolated => 1 / (C_ * ln (gamma_ m))
    end.
Proof.
  unfold KeyMapping_new in Hm.
  destruct (Rle_dec a 0); [discriminate|]. destruct (Rle_dec 1 a); [discriminate|].
  injection Hm as <-. cbn [kind relative_accuracy_ offset_ gamma_ multiplier_].
  assert (E : 1 + 2 * a / (1 - a) = (1 + a) / (1 - a)) by (field; lra).
  assert (Hl : 0 < ln ((1 + a) / (1 - a))).
  { apply ln_pos. apply (Rmult_lt_reg_r (1 - a)); [lra|].
    replace ((1 + a) / (1 - a) * (1 - a)) with (1 + a) by (field; lra). lra. }
  rewrite E. split; [lra|]. do 4 (split; [done|]).
  unfold C_. destruct k; field; lra.
Qed.

Lemma KeyMapping_gamma_gt_1 : 1 < gamma_ m.
Proof.
  destruct KeyMapping_new_inv as (Ha & _ & _ & _ & -> & _).
  apply (Rmult_lt_reg_r (1 - a)); [lra|].
  replace ((1 + a) / (1 - a) * (1 - a)) with (1 + a) by (field; lra). lra.
Qed.

Lemma KeyMapping_ln_gamma_pos : 0 < ln (gamma_ m).
Proof. apply ln_pos, KeyMapping_gamma_gt_1. Qed.

(** [2 / (1 + gamma) = 1 - a] and [gamma (1 - a) = 1 + a]. *)
Lemma KeyMapping_gamma_ratio :
  2 / (1 + gamma_ m) = 1 - a /\ gamma_ m * (1 - a) = 1 + a.
Proof.
  destruct KeyMapping_new_inv as (Ha & _ & _ & _ & -> & _).
  split; field; lra.
Qed.

Section Logarithmic.
Hypothesis Hk : k = Logarithmic.

Lemma log_log_gamma v : log_gamma m v = ln v / ln (gamma_ m).
Proof.
  pose proof KeyMapping_ln_gamma_pos. pose proof ln2_pos.
  destruct KeyMapping_new_inv as (_ & Hkind & _ & _ & _ & Hmul).
  unfold log_gamma. rewrite Hkind, Hmul, Hk. unfold log2. field. lra.
Qed.

Lemma log_pow_gamma x : pow_gamma m x = Rpower (gamma_ m) x.
Proof.
  pose proof KeyMapping_ln_gamma_pos. pose proof ln2_pos.
  destruct KeyMapping_new_inv as (_ & Hkind & _ & _ & _ & Hmul).
  unfold pow_gamma. rewrite Hkind, Hmul, Hk. unfold exp2, Rpower. f_equal. field. lra.
Qed.

Lemma log_key_value v :
  0 < v -> Rpower (gamma_ m) (ln v / ln (gamma_ m)) = v.
Proof.
  intros Hv. pose proof KeyMapping_ln_gamma_pos. unfold Rpower.
  replace (ln v / ln (gamma_ m) * ln (gamma_ m)) with (ln v) by (field; lra).
  by apply exp_ln.
Qed.

Lemma Rpower_lt_mono x y z : 1 < x -> y <= z -> Rpower x y <= Rpower x z.
Proof. intros Hx [H|<-]; [left; by apply Rpower_lt | lra]. Qed.

(** The bucket of [v]: with [c = ceil(log_gamma v)], [gamma^(c-1) < v <= gamma^c]. *)
Lemma log_bucket v :
  0 < v ->
  let c := Zceil (ln v / ln (gamma_ m)) in
  v <= Rpower (gamma_ m) (IZR c) < gamma_ m * v.
Proof.
  intros Hv c. pose proof KeyMapping_gamma_gt_1 as Hg.
  pose proof (Zceil_bound (ln v / ln (gamma_ m))) as [H1 H2]. fold c in H1, H2.
  rewrite <- (log_key_value v) at 1 2 by done. split.
  - by apply Rpower_lt_mono.
  - replace (gamma_ m * _) with (Rpower (gamma_ m) (1 + ln v / ln (gamma_ m)))
      by (rewrite Rpower_plus, Rpower_1; lra).
    apply Rpower_lt; lra.
Qed.

(** [value(key(v))] for an integral offset. *)
Lemma log_value_key_real v z :
  off = IZR z -> 0 < v ->
  value m (key m v) = Rpower (gamma_ m) (IZR (Zceil (ln v / ln (gamma_ m)))) * (1 - a).
Proof.
  intros Ho Hv. destruct KeyMapping_new_inv as (_ & _ & _ & Hoff & _).
  destruct KeyMapping_gamma_ratio as [Hr _].
  unfold key, value. rewrite log_log_gamma, log_pow_gamma, Hoff, Ho, trunc_plus_IZR, Hr.
  f_equal. f_equal. rewrite plus_IZR. ring.
Qed.

End Logarithmic.
Section Linear.
Hypothesis Hk : k = LinearlyInterpolated.

Lemma lin_log_gamma v : log_gamma m v = log2_approx v / ln (gamma_ m).
Proof.
  pose proof KeyMapping_ln_gamma_pos.
  destruct KeyMapping_new_inv as (_ & Hkind & _ & _ & _ & Hmul).
  unfold log_gamma. rewrite Hkind, Hmul, Hk. field. lra.
Qed.

Lemma lin_pow_gamma x : pow_gamma m x = exp2_approx (x * ln (gamma_ m)).
Proof.
  pose proof KeyMapping_ln_gamma_pos.
  destruct KeyMapping_new_inv as (_ & Hkind & _ & _ & _ & Hmul).
  unfold pow_gamma. rewrite Hkind, Hmul, Hk. f_equal. field. lra.
Qed.

(** The bucket of [v]: with [c = ceil(log2_approx v / ln gamma)],
    [v <= exp2_approx (c ln gamma) < gamma v]. *)
Lemma lin_bucket v :
  0 < v ->
  let c := Zceil (log2_approx v / ln (gamma_ m)) in
  v <= exp2_approx (IZR c * ln (gamma_ m)) < gamma_ m * v.
Proof.
  intros Hv c. pose proof KeyMapping_ln_gamma_pos as Hl.
  pose proof KeyMapping_gamma_gt_1 as Hg.
  pose proof (Zceil_bound (log2_approx v / ln (gamma_ m))) as [H1 H2]. fold c in H1, H2.
  set (y := log2_approx v) in *.
  assert (Hy1 : y <= IZR c * ln (gamma_ m)).
  { apply (Rmult_le_compat_r (ln (gamma_ m))) in H2; [|lra].
    replace (y / ln (gamma_ m) * ln (gamma_ m)) with y in H2 by (field; lra). done. }
  assert (Hy2 : IZR c * ln (gamma_ m) < y + ln (gamma_ m)).
  { apply (Rmult_lt_compat_r (ln (gamma_ m))) in H1; [|lra].
    replace (y / ln (gamma_ m) * ln (gamma_ m)) with y in H1 by (field; lra). nra. }
  pose proof (exp2_approx_log2_approx_eq v Hv) as Ev. fold y in Ev.
  split.
  - rewrite <- Ev at 1. by apply exp2_approx_mono.
  - pose proof (exp2_approx_ln_growth _ _ Hy1) as Hgr. rewrite Ev in Hgr.
    apply ln_lt_inv; [apply exp2_approx_pos | nra |].
    rewrite ln_mult by lra. lra.
Qed.

Lemma lin_value_key v z :
  off = IZR z -> 0 < v ->
  value m (key m v) = exp2_approx (IZR (Zceil (log2_approx v / ln (gamma_ m)))
                                     * ln (gamma_ m)) * (1 - a).
Proof.
  intros Ho Hv. destruct KeyMapping_new_inv as (_ & _ & _ & Hoff & _).
  destruct KeyMapping_gamma_ratio as [Hr _].
  unfold key, value. rewrite lin_log_gamma, lin_pow_gamma, Hoff, Ho, trunc_plus_IZR, Hr.
  rewrite plus_IZR. do 3 f_equal. ring.
Qed.

End Linear.
End Constructor.

(** ** The exact rational mapping refines the real one *)

Section Refinement.
Variables (alpha : Qc) (off : Z) (me : LogarithmicMapping) (mr : KeyMapping).
Hypothesis Hme : LogarithmicMapping_new alpha off = Ok me.
Hypothesis Hmr : KeyMapping_new Logarithmic (QcR alpha) (IZR off) = Ok mr.

Lemma refine_gamma : gamma_ mr = QcR (ExactMapping.gamma_ me).
Proof.
  destruct (mapping_new_inv _ _ _ Hme) as (_ & _ & _ & Hg).
  destruct (KeyMapping_new_inv _ _ _ _ Hmr) as (_ & _ & _ & _ & -> & _).
  by rewrite Hg.
Qed.

Lemma refine_key v : (0 < v)%Qc -> key mr (QcR v) = log_key me v.
Proof.
  intros Hv. pose proof (gamma_gt_1 _ _ _ Hme) as Hg.
  destruct (mapping_new_inv _ _ _ Hme) as (_ & _ & Ho & _).
  destruct (KeyMapping_new_inv _ _ _ _ Hmr) as (_ & _ & _ & Hoff & _).
  assert (HgR : 1 < QcR (ExactMapping.gamma_ me)) by (rewrite <- QcR_1; by apply QcR_lt).
  assert (HvR : 0 < QcR v) by (rewrite <- QcR_0; by apply QcR_lt).
  unfold key, log_key. rewrite (log_log_gamma _ _ _ _ Hmr eq_refl), refine_gamma, Hoff, Ho.
  rewrite (Zceil_log_bucket _ _ (ceil_log (ExactMapping.gamma_ me) v)); [|done..|].
  - by rewrite <- plus_IZR, trunc_IZR.
  - destruct (ceil_log_R _ _ Hg Hv) as [H1 H2]. split; [exact H1 | exact H2].
Qed.

Lemma refine_value k : value mr k = QcR (log_value me k).
Proof.
  pose proof (gamma_gt_1 _ _ _ Hme) as Hg.
  destruct (mapping_new_inv _ _ _ Hme) as (_ & _ & Ho & _).
  destruct (KeyMapping_new_inv _ _ _ _ Hmr) as (_ & _ & _ & Hoff & _).
  assert (HgR : 1 < QcR (ExactMapping.gamma_ me)) by (rewrite <- QcR_1; by apply QcR_lt).
  assert (Hne : (1 + ExactMapping.gamma_ me)%Qc <> 0%Qc).
  { intros E. apply (f_equal QcR) in E. rewrite QcR_plus, QcR_1, QcR_0 in E. lra. }
  unfold value, log_value. rewrite (log_pow_gamma _ _ _ _ Hmr eq_refl), refine_gamma, Hoff, Ho.
  assert (Hgz : ExactMapping.gamma_ me <> 0%Qc).
  { intros E. apply (f_equal QcR) in E. rewrite QcR_0 in E. lra. }
  rewrite QcR_mult, QcR_qpow, QcR_div, QcR_plus, QcR_1 by done.
  rewrite powerRZ_Rpower, minus_IZR by lra. rewrite QcR_plus, QcR_1.
  by f_equal.
Qed.

End Refinement.

(** ** Theorems *)

(** C23: [key(1)] is [static_cast<Index>(offset)] for all three mappings:
    the truncation of the offset toward zero, not its floor ([-12] for the
    offset [-12.23] of the mapping tests). *)
Theorem key_one_trunc k a off m : KeyMapping_new k a off = Ok m -> key m 1 = trunc off.
Proof.
  intros Hm. destruct (KeyMapping_new_inv _ _ _ _ Hm) as (_ & _ & _ & <- & _).
  unfold key. rewrite log_gamma_one, Zceil_0. simpl IZR. by rewrite Rplus_0_l.
Qed.

(** C22: The relative accuracy of [LogarithmicMapping] over the reals, for
    an integral offset: [value(key(v))] is within [relative_accuracy * v]
    of every positive [v]. *)
Theorem logarithmic_accuracy a z m v :
  KeyMapping_new Logarithmic a (IZR z) = Ok m -> 0 < v ->
  (1 - a) * v <= value m (key m v) < (1 + a) * v.
Proof.
  intros Hm Hv. pose proof (KeyMapping_new_inv _ _ _ _ Hm) as (Ha & _).
  destruct (KeyMapping_gamma_ratio _ _ _ _ Hm) as [_ Hg].
  rewrite (log_value_key_real _ _ _ _ Hm eq_refl v z eq_refl Hv).
  destruct (log_bucket _ _ _ _ Hm v Hv) as [H1 H2].
  split; nra.
Qed.

(** C21: The relative accuracy of [LinearlyInterpolatedMapping] over the
    reals, for an integral offset: its multiplier [1 / ln gamma] (not
    [log2 gamma]) makes the piecewise linear [exp2_approx] grow by at most
    [gamma] per key, so [value(key(v))] is within [relative_accuracy * v] of
    every positive [v]. *)
Theorem linear_accuracy a z m v :
  KeyMapping_new LinearlyInterpolated a (IZR z) = Ok m -> 0 < v ->
  (1 - a) * v <= value m (key m v) < (1 + a) * v.
Proof.
  intros Hm Hv. pose proof (KeyMapping_new_inv _ _ _ _ Hm) as (Ha & _).
  destruct (KeyMapping_gamma_ratio _ _ _ _ Hm) as [_ Hg].
  rewrite (lin_value_key _ _ _ _ Hm eq_refl v z eq_refl Hv).
  destruct (lin_bucket _ _ _ _ Hm v Hv) as [H1 H2].
  split; nra.
Qed.

(** C24: A fractional offset breaks the accuracy: with [0 < offset < 1],
    [key(1)] truncates to [0] and [value(0) = gamma^(-offset) (1 - a)] is
    below [(1 - a) * 1]. *)
Theorem fractional_offset_inaccurate a off m :
  KeyMapping_new Logarithmic a off = Ok m -> 0 < off < 1 ->
  value m (key m 1) < (1 - a) * 1.
Proof.
  intros Hm Hoff. pose proof (KeyMapping_new_inv _ _ _ _ Hm) as (Ha & _ & _ & Ho & _).
  destruct (KeyMapping_gamma_ratio _ _ _ _ Hm) as [Hr _].
  pose proof (KeyMapping_gamma_gt_1 _ _ _ _ Hm) as Hg.
  assert (Hk : key m 1 = 0%Z).
  { unfold key. rewrite log_gamma_one, Zceil_0, Ho. simpl IZR. rewrite Rplus_0_l.
    unfold trunc. destruct (Rle_dec 0 off); [|lra]. apply Zfloor_eq. simpl. lra. }
  unfold value. rewrite Hk, (log_pow_gamma _ _ _ _ Hm eq_refl), Ho, Hr. simpl IZR.
  assert (Rpower (gamma_ m) (0 - off) < 1).
  { rewrite <- (Rpower_O (gamma_ m)) by lra. apply Rpower_lt; lra. }
  nra.
Qed.

(** C25: [exp2_approx] inverts [log2_approx] on positive values. *)
Theorem exp2_approx_log2_approx v : 0 < v -> exp2_approx (log2_approx v) = v.
Proof. apply exp2_approx_log2_approx_eq. Qed.

(** C26: [log2_approx] inverts [exp2_approx] on every real. *)
Theorem log2_approx_exp2_approx x : log2_approx (exp2_approx x) = x.
Proof. apply log2_approx_exp2_approx_eq. Qed.

(** C20: The executable rational [LogarithmicMapping] of [ExactMapping.v]
    implements the real one: for a rational relative accuracy and an
    integral offset the real constructor succeeds, with the same [gamma],
    and computes the same keys for every positive value and the same value
    for every key. *)
Theorem logarithmic_mapping_refines alpha off me :
  LogarithmicMapping_new alpha off = Ok me ->
  exists mr, KeyMapping_new Logarithmic (QcR alpha) (IZR off) = Ok mr /\
    gamma_ mr = QcR (ExactMapping.gamma_ me) /\
    (forall v, (0 < v)%Qc -> key mr (QcR v) = log_key me v) /\
    (forall k, value mr k = QcR (log_value me k)).
Proof.
  intros Hme. destruct (mapping_new_inv _ _ _ Hme) as (H1 & H2 & _).
  apply QcR_lt in H1, H2. rewrite QcR_0 in H1. rewrite QcR_1 in H2.
  destruct (KeyMapping_new_total Logarithmic (QcR alpha) (IZR off)) as [mr Hmr]; [lra|].
  exists mr. split; [done|]. split; [|split].
  - by apply (refine_gamma alpha off).
  - intros v. by apply (refine_key alpha off).
  - intros k. by apply (refine_value alpha off).
Qed.

(** ** Witnesses *)

Lemma key_one_trunc_witness :
  let m := mapping_of_result (KeyMapping_new CubicallyInterpolated (1 / 100) (-1223 / 100)) in
  key m 1 = trunc (-1223 / 100) /\ trunc (-1223 / 100) = (-12)%Z /\ Zfloor (-1223 / 100) = (-13)%Z.
Proof.
  split; [|split].
  - apply (key_one_trunc CubicallyInterpolated (1 / 100)). apply KeyMapping_new_of. lra.
  - unfold trunc. destruct (Rle_dec 0 (-1223 / 100)); [lra|]. apply Zceil_eq. lra.
  - apply Zfloor_eq. lra.
Defined.

Lemma logarithmic_accuracy_witness :
  let m := mapping_of_result (KeyMapping_new Logarithmic (1 / 100) (IZR 0)) in
  (1 - 1 / 100) * 3 <= value m (key m 3) < (1 + 1 / 100) * 3.
Proof. apply (logarithmic_accuracy (1 / 100) 0); [apply KeyMapping_new_of|]; lra. Defined.

Lemma linear_accuracy_witness :
  let m := mapping_of_result (KeyMapping_new LinearlyInterpolated (1 / 100) (IZR 5)) in
  (1 - 1 / 100) * 3 <= value m (key m 3) < (1 + 1 / 100) * 3.
Proof. apply (linear_accuracy (1 / 100) 5); [apply KeyMapping_new_of|]; lra. Defined.

Lemma fractional_offset_inaccurate_witness :
  let m := mapping_of_result (KeyMapping_new Logarithmic (1 / 100) (1 / 2)) in
  value m (key m 1) < (1 - 1 / 100) * 1.
Proof. apply (fractional_offset_inaccurate (1 / 100) (1 / 2)); [apply KeyMapping_new_of|]; lra. Defined.

Lemma exp2_approx_log2_approx_witness : exp2_approx (log2_approx 3) = 3.
Proof. apply exp2_approx_log2_approx. lra. Defined.

Lemma logarithmic_mapping_refines_witness :
  LogarithmicMapping_new (Q2Qc (1 # 3)) 0 = Ok example_mapping /\
  exists mr, KeyMapping_new Logarithmic (QcR (Q2Qc (1 # 3))) (IZR 0) = Ok mr /\
    gamma_ mr = QcR (ExactMapping.gamma_ example_mapping) /\
    (forall v, (0 < v)%Qc -> key mr (QcR v) = log_key example_mapping v) /\
    (forall k, value mr k = QcR (log_value example_mapping k)).
Proof.
  split; [vm_compute; reflexivity|].
  apply logarithmic_mapping_refines. vm_compute. reflexivity.
Defined.

End RealMapping.
