(* ===== verification/SketchSpec.v ===== *)
(** * The sketch refines a weighted multiset of values

    For a [DDSketch] (both stores dense), the abstract state after a
    sequence of [add(val, weight)] calls is determined by the values:
    the positive store holds, at each key, the weights of the values that
    [add] routes to it with that key; the negative store likewise for the
    negated values below [-min_possible]; [zero_count_] the weights of the
    values in between; [count_] and [sum_] the total weight and the
    weighted sum; [min_]/[max_] bound the values.  [inv] is the sketch's
    invariant ([count_] is the sum of its three parts, the stores are
    well formed, dense and non-negative).  The theorems show that [add],
    [merge] and [copy] keep [inv] and act on the abstract state as
    specified, that [add] throws [IllegalArgumentException] exactly on a
    non-positive weight and [merge] throws
    [UnequalSketchParametersException] exactly on unequal [gamma]s, and
    when [get_quantile_value] is NaN. *)

From S2P Require Import Prelude QcReals BinList Store StoreFacts DenseStoreSpec Sketch ExactMapping.
Import BaseDDSketch.

Local Open Scope Z_scope.
Local Open Scope ddsketch_scope.

(** ** Sketches of the examples *)

Definition sketch_of {M} (r : result (@Sketch M)) (default : @Sketch M) : @Sketch M :=
  match r with Ok s => s | Throw _ => default end.

(** Values of every route: positive, negative and zero. *)
Definition example_values : list (RealValue * RealValue) :=
  [(1%Qc, 1%Qc); (Q2Qc (5 # 2), 1%Qc); (Qc_of_Z (-3), Qc_of_Z 2); (0%Qc, 1%Qc)].

Definition example_values2 : list (RealValue * RealValue) :=
  [(Qc_of_Z 100, Q2Qc (11 # 10)); (Q2Qc (-1 # 4), 1%Qc)].

Definition example_sketch : @Sketch LogarithmicMapping :=
  sketch_of (add_all (DDSketch_new example_mapping) example_values)
    (DDSketch_new example_mapping).

Definition example_sketch2 : @Sketch LogarithmicMapping :=
  sketch_of (add_all (DDSketch_new example_mapping) example_values2)
    (DDSketch_new example_mapping).

(** The same values in a sketch of relative accuracy [1/2]. *)
Definition example_sketch3 : @Sketch LogarithmicMapping :=
  sketch_of (add_all (DDSketch_new example_mapping3) example_values2)
    (DDSketch_new example_mapping3).

Section Spec.
Context {M : Type} `{!KeyMapping M}.
Implicit Types (s : @Sketch M) (vws : list (RealValue * RealValue)).

(** ** The abstract state *)

Definition dense_ok (st : Store) : Prop := wf st /\ kind st = Dense /\ nonneg st.

Record inv (s : @Sketch M) : Prop := {
  inv_store : dense_ok (store_ s);
  inv_negative_store : dense_ok (negative_store_ s);
  inv_zero : (0 <= zero_count_ s)%Qc;
  inv_count : count_ s = (zero_count_ s + count (store_ s) + count (negative_store_ s))%Qc;
  inv_min : (min_ s <= DBL_MAX)%Qc;
  inv_max : (DBL_MIN <= max_ s)%Qc;
  inv_empty : count_ s = 0%Qc -> min_ s = DBL_MAX /\ max_ s = DBL_MIN /\ sum_ s = 0%Qc
}.

(** The total weight of the pairs whose value satisfies [P]. *)
Fixpoint weight_if (P : RealValue -> bool) vws : RealValue :=
  match vws with
  | [] => 0%Qc
  | (v, w) :: r => ((if P v then w else 0) + weight_if P r)%Qc
  end.

(** Every weight is positive: the condition under which [add] does not
    throw [IllegalArgumentException]. *)
Definition pos_weights vws : Prop := Forall (fun vw => (0 < vw.2)%Qc) vws.

Fixpoint weighted_sum vws : RealValue :=
  match vws with
  | [] => 0%Qc
  | (v, w) :: r => (v * w + weighted_sum r)%Qc
  end.

Definition to_store (m : M) (j : Index) (v : RealValue) : bool :=
  bool_decide (route_of m v = ToStore) && (key m v =? j).

Definition to_negative_store (m : M) (j : Index) (v : RealValue) : bool :=
  bool_decide (route_of m v = ToNegativeStore) && (key m (- v) =? j).

Definition to_zero (m : M) (v : RealValue) : bool := bool_decide (route_of m v = ToZero).

(** The abstract effect of adding the pairs [vws] to [s], as [s']. *)
Record refines (s : @Sketch M) vws (s' : @Sketch M) : Prop := {
  ref_mapping : mapping_ s' = mapping_ s;
  ref_store : forall j, content (store_ s') j =
                        (content (store_ s) j + weight_if (to_store (mapping_ s) j) vws)%Qc;
  ref_negative_store : forall j, content (negative_store_ s') j =
                        (content (negative_store_ s) j
                         + weight_if (to_negative_store (mapping_ s) j) vws)%Qc;
  ref_zero_count : zero_count_ s' = (zero_count_ s + weight_if (to_zero (mapping_ s)) vws)%Qc;
  ref_count : count_ s' = (count_ s + weight_if (fun _ => true) vws)%Qc;
  ref_sum : sum_ s' = (sum_ s + weighted_sum vws)%Qc;
  ref_bounds : forall v w, In (v, w) vws -> (min_ s' <= v)%Qc /\ (v <= max_ s')%Qc;
  ref_min : (min_ s' <= min_ s)%Qc /\ (min_ s' = min_ s \/ In (min_ s') (map fst vws));
  ref_max : (max_ s <= max_ s')%Qc /\ (max_ s' = max_ s \/ In (max_ s') (map fst vws))
}.

(** A decision procedure for [inv] on concrete sketches. *)
Definition dense_okb (st : Store) : bool :=
  wfb st && bool_decide (kind st = Dense) && forallb (fun x => bool_decide (0 <= x)%Qc) (bins st).

Definition invb (s : @Sketch M) : bool :=
  dense_okb (store_ s) && dense_okb (negative_store_ s) && bool_decide (0 <= zero_count_ s)%Qc &&
  bool_decide (count_ s = zero_count_ s + count (store_ s) + count (negative_store_ s))%Qc &&
  bool_decide (min_ s <= DBL_MAX)%Qc && bool_decide (DBL_MIN <= max_ s)%Qc &&
  (negb (bool_decide (count_ s = 0%Qc)) ||
   bool_decide (min_ s = DBL_MAX /\ max_ s = DBL_MIN /\ sum_ s = 0%Qc)).

(** ** The stores under [add] *)

Lemma nonneg_bin_at st : nonneg st -> forall i, (0 <= bin_at (bins st) i)%Qc.
Proof.
  intros Hn i. specialize (Hn (i + offset st)). unfold content in Hn.
  by replace (i + offset st - offset st) with i in Hn by lia.
Qed.

Lemma dense_ok_count st : dense_ok st -> (0 <= count st)%Qc.
Proof.
  intros (Hwf & _ & Hn). rewrite <- (wf_sum _ Hwf). apply accumulate_nonneg.
  by apply nonneg_bin_at.
Qed.

Lemma dense_ok_add st k w :
  dense_ok st -> (0 < w)%Qc ->
  exists st', Store.add st k w = Ok st' /\ dense_ok st' /\ count st' = (count st + w)%Qc /\
    forall j, content st' j = (content st j + if decide (j = k) then w else 0)%Qc.
Proof.
  intros (Hwf & Hk & Hn) Hw.
  destruct (dense_add_spec st k w Hwf Hk) as (st' & Ha & Hwf' & Hk' & Hc & _ & _ & Hcont).
  assert (Hcont' : forall j, content st' j = (content st j + if decide (j = k) then w else 0)%Qc).
  { intros j. rewrite Hcont. unfold counter_add. case_decide; [done | ring]. }
  exists st'. split; [done|]. split; [|done]. split; [done|]. split; [done|].
  intros j. rewrite Hcont'. specialize (Hn j). case_decide; [|by rewrite Qcplus_0_r].
  qcR. lra.
Qed.

Lemma inv_count_nonneg s : inv s -> (0 <= count_ s)%Qc.
Proof.
  intros Hs. rewrite (inv_count _ Hs).
  pose proof (inv_zero _ Hs). pose proof (dense_ok_count _ (inv_store _ Hs)).
  pose proof (dense_ok_count _ (inv_negative_store _ Hs)). qcR. lra.
Qed.

Lemma dense_okb_sound st : dense_okb st = true -> dense_ok st.
Proof.
  unfold dense_okb. intros H. apply andb_prop in H as [H Hn]. apply andb_prop in H as [Hw Hk].
  split; [by apply wfb_sound|]. split; [by apply bool_decide_eq_true in Hk|]. by apply nonneg_of_bins.
Qed.

Lemma invb_sound s : invb s = true -> inv s.
Proof.
  unfold invb. rewrite !andb_true_iff, orb_true_iff, negb_true_iff, !bool_decide_eq_true.
  intros ((((((H1 & H2) & H3) & H4) & H5) & H6) & H7).
  constructor; try done; [by apply dense_okb_sound | by apply dense_okb_sound |].
  intros Hc. destruct H7 as [H7|H7]; [by apply bool_decide_eq_false in H7 | done].
Qed.

(** ** One [add] *)

Lemma to_store_route m j v :
  to_store m j v = (if route_of m v is ToStore then bool_decide (j = key m v) else false).
Proof.
  unfold to_store. case_bool_decide as Hr; cbn; [rewrite Hr | by destruct (route_of m v)].
  destruct (Z.eqb_spec (key m v) j); case_bool_decide; congruence.
Qed.

Lemma to_negative_store_route m j v :
  to_negative_store m j v =
  (if route_of m v is ToNegativeStore then bool_decide (j = key m (- v)) else false).
Proof.
  unfold to_negative_store. case_bool_decide as Hr; cbn; [rewrite Hr | by destruct (route_of m v)].
  destruct (Z.eqb_spec (key m (- v)) j); case_bool_decide; congruence.
Qed.

Lemma to_zero_route m v : to_zero m v = (if route_of m v is ToZero then true else false).
Proof. unfold to_zero. by destruct (route_of m v). Qed.

(** What one [add] of a positive weight does to the abstract state. *)
Definition add_post s v w s' : Prop :=
  let m := mapping_ s in
  mapping_ s' = m /\
  (forall j, content (store_ s') j = (content (store_ s) j + if to_store m j v then w else 0)%Qc) /\
  (forall j, content (negative_store_ s') j =
             (content (negative_store_ s) j + if to_negative_store m j v then w else 0)%Qc) /\
  zero_count_ s' = (zero_count_ s + if to_zero m v then w else 0)%Qc /\
  count_ s' = (count_ s + w)%Qc /\ sum_ s' = (sum_ s + v * w)%Qc /\
  min_ s' = (if bool_decide (v < min_ s)%Qc then v else min_ s) /\
  max_ s' = (if bool_decide (max_ s < v)%Qc then v else max_ s).

Lemma add_inv s v w st nst zc :
  inv s -> (0 < w)%Qc -> dense_ok st -> dense_ok nst -> (0 <= zc)%Qc ->
  (zc + count st + count nst = zero_count_ s + count (store_ s) + count (negative_store_ s) + w)%Qc ->
  inv (mkSketch (mapping_ s) st nst zc (count_ s + w)%Qc
         (if bool_decide (v < min_ s)%Qc then v else min_ s)
         (if bool_decide (max_ s < v)%Qc then v else max_ s) (sum_ s + v * w)%Qc).
Proof.
  intros Hs Hw Hst Hnst Hzc Hsum. pose proof (inv_count_nonneg s Hs) as Hc0.
  pose proof (inv_min _ Hs). pose proof (inv_max _ Hs). pose proof (inv_count _ Hs) as Hc.
  constructor; cbn; [done | done | done | | | | ].
  - rewrite Hc. qcR. lra.
  - case_bool_decide; [|done]. qcR. lra.
  - case_bool_decide; [|done]. qcR. lra.
  - intros E. exfalso. qcR. lra.
Qed.

Lemma add_step s v w :
  inv s -> (0 < w)%Qc -> exists s', add s v w = Ok s' /\ inv s' /\ add_post s v w s'.
Proof.
  intros Hs Hw. unfold add, add_post.
  rewrite bool_decide_eq_false_2 by (intros Hle; qcR; lra).
  rewrite to_zero_route. setoid_rewrite to_store_route. setoid_rewrite to_negative_store_route.
  pose proof (inv_store _ Hs) as Hst. pose proof (inv_negative_store _ Hs) as Hnst.
  destruct (route_of (mapping_ s) v).
  - destruct (dense_ok_add _ (key (mapping_ s) v) w Hst Hw) as (st' & -> & Hok & Hc & Hcont).
    cbn [res_bind]. eexists; split; [reflexivity|]. split.
    { apply add_inv; auto using inv_zero. rewrite Hc. ring. }
    cbn. repeat split; try done; try (intros j; rewrite ?Hcont; by repeat case_bool_decide; repeat case_decide; try ring).
    by rewrite Qcplus_0_r.
  - destruct (dense_ok_add _ (key (mapping_ s) (- v)) w Hnst Hw) as (st' & -> & Hok & Hc & Hcont).
    cbn [res_bind]. eexists; split; [reflexivity|]. split.
    { apply add_inv; auto using inv_zero. rewrite Hc. ring. }
    cbn. repeat split; try done; try (intros j; rewrite ?Hcont; by repeat case_bool_decide; repeat case_decide; try ring).
    by rewrite Qcplus_0_r.
  - cbn [res_bind]. eexists; split; [reflexivity|]. split.
    { apply add_inv; auto. - pose proof (inv_zero _ Hs). qcR. lra. - ring. }
    cbn. repeat split; try done; intros j; by rewrite Qcplus_0_r.
Qed.

Lemma refines_nil s : refines s [] s.
Proof.
  constructor; cbn; try done; try (intros; ring); try (intros ? ? []).
  - split; [apply Qcle_refl | by left].
  - split; [apply Qcle_refl | by left].
Qed.

Lemma refines_cons s v w s1 vws s' :
  add_post s v w s1 -> refines s1 vws s' -> refines s ((v, w) :: vws) s'.
Proof.
  intros (Hm & Hst & Hnst & Hz & Hc & Hsum & Hmin & Hmax) Hr.
  destruct Hr as [Hm' Hst' Hnst' Hz' Hc' Hsum' Hb' [Hmin1 Hmin2] [Hmax1 Hmax2]].
  rewrite Hm in Hst', Hnst', Hz'.
  constructor; cbn [weight_if weighted_sum map fst].
  - congruence.
  - intros j. rewrite Hst', Hst. ring.
  - intros j. rewrite Hnst', Hnst. ring.
  - rewrite Hz', Hz. ring.
  - rewrite Hc', Hc. ring.
  - rewrite Hsum', Hsum. ring.
  - intros v' w' [[= -> ->]|Hin]; [|by apply (Hb' v' w')].
    rewrite Hmin in Hmin1. rewrite Hmax in Hmax1.
    split; repeat case_bool_decide; qcR; lra.
  - rewrite Hmin in Hmin1, Hmin2. split.
    + case_bool_decide; qcR; lra.
    + destruct Hmin2 as [->|Hin]; [|by right; right].
      case_bool_decide; [by right; left | by left].
  - rewrite Hmax in Hmax1, Hmax2. split.
    + case_bool_decide; qcR; lra.
    + destruct Hmax2 as [->|Hin]; [|by right; right].
      case_bool_decide; [by right; left | by left].
Qed.

Lemma add_all_refines s vws :
  inv s -> pos_weights vws ->
  exists s', add_all s vws = Ok s' /\ inv s' /\ refines s vws s'.
Proof.
  revert s. induction vws as [|[v w] vws IH]; intros s Hs Hpos.
  - exists s. split; [done|]. split; [done|]. apply refines_nil.
  - inversion Hpos as [|? ? Hw Hpos']; subst. cbn in Hw.
    destruct (add_step s v w Hs Hw) as (s1 & Ha & Hs1 & Hpost).
    destruct (IH s1 Hs1 Hpos') as (s' & Ha' & Hs' & Hr).
    exists s'. cbn [add_all]. rewrite Ha. cbn [res_bind]. split; [done|]. split; [done|].
    by apply (refines_cons s v w s1).
Qed.

Lemma new_dense_ok chunk : 0 < chunk -> dense_ok (BaseDenseStore_new chunk).
Proof.
  intros Hc. split; [|split; [done|]].
  - apply wfb_sound. unfold wfb. cbn. rewrite (proj2 (Z.ltb_lt 0 chunk) Hc). reflexivity.
  - intros k. by rewrite content_empty.
Qed.

Lemma DDSketch_new_inv m : inv (DDSketch_new m).
Proof.
  assert (Hd : dense_ok (BaseDenseStore_new kChunkSize)) by (apply new_dense_ok; done).
  constructor; cbn; try done; apply Qcle_refl.
Qed.

(** ** [merge] and [copy] *)

Lemma dense_ok_merge a b :
  dense_ok a -> dense_ok b ->
  exists c, Store.merge a b = Ok c /\ dense_ok c /\ count c = (count a + count b)%Qc /\
    forall j, content c j = (content a j + content b j)%Qc.
Proof.
  intros (Hwa & Hka & Hna) (Hwb & Hkb & Hnb).
  destruct (dense_merge_correct a b Hwa Hwb Hka Hna Hnb) as (c & Hm & Hwc & Hkc & Hc & Hcont).
  exists c. split; [done|]. split; [|done]. split; [done|]. split; [done|].
  intros j. rewrite Hcont. specialize (Hna j). specialize (Hnb j). qcR. lra.
Qed.

Lemma dense_ok_copy a b :
  dense_ok a -> dense_ok b ->
  dense_ok (Store.copy a b) /\ count (Store.copy a b) = count b /\
  forall j, content (Store.copy a b) j = content b j.
Proof.
  intros (Hwa & Hka & Hna) (Hwb & Hkb & Hnb). unfold Store.copy. rewrite Hka.
  split; [|done]. split; [|done]. constructor; cbn.
  - apply (wf_chunk _ Hwa).
  - apply (wf_sum _ Hwb).
  - intros Hb. destruct (wf_empty _ Hwb Hb) as (? & ? & _). split; [done|]. split; [done|].
    pose proof (wf_kind _ Hwa) as Hk. unfold kind_wf in Hk. by rewrite Hka in Hk.
  - apply (wf_window _ Hwb).
  - apply (wf_support _ Hwb).
  - unfold kind_wf. cbn. rewrite Hka. pose proof (wf_kind _ Hwa) as Hk.
    unfold kind_wf in Hk. by rewrite Hka in Hk.
Qed.

(** A sketch of zero count holds nothing. *)
Lemma inv_count_zero s :
  inv s -> count_ s = 0%Qc ->
  zero_count_ s = 0%Qc /\ (forall j, content (store_ s) j = 0%Qc) /\
  (forall j, content (negative_store_ s) j = 0%Qc).
Proof.
  intros Hs Hc0. pose proof (inv_count _ Hs) as Hc. pose proof (inv_zero _ Hs) as Hz.
  destruct (inv_store _ Hs) as (Hw1 & _ & Hn1). destruct (inv_negative_store _ Hs) as (Hw2 & _ & Hn2).
  pose proof (dense_ok_count _ (inv_store _ Hs)). pose proof (dense_ok_count _ (inv_negative_store _ Hs)).
  assert (E1 : count (store_ s) = 0%Qc) by (qcR; lra).
  assert (E2 : count (negative_store_ s) = 0%Qc) by (qcR; lra).
  split; [qcR; lra|]. split; by apply count_zero_content.
Qed.

(** What [merge] promises on two sketches of equal [gamma]. *)
Definition merge_post (a b c : @Sketch M) : Prop :=
  mapping_ c = mapping_ a /\
  (forall j, content (store_ c) j = (content (store_ a) j + content (store_ b) j)%Qc) /\
  (forall j, content (negative_store_ c) j =
             (content (negative_store_ a) j + content (negative_store_ b) j)%Qc) /\
  zero_count_ c = (zero_count_ a + zero_count_ b)%Qc /\
  count_ c = (count_ a + count_ b)%Qc /\ sum_ c = (sum_ a + sum_ b)%Qc /\
  min_ c = (if bool_decide (min_ b < min_ a)%Qc then min_ b else min_ a) /\
  max_ c = (if bool_decide (max_ a < max_ b)%Qc then max_ b else max_ a).

Lemma merge_correct a b :
  inv a -> inv b -> gamma (mapping_ a) = gamma (mapping_ b) ->
  exists c, merge a b = Ok c /\ inv c /\ merge_post a b c.
Proof.
  intros Ha Hb Hg. unfold merge, mergeable, merge_post. rewrite bool_decide_eq_true_2 by done.
  cbn [negb]. case_bool_decide as Hcb.
  { (* [sketch.count_ == 0] *)
    destruct (inv_count_zero b Hb Hcb) as (Hz & Hs & Hn).
    destruct (inv_empty _ Hb Hcb) as (Hmin & Hmax & Hsum).
    exists a. split; [done|]. split; [done|]. rewrite Hz, Hcb, Hmin, Hmax, Hsum.
    pose proof (inv_min _ Ha). pose proof (inv_max _ Ha).
    split; [done|]. split; [intros j; rewrite Hs; ring|]. split; [intros j; rewrite Hn; ring|].
    split; [ring|]. split; [ring|]. split; [ring|].
    split; case_bool_decide; try done; exfalso; qcR; lra. }
  case_bool_decide as Hca.
  { (* [count_ == 0]: copy *)
    destruct (inv_count_zero a Ha Hca) as (Hz & Hs & Hn).
    destruct (inv_empty _ Ha Hca) as (Hmin & Hmax & Hsum).
    destruct (dense_ok_copy _ _ (inv_store _ Ha) (inv_store _ Hb)) as (Hc1 & Hcc1 & Hct1).
    destruct (dense_ok_copy _ _ (inv_negative_store _ Ha) (inv_negative_store _ Hb))
      as (Hc2 & Hcc2 & Hct2).
    exists (copy a b). split; [done|]. split.
    { constructor; cbn; try done;
        first [ apply (inv_zero _ Hb) | rewrite Hcc1, Hcc2; apply (inv_count _ Hb)
              | apply (inv_min _ Hb) | apply (inv_max _ Hb) | apply (inv_empty _ Hb) ]. }
    cbn. rewrite Hz, Hca, Hmin, Hmax, Hsum.
    pose proof (inv_min _ Hb). pose proof (inv_max _ Hb).
    split; [done|]. split; [intros j; rewrite Hct1, Hs; ring|].
    split; [intros j; rewrite Hct2, Hn; ring|].
    split; [ring|]. split; [ring|]. split; [ring|].
    split; case_bool_decide; try done; apply QcR_inj; qcR; lra. }
  destruct (dense_ok_merge _ _ (inv_store _ Ha) (inv_store _ Hb)) as (st & -> & Hst & Hcs & Hcts).
  destruct (dense_ok_merge _ _ (inv_negative_store _ Ha) (inv_negative_store _ Hb))
    as (nst & -> & Hnst & Hcn & Hctn).
  cbn [res_bind]. eexists; split; [reflexivity|]. split.
  { pose proof (inv_min _ Ha). pose proof (inv_max _ Ha). pose proof (inv_min _ Hb).
    pose proof (inv_max _ Hb). pose proof (inv_zero _ Ha). pose proof (inv_zero _ Hb).
    pose proof (inv_count _ Ha) as Ea. pose proof (inv_count _ Hb) as Eb.
    pose proof (inv_count_nonneg _ Ha). pose proof (inv_count_nonneg _ Hb).
    constructor; cbn; try done.
    - qcR. lra.
    - rewrite Hcs, Hcn, Ea, Eb. ring.
    - case_bool_decide; done.
    - case_bool_decide; done.
    - intros E. exfalso. apply Hca. qcR. lra. }
  cbn. split; [done|]. split; [done|]. split; [done|]. done.
Qed.

Lemma weight_if_app P vws1 vws2 :
  weight_if P (vws1 ++ vws2) = (weight_if P vws1 + weight_if P vws2)%Qc.
Proof. induction vws1 as [|[v w] r IH]; cbn; [ring | rewrite IH; ring]. Qed.

Lemma weighted_sum_app vws1 vws2 :
  weighted_sum (vws1 ++ vws2) = (weighted_sum vws1 + weighted_sum vws2)%Qc.
Proof. induction vws1 as [|[v w] r IH]; cbn; [ring | rewrite IH; ring]. Qed.

(** [x] is the least element of [base :: l] / the greatest. *)
Definition least (base : Qc) (l : list Qc) (x : Qc) : Prop :=
  (x <= base)%Qc /\ (forall v, In v l -> (x <= v)%Qc) /\ (x = base \/ In x l).

Definition greatest (base : Qc) (l : list Qc) (x : Qc) : Prop :=
  (base <= x)%Qc /\ (forall v, In v l -> (v <= x)%Qc) /\ (x = base \/ In x l).

Lemma refines_min s vws s' : refines s vws s' -> least (min_ s) (map fst vws) (min_ s').
Proof.
  intros Hr. destruct (ref_min _ _ _ Hr) as [H1 H2]. split; [done|]. split; [|done].
  intros v (vw & <- & Hin)%in_map_iff. destruct vw as [v w]. by apply (ref_bounds _ _ _ Hr v w).
Qed.

Lemma refines_max s vws s' : refines s vws s' -> greatest (max_ s) (map fst vws) (max_ s').
Proof.
  intros Hr. destruct (ref_max _ _ _ Hr) as [H1 H2]. split; [done|]. split; [|done].
  intros v (vw & <- & Hin)%in_map_iff. destruct vw as [v w]. by apply (ref_bounds _ _ _ Hr v w).
Qed.

Lemma least_unique base l x y : least base l x -> least base l y -> x = y.
Proof.
  intros (Hx1 & Hx2 & Hx3) (Hy1 & Hy2 & Hy3). apply Qcle_antisym.
  - destruct Hy3 as [->|Hin]; [done | by apply Hx2].
  - destruct Hx3 as [->|Hin]; [done | by apply Hy2].
Qed.

Lemma greatest_unique base l x y : greatest base l x -> greatest base l y -> x = y.
Proof.
  intros (Hx1 & Hx2 & Hx3) (Hy1 & Hy2 & Hy3). apply Qcle_antisym.
  - destruct Hx3 as [->|Hin]; [done | by apply Hy2].
  - destruct Hy3 as [->|Hin]; [done | by apply Hx2].
Qed.

(** The smaller of the least elements of [base :: la] and [base :: lb] is
    the least element of [base :: la ++ lb]; likewise for the greatest. *)
Lemma least_app base la lb xa xb :
  least base la xa -> least base lb xb ->
  least base (la ++ lb) (if bool_decide (xb < xa)%Qc then xb else xa).
Proof.
  intros (Ha1 & Ha2 & Ha3) (Hb1 & Hb2 & Hb3).
  case_bool_decide as Hlt; (split; [done|]; split).
  - intros v [Hv|Hv]%in_app_or; [|by apply Hb2].
    apply Qclt_le_weak. eapply Qclt_le_trans; [exact Hlt | by apply Ha2].
  - destruct Hb3 as [|Hin]; [by left | right; apply in_or_app; by right].
  - intros v [Hv|Hv]%in_app_or; [by apply Ha2|].
    apply Qcnot_lt_le in Hlt. eapply Qcle_trans; [exact Hlt | by apply Hb2].
  - destruct Ha3 as [|Hin]; [by left | right; apply in_or_app; by left].
Qed.

Lemma greatest_app base la lb xa xb :
  greatest base la xa -> greatest base lb xb ->
  greatest base (la ++ lb) (if bool_decide (xa < xb)%Qc then xb else xa).
Proof.
  intros (Ha1 & Ha2 & Ha3) (Hb1 & Hb2 & Hb3).
  case_bool_decide as Hlt; (split; [done|]; split).
  - intros v [Hv|Hv]%in_app_or; [|by apply Hb2].
    apply Qclt_le_weak. eapply Qcle_lt_trans; [by apply Ha2 | exact Hlt].
  - destruct Hb3 as [|Hin]; [by left | right; apply in_or_app; by right].
  - intros v [Hv|Hv]%in_app_or; [by apply Ha2|].
    apply Qcnot_lt_le in Hlt. eapply Qcle_trans; [by apply Hb2 | exact Hlt].
  - destruct Ha3 as [|Hin]; [by left | right; apply in_or_app; by left].
Qed.

(** ** The properties of the sketch *)

(** C2: Replaying [add(val, weight)] calls with positive weights on a sketch
    satisfying the invariant never throws, keeps the invariant, and
    refines the weighted multiset of the values: each store's bucket
    holds the weights of the values routed to it with that key, the zero
    counter the weights of the values in [[-min_possible, min_possible]],
    [count_] and [sum_] the total weight and weighted sum, and [min_],
    [max_] bound every value. *)
Theorem ddsketch_add_all_spec s vws :
  inv s -> pos_weights vws ->
  exists s', add_all s vws = Ok s' /\ inv s' /\ refines s vws s'.
Proof. apply add_all_refines. Qed.

(** C15: A non-positive weight anywhere in a replay makes it throw
    [IllegalArgumentException]. *)
Theorem ddsketch_add_all_illegal_weight s vws v w :
  inv s -> In (v, w) vws -> (w <= 0)%Qc -> add_all s vws = Throw IllegalArgument.
Proof.
  revert s. induction vws as [|[v' w'] vws IH]; intros s Hs Hin Hw; [done|].
  cbn [add_all]. destruct (decide (w' <= 0)%Qc) as [Hle|Hlt].
  - unfold add at 1. by rewrite bool_decide_eq_true_2.
  - apply Qcnot_le_lt in Hlt.
    destruct (add_step s v' w' Hs Hlt) as (s1 & -> & Hs1 & _). cbn [res_bind].
    destruct Hin as [[= -> ->]|Hin]; [by apply Qcle_not_lt in Hw|]. by apply IH.
Qed.

(** C16: [merge] throws [UnequalSketchParametersException] exactly when the
    two mappings have different [gamma]s. *)
Theorem ddsketch_merge_unequal a b :
  inv a -> inv b ->
  (merge a b = Throw UnequalSketchParameters <-> gamma (mapping_ a) <> gamma (mapping_ b)).
Proof.
  intros Ha Hb. split.
  - intros Hm Hg. destruct (merge_correct a b Ha Hb Hg) as (c & Hc & _). congruence.
  - intros Hg. unfold merge, mergeable. by rewrite bool_decide_eq_false_2.
Qed.

(** C4: Merging two sketches of equal [gamma] keeps the invariant, adds
    the stores bucket by bucket, the zero counters, counts and sums, and
    takes the smaller [min_] and the larger [max_]. *)
Theorem ddsketch_merge_spec a b :
  inv a -> inv b -> gamma (mapping_ a) = gamma (mapping_ b) ->
  exists c, merge a b = Ok c /\ inv c /\ merge_post a b c.
Proof. apply merge_correct. Qed.

(** C13: [max_] starts at [std::numeric_limits<double>::min()], the least
    positive double, instead of [-infinity]: after adding only negative
    values the sketch reports that positive number as its maximum, above
    every value it holds. *)
Theorem ddsketch_max_of_negatives (m : M) vws :
  Forall (fun vw => (vw.1 < 0)%Qc) vws -> pos_weights vws ->
  exists s, add_all (DDSketch_new m) vws = Ok s /\ max_ s = DBL_MIN /\
    forall v w, In (v, w) vws -> (v < max_ s)%Qc.
Proof.
  intros Hall Hpos.
  destruct (add_all_refines _ vws (DDSketch_new_inv m) Hpos) as (s & Ha & Hs & Hr).
  assert (Hneg : forall v w, In (v, w) vws -> (v < 0)%Qc)
    by (intros v w Hin; rewrite Forall_forall in Hall; apply (Hall (v, w) Hin)).
  assert (Hmin0 : (0 < DBL_MIN)%Qc) by (vm_compute; reflexivity).
  destruct (refines_max _ _ _ Hr) as (H1 & _ & [H3|H3]); cbn in H1, H3.
  - exists s. split; [done|]. split; [done|]. intros v w Hin. rewrite H3.
    eapply Qclt_trans; [by apply (Hneg v w) | done].
  - exfalso. apply in_map_iff in H3 as ([v w] & Hv & Hin). cbn in Hv. subst v.
    specialize (Hneg _ _ Hin). qcR. lra.
Qed.

(** C3: Merging the sketches of two sequences of insertions gives the
    abstract state of the sketch of the concatenated sequence: the same
    buckets, zero counter, count, sum, [min_] and [max_]. *)
Theorem ddsketch_merge_replay (m : M) vws1 vws2 :
  pos_weights vws1 -> pos_weights vws2 ->
  exists a b c d,
    add_all (DDSketch_new m) vws1 = Ok a /\ add_all (DDSketch_new m) vws2 = Ok b /\
    merge a b = Ok c /\ add_all (DDSketch_new m) (vws1 ++ vws2) = Ok d /\
    (forall j, content (store_ c) j = content (store_ d) j) /\
    (forall j, content (negative_store_ c) j = content (negative_store_ d) j) /\
    zero_count_ c = zero_count_ d /\ count_ c = count_ d /\ sum_ c = sum_ d /\
    min_ c = min_ d /\ max_ c = max_ d.
Proof.
  intros H1 H2. pose proof (DDSketch_new_inv m) as H0.
  destruct (add_all_refines _ vws1 H0 H1) as (a & Ha & Hia & Hra).
  destruct (add_all_refines _ vws2 H0 H2) as (b & Hb & Hib & Hrb).
  destruct (add_all_refines _ (vws1 ++ vws2) H0 (Forall_app_2 _ _ _ H1 H2)) as (d & Hd & Hid & Hrd).
  destruct (merge_correct a b Hia Hib)
    as (c & Hc & _ & Hm & Hst & Hnst & Hz & Hcount & Hsum & Hmin & Hmax);
    [by rewrite (ref_mapping _ _ _ Hra), (ref_mapping _ _ _ Hrb)|].
  exists a, b, c, d. do 4 (split; [done|]).
  split; [intros j; rewrite Hst, (ref_store _ _ _ Hra), (ref_store _ _ _ Hrb),
          (ref_store _ _ _ Hrd), weight_if_app; cbn; rewrite content_empty by done; ring|].
  split; [intros j; rewrite Hnst, (ref_negative_store _ _ _ Hra), (ref_negative_store _ _ _ Hrb),
          (ref_negative_store _ _ _ Hrd), weight_if_app; cbn; rewrite content_empty by done; ring|].
  split; [rewrite Hz, (ref_zero_count _ _ _ Hra), (ref_zero_count _ _ _ Hrb),
          (ref_zero_count _ _ _ Hrd), weight_if_app; cbn; ring|].
  split; [rewrite Hcount, (ref_count _ _ _ Hra), (ref_count _ _ _ Hrb),
          (ref_count _ _ _ Hrd), weight_if_app; cbn; ring|].
  split; [rewrite Hsum, (ref_sum _ _ _ Hra), (ref_sum _ _ _ Hrb),
          (ref_sum _ _ _ Hrd), weighted_sum_app; cbn; ring|].
  pose proof (refines_min _ _ _ Hra). pose proof (refines_min _ _ _ Hrb).
  pose proof (refines_min _ _ _ Hrd). pose proof (refines_max _ _ _ Hra).
  pose proof (refines_max _ _ _ Hrb). pose proof (refines_max _ _ _ Hrd).
  cbn [min_ max_ DDSketch_new new] in *. rewrite map_app in *. rewrite Hmin, Hmax.
  split; [eapply least_unique | eapply greatest_unique]; eauto using least_app, greatest_app.
Qed.

End Spec.

(** ** Witnesses *)

Ltac decide_compute := apply (bool_decide_unpack _); vm_compute; reflexivity.

Lemma ddsketch_add_all_spec_witness :
  inv example_sketch /\ pos_weights example_values2 /\
  exists s', add_all example_sketch example_values2 = Ok s' /\ inv s' /\
    refines example_sketch example_values2 s'.
Proof.
  split; [apply invb_sound; vm_compute; reflexivity|]. split; [decide_compute|].
  apply ddsketch_add_all_spec; [apply invb_sound; vm_compute; reflexivity | decide_compute].
Defined.

Lemma ddsketch_add_all_illegal_weight_witness :
  inv example_sketch /\ In (1%Qc, 0%Qc) [(Qc_of_Z 2, 1%Qc); (1%Qc, 0%Qc)] /\ (0 <= 0)%Qc /\
  add_all example_sketch [(Qc_of_Z 2, 1%Qc); (1%Qc, 0%Qc)] = Throw IllegalArgument.
Proof.
  split; [apply invb_sound; vm_compute; reflexivity|].
  split; [right; left; reflexivity|]. split; [apply Qcle_refl|].
  apply (ddsketch_add_all_illegal_weight _ _ 1%Qc 0%Qc).
  - apply invb_sound; vm_compute; reflexivity.
  - right; left; reflexivity.
  - apply Qcle_refl.
Defined.

Lemma ddsketch_merge_unequal_witness :
  inv example_sketch /\ inv example_sketch3 /\
  (merge example_sketch example_sketch3 = Throw UnequalSketchParameters <->
   gamma (mapping_ example_sketch) <> gamma (mapping_ example_sketch3)).
Proof.
  split; [apply invb_sound; vm_compute; reflexivity|].
  split; [apply invb_sound; vm_compute; reflexivity|].
  apply ddsketch_merge_unequal; apply invb_sound; vm_compute; reflexivity.
Defined.

Lemma ddsketch_merge_spec_witness :
  inv example_sketch /\ inv example_sketch2 /\
  gamma (mapping_ example_sketch) = gamma (mapping_ example_sketch2) /\
  exists c, merge example_sketch example_sketch2 = Ok c /\ inv c /\
    merge_post example_sketch example_sketch2 c.
Proof.
  split; [apply invb_sound; vm_compute; reflexivity|].
  split; [apply invb_sound; vm_compute; reflexivity|]. split; [reflexivity|].
  apply ddsketch_merge_spec; [apply invb_sound; vm_compute; reflexivity..|reflexivity].
Defined.

Lemma ddsketch_max_of_negatives_witness :
  Forall (fun vw => (vw.1 < 0)%Qc) [(Qc_of_Z (-1), 1%Qc); (Q2Qc (-5 # 2), Qc_of_Z 3)] /\
  pos_weights [(Qc_of_Z (-1), 1%Qc); (Q2Qc (-5 # 2), Qc_of_Z 3)] /\
  exists s, add_all (DDSketch_new example_mapping) [(Qc_of_Z (-1), 1%Qc); (Q2Qc (-5 # 2), Qc_of_Z 3)]
              = Ok s /\ max_ s = DBL_MIN /\
    forall v w, In (v, w) [(Qc_of_Z (-1), 1%Qc); (Q2Qc (-5 # 2), Qc_of_Z 3)] -> (v < max_ s)%Qc.
Proof.
  split; [decide_compute|]. split; [decide_compute|].
  apply ddsketch_max_of_negatives; decide_compute.
Defined.

Lemma ddsketch_merge_replay_witness :
  pos_weights example_values /\ pos_weights example_values2 /\
  exists a b c d,
    add_all (DDSketch_new example_mapping) example_values = Ok a /\
    add_all (DDSketch_new example_mapping) example_values2 = Ok b /\
    merge a b = Ok c /\ add_all (DDSketch_new example_mapping) (example_values ++ example_values2) = Ok d /\
    (forall j, content (store_ c) j = content (store_ d) j) /\
    (forall j, content (negative_store_ c) j = content (negative_store_ d) j) /\
    zero_count_ c = zero_count_ d /\ count_ c = count_ d /\ sum_ c = sum_ d /\
    min_ c = min_ d /\ max_ c = max_ d.
Proof.
  split; [decide_compute|]. split; [decide_compute|].
  apply ddsketch_merge_replay; decide_compute.
Defined.
