(* ===== verification/SketchQuantile.v ===== *)
(** * Accuracy of [get_quantile_value]

    The guarantee DDSketch is built for: on positive values, the value the
    sketch returns for quantile [q] is within the mapping's relative
    accuracy of a value of the input at weighted rank [q * (count - 1)].
    [at_rank vws r v] says that [v] is such a value: the values below [v]
    weigh at most [r] and those up to [v] more than [r].

    The theorem is proved for any [KeyMapping] whose [key] is monotone and
    whose [value(key(v))] is within [alpha * v] of [v] (the section's
    hypotheses); [ExactMapping]'s logarithmic mapping discharges them. *)

From S2P Require Import Prelude QcReals BinList Store StoreFacts DenseStoreSpec KeyAtRank Sketch ExactMapping SketchSpec.
Import BaseDDSketch.

Local Open Scope Z_scope.

(** ** Weighted ranks *)

Definition weight_le (vws : list (RealValue * RealValue)) (x : RealValue) : RealValue :=
  weight_if (fun v => bool_decide (v <= x)%Qc) vws.

Definition weight_lt (vws : list (RealValue * RealValue)) (x : RealValue) : RealValue :=
  weight_if (fun v => bool_decide (v < x)%Qc) vws.

Definition total (vws : list (RealValue * RealValue)) : RealValue := weight_if (fun _ => true) vws.

(** [v] is a value of weighted rank [r]. *)
Definition at_rank (vws : list (RealValue * RealValue)) (r v : RealValue) : Prop :=
  (weight_lt vws v <= r)%Qc /\ (r < weight_le vws v)%Qc.

(** Positive values of the sketch tests' kind, with integer and decimal
    weights. *)
Definition example_positive_values : list (RealValue * RealValue) :=
  [(1%Qc, 1%Qc); (Q2Qc (5 # 2), Q2Qc (11 # 10)); (Qc_of_Z 10, Qc_of_Z 2); (Qc_of_Z 100, 1%Qc)].

(** ** Sums of weights *)

Section Weights.
Implicit Types (vws : list (RealValue * RealValue)) (P Q : RealValue -> bool).

Lemma weight_if_ext P Q vws :
  (forall v w, In (v, w) vws -> P v = Q v) -> weight_if P vws = weight_if Q vws.
Proof.
  induction vws as [|[v w] r IH]; intros H; [done|]. cbn.
  rewrite (H v w) by (by left). rewrite IH; [done|]. intros v' w' Hin. apply (H v' w'). by right.
Qed.

Lemma weight_if_false vws : weight_if (fun _ => false) vws = 0%Qc.
Proof. induction vws as [|[v w] r IH]; cbn; [done|]. rewrite IH. ring. Qed.

Lemma weight_if_nonneg P vws : pos_weights vws -> (0 <= weight_if P vws)%Qc.
Proof.
  induction 1 as [|[v w] r Hw _ IH]; cbn; [apply Qcle_refl|]. cbn in Hw.
  destruct (P v); qcR; lra.
Qed.

Lemma weight_if_mono P Q vws :
  pos_weights vws -> (forall v w, In (v, w) vws -> P v = true -> Q v = true) ->
  (weight_if P vws <= weight_if Q vws)%Qc.
Proof.
  induction 1 as [|[v w] r Hw Hr IH]; intros H; cbn; [apply Qcle_refl|]. cbn in Hw.
  assert (IH' : (weight_if P r <= weight_if Q r)%Qc)
    by (apply IH; intros v' w' Hin; apply (H v' w'); by right).
  specialize (H v w (or_introl eq_refl)).
  destruct (P v), (Q v); try specialize (H eq_refl); try discriminate; qcR; lra.
Qed.

(** Splitting a predicate into two disjoint ones. *)
Lemma weight_if_split P Q1 Q2 vws :
  (forall v w, In (v, w) vws -> P v = Q1 v || Q2 v /\ ~ (Q1 v = true /\ Q2 v = true)) ->
  weight_if P vws = (weight_if Q1 vws + weight_if Q2 vws)%Qc.
Proof.
  induction vws as [|[v w] r IH]; intros H; cbn; [ring|].
  rewrite IH by (intros v' w' Hin; apply (H v' w'); by right).
  destruct (H v w (or_introl eq_refl)) as [-> Hd].
  destruct (Q1 v), (Q2 v); cbn; try ring. exfalso. by apply Hd.
Qed.

(** A pair's weight is part of every sum that counts its value. *)
Lemma weight_if_member P vws v w :
  pos_weights vws -> In (v, w) vws -> P v = true -> (w <= weight_if P vws)%Qc.
Proof.
  intros Hp Hin HP. induction Hp as [|[v' w'] r Hw Hr' IH]; [done|]. cbn in Hw |- *.
  destruct Hin as [[= -> ->]|Hin].
  - rewrite HP. pose proof (weight_if_nonneg P r Hr'). qcR. lra.
  - specialize (IH Hin). destruct (P v'); qcR; lra.
Qed.

Lemma total_pos vws : pos_weights vws -> vws <> [] -> (0 < total vws)%Qc.
Proof.
  intros Hp Hne. destruct Hp as [|[v w] r Hw Hr]; [done|]. cbn in Hw |- *.
  pose proof (weight_if_nonneg (fun _ => true) r Hr). qcR. lra.
Qed.

End Weights.

(** ** Every rank below the total weight has a value *)

Lemma list_min (l : list Qc) :
  l <> [] -> exists x, In x l /\ forall y, In y l -> (x <= y)%Qc.
Proof.
  induction l as [|a l IH]; intros Hne; [done|]. destruct l as [|b l].
  - exists a. split; [by left|]. intros y [<-|[]]. apply Qcle_refl.
  - destruct IH as (x & Hx & Hmin); [done|].
    destruct (decide (a <= x)%Qc) as [Hle|Hlt].
    + exists a. split; [by left|]. intros y [<-|Hy]; [apply Qcle_refl|].
      eapply Qcle_trans; [exact Hle | by apply Hmin].
    + apply Qcnot_le_lt in Hlt. exists x. split; [by right|].
      intros y [<-|Hy]; [by apply Qclt_le_weak | by apply Hmin].
Qed.

Lemma list_max (l : list Qc) :
  l <> [] -> exists x, In x l /\ forall y, In y l -> (y <= x)%Qc.
Proof.
  intros Hne. destruct (list_min (map Qcopp l)) as (x & Hx & Hmin).
  { by destruct l. }
  apply in_map_iff in Hx as (x' & <- & Hx'). exists x'. split; [done|].
  intros y Hy. specialize (Hmin (- y)%Qc (in_map _ _ _ Hy)). qcR. lra.
Qed.

Lemma in_values v w (vws : list (RealValue * RealValue)) : In (v, w) vws -> In v (map fst vws).
Proof. intros H. apply (in_map fst _ _ H). Qed.

(** The least value whose weight up to it exceeds [r] has rank [r]. *)
Lemma at_rank_exists vws r :
  pos_weights vws -> (0 <= r)%Qc -> (r < total vws)%Qc ->
  exists v, In v (map fst vws) /\ at_rank vws r v.
Proof.
  intros Hp Hr0 Hr.
  set (C := List.filter (fun v => bool_decide (r < weight_le vws v)%Qc) (map fst vws)).
  assert (HC : C <> []).
  { destruct (list_max (map fst vws)) as (vmax & Hin & Hmax).
    { intros E. apply map_eq_nil in E. subst vws. cbn in Hr. qcR. lra. }
    intros E. assert (Hc : In vmax C).
    { apply List.filter_In. split; [done|]. apply bool_decide_eq_true.
      unfold weight_le. rewrite (weight_if_ext _ (fun _ => true)); [done|].
      intros v w Hvw. apply bool_decide_eq_true, Hmax. by apply (in_values v w). }
    rewrite E in Hc. done. }
  destruct (list_min C HC) as (v & HvC & Hmin).
  apply List.filter_In in HvC as [Hv Hrv]. apply bool_decide_eq_true in Hrv.
  exists v. split; [done|]. split; [|done].
  set (L := List.filter (fun u => bool_decide (u < v)%Qc) (map fst vws)).
  destruct (decide (L = [])) as [HL|HL].
  - unfold weight_lt. rewrite (weight_if_ext _ (fun _ => false)), weight_if_false; [done|].
    intros u w Huw. apply bool_decide_eq_false. intros Hlt.
    assert (Hu : In u L) by (apply List.filter_In; split; [by apply (in_values u w) | by apply bool_decide_eq_true]).
    by rewrite HL in Hu.
  - destruct (list_max L HL) as (u & HuL & Hmax).
    apply List.filter_In in HuL as [Hu Huv]. apply bool_decide_eq_true in Huv.
    assert (E : weight_lt vws v = weight_le vws u).
    { apply weight_if_ext. intros x w Hx. apply bool_decide_ext. split; intros H.
      - apply Hmax, List.filter_In. split; [by apply (in_values x w) | by apply bool_decide_eq_true].
      - eapply Qcle_lt_trans; eauto. }
    rewrite E. apply Qcnot_lt_le. intros Hlt.
    assert (HuC : In u C) by (apply List.filter_In; split; [done | by apply bool_decide_eq_true]).
    specialize (Hmin u HuC). qcR. lra.
Qed.

(** ** The sketch of positive values *)

Section Quantile.
Context {M : Type} `{!KeyMapping M}.
Variables (m : M) (alpha : RealValue).
Hypothesis Hmp : (0 <= min_possible m)%Qc.
Hypothesis Hmono :
  forall v v', (min_possible m < v)%Qc -> (v <= v')%Qc -> key m v <= key m v'.
Hypothesis Hacc :
  forall v, (min_possible m < v)%Qc ->
  ((1 - alpha) * v <= value m (key m v))%Qc /\ (value m (key m v) <= (1 + alpha) * v)%Qc.

Variable vws : list (RealValue * RealValue).
Hypothesis Hvals : Forall (fun vw => (min_possible m < vw.1)%Qc /\ (0 < vw.2)%Qc) vws.
Variable s : @Sketch M.
Hypothesis Hs : inv s.
Hypothesis Hr : refines (DDSketch_new m) vws s.

Lemma vals_pos : pos_weights vws.
Proof. unfold pos_weights. rewrite Forall_forall in *. intros x Hx. apply (Hvals x Hx). Qed.

Lemma vals_in v w : In (v, w) vws -> (min_possible m < v)%Qc /\ (0 < w)%Qc.
Proof. intros H. rewrite Forall_forall in Hvals. apply (Hvals _ H). Qed.

Lemma route_pos v : (min_possible m < v)%Qc -> route_of m v = ToStore.
Proof. intros H. unfold route_of. by rewrite bool_decide_eq_true_2. Qed.

Lemma store_content_keys j : content (store_ s) j = weight_if (fun v => key m v =? j) vws.
Proof.
  rewrite (ref_store _ _ _ Hr). cbn. rewrite content_empty by done. rewrite Qcplus_0_l.
  apply weight_if_ext. intros v w Hin. unfold to_store.
  rewrite route_pos by (apply (vals_in v w Hin)). done.
Qed.

Lemma negative_count_zero : count (negative_store_ s) = 0%Qc.
Proof.
  destruct (inv_negative_store _ Hs) as (Hwf & _ & _). rewrite <- (wf_sum _ Hwf).
  apply accumulate_zeros. intros i _. pose proof (ref_negative_store _ _ _ Hr (i + offset (negative_store_ s))) as E.
  unfold content in E at 1. replace (i + offset (negative_store_ s) - offset (negative_store_ s)) with i in E by lia.
  rewrite E. cbn. rewrite content_empty by done. rewrite Qcplus_0_l, (weight_if_ext _ (fun _ => false)).
  - apply weight_if_false.
  - intros v w Hin. unfold to_negative_store. by rewrite route_pos by (apply (vals_in v w Hin)).
Qed.

Lemma zero_count_zero : zero_count_ s = 0%Qc.
Proof.
  rewrite (ref_zero_count _ _ _ Hr). cbn. rewrite (weight_if_ext _ (fun _ => false)).
  - rewrite weight_if_false. ring.
  - intros v w Hin. unfold to_zero. by rewrite route_pos by (apply (vals_in v w Hin)).
Qed.

Lemma count_total : count_ s = total vws.
Proof. rewrite (ref_count _ _ _ Hr). cbn. unfold total. ring. Qed.

Lemma store_count_total : count (store_ s) = total vws.
Proof.
  pose proof (inv_count _ Hs) as E. rewrite count_total, zero_count_zero, negative_count_zero in E.
  rewrite E. ring.
Qed.

(** Every key of a value lies in the store's window. *)
Lemma key_above_offset v w : In (v, w) vws -> offset (store_ s) <= key m v.
Proof.
  intros Hin. destruct (inv_store _ Hs) as (Hwf & _ & _).
  assert (Hc : content (store_ s) (key m v) <> 0%Qc).
  { rewrite store_content_keys. intros E.
    pose proof (weight_if_member (fun v' => key m v' =? key m v) vws v w vals_pos Hin
                  (Z.eqb_refl _)) as Hle.
    destruct (vals_in v w Hin) as [_ Hw]. rewrite E in Hle. qcR. lra. }
  assert (Hne : bins (store_ s) <> []) by (intros Hb; apply Hc; by apply content_empty).
  pose proof (wf_support _ Hwf _ Hc). pose proof (wf_window _ Hwf Hne). lia.
Qed.

(** The cumulative count of the positive store up to [K] is the weight of
    the values whose key is at most [K]. *)
Lemma cumulative_keys K : cumulative (store_ s) K = weight_if (fun v => key m v <=? K) vws.
Proof.
  set (o := offset (store_ s)).
  assert (Hbelow : forall K, K < o -> weight_if (fun v => key m v <=? K) vws = 0%Qc).
  { intros K' HK. rewrite (weight_if_ext _ (fun _ => false)); [apply weight_if_false|].
    intros v w Hin. pose proof (key_above_offset v w Hin). apply Z.leb_gt. lia. }
  destruct (Z_lt_le_dec K o) as [HK|HK]; [rewrite cumulative_below by done; by rewrite Hbelow|].
  replace K with (o - 1 + Z.of_nat (Z.to_nat (K - o + 1))) by lia.
  induction (Z.to_nat (K - o + 1)) as [|n IH].
  - rewrite cumulative_below by lia. rewrite Hbelow by lia. done.
  - rewrite cumulative_succ by lia. replace (o - 1 + Z.of_nat (S n) - 1) with (o - 1 + Z.of_nat n) by lia.
    rewrite IH, store_content_keys. symmetry. apply weight_if_split.
    intros v w _. split.
    + destruct (Z.leb_spec (key m v) (o - 1 + Z.of_nat (S n))),
        (Z.leb_spec (key m v) (o - 1 + Z.of_nat n)), (Z.eqb_spec (key m v) (o - 1 + Z.of_nat (S n)));
        cbn; done || lia.
    + intros [H1 H2]. apply Z.leb_le in H1. apply Z.eqb_eq in H2. lia.
Qed.

Lemma quantile_of_sketch q :
  (0 <= q)%Qc -> (q <= 1)%Qc -> (1 <= total vws)%Qc ->
  exists x, get_quantile_value s q = Some x /\
    exists v, In v (map fst vws) /\ at_rank vws (q * (total vws - 1)) v /\
      ((1 - alpha) * v <= x)%Qc /\ (x <= (1 + alpha) * v)%Qc.
Proof.
  intros Hq0 Hq1 Ht.
  set (rank := (q * (total vws - 1))%Qc).
  assert (Hr0 : (0 <= rank)%Qc /\ (rank < total vws)%Qc).
  { unfold rank. split; qcR.
    - nra.
    - pose proof (Rmult_le_compat_r (QcR (total vws) - 1) _ _ ltac:(lra) Hq1). lra. }
  destruct Hr0 as [Hr0 Hrt].
  unfold get_quantile_value. rewrite count_total, zero_count_zero, negative_count_zero.
  rewrite bool_decide_eq_false_2 by (intros H; qcR; lra).
  rewrite bool_decide_eq_false_2 by (intros H; qcR; lra).
  rewrite bool_decide_eq_false_2 by (intros H; qcR; lra). cbn [orb]. fold rank.
  rewrite bool_decide_eq_false_2 by (intros H; qcR; lra).
  rewrite bool_decide_eq_false_2 by (intros H; qcR; lra).
  replace (rank - 0 - 0)%Qc with rank by ring.
  destruct (inv_store _ Hs) as (Hwf & _ & _).
  destruct (key_at_rank_least (store_ s) rank true Hwf) as (_ & HK & Hleast).
  { cbn. intros H. qcR. lra. }
  { cbn. by rewrite store_count_total. }
  set (K := key_at_rank (store_ s) rank true) in *. cbn in HK, Hleast.
  eexists; split; [reflexivity|].
  destruct (at_rank_exists vws rank vals_pos Hr0 Hrt) as (v & Hv & Hlt & Hle).
  apply in_map_iff in Hv as ([v' w] & Hv' & Hin). cbn in Hv'. subst v'.
  destruct (vals_in v w Hin) as [Hvmp _].
  assert (HkK : key m v = K).
  { destruct (Z.lt_trichotomy (key m v) K) as [Hlt'|[->|Hgt]]; [exfalso| done | exfalso].
    - apply (Hleast (key m v) Hlt'). rewrite cumulative_keys.
      eapply Qclt_le_trans; [exact Hle|]. apply weight_if_mono; [apply vals_pos|].
      intros u w' Hu Huv. apply Z.leb_le, Hmono; [apply (vals_in u w' Hu) | by apply bool_decide_eq_true in Huv].
    - rewrite cumulative_keys in HK. apply (Qclt_not_le _ _ HK).
      eapply Qcle_trans; [|exact Hlt]. apply weight_if_mono; [apply vals_pos|].
      intros u w' Hu Huk. apply Z.leb_le in Huk. apply bool_decide_eq_true, Qcnot_le_lt.
      intros Hvu. pose proof (Hmono v u Hvmp Hvu). lia. }
  exists v. split; [by apply (in_values v w)|]. split; [done|].
  replace (mapping_ s) with m by (rewrite (ref_mapping _ _ _ Hr); reflexivity).
  rewrite <- HkK. by apply Hacc.
Qed.

(** Below a total weight of [1] the rank [q * (count - 1)] is negative:
    [get_quantile_value] looks it up in the negative store, which holds
    nothing, and returns the negated value of its [max_key]. *)
Lemma quantile_below_total q :
  vws <> [] -> (total vws < 1)%Qc -> (0 < q)%Qc -> (q <= 1)%Qc ->
  get_quantile_value s q = Some (- value m (max_key (negative_store_ s)))%Qc.
Proof.
  intros Hne Ht Hq0 Hq1. pose proof (total_pos vws vals_pos Hne) as Ht0.
  destruct (inv_negative_store _ Hs) as (Hwf & _ & Hnn).
  unfold get_quantile_value. cbv zeta. rewrite count_total, negative_count_zero.
  rewrite !bool_decide_eq_false_2 by (intros H; qcR; lra). cbn [orb].
  rewrite bool_decide_eq_true_2 by (qcR; nra).
  rewrite key_at_rank_unreached, (ref_mapping _ _ _ Hr); [done|done|done|].
  rewrite negative_count_zero. cbn. intros H. qcR. nra.
Qed.

End Quantile.

(** ** The theorem *)

Section Accuracy.
Context {M : Type} `{!KeyMapping M}.
Variables (m : M) (alpha : RealValue).
Hypothesis Hmp : (0 <= min_possible m)%Qc.
Hypothesis Hmono :
  forall v v', (min_possible m < v)%Qc -> (v <= v')%Qc -> key m v <= key m v'.
Hypothesis Hacc :
  forall v, (min_possible m < v)%Qc ->
  ((1 - alpha) * v <= value m (key m v))%Qc /\ (value m (key m v) <= (1 + alpha) * v)%Qc.

(** For a mapping with a monotone [key] and relative accuracy [alpha]. *)
Lemma quantile_accuracy vws q :
  Forall (fun vw => (min_possible m < vw.1)%Qc /\ (0 < vw.2)%Qc) vws ->
  (1 <= total vws)%Qc -> (0 <= q)%Qc -> (q <= 1)%Qc ->
  exists s x, add_all (DDSketch_new m) vws = Ok s /\ get_quantile_value s q = Some x /\
    exists v, In v (map fst vws) /\ at_rank vws (q * (total vws - 1)) v /\
      ((1 - alpha) * v <= x)%Qc /\ (x <= (1 + alpha) * v)%Qc.
Proof.
  intros Hvals Ht Hq0 Hq1.
  destruct (add_all_refines _ vws (DDSketch_new_inv m) (vals_pos m vws Hvals)) as (s & Ha & Hs & Hr).
  destruct (quantile_of_sketch m alpha Hmp Hmono Hacc vws Hvals s Hs Hr q Hq0 Hq1 Ht) as (x & Hx & Hv).
  exists s, x. done.
Qed.

End Accuracy.

(** The accuracy guarantee for [LogarithmicMapping]. *)
Lemma log_quantile_accuracy relative_accuracy offset m vws q :
  LogarithmicMapping_new relative_accuracy offset = Ok m ->
  Forall (fun vw => (min_possible_ m < vw.1)%Qc /\ (0 < vw.2)%Qc) vws ->
  (1 <= total vws)%Qc -> (0 <= q)%Qc -> (q <= 1)%Qc ->
  exists s x, add_all (DDSketch_new m) vws = Ok s /\ get_quantile_value s q = Some x /\
    exists v, In v (map fst vws) /\ at_rank vws (q * (total vws - 1)) v /\
      ((1 - relative_accuracy) * v <= x)%Qc /\ (x <= (1 + relative_accuracy) * v)%Qc.
Proof.
  intros Hm Hvals Ht Hq0 Hq1. pose proof (min_possible_nonneg _ _ _ Hm) as Hmp.
  apply (@quantile_accuracy LogarithmicMapping LogarithmicMapping_KeyMapping m relative_accuracy);
    [exact Hmp| | |exact Hvals|exact Ht|exact Hq0|exact Hq1].
  - intros v v' Hv Hvv. apply (log_key_mono _ _ _ Hm); [|done].
    eapply Qcle_lt_trans; [exact Hmp | exact Hv].
  - intros v Hv. apply (log_value_key_bounds _ _ _ Hm).
    eapply Qcle_lt_trans; [exact Hmp | exact Hv].
Qed.

(** C1: The accuracy guarantee of [DDSketch] ([BaseDDSketch<DenseStore,
    LogarithmicMapping>]): for positive values of total weight at least
    [1] and a quantile [q] in [[0, 1]], [get_quantile_value(q)] returns a
    number within [relative_accuracy] (relatively) of a value of the
    input at weighted rank [q * (count - 1)]. *)
Theorem ddsketch_quantile_accuracy relative_accuracy offset m vws q :
  LogarithmicMapping_new relative_accuracy offset = Ok m ->
  Forall (fun vw => (min_possible_ m < vw.1)%Qc /\ (0 < vw.2)%Qc) vws ->
  (1 <= total vws)%Qc -> (0 <= q)%Qc -> (q <= 1)%Qc ->
  exists s x, add_all (DDSketch_new m) vws = Ok s /\ get_quantile_value s q = Some x /\
    exists v, In v (map fst vws) /\ at_rank vws (q * (total vws - 1)) v /\
      ((1 - relative_accuracy) * v <= x)%Qc /\ (x <= (1 + relative_accuracy) * v)%Qc.
Proof. apply log_quantile_accuracy. Qed.

(** ** Total weight below one *)

(** C12: A [DDSketch] holding positive values of total weight below [1]
    answers every quantile [q > 0] with a negative number (in double
    precision, [-0.0]): the relative accuracy of the sketch fails when the
    total weight is below [1]. *)
Theorem ddsketch_quantile_below_unit_weight relative_accuracy offset m vws q :
  LogarithmicMapping_new relative_accuracy offset = Ok m ->
  Forall (fun vw => (min_possible_ m < vw.1)%Qc /\ (0 < vw.2)%Qc) vws -> vws <> [] ->
  (total vws < 1)%Qc -> (0 < q)%Qc -> (q <= 1)%Qc ->
  exists s x, add_all (DDSketch_new m) vws = Ok s /\ get_quantile_value s q = Some x /\ (x < 0)%Qc.
Proof.
  intros Hm Hvals Hne Ht Hq0 Hq1.
  destruct (add_all_refines _ vws (DDSketch_new_inv m) (@vals_pos _ LogarithmicMapping_KeyMapping m vws Hvals)) as (s & Ha & Hs & Hr).
  exists s, (- value m (max_key (negative_store_ s)))%Qc. split; [done|]. split.
  - by apply (@quantile_below_total _ LogarithmicMapping_KeyMapping m
      (min_possible_nonneg _ _ _ Hm) vws Hvals s Hs Hr).
  - pose proof (log_value_pos _ _ _ Hm (max_key (negative_store_ s))). cbn. qcR. lra.
Qed.

Lemma ddsketch_quantile_accuracy_witness :
  LogarithmicMapping_new (Q2Qc (1 # 3)) 0 = Ok example_mapping /\
  Forall (fun vw => (min_possible_ example_mapping < vw.1)%Qc /\ (0 < vw.2)%Qc)
    example_positive_values /\
  (1 <= total example_positive_values)%Qc /\ (0 <= Q2Qc (1 # 2))%Qc /\ (Q2Qc (1 # 2) <= 1)%Qc /\
  exists s x, add_all (DDSketch_new example_mapping) example_positive_values = Ok s /\
    get_quantile_value s (Q2Qc (1 # 2)) = Some x /\
    exists v, In v (map fst example_positive_values) /\
      at_rank example_positive_values (Q2Qc (1 # 2) * (total example_positive_values - 1)) v /\
      ((1 - Q2Qc (1 # 3)) * v <= x)%Qc /\ (x <= (1 + Q2Qc (1 # 3)) * v)%Qc.
Proof.
  split; [vm_compute; reflexivity|]. split; [decide_compute|].
  split; [decide_compute|]. split; [decide_compute|]. split; [decide_compute|].
  apply (ddsketch_quantile_accuracy (Q2Qc (1 # 3)) 0);
    [vm_compute; reflexivity | decide_compute..].
Defined.

Lemma ddsketch_quantile_below_unit_weight_witness :
  LogarithmicMapping_new (Q2Qc (1 # 3)) 0 = Ok example_mapping /\
  Forall (fun vw => (min_possible_ example_mapping < vw.1)%Qc /\ (0 < vw.2)%Qc)
    [(Qc_of_Z 5, Q2Qc (1 # 2)); (Qc_of_Z 10, Q2Qc (1 # 4))] /\
  [(Qc_of_Z 5, Q2Qc (1 # 2)); (Qc_of_Z 10, Q2Qc (1 # 4))] <> [] /\
  (total [(Qc_of_Z 5, Q2Qc (1 # 2)); (Qc_of_Z 10, Q2Qc (1 # 4))] < 1)%Qc /\
  (0 < Q2Qc (1 # 2))%Qc /\ (Q2Qc (1 # 2) <= 1)%Qc /\
  exists s x, add_all (DDSketch_new example_mapping)
                [(Qc_of_Z 5, Q2Qc (1 # 2)); (Qc_of_Z 10, Q2Qc (1 # 4))] = Ok s /\
    get_quantile_value s (Q2Qc (1 # 2)) = Some x /\ (x < 0)%Qc.
Proof.
  split; [vm_compute; reflexivity|]. split; [decide_compute|]. split; [done|].
  do 3 (split; [decide_compute|]).
  apply (ddsketch_quantile_below_unit_weight (Q2Qc (1 # 3)) 0);
    [vm_compute; reflexivity | decide_compute | done | decide_compute..].
Defined.
