(* ===== verification/Datasets.v ===== *)
(** * The deterministic data sets of the tests ([src/unnamed/part_000], the
    header [include/test/datasets.h] of the tests)

    [DataSet<double>] holds a [std::vector<double> data_]; its queries
    [rank], [quantile], [sum], [avg] and [len] are what the sketch tests
    compare the sketch against, and each subclass fills [data_] in
    [populate(size)].  This file models the vector as a [list Qc], the
    queries, [EmptyDataSet::add]/[add_all] and the [populate] of the
    deterministic subclasses but [UniformSqrt].

    - [std::vector::resize(size)] of an [int] size: a negative size
      converts to a [size_t] beyond [max_size()] and throws
      [std::length_error] ([resize]).
    - [data_[idx] = v] is [write_at], undefined outside the vector.
    - [std::generate] with a mutable lambda is [generate] over the
      lambda's state; a [for] loop over an [int] counter is [for_range].
    - [std::sort] with [std::less] is stdpp's [merge_sort]: on [Qc] with
      Leibniz equality the sorted permutation is unique, so any sort
      returns it ([sort_less_unique]).  [std::lower_bound] on the sorted
      copy is the position of the first element not less than the value.
    - [UniformSqrt::populate] is modelled and proved in [UniformSqrt],
      the dispatch of the virtual [populate] in [Populate]. *)

From S2P Require Import Prelude.
From stdpp Require Import sorting.
From Stdlib Require Import Qround.

Local Open Scope Z_scope.
Local Open Scope ddsketch_scope.

Module DataSets.

(** ** The vector and its helpers *)

Record DataSet := mkDataSet { data_ : list Qc }.

(** [data_.resize(size)] for an [int] size. *)
Definition resize (data : list Qc) (size : Z) : result (list Qc) :=
  if size <? 0 then Throw LengthError
  else Ok (take (Z.to_nat size) data ++ replicate (Z.to_nat size - length data) 0%Qc).

(** [data_[idx] = v]. *)
Definition write_at (data : list Qc) (idx : Z) (v : Qc) : result (list Qc) :=
  guard_ub ((0 <=? idx) && (idx <? Z.of_nat (length data))) (Ok (<[Z.to_nat idx := v]> data)).

(** [std::generate(data_.begin(), data_.end(), gen)] on a vector of [n]
    elements: the lambda's captured state [St] evolves from call to call. *)
Fixpoint generate {St} (n : nat) (gen : St -> Qc * St) (s : St) : list Qc :=
  match n with
  | O => []
  | S n' => let '(v, s') := gen s in v :: generate n' gen s'
  end.

(** [for (int item = lo; item < hi; ++item) body]. *)
Fixpoint for_loop {St} (n : nat) (item : Z) (body : Z -> St -> result St) (s : St) : result St :=
  match n with
  | O => Ok s
  | S n' => let* s' := body item s in for_loop n' (item + 1) body s'
  end.

Definition for_range {St} (lo hi : Z) (body : Z -> St -> result St) (s : St) : result St :=
  for_loop (Z.to_nat (hi - lo)) lo body s.

(** [static_cast<int>] of a [double]: truncation toward zero. *)
Definition trunc_Qc (x : Qc) : Z :=
  if bool_decide (0 <= x)%Qc then Qfloor x else Qceiling x.

(** [std::sort(..., std::less<double>())]. *)
Definition sort_less (l : list Qc) : list Qc := merge_sort (fun x y : Qc => (x <= y)%Qc) l.

(** [std::lower_bound(begin, end, value)] on a sorted range: the position
    of the first element [x] with [!(x < value)]. *)
Fixpoint lower_bound (l : list Qc) (value : Qc) : nat :=
  match l with
  | [] => 0%nat
  | x :: r => if bool_decide (x < value)%Qc then S (lower_bound r value) else 0%nat
  end.

(** ** The queries of [DataSet] *)

(** [DataSet::len]: [data_.size()]. *)
Definition len (d : DataSet) : Z := Z.of_nat (length (data_ d)).

(** [DataSet::rank]: the position of [value] in the sorted data, or
    [size() - 1] when every element is below it ([-1] for an empty set:
    the [size_t] [0 - 1] converted to the [int] [index]). *)
Definition rank (d : DataSet) (value : Qc) : Index :=
  let tmp_data := sort_less (data_ d) in
  let it := lower_bound tmp_data value in
  if Nat.eqb it (length tmp_data) then Z.of_nat (length tmp_data) - 1 else Z.of_nat it.

(** [SIZE_MAX + 1]: [size_t] arithmetic is modulo [2^64]. *)
Definition SIZE_MOD : Z := 2 ^ 64.

(** [DataSet::quantile]: [item_rank = quantile * (size() - 1)] converted to
    [Index], then [tmp_data[item_rank]] on the sorted copy.  The conversion
    is undefined when the truncated value is not an [int64_t], and the
    subscript when it is not a position of the vector. *)
Definition quantile (d : DataSet) (q : Qc) : result Qc :=
  let tmp_data := sort_less (data_ d) in
  let item_rank := trunc_Qc (q * Qc_of_Z ((len d - 1) mod SIZE_MOD))%Qc in
  guard_ub ((INT64_MIN <=? item_rank) && (item_rank <=? INT64_MAX))
    (guard_ub ((0 <=? item_rank) && (item_rank <? len d))
       (Ok (nth (Z.to_nat item_rank) tmp_data 0%Qc))).

(** [DataSet::sum]: [std::accumulate] from [0.0]. *)
Definition sum (d : DataSet) : Qc := accumulate (data_ d).

(** [DataSet::avg]: [sum() / len()] (for a non-empty set; the double
    [0.0 / 0] is NaN where [Qc] divides to [0]). *)
Definition avg (d : DataSet) : Qc := (sum d / Qc_of_Z (len d))%Qc.

(** [EmptyDataSet::add]: [push_back]. *)
Definition add (d : DataSet) (val : Qc) : DataSet := mkDataSet (data_ d ++ [val]).

(** [EmptyDataSet::add_all]: [insert] at [begin()]. *)
Definition add_all (d : DataSet) (values : list Qc) : DataSet := mkDataSet (values ++ data_ d).

(** ** [populate] of the generated data sets *)

(** [data_.resize(size)] followed by [std::generate] over [data_]. *)
Definition generate_populate {St} (d : DataSet) (size : Z) (gen : St -> Qc * St) (s0 : St)
    : result DataSet :=
  let* data := resize (data_ d) size in
  Ok (mkDataSet (generate (length data) gen s0)).

(** The lambdas [[n] () mutable { return n++; }] and its three variants. *)
Definition post_increment (n : Z) : Qc * Z := (Qc_of_Z n, n + 1).
Definition post_decrement (n : Z) : Qc * Z := (Qc_of_Z n, n - 1).
Definition negated_post_increment (n : Z) : Qc * Z := (Qc_of_Z (- n), n + 1).
Definition negated_post_decrement (n : Z) : Qc * Z := (Qc_of_Z (- n), n - 1).

(** [UniformForward::populate]: [n = 0], [n++]. *)
Definition populate_uniform_forward (d : DataSet) (size : Z) : result DataSet :=
  generate_populate d size post_increment 0.

(** [UniformBackward::populate]: [n = size], [n--]. *)
Definition populate_uniform_backward (d : DataSet) (size : Z) : result DataSet :=
  generate_populate d size post_decrement size.

(** [NegativeUniformForward::populate]: [n = size], [-n--]. *)
Definition populate_negative_uniform_forward (d : DataSet) (size : Z) : result DataSet :=
  generate_populate d size negated_post_decrement size.

(** [NegativeUniformBackward::populate]: [n = 0], [-n++]. *)
Definition populate_negative_uniform_backward (d : DataSet) (size : Z) : result DataSet :=
  generate_populate d size negated_post_increment 0.

(** [NumberLineForward::populate]: [n = -size / 2 + 1], [-n++]. *)
Definition populate_number_line_forward (d : DataSet) (size : Z) : result DataSet :=
  generate_populate d size negated_post_increment (Z.quot (- size) 2 + 1).

(** [NumberLineBackward::populate]: [n = size / 2], [n--]. *)
Definition populate_number_line_backward (d : DataSet) (size : Z) : result DataSet :=
  generate_populate d size post_decrement (Z.quot size 2).

(** [Constant::populate]: every element is [constant_]. *)
Definition populate_constant (constant_ : Qc) (d : DataSet) (size : Z) : result DataSet :=
  generate_populate d size (fun u : unit => (constant_, u)) tt.

(** [UniformZoomIn::populate]: the pairs [item], [size - item - 1] from
    the ends inwards, then the middle of an odd size. *)
Definition zoom_in_step (size item : Z) (st : list Qc * Z) : result (list Qc * Z) :=
  let '(data, idx) := st in
  let* data := write_at data idx (Qc_of_Z item) in
  let* data := write_at data (idx + 1) (Qc_of_Z (size - item - 1)) in
  Ok (data, idx + 2).

Definition populate_zoom_in (d : DataSet) (size : Z) : result DataSet :=
  let* data := resize (data_ d) size in
  let* (data, idx) := for_range 0 (Z.quot size 2) (zoom_in_step size) (data, 0) in
  if Z.rem size 2 =? 0 then Ok (mkDataSet data)
  else let* data := write_at data idx (Qc_of_Z (Z.quot size 2)) in Ok (mkDataSet data).

(** [UniformZoomOut::populate]: from the middle outwards; the even case
    computes with the doubles [half = ceil(size / 2.0) - 0.5] and
    [static_cast<int>(half +- item +- 0.5)]. *)
Definition zoom_out_odd_step (half item : Z) (st : list Qc * Z) : result (list Qc * Z) :=
  let '(data, idx) := st in
  let* data := write_at data idx (Qc_of_Z (half + item)) in
  let* data := write_at data (idx + 1) (Qc_of_Z (half - item)) in
  Ok (data, idx + 2).

Definition zoom_out_even_step (half : Qc) (item : Z) (st : list Qc * Z) : result (list Qc * Z) :=
  let '(data, idx) := st in
  let* data := write_at data idx (Qc_of_Z (trunc_Qc (half + Qc_of_Z item + Q2Qc (1 # 2)))) in
  let* data := write_at data (idx + 1) (Qc_of_Z (trunc_Qc (half - Qc_of_Z item - Q2Qc (1 # 2)))) in
  Ok (data, idx + 2).

Definition populate_zoom_out (d : DataSet) (size : Z) : result DataSet :=
  let* data := resize (data_ d) size in
  if negb (Z.rem size 2 =? 0) then
    let* data := write_at data 0 (Qc_of_Z (Z.quot size 2)) in
    let half := Z.quot size 2 in
    let* (data, _) := for_range 1 (half + 1) (zoom_out_odd_step half) (data, 1) in
    Ok (mkDataSet data)
  else
    let half := (Qc_of_Z (Qceiling (inject_Z size / 2)) - Q2Qc (1 # 2))%Qc in
    let upper_limit := trunc_Qc (half + Q2Qc (1 # 2)) in
    let* (data, _) := for_range 0 upper_limit (zoom_out_even_step half) (data, 0) in
    Ok (mkDataSet data).

(** What a [for] loop over [item] in [[i, i + m)] writes, in order, when
    the body writes [f item] at the next positions. *)
Fixpoint emit (f : Z -> list Z) (m : nat) (i : Z) : list Z :=
  match m with
  | O => []
  | S m' => f i ++ emit f m' (i + 1)
  end.

(** ** The vector helpers *)

Lemma resize_ok data size :
  0 <= size -> resize data size = Ok (take (Z.to_nat size) data ++ replicate (Z.to_nat size - length data) 0%Qc).
Proof. intros H. unfold resize. by rewrite (proj2 (Z.ltb_ge _ _) H). Qed.

Lemma resize_length data size l : resize data size = Ok l -> length l = Z.to_nat size.
Proof.
  unfold resize. destruct (size <? 0); [discriminate|]. intros [= <-].
  rewrite length_app, length_take, length_replicate. lia.
Qed.

Lemma resize_negative data size : size < 0 -> resize data size = Throw LengthError.
Proof. intros H. unfold resize. by rewrite (proj2 (Z.ltb_lt _ _) H). Qed.

Lemma generate_length {St} n (gen : St -> Qc * St) s : length (generate n gen s) = n.
Proof.
  revert s. induction n as [|n IH]; intros s; simpl; [done|].
  destruct (gen s). simpl. by rewrite IH.
Qed.

(** Writing the next position of a partly written vector: the first
    elements [E] are written, [rest] holds what [resize] left. *)
Lemma write_next E x rest v :
  write_at (map Qc_of_Z E ++ x :: rest) (Z.of_nat (length E)) (Qc_of_Z v) =
  Ok (map Qc_of_Z (E ++ [v]) ++ rest).
Proof.
  unfold write_at. rewrite length_app, length_map. cbn [length]. zbool. rewrite Nat2Z.id.
  f_equal. rewrite insert_app_r_alt by (rewrite length_map; lia).
  rewrite length_map, Nat.sub_diag. cbn. by rewrite map_app, <- app_assoc.
Qed.

Lemma elem_of_emit f m i x :
  x ∈ emit f m i <-> exists j, i <= j < i + Z.of_nat m /\ x ∈ f j.
Proof.
  revert i. induction m as [|m IH]; intros i; simpl.
  - split; [by intros ?%elem_of_nil | intros (j & Hj & _); lia].
  - rewrite elem_of_app, IH. split.
    + intros [Hx | (j & Hj & Hx)]; [exists i; split; [lia | done] | exists j; split; [lia | done]].
    + intros (j & Hj & Hx). destruct (decide (j = i)) as [->|Hne]; [by left|].
      right. exists j. split; [lia | done].
Qed.

Lemma length_emit f m i k :
  (forall j, length (f j) = k) -> length (emit f m i) = (m * k)%nat.
Proof.
  intros Hf. revert i. induction m as [|m IH]; intros i; simpl; [done|].
  rewrite length_app, Hf, IH. lia.
Qed.

(** A list of at most [n] integers that contains [[0, n)] is a
    permutation of it. *)
Lemma cover_Permutation (L : list Z) n :
  (forall x, 0 <= x < n -> x ∈ L) -> (length L <= Z.to_nat n)%nat -> L ≡ₚ seqZ 0 n.
Proof.
  intros Hc Hl. symmetry. apply submseteq_length_Permutation.
  - apply NoDup_submseteq; [apply NoDup_seqZ|]. intros x Hx%elem_of_seqZ. apply Hc. lia.
  - by rewrite length_seqZ.
Qed.

Section WriteLoop.
Variable f : Z -> list Z.
Variable body : Z -> list Qc * Z -> result (list Qc * Z).
Hypothesis Hbody : forall item E rest,
  (length (f item) <= length rest)%nat ->
  body item (map Qc_of_Z E ++ rest, Z.of_nat (length E)) =
  Ok (map Qc_of_Z (E ++ f item) ++ drop (length (f item)) rest, Z.of_nat (length (E ++ f item))).

(** A [for] loop whose body writes [f item] at the next positions writes
    [emit f m i]. *)
Lemma for_loop_writes m i E rest :
  (length (emit f m i) <= length rest)%nat ->
  for_loop m i body (map Qc_of_Z E ++ rest, Z.of_nat (length E)) =
  Ok (map Qc_of_Z (E ++ emit f m i) ++ drop (length (emit f m i)) rest,
      Z.of_nat (length (E ++ emit f m i))).
Proof.
  revert i E rest. induction m as [|m IH]; intros i E rest Hl; simpl in *.
  - by rewrite !app_nil_r.
  - rewrite length_app in Hl. rewrite Hbody by lia. simpl.
    rewrite IH by (rewrite length_drop; lia).
    by rewrite drop_drop, <- !app_assoc, !length_app.
Qed.

End WriteLoop.

(** The body of the zoom loops: two writes at the next positions. *)
Lemma write_two (E : list Z) (rest : list Qc) (a b : Z) :
  (2 <= length rest)%nat ->
  (let* data := write_at (map Qc_of_Z E ++ rest) (Z.of_nat (length E)) (Qc_of_Z a) in
   let* data := write_at data (Z.of_nat (length E) + 1) (Qc_of_Z b) in
   Ok (data, Z.of_nat (length E) + 2)) =
  Ok (map Qc_of_Z (E ++ [a; b]) ++ drop 2 rest, Z.of_nat (length (E ++ [a; b]))).
Proof.
  intros Hl. destruct rest as [|x1 [|x2 rest]]; simpl in Hl; try lia.
  rewrite write_next. cbn [res_bind].
  replace (Z.of_nat (length E) + 1) with (Z.of_nat (length (E ++ [a]))) by (rewrite length_app; simpl; lia).
  rewrite write_next. cbn [res_bind]. rewrite <- app_assoc. simpl. do 2 f_equal.
  rewrite length_app. simpl. lia.
Qed.

Lemma zoom_in_step_writes (size item : Z) (E : list Z) (rest : list Qc) :
  (2 <= length rest)%nat ->
  zoom_in_step size item (map Qc_of_Z E ++ rest, Z.of_nat (length E)) =
  Ok (map Qc_of_Z (E ++ [item; size - item - 1]) ++ drop 2 rest,
      Z.of_nat (length (E ++ [item; size - item - 1]))).
Proof. intros Hl. by apply write_two. Qed.

Lemma zoom_out_odd_step_writes (half item : Z) (E : list Z) (rest : list Qc) :
  (2 <= length rest)%nat ->
  zoom_out_odd_step half item (map Qc_of_Z E ++ rest, Z.of_nat (length E)) =
  Ok (map Qc_of_Z (E ++ [half + item; half - item]) ++ drop 2 rest,
      Z.of_nat (length (E ++ [half + item; half - item]))).
Proof. intros Hl. by apply write_two. Qed.

Lemma zoom_out_even_step_writes (half : Qc) (item : Z) (E : list Z) (rest : list Qc) :
  let a := trunc_Qc (half + Qc_of_Z item + Q2Qc (1 # 2)) in
  let b := trunc_Qc (half - Qc_of_Z item - Q2Qc (1 # 2)) in
  (2 <= length rest)%nat ->
  zoom_out_even_step half item (map Qc_of_Z E ++ rest, Z.of_nat (length E)) =
  Ok (map Qc_of_Z (E ++ [a; b]) ++ drop 2 rest, Z.of_nat (length (E ++ [a; b]))).
Proof. intros a b Hl. by apply write_two. Qed.

Lemma quot_rem_2 size :
  0 <= size -> 0 <= Z.quot size 2 /\ size = 2 * Z.quot size 2 + Z.rem size 2 /\
  0 <= Z.rem size 2 < 2.
Proof.
  intros H. rewrite Z.quot_div_nonneg, Z.rem_mod_nonneg by lia.
  pose proof (Z.div_mod size 2). pose proof (Z.mod_pos_bound size 2). split; [|split]; [|lia|lia].
  apply Z.div_pos; lia.
Qed.

(** [UniformZoomIn::populate] writes [0, size-1, 1, size-2, ...] and the
    middle last. *)
Lemma zoom_in_data d size :
  0 <= size ->
  populate_zoom_in d size =
  Ok (mkDataSet (map Qc_of_Z
        (emit (fun j => [j; size - j - 1]) (Z.to_nat (Z.quot size 2)) 0 ++
         (if Z.rem size 2 =? 0 then [] else [Z.quot size 2])))).
Proof.
  intros Hs. pose proof (quot_rem_2 size Hs) as (Hh & Hq & Hr).
  unfold populate_zoom_in. rewrite resize_ok by done. cbn [res_bind].
  set (data0 := take _ _ ++ _). assert (Hl : length data0 = Z.to_nat size).
  { apply (resize_length (data_ d)). by rewrite resize_ok. }
  unfold for_range. rewrite Z.sub_0_r.
  change (data0, 0) with (map Qc_of_Z [] ++ data0, Z.of_nat (length (@nil Z))).
  set (f := fun j => [j; size - j - 1]).
  assert (Hle : length (emit f (Z.to_nat (Z.quot size 2)) 0) = (Z.to_nat (Z.quot size 2) * 2)%nat)
    by (by apply length_emit).
  rewrite (for_loop_writes f); cycle 1.
  { intros item E rest Hr'. apply zoom_in_step_writes. exact Hr'. }
  { rewrite Hle. lia. }
  cbn [res_bind]. rewrite Hle. destruct (Z.rem size 2 =? 0) eqn:E.
  - rewrite drop_ge by lia. by rewrite !app_nil_r.
  - apply Z.eqb_neq in E.
    destruct (drop _ data0) as [|x [|y rest]] eqn:Hd;
      pose proof (f_equal length Hd) as Hd'; rewrite length_drop in Hd'; simpl in Hd'; try lia.
    rewrite write_next. cbn [res_bind]. by rewrite app_nil_r.
Qed.

Lemma Qc_half_half : (Q2Qc (1 # 2) + Q2Qc (1 # 2))%Qc = 1%Qc.
Proof. by apply Qc_is_canon. Qed.

Lemma trunc_Qc_of_Z z : trunc_Qc (Qc_of_Z z) = z.
Proof. unfold trunc_Qc. case_bool_decide; [apply Qfloor_Z | apply Qceiling_Z]. Qed.

(** In the even case [half = size / 2 - 0.5] and the casts are exact. *)
Lemma zoom_out_even_values size h (j : Z) :
  size = 2 * h ->
  let half := (Qc_of_Z (Qceiling (inject_Z size / 2)) - Q2Qc (1 # 2))%Qc in
  trunc_Qc (half + Q2Qc (1 # 2)) = h /\
  trunc_Qc (half + Qc_of_Z j + Q2Qc (1 # 2)) = h + j /\
  trunc_Qc (half - Qc_of_Z j - Q2Qc (1 # 2)) = h - j - 1.
Proof.
  intros Hs half.
  assert (Hc : Qceiling (inject_Z size / 2) = h).
  { assert (E : (inject_Z size / 2 == inject_Z h)%Q) by (rewrite Hs; unfold Qeq; simpl; lia).
    rewrite E. apply Qceiling_Z. }
  unfold half. rewrite Hc. split; [|split].
  - replace (Qc_of_Z h - Q2Qc (1 # 2) + Q2Qc (1 # 2))%Qc with (Qc_of_Z h) by ring.
    apply trunc_Qc_of_Z.
  - replace (Qc_of_Z h - Q2Qc (1 # 2) + Qc_of_Z j + Q2Qc (1 # 2))%Qc with (Qc_of_Z (h + j))
      by (rewrite Z2Qc_inj_add; ring).
    apply trunc_Qc_of_Z.
  - replace (Qc_of_Z h - Q2Qc (1 # 2) - Qc_of_Z j - Q2Qc (1 # 2))%Qc with (Qc_of_Z (h - j - 1))
      by (rewrite !Z2Qc_inj_sub, Z2Qc_inj_1, <- Qc_half_half; ring).
    apply trunc_Qc_of_Z.
Qed.

(** [UniformZoomOut::populate] writes [h, h+1, h-1, h+2, h-2, ...] for an
    odd size [2h+1] and [h, h-1, h+1, h-2, ...] for an even size [2h]. *)
Lemma zoom_out_data d size :
  0 <= size ->
  let h := Z.quot size 2 in
  populate_zoom_out d size =
  Ok (mkDataSet (map Qc_of_Z
        (if Z.rem size 2 =? 0 then emit (fun j => [h + j; h - j - 1]) (Z.to_nat h) 0
         else h :: emit (fun j => [h + j; h - j]) (Z.to_nat h) 1))).
Proof.
  intros Hs h. pose proof (quot_rem_2 size Hs) as (Hh & Hq & Hr). fold h in Hh, Hq.
  unfold populate_zoom_out. rewrite resize_ok by done. cbn [res_bind].
  set (data0 := take _ _ ++ _). assert (Hl : length data0 = Z.to_nat size).
  { apply (resize_length (data_ d)). by rewrite resize_ok. }
  unfold for_range. destruct (Z.rem size 2 =? 0) eqn:E; cbn [negb].
  - apply Z.eqb_eq in E.
    destruct (zoom_out_even_values size h 0 ltac:(lia)) as [Hu _]. rewrite Hu, Z.sub_0_r.
    change (data0, 0) with (map Qc_of_Z [] ++ data0, Z.of_nat (length (@nil Z))).
    set (f := fun j => [h + j; h - j - 1]).
    assert (Hle : length (emit f (Z.to_nat h) 0) = (Z.to_nat h * 2)%nat) by (by apply length_emit).
    rewrite (for_loop_writes f); cycle 1.
    { intros item E' rest Hr'. rewrite zoom_out_even_step_writes by exact Hr'.
      destruct (zoom_out_even_values size h item ltac:(lia)) as (_ & H1 & H2).
      by rewrite H1, H2. }
    { rewrite Hle. lia. }
    cbn [res_bind]. rewrite Hle, drop_ge by lia. by rewrite !app_nil_r.
  - apply Z.eqb_neq in E.
    destruct data0 as [|x rest] eqn:Hd; [simpl in Hl; lia|].
    change (x :: rest) with (map Qc_of_Z [] ++ x :: rest).
    change 0 with (Z.of_nat (length (@nil Z))). rewrite write_next. cbn [res_bind].
    fold h. replace (h + 1 - 1) with h by lia. change ([] ++ [h]) with [h].
    change (map Qc_of_Z [h] ++ rest, 1) with (map Qc_of_Z [h] ++ rest, Z.of_nat (length [h])).
    set (f := fun j => [h + j; h - j]).
    assert (Hle : length (emit f (Z.to_nat h) 1) = (Z.to_nat h * 2)%nat) by (by apply length_emit).
    rewrite (for_loop_writes f); cycle 1.
    { intros item E' rest' Hr'. by apply zoom_out_odd_step_writes. }
    { rewrite Hle. simpl in Hl. lia. }
    cbn [res_bind]. rewrite Hle, drop_ge by (simpl in Hl; lia). by rewrite !app_nil_r.
Qed.

Lemma elem_of_pair (x a b : Z) : x = a \/ x = b -> x ∈ [a; b].
Proof. intros [-> | ->]; [apply list_elem_of_here | apply list_elem_of_further, list_elem_of_here]. Qed.

(** ** Sorting, [lower_bound], [rank] and [quantile] *)

Lemma sort_less_Permutation l : sort_less l ≡ₚ l.
Proof. apply merge_sort_Permutation. Qed.

Lemma sort_less_sorted l : StronglySorted (fun x y : Qc => (x <= y)%Qc) (sort_less l).
Proof.
  apply StronglySorted_merge_sort.
  - intros x y z. apply Qcle_trans.
  - intros x y. destruct (Qclt_le_dec x y); [left; by apply Qclt_le_weak | by right].
Qed.

(** [std::sort] is determined: the sorted permutation of a list is unique. *)
Lemma sort_less_unique l l' :
  StronglySorted (fun x y : Qc => (x <= y)%Qc) l' -> l' ≡ₚ l -> l' = sort_less l.
Proof.
  intros Hs Hp. apply (StronglySorted_unique_strong (fun x y : Qc => (x <= y)%Qc)).
  - intros x y _ _ H1 H2. by apply Qcle_antisym.
  - done.
  - apply sort_less_sorted.
  - by rewrite sort_less_Permutation.
Qed.

(** The number of elements below [v], as the test's reference counts them. *)
Definition count_lt (l : list Qc) (v : Qc) : nat :=
  length (List.filter (fun x => bool_decide (x < v)%Qc) l).

Definition count_le (l : list Qc) (v : Qc) : nat :=
  length (List.filter (fun x => bool_decide (x <= v)%Qc) l).

Lemma filter_Permutation_list (f : Qc -> bool) l l' :
  l ≡ₚ l' -> List.filter f l ≡ₚ List.filter f l'.
Proof.
  induction 1 as [|x l l' _ IH|x y l|l l' l'' _ IH1 _ IH2]; simpl.
  - done.
  - destruct (f x); [by apply perm_skip | done].
  - destruct (f x), (f y); try done; apply perm_swap.
  - by rewrite IH1.
Qed.

Lemma count_lt_Permutation l l' v : l ≡ₚ l' -> count_lt l v = count_lt l' v.
Proof. intros Hp. unfold count_lt. apply Permutation_length, filter_Permutation_list, Hp. Qed.

Lemma count_le_Permutation l l' v : l ≡ₚ l' -> count_le l v = count_le l' v.
Proof. intros Hp. unfold count_le. apply Permutation_length, filter_Permutation_list, Hp. Qed.

Lemma filter_all_false {A} (f : A -> bool) l :
  (forall y, In y l -> f y = false) -> List.filter f l = [].
Proof.
  induction l as [|y l IH]; intros H; simpl; [done|].
  rewrite (H y) by (by left). apply IH. intros z Hz. apply H. by right.
Qed.

(** On a sorted list, [lower_bound] counts the elements below the value. *)
Lemma lower_bound_count l v :
  StronglySorted (fun x y : Qc => (x <= y)%Qc) l -> lower_bound l v = count_lt l v.
Proof.
  unfold count_lt. induction 1 as [|x l Hs IH Hall]; simpl; [done|].
  case_bool_decide as Hx; simpl; [by rewrite IH|].
  rewrite List.Forall_forall in Hall. rewrite filter_all_false; [done|].
  intros y Hy. case_bool_decide as Hyv; [|done].
  exfalso. apply Hx. eapply Qcle_lt_trans; [apply Hall | exact Hyv]. done.
Qed.

Lemma count_lt_app l1 l2 v : count_lt (l1 ++ l2) v = (count_lt l1 v + count_lt l2 v)%nat.
Proof. unfold count_lt. by rewrite List.filter_app, length_app. Qed.

Lemma count_le_app l1 l2 v : count_le (l1 ++ l2) v = (count_le l1 v + count_le l2 v)%nat.
Proof. unfold count_le. by rewrite List.filter_app, length_app. Qed.

Lemma count_lt_le_length l v : (count_lt l v <= length l)%nat.
Proof. unfold count_lt. induction l; simpl; [lia|]. case_bool_decide; simpl; lia. Qed.

(** The [i]-th element of a sorted list has [i] as a rank: at most [i]
    elements are below it, more than [i] are not above it. *)
Lemma sorted_nth_rank l i :
  StronglySorted (fun x y : Qc => (x <= y)%Qc) l -> (i < length l)%nat ->
  (count_lt l (nth i l 0%Qc) <= i < count_le l (nth i l 0%Qc))%nat.
Proof.
  intros Hs Hi. destruct (lookup_lt_is_Some_2 l i Hi) as [x Hx].
  rewrite (nth_lookup_Some l i 0%Qc x Hx).
  rewrite <- (take_drop_middle l i x Hx) in Hs |- *.
  apply StronglySorted_app in Hs as (Hlt & _ & Hs2).
  apply StronglySorted_inv in Hs2 as [_ Hall]. rewrite List.Forall_forall in Hall.
  assert (Hlen : length (take i l) = i) by (rewrite length_take; lia).
  rewrite count_lt_app, count_le_app. split.
  - assert (count_lt (x :: drop (S i) l) x = 0%nat); [|pose proof (count_lt_le_length (take i l) x); lia].
    unfold count_lt. apply length_zero_iff_nil, filter_all_false.
    intros y Hy. case_bool_decide as Hyx; [exfalso|done].
    destruct Hy as [<-|Hy].
    + by apply (Qclt_not_le x x); [|apply Qcle_refl].
    + apply (Qclt_not_le y x); [done | by apply Hall].
  - assert (count_le (take i l) x = i).
    { rewrite <- Hlen at 2. unfold count_le. f_equal. apply List.forallb_filter_id, List.forallb_forall.
      intros y Hy. apply bool_decide_eq_true. apply Hlt; [by apply list_elem_of_In | left]. }
    unfold count_le at 2. simpl. rewrite bool_decide_eq_true_2 by apply Qcle_refl. simpl. lia.
Qed.

(** [q * (size - 1)] for [q] in [[0, 1]] truncates to a position. *)
Lemma quantile_rank_bounds (q : Qc) n :
  (0 <= q <= 1)%Qc -> 1 <= n ->
  let r := trunc_Qc (q * Qc_of_Z (n - 1))%Qc in 0 <= r <= n - 1.
Proof.
  intros [Hq0 Hq1] Hn r.
  assert (H0 : (0 <= Qc_of_Z (n - 1))%Qc) by (rewrite <- Z2Qc_inj_0; apply (proj1 (Z2Qc_inj_le _ _)); lia).
  assert (Hlo : (0 <= q * Qc_of_Z (n - 1))%Qc) by (by apply Qcmult_nonneg_nonneg).
  assert (Hhi : (q * Qc_of_Z (n - 1) <= Qc_of_Z (n - 1))%Qc).
  { rewrite <- (Qcmult_1_l (Qc_of_Z (n - 1))) at 2. by apply Qcmult_le_compat_r. }
  unfold r, trunc_Qc. rewrite bool_decide_eq_true_2 by done. split.
  - change 0 with (Qfloor 0). apply Qfloor_resp_le. exact Hlo.
  - apply Z.le_trans with (Qfloor (inject_Z (n - 1)));
      [apply Qfloor_resp_le; exact Hhi | rewrite Qfloor_Z; lia].
Qed.

(** ** [DataSet::rank] and [DataSet::quantile] *)

(** C27: [DataSet::rank] (sort, then [std::lower_bound]) equals the count
    of the elements below the value, read off the unsorted data, and
    [size() - 1] when every element is below it. *)
Theorem rank_count d v :
  rank d v =
  (let c := count_lt (data_ d) v in
   if Nat.eqb c (length (data_ d)) then Z.of_nat c - 1 else Z.of_nat c).
Proof.
  unfold rank. cbv zeta. rewrite lower_bound_count by apply sort_less_sorted.
  rewrite (count_lt_Permutation (sort_less (data_ d)) (data_ d)) by apply sort_less_Permutation.
  rewrite (Permutation_length (sort_less_Permutation (data_ d))).
  destruct (Nat.eqb_spec (count_lt (data_ d) v) (length (data_ d))) as [E|]; [by rewrite E | done].
Qed.

(** C28: [DataSet::quantile(q)] for [q] in [[0, 1]] on a non-empty data
    set returns one of its elements whose rank is [floor(q * (size - 1))]:
    at most that many elements are below it and more are not above it. *)
Theorem quantile_at_rank d q :
  data_ d <> [] -> len d <= INT64_MAX -> (0 <= q <= 1)%Qc ->
  exists x, quantile d q = Ok x /\ In x (data_ d) /\
    let r := trunc_Qc (q * Qc_of_Z (len d - 1))%Qc in
    Z.of_nat (count_lt (data_ d) x) <= r < Z.of_nat (count_le (data_ d) x).
Proof.
  intros Hne Hmax Hq. assert (Hn : 1 <= len d) by (unfold len; destruct (data_ d); [done | simpl; lia]).
  pose proof (quantile_rank_bounds q (len d) Hq Hn) as Hr. cbv zeta in Hr.
  assert (Hm : (len d - 1) mod SIZE_MOD = len d - 1)
    by (apply Z.mod_small; unfold INT64_MAX, SIZE_MOD in *; lia).
  unfold quantile. rewrite Hm. set (r := trunc_Qc _) in *.
  unfold guard_ub. zbool. unfold INT64_MIN, INT64_MAX in *. zbool.
  set (sorted := sort_less (data_ d)).
  assert (Hl : length sorted = length (data_ d)) by apply Permutation_length, sort_less_Permutation.
  eexists. split; [reflexivity|]. split.
  - apply (Permutation_in _ (sort_less_Permutation (data_ d))). apply nth_In.
    fold sorted. unfold len in Hr. lia.
  - rewrite <- (count_lt_Permutation sorted), <- (count_le_Permutation sorted) by apply sort_less_Permutation.
    pose proof (sorted_nth_rank sorted (Z.to_nat r) (sort_less_sorted _) ltac:(unfold len in Hr; lia)).
    lia.
Qed.

(** C29: [DataSet::quantile] on an empty data set is undefined for every
    [q]: [size() - 1] wraps to [SIZE_MAX] and no [item_rank] is a position
    of the empty vector. *)
Theorem quantile_empty_ub q : quantile (mkDataSet []) q = Throw UndefinedBehavior.
Proof.
  unfold quantile, guard_ub. set (r := trunc_Qc _). destruct (_ && _); [|done].
  destruct (_ && _) eqn:E; [|done]. exfalso.
  apply andb_true_iff in E as [E1 E2]. apply Z.leb_le in E1. apply Z.ltb_lt in E2.
  unfold len in E2. simpl in E2. lia.
Qed.

(** ** The generated sequences *)

Lemma seqZ_S_cons m n : seqZ m (Z.of_nat (S n)) = m :: seqZ (m + 1) (Z.of_nat n).
Proof. rewrite seqZ_cons by lia. f_equal. f_equal; lia. Qed.

Lemma generate_post_increment n s :
  generate n post_increment s = map Qc_of_Z (seqZ s (Z.of_nat n)).
Proof.
  revert s. induction n as [|n IH]; intros s; [done|].
  rewrite seqZ_S_cons. simpl. by rewrite IH.
Qed.

Lemma generate_negated_post_increment n s :
  generate n negated_post_increment s = map (fun x => Qc_of_Z (- x)) (seqZ s (Z.of_nat n)).
Proof.
  revert s. induction n as [|n IH]; intros s; [done|].
  rewrite seqZ_S_cons. simpl. by rewrite IH.
Qed.

Lemma generate_post_decrement n s :
  generate n post_decrement s = map (fun x => Qc_of_Z (- x)) (seqZ (- s) (Z.of_nat n)).
Proof.
  revert s. induction n as [|n IH]; intros s; [done|].
  rewrite seqZ_S_cons. simpl. rewrite IH, Z.opp_involutive.
  do 3 f_equal. lia.
Qed.

Lemma generate_negated_post_decrement n s :
  generate n negated_post_decrement s = map Qc_of_Z (seqZ (- s) (Z.of_nat n)).
Proof.
  revert s. induction n as [|n IH]; intros s; [done|].
  rewrite seqZ_S_cons. simpl. rewrite IH. do 3 f_equal. lia.
Qed.

Lemma map_seqZ_shift {A} (f g : Z -> A) m n :
  (forall x, f (x + 1) = g x) -> map f (seqZ (m + 1) n) = map g (seqZ m n).
Proof.
  intros Hfg. remember (Z.to_nat n) as k. revert m n Heqk.
  induction k as [|k IH]; intros m n Hk.
  - rewrite !seqZ_nil by lia. done.
  - rewrite !(seqZ_cons _ n) by lia. simpl. rewrite Hfg. f_equal.
    replace (Z.succ (m + 1)) with (Z.succ m + 1) by lia. apply IH. lia.
Qed.

Lemma generate_populate_ok {St} d size (gen : St -> Qc * St) s0 :
  0 <= size -> generate_populate d size gen s0 = Ok (mkDataSet (generate (Z.to_nat size) gen s0)).
Proof.
  intros Hs. unfold generate_populate.
  destruct (resize (data_ d) size) eqn:E; [|by rewrite resize_ok in E].
  cbn [res_bind]. by rewrite (resize_length _ _ _ E).
Qed.

Lemma seqZ_descending m n : StronglySorted (fun x y : Qc => (y < x)%Qc) (map (fun x => Qc_of_Z (- x)) (seqZ m n)).
Proof.
  remember (Z.to_nat n) as k. revert m n Heqk. induction k as [|k IH]; intros m n Hk.
  - rewrite seqZ_nil by lia. constructor.
  - rewrite seqZ_cons by lia. simpl. constructor; [apply (IH _ _); lia|].
    apply List.Forall_forall. intros y (x & <- & Hx)%in_map_iff.
    apply list_elem_of_In, elem_of_seqZ in Hx. apply (proj1 (Z2Qc_inj_lt _ _)). lia.
Qed.

(** ** The deterministic data sets *)

Lemma zoom_in_perm d size :
  0 <= size ->
  exists d', populate_zoom_in d size = Ok d' /\ data_ d' ≡ₚ map Qc_of_Z (seqZ 0 size).
Proof.
  intros Hs. pose proof (quot_rem_2 size Hs) as (Hh & Hq & Hr).
  eexists. split; [by apply zoom_in_data|]. apply Permutation_map, cover_Permutation.
  - intros x Hx. rewrite elem_of_app, elem_of_emit.
    destruct (decide (x < Z.quot size 2)) as [Hlo|Hlo];
      [left; exists x; split; [lia | apply elem_of_pair; lia]|].
    destruct (decide (size - Z.quot size 2 <= x)) as [Hhi|Hhi];
      [left; exists (size - 1 - x); split; [lia | apply elem_of_pair; lia]|].
    right. destruct (Z.rem size 2 =? 0) eqn:E; [apply Z.eqb_eq in E; lia|].
    replace x with (Z.quot size 2) by lia. apply list_elem_of_here.
  - rewrite length_app, (length_emit _ _ _ 2) by done.
    destruct (Z.rem size 2 =? 0) eqn:E; [apply Z.eqb_eq in E | apply Z.eqb_neq in E];
      simpl; lia.
Qed.

Lemma zoom_out_perm d size :
  0 <= size ->
  exists d', populate_zoom_out d size = Ok d' /\ data_ d' ≡ₚ map Qc_of_Z (seqZ 0 size).
Proof.
  intros Hs. pose proof (quot_rem_2 size Hs) as (Hh & Hq & Hr).
  eexists. split; [by apply zoom_out_data|]. apply Permutation_map, cover_Permutation.
  - intros x Hx. destruct (Z.rem size 2 =? 0) eqn:E;
      [apply Z.eqb_eq in E | apply Z.eqb_neq in E; rewrite elem_of_cons].
    + rewrite elem_of_emit. destruct (decide (Z.quot size 2 <= x)).
      * exists (x - Z.quot size 2). split; [lia | apply elem_of_pair; lia].
      * exists (Z.quot size 2 - 1 - x). split; [lia | apply elem_of_pair; lia].
    + destruct (decide (x = Z.quot size 2)) as [|Hne]; [by left|right].
      rewrite elem_of_emit. destruct (decide (Z.quot size 2 < x)).
      * exists (x - Z.quot size 2). split; [lia | apply elem_of_pair; lia].
      * exists (Z.quot size 2 - x). split; [lia | apply elem_of_pair; lia].
  - destruct (Z.rem size 2 =? 0) eqn:E; [apply Z.eqb_eq in E | apply Z.eqb_neq in E];
      simpl; rewrite (length_emit _ _ _ 2) by done; lia.
Qed.

(** C31: [UniformZoomIn::populate(size)] neither throws nor writes outside
    the vector for [size >= 0], and fills it with a permutation of
    [0, ..., size - 1]. *)
Theorem zoom_in_permutation d size :
  0 <= size ->
  exists d', populate_zoom_in d size = Ok d' /\ data_ d' ≡ₚ map Qc_of_Z (seqZ 0 size).
Proof. apply zoom_in_perm. Qed.

(** C32: [UniformZoomOut::populate(size)] neither throws nor writes outside
    the vector for [size >= 0], and fills it with a permutation of
    [0, ..., size - 1]; the even case's [double] arithmetic is exact. *)
Theorem zoom_out_permutation d size :
  0 <= size ->
  exists d', populate_zoom_out d size = Ok d' /\ data_ d' ≡ₚ map Qc_of_Z (seqZ 0 size).
Proof. apply zoom_out_perm. Qed.

(** C34: [NumberLineForward::populate] generates the descending sequence
    [size/2 - 1, size/2 - 2, ...]: the one of [NumberLineBackward], shifted
    down by one, and not an ascending number line. *)
Theorem number_line_forward_descending d size :
  0 <= size ->
  exists d1 d2, populate_number_line_forward d size = Ok d1 /\
    populate_number_line_backward d size = Ok d2 /\
    data_ d1 = map (fun x => x - 1)%Qc (data_ d2) /\
    StronglySorted (fun x y : Qc => (y < x)%Qc) (data_ d1).
Proof.
  intros Hs. unfold populate_number_line_forward, populate_number_line_backward.
  rewrite !generate_populate_ok by done.
  rewrite generate_negated_post_increment, generate_post_decrement.
  eexists _, _. split; [done|]. split; [done|]. cbn [data_]. split.
  - rewrite map_map. replace (Z.quot (- size) 2 + 1) with (- Z.quot size 2 + 1)
      by (rewrite Z.quot_opp_l by lia; lia).
    apply map_seqZ_shift. intros x. rewrite !Z2Qc_inj_opp, Z2Qc_inj_add, Z2Qc_inj_1. ring.
  - apply seqZ_descending.
Qed.

(** ** Witnesses *)

Lemma zoom_in_permutation_witness :
  0 <= 7 /\ exists d', populate_zoom_in (mkDataSet []) 7 = Ok d' /\
    data_ d' ≡ₚ map Qc_of_Z (seqZ 0 7).
Proof. split; [lia|]. apply zoom_in_permutation. lia. Defined.

Lemma zoom_out_permutation_witness :
  0 <= 6 /\ exists d', populate_zoom_out (mkDataSet [Qc_of_Z 5]) 6 = Ok d' /\
    data_ d' ≡ₚ map Qc_of_Z (seqZ 0 6).
Proof. split; [lia|]. apply zoom_out_permutation. lia. Defined.

Lemma quantile_at_rank_witness :
  let d := mkDataSet [Qc_of_Z 3; Qc_of_Z 1; Qc_of_Z 2] in
  data_ d <> [] /\ len d <= INT64_MAX /\ (0 <= Q2Qc (1 # 2) <= 1)%Qc /\
  exists x, quantile d (Q2Qc (1 # 2)) = Ok x /\ In x (data_ d) /\
    let r := trunc_Qc (Q2Qc (1 # 2) * Qc_of_Z (len d - 1))%Qc in
    Z.of_nat (count_lt (data_ d) x) <= r < Z.of_nat (count_le (data_ d) x).
Proof.
  split; [done|]. split; [vm_compute; congruence|]. split; [split; vm_compute; congruence|].
  apply quantile_at_rank; [done | vm_compute; congruence | split; vm_compute; congruence].
Defined.

Lemma number_line_forward_descending_witness :
  0 <= 7 /\ exists d1 d2, populate_number_line_forward (mkDataSet []) 7 = Ok d1 /\
    populate_number_line_backward (mkDataSet []) 7 = Ok d2 /\
    data_ d1 = map (fun x => x - 1)%Qc (data_ d2) /\
    StronglySorted (fun x y : Qc => (y < x)%Qc) (data_ d1).
Proof. split; [lia|]. apply number_line_forward_descending. lia. Defined.

End DataSets.
