(* ===== verification/UniformSqrt.v ===== *)
(** * [UniformSqrt::populate] terminates with a permutation

    [SqrtState] holds the loop variables of [UniformSqrt::populate],
    [sqrt_inner_step] is the body of its inner [for] loop, [sqrt_pass]
    one iteration of the [while] loop and [sqrt_while] the loop with fuel;
    [populate_sqrt] resizes the vector and runs it.

    The [while] loop of [UniformSqrt::populate(size)] (part_000 lines
    307-338) walks the triangle of the numbers [tri r + c] ([0 <= c <= r],
    [tri r = r (r + 1) / 2]) by columns: with [t = floor(sqrt(2 size))],
    pass [i < t - 1] emits column [i] of rows [i .. t - 1], skipping the
    items [>= size]; from pass [t - 1] on, each pass emits the single item
    [tri t - 1], [tri t], ... in turn.  [em K] is what the first [K]
    passes emit and [it_state K] the loop state after them.  Every item is
    emitted at most once (two passes never share an item), so no write
    leaves the vector; every item below [size] is emitted by pass
    [t - 1 + size], so the loop stops within [sqrt_fuel size] passes with
    a permutation of [0 .. size - 1].

    [sqrt_step] is the loop as a transition system, one step per
    iteration taken while [emitted < size]; it is deterministic, its
    states reachable from [sqrt_init] are the [it_state K], and every item
    below [size] is eventually [written] and stays written in every later
    state ([uniform_sqrt_item_written], a liveness property of the
    loop). *)

From S2P Require Import Prelude Datasets.
From stdpp Require Import relations.
Import DataSets.

Local Open Scope Z_scope.
Local Open Scope ddsketch_scope.

(** ** The model of [UniformSqrt::populate] *)

(** [UniformSqrt::populate]: the state of the [while] loop, and the inner
    [for] loop's [(data_, idx, emitted, item, skip)]. *)
Record SqrtState := mkSqrtState {
  sq_data : list Qc;
  sq_idx : Z;
  sq_emitted : Z;
  sq_initial_item : Z;
  sq_initial_skip : Z;
  sq_i : Z
}.

Definition sqrt_inner_step (size : Z) (_ : Z) (st : list Qc * Z * Z * Z * Z)
    : result (list Qc * Z * Z * Z * Z) :=
  let '(data, idx, emitted, item, skip) := st in
  if item <? size then
    let* data := write_at data idx (Qc_of_Z item) in
    Ok (data, idx + 1, emitted + 1, item + skip, skip + 1)
  else Ok (data, idx, emitted, item + skip, skip + 1).

(** One iteration of the [while] body. *)
Definition sqrt_pass (size t : Z) (st : SqrtState) : result SqrtState :=
  let* (data, idx, emitted, _, _) :=
    for_range 0 (t - sq_i st) (sqrt_inner_step size)
      (sq_data st, sq_idx st, sq_emitted st, sq_initial_item st, sq_initial_skip st) in
  if 1 <? t - sq_i st then
    Ok (mkSqrtState data idx emitted (sq_initial_item st + (sq_initial_skip st + 1))
          (sq_initial_skip st + 1) (sq_i st + 1))
  else Ok (mkSqrtState data idx emitted (sq_initial_item st + 1) (sq_initial_skip st) (sq_i st)).

(** [while (emitted < size) { ... }], with fuel. *)
Fixpoint sqrt_while (fuel : nat) (size t : Z) (st : SqrtState) : option (result (list Qc)) :=
  if sq_emitted st <? size then
    match fuel with
    | O => None
    | S f =>
        match sqrt_pass size t st with
        | Ok st' => sqrt_while f size t st'
        | Throw e => Some (Throw e)
        end
    end
  else Some (Ok (sq_data st)).

(** [t = static_cast<int>(std::sqrt(2 * size))]: the square root of an
    integer below [2^52] is correctly rounded, so its truncation is the
    integer square root. *)
(** The loop variables before the [while] loop: [idx = 0],
    [emitted = 0], [initial_item = 0], [initial_skip = 1], [i = 0]. *)
Definition sqrt_init (data : list Qc) : SqrtState := mkSqrtState data 0 0 0 1 0.

Definition populate_sqrt (fuel : nat) (d : DataSet) (size : Z) : option (result DataSet) :=
  match resize (data_ d) size with
  | Throw e => Some (Throw e)
  | Ok data =>
      let t := Z.sqrt (2 * size) in
      option_map (fun r => let* data := r in Ok (mkDataSet data))
        (sqrt_while fuel size t (sqrt_init data))
  end.

(** The [while] loop as a transition system: a step is one iteration,
    taken while [emitted < size] and its body returns. *)
Inductive sqrt_step (size t : Z) : SqrtState -> SqrtState -> Prop :=
  | sqrt_step_pass st st' :
      sq_emitted st < size -> sqrt_pass size t st = Ok st' -> sqrt_step size t st st'.

(** [item] has been written: it is at a position below [idx]. *)
Definition written (item : Z) (st : SqrtState) : Prop :=
  exists j, (j < Z.to_nat (sq_idx st))%nat /\ sq_data st !! j = Some (Qc_of_Z item).

(** Enough iterations of the [while] loop: [t - 1] passes over the
    triangle, then one per remaining item. *)
Definition sqrt_fuel (size : Z) : nat := Z.to_nat (2 * size + 2).

(** ** The triangle *)

Definition tri (r : Z) : Z := r * (r + 1) / 2.

(** The items the inner [for] loop visits from [item] with [skip]. *)
Fixpoint inner_seq (m : nat) (a s : Z) : list Z :=
  match m with
  | O => []
  | S m' => a :: inner_seq m' (a + s) (s + 1)
  end.

(** ** The passes of the [while] loop *)

Definition sq_T (n : Z) : Z := Z.sqrt (2 * n).

(** After [K] passes: [i], [initial_skip] and [initial_item]. *)
Definition it_i (n K : Z) : Z := Z.min K (sq_T n - 1).
Definition it_skip (n K : Z) : Z := it_i n K + 1.
Definition it_item (n K : Z) : Z := tri (it_i n K + 1) - 1 + (K - it_i n K).

(** The items pass [K] visits. *)
Definition it_items (n K : Z) : list Z :=
  inner_seq (Z.to_nat (sq_T n - it_i n K)) (it_item n K) (it_skip n K).

(** What the first [K] passes emit. *)
Fixpoint em (n : Z) (K : nat) : list Z :=
  match K with
  | O => []
  | S K' => em n K' ++ filter (fun x => x < n) (it_items n (Z.of_nat K'))
  end.

(** The loop state after [K] passes, from the resized vector [data0]. *)
Definition it_state (n : Z) (data0 : list Qc) (K : nat) : SqrtState :=
  mkSqrtState (map Qc_of_Z (em n K) ++ drop (length (em n K)) data0)
    (Z.of_nat (length (em n K))) (Z.of_nat (length (em n K)))
    (it_item n (Z.of_nat K)) (it_skip n (Z.of_nat K)) (it_i n (Z.of_nat K)).

(** ** Triangular numbers *)

Lemma tri_double r : 2 * tri r = r * (r + 1).
Proof.
  unfold tri. pose proof (Z.div_mod r 2 ltac:(lia)) as Hr.
  pose proof (Z.mod_pos_bound r 2 ltac:(lia)).
  assert (Hm : exists m, r * (r + 1) = 2 * m).
  { destruct (decide (r mod 2 = 0)) as [E|E].
    - exists (r / 2 * (r + 1)). rewrite Hr at 1. rewrite E. ring.
    - exists (r * (r / 2 + 1)). rewrite Hr at 2. replace (r mod 2) with 1 by lia. ring. }
  destruct Hm as [m ->]. rewrite (Z.mul_comm 2 m), Z.div_mul by lia. ring.
Qed.

Lemma tri_succ r : tri (r + 1) = tri r + r + 1.
Proof. pose proof (tri_double r). pose proof (tri_double (r + 1)). nia. Qed.

Lemma tri_nonneg r : 0 <= r -> 0 <= tri r.
Proof. intros. pose proof (tri_double r). nia. Qed.

Lemma tri_lt r r' : 0 <= r -> r < r' -> tri r + r < tri r'.
Proof. intros. pose proof (tri_double r). pose proof (tri_double r'). nia. Qed.

(** Every item has one place in the triangle. *)
Lemma tri_unique r c r' c' :
  0 <= c <= r -> 0 <= c' <= r' -> tri r + c = tri r' + c' -> r = r' /\ c = c'.
Proof.
  intros Hc Hc' E.
  destruct (Z.lt_trichotomy r r') as [Hlt|[->|Hlt]].
  - pose proof (tri_lt r r' ltac:(lia) Hlt). lia.
  - lia.
  - pose proof (tri_lt r' r ltac:(lia) Hlt). lia.
Qed.

Lemma tri_decomp x : 0 <= x -> exists r c, 0 <= c <= r /\ x = tri r + c.
Proof.
  revert x. apply natlike_ind.
  - exists 0, 0. split; [lia|]. reflexivity.
  - intros x Hx (r & c & Hc & ->). destruct (decide (c = r)) as [->|Hne].
    + exists (r + 1), 0. rewrite tri_succ. lia.
    + exists r, (c + 1). lia.
Qed.

(** ** [t = floor(sqrt(2 size))] *)

Section Sqrt.
Variable n : Z.
Hypothesis Hn : 1 <= n.

Lemma sq_T_spec : 1 <= sq_T n /\ sq_T n * sq_T n <= 2 * n /\ sq_T n <= n.
Proof.
  unfold sq_T. pose proof (Z.sqrt_spec (2 * n) ltac:(lia)) as [H1 H2].
  pose proof (Z.sqrt_nonneg (2 * n)). split; [|split; [done|]].
  - destruct (decide (Z.sqrt (2 * n) = 0)) as [E|]; [rewrite E in H2; lia | lia].
  - nia.
Qed.

Local Abbreviation T := (sq_T n).

Lemma inner_seq_pass m r k :
  inner_seq m (tri r + k) (r + 1) = (fun r' => tri r' + k) <$> seqZ r (Z.of_nat m).
Proof.
  revert r. induction m as [|m IH]; intros r; [done|].
  rewrite seqZ_S_cons. simpl. f_equal.
  replace (tri r + k + (r + 1)) with (tri (r + 1) + k) by (rewrite tri_succ; lia).
  replace (r + 1 + 1) with ((r + 1) + 1) by lia. apply IH.
Qed.

(** Pass [K < t - 1] visits column [K] of rows [K .. t - 1]. *)
Lemma it_items_pass K :
  0 <= K < T - 1 -> it_items n K = (fun r => tri r + K) <$> seqZ K (T - K).
Proof.
  intros HK. unfold it_items, it_item, it_skip, it_i.
  rewrite Z.min_l by lia. replace (K - K) with 0 by lia.
  replace (tri (K + 1) - 1 + 0) with (tri K + K) by (rewrite tri_succ; lia).
  rewrite inner_seq_pass, Z2Nat.id by lia. done.
Qed.

(** Pass [K >= t - 1] visits the one item [tri t - 1 + (K - (t - 1))]. *)
Lemma it_items_tail K :
  T - 1 <= K -> it_items n K = [tri T - 1 + (K - (T - 1))].
Proof.
  intros HK. unfold it_items, it_item, it_skip, it_i.
  rewrite Z.min_r by lia. replace (T - (T - 1)) with 1 by lia.
  by replace (T - 1 + 1) with T by lia.
Qed.

Lemma elem_of_it_items K x :
  0 <= K ->
  x ∈ it_items n K <->
  (K < T - 1 /\ exists r, K <= r < T /\ x = tri r + K) \/
  (T - 1 <= K /\ x = tri T - 1 + (K - (T - 1))).
Proof.
  intros HK. destruct (decide (K < T - 1)) as [Hlt|Hge].
  - rewrite it_items_pass by lia. rewrite list_elem_of_fmap. split.
    + intros (r & -> & Hr%elem_of_seqZ). left. split; [done|]. exists r. split; [lia | done].
    + intros [(_ & r & Hr & ->)|[? _]]; [|lia]. exists r. split; [done|]. apply elem_of_seqZ. lia.
  - rewrite it_items_tail by lia. rewrite list_elem_of_singleton. split.
    + intros ->. right. split; [lia | done].
    + intros [[? _]|[_ ->]]; [lia | done].
Qed.

Lemma tri_T_pos : 1 <= tri T.
Proof.
  pose proof sq_T_spec. pose proof (tri_lt 0 T ltac:(lia) ltac:(lia)) as Ht.
  change (tri 0) with 0 in Ht. lia.
Qed.

(** The items of a pass below [tri t - 1] lie in the triangle's first
    [t - 1] columns. *)
Lemma pass_item_below r K :
  0 <= K -> K <= r < T -> K < T - 1 -> tri r + K < tri T - 1.
Proof.
  intros HK Hr HKT. pose proof (tri_succ (T - 1)) as Hs. replace (T - 1 + 1) with T in Hs by lia.
  destruct (decide (r = T - 1)) as [->|Hne]; [lia|].
  pose proof (tri_lt r (T - 1) ltac:(lia) ltac:(lia)). lia.
Qed.

(** Two passes never visit the same item. *)
Lemma it_items_disjoint K K' x :
  0 <= K -> 0 <= K' -> x ∈ it_items n K -> x ∈ it_items n K' -> K = K'.
Proof.
  intros HK HK' Hx Hx'. apply (elem_of_it_items K x HK) in Hx. apply (elem_of_it_items K' x HK') in Hx'.
  destruct Hx' as [(HKT' & r' & Hr' & E)|(HKT' & E)];
    destruct Hx as [(HKT & r & Hr & ->)|(HKT & ->)].
  - apply tri_unique in E as [_ ->]; lia.
  - pose proof (pass_item_below r' K' HK' Hr' HKT'). lia.
  - pose proof (pass_item_below r K HK Hr HKT). lia.
  - lia.
Qed.

Lemma it_items_nonneg K x : 0 <= K -> x ∈ it_items n K -> 0 <= x.
Proof.
  intros HK Hx. pose proof tri_T_pos.
  apply (elem_of_it_items K x HK) in Hx as [(_ & r & Hr & ->)|(HKT & ->)]; [|lia].
  pose proof (tri_nonneg r ltac:(lia)). lia.
Qed.

Lemma NoDup_it_items K : 0 <= K -> NoDup (it_items n K).
Proof.
  intros HK. destruct (decide (K < T - 1)).
  - rewrite it_items_pass by lia. apply NoDup_fmap_2_strong; [|apply NoDup_seqZ].
    intros r r' Hr%elem_of_seqZ Hr'%elem_of_seqZ E.
    apply tri_unique in E as [-> _]; lia.
  - rewrite it_items_tail by lia. apply NoDup_singleton.
Qed.

(** ** What the passes emit *)

Lemma elem_of_em K x :
  x ∈ em n K <-> exists k, 0 <= k < Z.of_nat K /\ x ∈ it_items n k /\ x < n.
Proof.
  induction K as [|K IH]; simpl.
  - split; [by intros ?%elem_of_nil | intros (k & Hk & _); lia].
  - rewrite elem_of_app, IH, list_elem_of_filter. split.
    + intros [(k & Hk & Hx)|(Hlt & Hx)].
      * exists k. split; [lia | done].
      * exists (Z.of_nat K). split; [lia | done].
    + intros (k & Hk & Hx & Hlt). destruct (decide (k = Z.of_nat K)) as [->|Hne].
      * by right.
      * left. exists k. split; [lia | done].
Qed.

Lemma NoDup_em K : NoDup (em n K).
Proof.
  induction K as [|K IH]; simpl; [constructor|].
  apply list.NoDup_app. split; [done|]. split.
  - intros x (k & Hk & Hx & _)%elem_of_em (_ & Hx')%list_elem_of_filter.
    pose proof (it_items_disjoint k (Z.of_nat K) x ltac:(lia) ltac:(lia) Hx Hx'). lia.
  - apply list.NoDup_filter, NoDup_it_items. lia.
Qed.

Lemma em_range K x : x ∈ em n K -> 0 <= x < n.
Proof.
  intros (k & Hk & Hx & Hlt)%elem_of_em. split; [|done].
  apply (it_items_nonneg k); [lia | done].
Qed.

(** No pass writes outside the vector: at most [size] items are emitted. *)
Lemma em_length_le K : (length (em n K) <= Z.to_nat n)%nat.
Proof.
  rewrite <- (length_seqZ 0 n). apply submseteq_length, NoDup_submseteq; [apply NoDup_em|].
  intros x Hx%em_range. apply elem_of_seqZ. lia.
Qed.

Lemma em_length_mono K K' : (K <= K')%nat -> (length (em n K) <= length (em n K'))%nat.
Proof. induction 1 as [|K' _ IH]; [done|]. simpl. rewrite length_app. lia. Qed.

(** Every item below [size] is emitted by pass [t - 1 + size]. *)
Lemma em_cover x : 0 <= x < n -> x ∈ em n (Z.to_nat (T - 1 + n)).
Proof.
  intros Hx. pose proof sq_T_spec as HT. pose proof tri_T_pos.
  pose proof (tri_succ (T - 1)) as Hs. replace (T - 1 + 1) with T in Hs by lia.
  apply elem_of_em. destruct (decide (x < tri T - 1)) as [Hlo|Hhi].
  - destruct (tri_decomp x ltac:(lia)) as (r & c & Hc & ->).
    assert (Hr : r < T).
    { destruct (decide (r < T)) as [|Hge]; [done|].
      destruct (decide (r = T)) as [->|]; [lia|].
      pose proof (tri_lt T r ltac:(lia) ltac:(lia)). lia. }
    assert (Hc' : c < T - 1).
    { destruct (decide (c < T - 1)); [done|]. assert (r = T - 1) as -> by lia. lia. }
    exists c. split; [lia|]. split; [|lia].
    apply elem_of_it_items; [lia|]. left. split; [done|]. exists r. split; [lia | done].
  - exists (T - 1 + (x - (tri T - 1))). split; [lia|]. split; [|lia].
    apply elem_of_it_items; [lia|]. right. split; lia.
Qed.

Lemma em_length_cover : (Z.to_nat n <= length (em n (Z.to_nat (T - 1 + n))))%nat.
Proof.
  rewrite <- (length_seqZ 0 n). apply submseteq_length, NoDup_submseteq; [apply NoDup_seqZ|].
  intros x Hx%elem_of_seqZ. apply em_cover. lia.
Qed.

(** ** Running the loops *)

(** The inner [for] loop writes the visited items below [size] at the
    next positions. *)
Lemma inner_loop_run m j a sk E rest :
  let F := filter (fun x => x < n) (inner_seq m a sk) in
  (length F <= length rest)%nat ->
  exists a' sk',
    for_loop m j (sqrt_inner_step n)
      (map Qc_of_Z E ++ rest, Z.of_nat (length E), Z.of_nat (length E), a, sk) =
    Ok (map Qc_of_Z (E ++ F) ++ drop (length F) rest,
        Z.of_nat (length (E ++ F)), Z.of_nat (length (E ++ F)), a', sk').
Proof.
  revert j a sk E rest. induction m as [|m IH]; intros j a sk E rest F Hl.
  - exists a, sk. subst F. simpl. by rewrite app_nil_r.
  - subst F. cbn [inner_seq for_loop] in *. rewrite filter_cons in Hl |- *.
    unfold sqrt_inner_step at 1. destruct (decide (a < n)) as [Ha|Ha].
    + rewrite (proj2 (Z.ltb_lt _ _) Ha).
      destruct rest as [|x rest]; [simpl in Hl; lia|]. rewrite write_next. cbn [res_bind].
      replace (Z.of_nat (length E) + 1) with (Z.of_nat (length (E ++ [a])))
        by (rewrite length_app; simpl; lia).
      destruct (IH (j + 1) (a + sk) (sk + 1) (E ++ [a]) rest) as (a' & sk' & ->);
        [simpl in Hl; lia|].
      exists a', sk'. by rewrite <- app_assoc.
    + rewrite (proj2 (Z.ltb_ge _ _)) by lia. cbn [res_bind].
      apply IH. done.
Qed.

(** The loop variables after one more pass. *)
Lemma it_next K :
  0 <= K ->
  if 1 <? T - it_i n K then
    it_item n (K + 1) = it_item n K + (it_skip n K + 1) /\
    it_skip n (K + 1) = it_skip n K + 1 /\ it_i n (K + 1) = it_i n K + 1
  else
    it_item n (K + 1) = it_item n K + 1 /\
    it_skip n (K + 1) = it_skip n K /\ it_i n (K + 1) = it_i n K.
Proof.
  intros HK. pose proof sq_T_spec. unfold it_item, it_skip, it_i.
  destruct (Z.ltb_spec 1 (T - Z.min K (T - 1))).
  - rewrite !Z.min_l by lia. replace (K + 1 + 1) with ((K + 1) + 1) by lia.
    rewrite (tri_succ (K + 1)). lia.
  - rewrite !Z.min_r by lia. lia.
Qed.

Section Run.
Variable data0 : list Qc.
Hypothesis Hdata0 : length data0 = Z.to_nat n.

(** One pass of the [while] loop from the state after [K] passes. *)
Lemma pass_run K :
  sqrt_pass n T (it_state n data0 K) = Ok (it_state n data0 (S K)).
Proof.
  pose proof (em_length_le (S K)) as Hle. simpl in Hle. rewrite length_app in Hle.
  unfold sqrt_pass, it_state. cbn [sq_data sq_idx sq_emitted sq_initial_item sq_initial_skip sq_i].
  unfold for_range. rewrite Z.sub_0_r.
  destruct (inner_loop_run (Z.to_nat (T - it_i n (Z.of_nat K))) 0
              (it_item n (Z.of_nat K)) (it_skip n (Z.of_nat K)) (em n K)
              (drop (length (em n K)) data0)) as (a' & sk' & Hrun).
  { rewrite length_drop, Hdata0. unfold it_items in Hle. lia. }
  rewrite Hrun. cbn [res_bind]. fold (it_items n (Z.of_nat K)).
  rewrite drop_drop, <- length_app. change (em n K ++ _) with (em n (S K)).
  pose proof (it_next (Z.of_nat K) ltac:(lia)) as Hn'.
  replace (Z.of_nat K + 1) with (Z.of_nat (S K)) in Hn' by lia.
  destruct (1 <? T - it_i n (Z.of_nat K)); destruct Hn' as (-> & -> & ->); done.
Qed.

(** Once [size] items are emitted, they are a permutation of [0 .. size - 1]. *)
Lemma em_exit K :
  (Z.to_nat n <= length (em n K))%nat -> em n K ≡ₚ seqZ 0 n /\ length (em n K) = Z.to_nat n.
Proof.
  intros Hl. pose proof (em_length_le K). split; [|lia].
  apply submseteq_length_Permutation; [|by rewrite length_seqZ].
  apply NoDup_submseteq; [apply NoDup_em|]. intros x Hx%em_range. apply elem_of_seqZ. lia.
Qed.

(** The [while] loop, from the state after [K] passes and with fuel for
    the passes up to [t - 1 + size], stops with a permutation. *)
Lemma while_run fuel K :
  (Z.to_nat (T - 1 + n) <= K + fuel)%nat ->
  exists L, sqrt_while fuel n T (it_state n data0 K) = Some (Ok (map Qc_of_Z L)) /\
    L ≡ₚ seqZ 0 n.
Proof.
  revert K. induction fuel as [|fuel IH]; intros K Hf; cbn [sqrt_while].
  all: change (sq_emitted (it_state n data0 K)) with (Z.of_nat (length (em n K))).
  all: destruct (Z.ltb_spec (Z.of_nat (length (em n K))) n) as [Hlt|Hge].
  - assert (HK : (Z.to_nat (T - 1 + n) <= K)%nat) by lia.
    pose proof (em_length_mono _ _ HK). pose proof em_length_cover. lia.
  - destruct (em_exit K ltac:(lia)) as [Hp Hl]. exists (em n K). split; [|done].
    unfold it_state. cbn [sq_data]. rewrite drop_ge by lia. by rewrite app_nil_r.
  - rewrite pass_run. apply IH. lia.
  - destruct (em_exit K ltac:(lia)) as [Hp Hl]. exists (em n K). split; [|done].
    unfold it_state. cbn [sq_data]. rewrite drop_ge by lia. by rewrite app_nil_r.
Qed.

(** ** The passes as steps *)

(** The loop is deterministic: the step from the state after [K] passes
    leads to the state after [K + 1]. *)
Lemma step_it K st' :
  sqrt_step n T (it_state n data0 K) st' -> st' = it_state n data0 (S K).
Proof. inversion 1 as [? ? _ Hp]. rewrite pass_run in Hp. by injection Hp. Qed.

Lemma reach_from_it K st' :
  rtc (sqrt_step n T) (it_state n data0 K) st' ->
  exists K', (K <= K')%nat /\ st' = it_state n data0 K'.
Proof.
  remember (it_state n data0 K) as st eqn:Hst. intros Hr. revert K Hst.
  induction Hr as [st|st st1 st2 Hs _ IH]; intros K ->; [by exists K|].
  rewrite (step_it K st1 Hs) in IH. destruct (IH (S K) eq_refl) as (K' & HK & ->).
  exists K'. split; [lia | done].
Qed.

(** The run reaches the state after [K] passes, unless it has stopped
    earlier with [size] items emitted. *)
Lemma reach_it K :
  exists K', (K' <= K)%nat /\ rtc (sqrt_step n T) (it_state n data0 0) (it_state n data0 K') /\
    (K' = K \/ n <= Z.of_nat (length (em n K'))).
Proof.
  induction K as [|K IH]; [exists 0%nat; split; [lia | split; [done | by left]]|].
  destruct IH as (K' & HK & Hr & [->|Hge]).
  - destruct (Z.ltb_spec (Z.of_nat (length (em n K))) n) as [Hlt|Hge].
    + exists (S K). split; [lia|]. split; [|by left].
      eapply rtc_r; [exact Hr|]. constructor; [exact Hlt | apply pass_run].
    + exists K. split; [lia|]. split; [done | by right].
  - exists K'. split; [lia|]. split; [done | by right].
Qed.

Lemma em_mono K K' x : (K <= K')%nat -> x ∈ em n K -> x ∈ em n K'.
Proof. induction 1 as [|K' _ IH]; [done|]. intros Hx. simpl. apply elem_of_app. left. by apply IH. Qed.

Lemma written_em K x : x ∈ em n K -> written x (it_state n data0 K).
Proof.
  intros (j & Hj)%list_elem_of_lookup. exists j. cbn [it_state sq_idx sq_data].
  pose proof (lookup_lt_Some _ _ _ Hj). split; [lia|].
  rewrite lookup_app_l by (rewrite length_map; lia).
  change (map Qc_of_Z (em n K)) with (Qc_of_Z <$> em n K). by rewrite list_lookup_fmap, Hj.
Qed.

(** Every item below [size] is eventually written, and stays written. *)
Lemma item_eventually_written x :
  0 <= x < n ->
  exists st, rtc (sqrt_step n T) (it_state n data0 0) st /\ written x st /\
    forall st', rtc (sqrt_step n T) st st' -> written x st'.
Proof.
  intros Hx. destruct (reach_it (Z.to_nat (T - 1 + n))) as (K & HK & Hr & Hcase).
  assert (Hin : x ∈ em n K).
  { destruct Hcase as [->|Hge]; [by apply em_cover|].
    destruct (em_exit K ltac:(lia)) as [Hp _]. rewrite Hp. apply elem_of_seqZ. lia. }
  exists (it_state n data0 K). split; [done|]. split; [by apply written_em|].
  intros st' (K' & HK' & ->)%reach_from_it. apply written_em. by apply (em_mono K).
Qed.

End Run.

End Sqrt.

(** ** [UniformSqrt::populate] *)

Lemma it_state_0 n data0 : 1 <= n -> it_state n data0 0 = sqrt_init data0.
Proof.
  intros Hn. pose proof (sq_T_spec n Hn). unfold it_state, it_item, it_skip, it_i, sqrt_init. simpl.
  rewrite Z.min_l by lia. reflexivity.
Qed.

Lemma populate_sqrt_perm d size :
  0 <= size ->
  exists d', populate_sqrt (sqrt_fuel size) d size = Some (Ok d') /\
    data_ d' ≡ₚ map Qc_of_Z (seqZ 0 size).
Proof.
  intros Hs. unfold populate_sqrt. rewrite resize_ok by done.
  set (data0 := take _ _ ++ _). assert (Hl : length data0 = Z.to_nat size).
  { apply (resize_length (data_ d)). by rewrite resize_ok. }
  destruct (decide (size = 0)) as [->|Hne].
  - apply nil_length_inv in Hl. rewrite Hl. eexists. split; [reflexivity | done].
  - change (Z.sqrt (2 * size)) with (sq_T size).
    rewrite <- (it_state_0 size data0) by lia.
    destruct (while_run size ltac:(lia) data0 Hl (sqrt_fuel size) 0) as (L & -> & Hp).
    { pose proof (sq_T_spec size ltac:(lia)). unfold sqrt_fuel. lia. }
    eexists. split; [reflexivity|]. by apply Permutation_map.
Qed.



(** C31: Liveness of the [while] loop of [UniformSqrt::populate(size)]:
    for [size >= 1], every item [0 <= x < size] is eventually written,
    that is, the run of the loop from its initial state on the resized
    vector reaches a state where [x] is at a position below [idx], and
    [x] stays written in every state reachable from there. *)
Theorem uniform_sqrt_item_written d size data x :
  1 <= size -> resize (data_ d) size = Ok data -> 0 <= x < size ->
  exists st, rtc (sqrt_step size (Z.sqrt (2 * size))) (sqrt_init data) st /\ written x st /\
    forall st', rtc (sqrt_step size (Z.sqrt (2 * size))) st st' -> written x st'.
Proof.
  intros Hs Hr Hx. rewrite <- (it_state_0 size data) by done.
  apply (item_eventually_written size Hs data); [|done].
  apply (resize_length (data_ d)). by rewrite Hr.
Qed.

Lemma uniform_sqrt_item_written_witness :
  1 <= 10 /\ resize [] 10 = Ok (replicate 10 0%Qc) /\ 0 <= 7 < 10 /\
  exists st, rtc (sqrt_step 10 (Z.sqrt (2 * 10))) (sqrt_init (replicate 10 0%Qc)) st /\ written 7 st /\
    forall st', rtc (sqrt_step 10 (Z.sqrt (2 * 10))) st st' -> written 7 st'.
Proof.
  split; [lia|]. split; [reflexivity|]. split; [lia|].
  apply (uniform_sqrt_item_written (mkDataSet []) 10 (replicate 10 0%Qc) 7); [lia | reflexivity | lia].
Defined.
