(* ===== verification/RandomDatasets.v ===== *)
(** * The random data sets of the tests ([src/unnamed/part_000], lines 364-682)

    [Exponential], [Lognormal], [Normal], [Laplace], [Bimodal], [Mixed],
    [Trimodal] and [Integers] fill [data_] in [populate(size)] with
    [data_.resize(size)], then seed a [std::mt19937_64] ([std::mt19937]
    for [Integers]) from [std::random_device], construct the
    distributions of [<random>] they draw from, and run [std::generate]
    with a mutable lambda that captures the engine and the distributions.

    The draws are not determined by the code: [RandomSource S] is the
    interface of the state [S] of the engine together with the captured
    distribution objects, each draw returning a value and the next state,
    and of [std::log].  The seed, the state right after
    [std::random_device] has seeded the engine, is an input of each
    [populate].  What the code does determine is modelled as written:
    the constructors' argument checks ([std::invalid_argument]), the
    preconditions of the distributions' constructors ([0 < stddev],
    [0 < lambda], [0 < s], whose violation is undefined behaviour), the
    order of the draws in each lambda, the mixture thresholds, and the
    [static_cast<IntegerValue>] of [Integers] (undefined outside
    [int64_t]).

    [populate_random_spec] shows that every [populate] throws
    [std::length_error] on a negative size and otherwise, whatever the
    draws, either returns exactly [size] values or has undefined
    behaviour, the latter exactly when a distribution precondition fails
    (or, for [Integers], when a truncated draw leaves [int64_t]).
    [lognormal_constructor_unchecked] is the defect this shows in
    [Lognormal]: its constructor checks the unused [scale] and accepts a
    [sigma <= 0], for which [populate] is undefined. *)

From S2P Require Import Prelude Datasets.

Local Open Scope Z_scope.
Local Open Scope ddsketch_scope.

Module RandomDataSets.
Import DataSets.

(** ** The random source *)

(** The engine with the distribution objects a [populate] lambda captures,
    and [std::log].  [uniform01] is [random(generator)] for
    [std::uniform_real_distribution<double> random(0, 1)]. *)
Class RandomSource (S : Type) := {
  uniform01 : S -> Qc * S;
  normal_draw : Qc -> Qc -> S -> Qc * S;
  exponential_draw : Qc -> S -> Qc * S;
  lognormal_draw : Qc -> Qc -> S -> Qc * S;
  std_log : Qc -> Qc
}.

(** The constructors of the distributions and their preconditions. *)
Definition uniform_real_distribution (a b : Qc) : result unit :=
  guard_ub (bool_decide (a < b)%Qc) (Ok tt).
Definition normal_distribution (mean stddev : Qc) : result unit :=
  guard_ub (bool_decide (0 < stddev)%Qc) (Ok tt).
Definition exponential_distribution (lambda : Qc) : result unit :=
  guard_ub (bool_decide (0 < lambda)%Qc) (Ok tt).
Definition lognormal_distribution (m s : Qc) : result unit :=
  guard_ub (bool_decide (0 < s)%Qc) (Ok tt).

(** ** The data set classes and their constructors *)

Inductive RandomGenerator :=
  | Exponential (alpha_ : Qc)
  | Lognormal (mean_ sigma_ scale_ : Qc)
  | Normal (loc_ scale_ : Qc)
  | Laplace (loc_ scale_ : Qc)
  | Bimodal (right_loc_ left_loc_ left_std_ : Qc)
  | Mixed (mean_ sigma_ scale_factor_ loc_ scale_ ratio_ : Qc)
  | Trimodal (right_loc_ left_loc_ left_std_ exp_scale_ : Qc)
  | Integers (loc_ scale_ : Qc).

(** [explicit Exponential(DataValue alpha = 100)] *)
Definition Exponential_new (alpha : Qc) : result RandomGenerator :=
  if bool_decide (alpha <= 0)%Qc then Throw InvalidArgument else Ok (Exponential alpha).

(** [Lognormal(mean = 0.0, sigma = 1.0, scale = 100.0)] *)
Definition Lognormal_new (mean sigma scale : Qc) : result RandomGenerator :=
  if bool_decide (scale <= 0)%Qc then Throw InvalidArgument else Ok (Lognormal mean sigma scale).

Section Populate.
Context {S : Type} `{RandomSource S}.

(** ** The lambdas of [std::generate] *)

(** [Laplace]: [laplace_x = -std::log(1.0 - random(generator)) * scale_],
    negated when a second draw is below [0.5], plus [loc_]. *)
Definition laplace_sample (loc scale : Qc) (s : S) : Qc * S :=
  let '(u, s1) := uniform01 s in
  let laplace_x := (- std_log (1 - u) * scale)%Qc in
  let '(u', s2) := uniform01 s1 in
  let laplace_x := if bool_decide (u' < 1 / 2)%Qc then (- laplace_x)%Qc else laplace_x in
  ((laplace_x + loc)%Qc, s2).

(** [Bimodal]: above [0.5] a Laplace draw of scale [1] around
    [right_loc_], otherwise [normal(generator)]. *)
Definition bimodal_sample (right_loc left_loc left_std : Qc) (s : S) : Qc * S :=
  let '(u, s1) := uniform01 s in
  if bool_decide (1 / 2 < u)%Qc then
    let '(u1, s2) := uniform01 s1 in
    let laplace_x := (- std_log (1 - u1))%Qc in
    let '(u2, s3) := uniform01 s2 in
    let laplace_x := if bool_decide (u2 < 1 / 2)%Qc then (- laplace_x)%Qc else laplace_x in
    ((laplace_x + right_loc)%Qc, s3)
  else normal_draw left_loc left_std s1.

(** [Mixed]: below [ratio_] a scaled lognormal draw, otherwise normal. *)
Definition mixed_sample (mean sigma scale_factor loc scale ratio : Qc) (s : S) : Qc * S :=
  let '(u, s1) := uniform01 s in
  if bool_decide (u < ratio)%Qc then
    let '(x, s2) := lognormal_draw mean sigma s1 in ((scale_factor * x)%Qc, s2)
  else normal_draw loc scale s1.

(** [Trimodal]: by thirds of [random_value], a Laplace draw around
    [right_loc_], a normal draw, or an exponential draw. *)
Definition trimodal_sample (right_loc left_loc left_std exp_scale : Qc) (s : S) : Qc * S :=
  let '(random_value, s1) := uniform01 s in
  if bool_decide (Qc_of_Z 2 / Qc_of_Z 3 < random_value)%Qc then
    let '(u1, s2) := uniform01 s1 in
    let laplace_x := (- std_log (1 - u1))%Qc in
    let '(u2, s3) := uniform01 s2 in
    let laplace_x := if bool_decide (u2 < 1 / 2)%Qc then (- laplace_x)%Qc else laplace_x in
    ((laplace_x + right_loc)%Qc, s3)
  else if bool_decide (1 / Qc_of_Z 3 < random_value)%Qc then normal_draw left_loc left_std s1
  else exponential_draw exp_scale s1.

(** [static_cast<IntegerValue>] of a [double], undefined outside [int64_t],
    stored back into the [double] vector. *)
Definition int64_cast (x : Qc) : result Qc :=
  let t := trunc_Qc x in
  guard_ub ((INT64_MIN <=? t) && (t <=? INT64_MAX)) (Ok (Qc_of_Z t)).

Fixpoint cast_all (xs : list Qc) : result (list Qc) :=
  match xs with
  | [] => Ok []
  | x :: xs' => let* y := int64_cast x in let* ys := cast_all xs' in Ok (y :: ys)
  end.

(** ** [populate] *)

Definition populate_exponential (alpha : Qc) (d : DataSet) (size : Z) (seed : S) : result DataSet :=
  let* data := resize (data_ d) size in
  let* _ := exponential_distribution alpha in
  Ok (mkDataSet (generate (length data) (exponential_draw alpha) seed)).

(** [Lognormal::populate] draws [lognormal(mean_, sigma_)]; [scale_] is
    not used. *)
Definition populate_lognormal (mean sigma : Qc) (d : DataSet) (size : Z) (seed : S) : result DataSet :=
  let* data := resize (data_ d) size in
  let* _ := lognormal_distribution mean sigma in
  Ok (mkDataSet (generate (length data) (lognormal_draw mean sigma) seed)).

Definition populate_normal (loc scale : Qc) (d : DataSet) (size : Z) (seed : S) : result DataSet :=
  let* data := resize (data_ d) size in
  let* _ := normal_distribution loc scale in
  Ok (mkDataSet (generate (length data) (normal_draw loc scale) seed)).

Definition populate_laplace (loc scale : Qc) (d : DataSet) (size : Z) (seed : S) : result DataSet :=
  let* data := resize (data_ d) size in
  let* _ := uniform_real_distribution 0 1 in
  Ok (mkDataSet (generate (length data) (laplace_sample loc scale) seed)).

Definition populate_bimodal (right_loc left_loc left_std : Qc) (d : DataSet) (size : Z) (seed : S)
    : result DataSet :=
  let* data := resize (data_ d) size in
  let* _ := uniform_real_distribution 0 1 in
  let* _ := normal_distribution left_loc left_std in
  Ok (mkDataSet (generate (length data) (bimodal_sample right_loc left_loc left_std) seed)).

Definition populate_mixed (mean sigma scale_factor loc scale ratio : Qc) (d : DataSet) (size : Z)
    (seed : S) : result DataSet :=
  let* data := resize (data_ d) size in
  let* _ := uniform_real_distribution 0 1 in
  let* _ := lognormal_distribution mean sigma in
  let* _ := normal_distribution loc scale in
  Ok (mkDataSet (generate (length data) (mixed_sample mean sigma scale_factor loc scale ratio) seed)).

Definition populate_trimodal (right_loc left_loc left_std exp_scale : Qc) (d : DataSet) (size : Z)
    (seed : S) : result DataSet :=
  let* data := resize (data_ d) size in
  let* _ := uniform_real_distribution 0 1 in
  let* _ := normal_distribution left_loc left_std in
  let* _ := exponential_distribution exp_scale in
  Ok (mkDataSet (generate (length data) (trimodal_sample right_loc left_loc left_std exp_scale) seed)).

Definition populate_integers (loc scale : Qc) (d : DataSet) (size : Z) (seed : S) : result DataSet :=
  let* data := resize (data_ d) size in
  let* _ := normal_distribution loc scale in
  let* values := cast_all (generate (length data) (normal_draw loc scale) seed) in
  Ok (mkDataSet values).

(** The virtual [populate(size)] of the random data sets. *)
Definition populate_random (g : RandomGenerator) (d : DataSet) (size : Z) (seed : S) : result DataSet :=
  match g with
  | Exponential alpha => populate_exponential alpha d size seed
  | Lognormal mean sigma _ => populate_lognormal mean sigma d size seed
  | Normal loc scale => populate_normal loc scale d size seed
  | Laplace loc scale => populate_laplace loc scale d size seed
  | Bimodal right_loc left_loc left_std => populate_bimodal right_loc left_loc left_std d size seed
  | Mixed mean sigma scale_factor loc scale ratio =>
      populate_mixed mean sigma scale_factor loc scale ratio d size seed
  | Trimodal right_loc left_loc left_std exp_scale =>
      populate_trimodal right_loc left_loc left_std exp_scale d size seed
  | Integers loc scale => populate_integers loc scale d size seed
  end.

(** Whether the [static_cast] of every draw of [Integers] stays in
    [int64_t] (always for the other data sets). *)
Definition casts_ok (g : RandomGenerator) (size : Z) (seed : S) : bool :=
  match g with
  | Integers loc scale =>
      forallb (fun x => (INT64_MIN <=? trunc_Qc x) && (trunc_Qc x <=? INT64_MAX))
        (generate (Z.to_nat size) (normal_draw loc scale) seed)
  | _ => true
  end.

End Populate.

(** The distribution parameters each data set needs positive. *)
Definition distributions_ok (g : RandomGenerator) : bool :=
  match g with
  | Exponential alpha => bool_decide (0 < alpha)%Qc
  | Lognormal _ sigma _ => bool_decide (0 < sigma)%Qc
  | Normal _ scale => bool_decide (0 < scale)%Qc
  | Laplace _ _ => true
  | Bimodal _ _ left_std => bool_decide (0 < left_std)%Qc
  | Mixed _ sigma _ _ scale _ => bool_decide (0 < sigma)%Qc && bool_decide (0 < scale)%Qc
  | Trimodal _ _ left_std exp_scale => bool_decide (0 < left_std)%Qc && bool_decide (0 < exp_scale)%Qc
  | Integers _ scale => bool_decide (0 < scale)%Qc
  end.

(** A source for evaluating the definitions: the state counts the draws
    and each draw returns a value its distribution can produce. *)
#[export] Instance counting_source : RandomSource nat := {|
  uniform01 n := ((Qc_of_Z (Z.of_nat (n mod 4)) / Qc_of_Z 4)%Qc, S n);
  normal_draw mean _ n := (mean, S n);
  exponential_draw lambda n := ((1 / lambda)%Qc, S n);
  lognormal_draw _ _ n := (1%Qc, S n);
  std_log x := (x - 1)%Qc
|}.

(** ** Every random data set *)

Lemma cast_all_spec xs :
  cast_all xs =
    if forallb (fun x => (INT64_MIN <=? trunc_Qc x) && (trunc_Qc x <=? INT64_MAX)) xs
    then Ok (map (fun x => Qc_of_Z (trunc_Qc x)) xs) else Throw UndefinedBehavior.
Proof.
  induction xs as [|x xs IH]; [done|]. cbn [cast_all forallb map]. unfold int64_cast.
  destruct ((INT64_MIN <=? trunc_Qc x) && (trunc_Qc x <=? INT64_MAX)); cbn [guard_ub res_bind andb];
    [|done]. rewrite IH. by destruct (forallb _ xs).
Qed.

(** The outcome of [populate(size)] of a random data set, for every
    source and seed. *)
Lemma populate_random_spec {S} `{RandomSource S} g d size (seed : S) :
  (size < 0 -> populate_random g d size seed = Throw LengthError) /\
  (0 <= size -> distributions_ok g && casts_ok g size seed = true ->
     exists d', populate_random g d size seed = Ok d' /\ len d' = size) /\
  (0 <= size -> distributions_ok g && casts_ok g size seed = false ->
     populate_random g d size seed = Throw UndefinedBehavior).
Proof.
  split; [|split]; intros Hs;
    destruct g; cbn [populate_random distributions_ok casts_ok];
    unfold populate_exponential, populate_lognormal, populate_normal, populate_laplace,
      populate_bimodal, populate_mixed, populate_trimodal, populate_integers;
    first [by rewrite resize_negative | rewrite (resize_ok _ _ Hs); cbn [res_bind]];
    unfold uniform_real_distribution, normal_distribution, exponential_distribution,
      lognormal_distribution, guard_ub;
    rewrite ?(bool_decide_eq_true_2 (0 < 1)%Qc) by done; cbn [res_bind];
    repeat (case_bool_decide; cbn [res_bind andb]); intros Hok; try discriminate;
    rewrite ?length_app, ?length_take, ?length_replicate in *;
    try (rewrite cast_all_spec; replace (Z.to_nat size `min` length (data_ d) + (Z.to_nat size - length (data_ d)))%nat
           with (Z.to_nat size) by lia; destruct (forallb _ _); try discriminate; try done);
    try (eexists; split; [reflexivity|]; unfold len; cbn [data_];
         rewrite ?length_map, generate_length; lia);
    reflexivity.
Qed.

(** [Lognormal]'s constructor checks [scale], which [populate] never
    uses, and accepts every [sigma]: with [sigma <= 0] the
    [std::lognormal_distribution] is built outside its precondition and
    every [populate] of a size [>= 0] is undefined. *)
Lemma lognormal_constructor_unchecked {S} `{RandomSource S} mean sigma scale g d size (seed : S) :
  Lognormal_new mean sigma scale = Ok g -> (sigma <= 0)%Qc -> 0 <= size ->
  populate_random g d size seed = Throw UndefinedBehavior.
Proof.
  unfold Lognormal_new. case_bool_decide; [discriminate|]. intros [= <-] Hsig Hs.
  apply (populate_random_spec (Lognormal mean sigma scale) d size seed); [done|].
  cbn [distributions_ok]. rewrite bool_decide_eq_false_2; [done|].
  intros Hlt. apply (Qclt_not_le _ _ Hlt Hsig).
Qed.

(** [Exponential]'s constructor check is the precondition of its
    distribution. *)
Lemma exponential_constructor_checked alpha g :
  Exponential_new alpha = Ok g -> distributions_ok g = true.
Proof.
  unfold Exponential_new. case_bool_decide as Ha; [discriminate|]. intros [= <-].
  cbn [distributions_ok]. apply bool_decide_eq_true_2. by apply Qcnot_le_lt.
Qed.

End RandomDataSets.
