(* ===== verification/Populate.v ===== *)
(** * The virtual [DataSet::populate] over every data set

    [Generator] names the subclasses of [DataSet] in part_000, the random
    ones through [RandomDatasets], and [populate] dispatches the virtual
    call to their models in [Datasets], [UniformSqrt] and
    [RandomDatasets]; the random data sets draw from a [RandomSource]
    whose seeded state is an input.  The theorem [populate_len] shows
    that every data set but [EmptyDataSet] throws [std::length_error] on
    a negative size and otherwise terminates with exactly [size] values,
    unless one of its distributions is built outside its precondition
    (or an [Integers] draw leaves [int64_t]), which is undefined
    behaviour ([populate_ok]). *)

From S2P Require Import Prelude Datasets UniformSqrt RandomDatasets.
Import DataSets RandomDataSets.

Local Open Scope Z_scope.
Local Open Scope ddsketch_scope.

(** The data-set classes with a deterministic [populate]. *)
Inductive Generator :=
  | EmptyDataSet
  | UniformForward
  | UniformBackward
  | NegativeUniformForward
  | NegativeUniformBackward
  | NumberLineForward
  | NumberLineBackward
  | UniformZoomIn
  | UniformZoomOut
  | UniformSqrt
  | Constant (constant_ : Qc)
  | Random (g : RandomGenerator).

Section Dispatch.
Context {S : Type} `{RandomSource S}.

(** The virtual [populate(size)]; [EmptyDataSet::populate] does nothing.
    [None] only when [UniformSqrt]'s loop runs out of fuel. *)
Definition populate (g : Generator) (d : DataSet) (size : Z) (seed : S) : option (result DataSet) :=
  match g with
  | EmptyDataSet => Some (Ok d)
  | UniformForward => Some (populate_uniform_forward d size)
  | UniformBackward => Some (populate_uniform_backward d size)
  | NegativeUniformForward => Some (populate_negative_uniform_forward d size)
  | NegativeUniformBackward => Some (populate_negative_uniform_backward d size)
  | NumberLineForward => Some (populate_number_line_forward d size)
  | NumberLineBackward => Some (populate_number_line_backward d size)
  | UniformZoomIn => Some (populate_zoom_in d size)
  | UniformZoomOut => Some (populate_zoom_out d size)
  | UniformSqrt => populate_sqrt (sqrt_fuel size) d size
  | Constant c => Some (populate_constant c d size)
  | Random rg => Some (populate_random rg d size seed)
  end.

(** The preconditions the draws of a random data set need. *)
Definition populate_ok (g : Generator) (size : Z) (seed : S) : bool :=
  match g with
  | Random rg => distributions_ok rg && casts_ok rg size seed
  | _ => true
  end.

End Dispatch.

(** ** Every generator *)

Lemma perm_len d size :
  data_ d ≡ₚ map Qc_of_Z (seqZ 0 size) -> 0 <= size -> len d = size.
Proof. intros Hp Hs. unfold len. rewrite Hp, length_map, length_seqZ. lia. Qed.

(** Every [populate] but [EmptyDataSet]'s, by cases on the data set. *)
Lemma populate_spec {S} `{RandomSource S} g d size (seed : S) :
  g <> EmptyDataSet ->
  (size < 0 -> populate g d size seed = Some (Throw LengthError)) /\
  (0 <= size -> populate_ok g size seed = true ->
     exists d', populate g d size seed = Some (Ok d') /\ len d' = size) /\
  (0 <= size -> populate_ok g size seed = false ->
     populate g d size seed = Some (Throw UndefinedBehavior)).
Proof.
  intros Hg. destruct g as [| | | | | | | | | |c|rg]; try done.
  11: { destruct (populate_random_spec rg d size seed) as (H1 & H2 & H3). cbn [populate populate_ok].
        split; [|split]; intros Hs; [by rewrite H1 | intros Hok; destruct (H2 Hs Hok) as (d' & -> & Hl)
        | intros Hok; by rewrite H3]. by exists d'. }
  all: split; [intros Hs; cbn [populate];
                unfold populate_uniform_forward, populate_uniform_backward,
                  populate_negative_uniform_forward, populate_negative_uniform_backward,
                  populate_number_line_forward, populate_number_line_backward, populate_constant,
                  populate_zoom_in, populate_zoom_out, populate_sqrt, generate_populate;
                by rewrite resize_negative
              | split; [intros Hs _; cbn [populate] | intros _ Hf; discriminate]].
  all: unfold populate_uniform_forward, populate_uniform_backward,
        populate_negative_uniform_forward, populate_negative_uniform_backward,
        populate_number_line_forward, populate_number_line_backward, populate_constant;
      try (rewrite generate_populate_ok by done; eexists; split; [reflexivity|];
           unfold len; cbn [data_]; rewrite generate_length; lia).
  - destruct (zoom_in_perm d size Hs) as (d' & -> & Hp). exists d'. split; [done | by apply perm_len].
  - destruct (zoom_out_perm d size Hs) as (d' & -> & Hp). exists d'. split; [done | by apply perm_len].
  - destruct (populate_sqrt_perm d size Hs) as (d' & -> & Hp). exists d'. split; [done | by apply perm_len].
Qed.



