(* ===== verification/SketchTests.v ===== *)
(** * The sketch tests' accuracy check against the data sets

    [BaseDDSketchTest::evaluate_sketch_accuracy]
    ([src/tests/ddsketch_tests.cpp] lines 842-864) compares the sketch
    built from a data set with the data set itself: for each of ten
    quantiles, the sketch's [get_quantile_value(q)] must be within
    [eps * |dataset.quantile(q)|] of [dataset.quantile(q)] (up to [1e-15]),
    [num_values()] must equal [len()], and [sum()] and [avg()] must be
    almost equal.  [test_distributions] (lines 867-881) builds the sketch
    by adding every value of the data set with weight [1].

    This file models that check in exact arithmetic (the [1e-15] slack and
    "almost equal" become exact comparisons) and proves that a [DDSketch]
    with a [LogarithmicMapping] of relative accuracy [eps] passes it on
    every non-empty data set of values above [min_possible]: the
    composition of [SketchQuantile]'s accuracy with [DataSet::quantile]'s
    rank ([Datasets]). *)

From S2P Require Import Prelude QcReals BinList Store StoreFacts DenseStoreSpec KeyAtRank Sketch ExactMapping SketchSpec SketchQuantile Datasets.
From Stdlib Require Import Qcabs.
Import BaseDDSketch DataSets.

Local Open Scope Z_scope.

(** [for (const auto& value : *dataset) sketch.add(value);] *)
Definition unit_weights (l : list Qc) : list (RealValue * RealValue) := map (fun v => (v, 1%Qc)) l.

(** [{0.0, 0.1, 0.25, 0.5, 0.75, 0.9, 0.95, 0.99, 0.999, 1.0}] *)
Definition test_quantiles : list Qc :=
  [0%Qc; Q2Qc (1 # 10); Q2Qc (1 # 4); Q2Qc (1 # 2); Q2Qc (3 # 4); Q2Qc (9 # 10);
   Q2Qc (95 # 100); Q2Qc (99 # 100); Q2Qc (999 # 1000); 1%Qc].

(** One quantile of [evaluate_sketch_accuracy]:
    [std::abs(sketch_q - data_q) - eps * std::abs(data_q) <= 0]. *)
Definition quantile_check (s : @Sketch LogarithmicMapping) (d : DataSet) (eps q : Qc) : bool :=
  match get_quantile_value s q, quantile d q with
  | Some x, Ok y => bool_decide (Qcabs (x - y) <= eps * Qcabs y)%Qc
  | _, _ => false
  end.

(** [evaluate_sketch_accuracy(sketch, dataset, eps)] with its summary
    statistics. *)
Definition evaluate_sketch_accuracy (s : @Sketch LogarithmicMapping) (d : DataSet) (eps : Qc) : bool :=
  forallb (quantile_check s d eps) test_quantiles &&
  bool_decide (num_values s = Qc_of_Z (len d)) &&
  bool_decide (BaseDDSketch.sum s = DataSets.sum d) &&
  bool_decide (BaseDDSketch.avg s = DataSets.avg d).

(** ** Unit weights *)

Lemma weight_if_unit P (l : list Qc) :
  weight_if P (unit_weights l) = Qc_of_Z (Z.of_nat (List.length (List.filter P l))).
Proof.
  induction l as [|v l IH]; [by apply Qc_is_canon|].
  cbn [unit_weights map weight_if List.filter]. fold (unit_weights l). rewrite IH. destruct (P v); cbn [List.length];
    rewrite ?Nat2Z.inj_succ, <- ?Z.add_1_l, ?Z2Qc_inj_add, ?Z2Qc_inj_1; ring.
Qed.

Lemma weighted_sum_unit (l : list Qc) : weighted_sum (unit_weights l) = accumulate l.
Proof.
  induction l as [|v l IH]; [done|]. cbn [unit_weights map weighted_sum].
  fold (unit_weights l). rewrite IH, accumulate_cons. ring.
Qed.

Lemma total_unit (l : list Qc) : total (unit_weights l) = Qc_of_Z (Z.of_nat (List.length l)).
Proof. unfold total. rewrite weight_if_unit. by rewrite List.filter_true. Qed.

Lemma length_filter_mono (P Q : Qc -> bool) (l : list Qc) :
  (forall x, P x = true -> Q x = true) ->
  (List.length (List.filter P l) <= List.length (List.filter Q l))%nat.
Proof.
  intros H. induction l as [|x l IH]; simpl; [lia|].
  destruct (P x) eqn:E; [rewrite (H x E); simpl; lia|]. destruct (Q x); simpl; lia.
Qed.

(** Two values whose ranks both contain [k] are equal. *)
Lemma rank_unique (l : list Qc) k v y :
  Z.of_nat (count_lt l v) <= k < Z.of_nat (count_le l v) ->
  Z.of_nat (count_lt l y) <= k < Z.of_nat (count_le l y) -> v = y.
Proof.
  intros Hv Hy. destruct (Qc_dec v y) as [[Hvy|Hvy]|Hvy]; [exfalso..|done].
  - assert (Hc : (count_le l v <= count_lt l y)%nat).
    { apply length_filter_mono. intros x Hx%bool_decide_eq_true. apply bool_decide_eq_true.
      eapply Qcle_lt_trans; eauto. }
    lia.
  - assert (Hc : (count_le l y <= count_lt l v)%nat).
    { apply length_filter_mono. intros x Hx%bool_decide_eq_true. apply bool_decide_eq_true.
      eapply Qcle_lt_trans; eauto. }
    lia.
Qed.

(** A value at weighted rank [r >= 0] of unit weights has rank [floor r]. *)
Lemma at_rank_unit (l : list Qc) (r : Qc) v :
  (0 <= r)%Qc -> at_rank (unit_weights l) r v ->
  Z.of_nat (count_lt l v) <= trunc_Qc r < Z.of_nat (count_le l v).
Proof.
  intros Hr [Hlt Hle]. unfold weight_lt, weight_le in *. rewrite !weight_if_unit in *.
  unfold trunc_Qc. rewrite bool_decide_eq_true_2 by done. split.
  - rewrite <- (Qfloor_Z (Z.of_nat (count_lt l v))). apply Qfloor_resp_le. exact Hlt.
  - rewrite Zlt_Qlt. eapply Qle_lt_trans; [apply Qfloor_le | exact Hle].
Qed.


Lemma test_quantiles_range : Forall (fun q => (0 <= q)%Qc /\ (q <= 1)%Qc) test_quantiles.
Proof. repeat constructor; vm_compute; congruence. Qed.

(** The data set's rank [floor(q * (size - 1))] and the sketch's weighted
    rank [q * (count - 1)] name the same element. *)
Lemma sketch_rank_dataset_rank (d : DataSet) q v y :
  (0 <= q)%Qc -> 1 <= len d ->
  at_rank (unit_weights (data_ d)) (q * (total (unit_weights (data_ d)) - 1)) v ->
  Z.of_nat (count_lt (data_ d) y) <= trunc_Qc (q * Qc_of_Z (len d - 1))%Qc < Z.of_nat (count_le (data_ d) y) ->
  v = y.
Proof.
  intros Hq Hn Hv Hy. rewrite total_unit in Hv.
  replace (Qc_of_Z (Z.of_nat (List.length (data_ d))) - 1)%Qc with (Qc_of_Z (len d - 1)) in Hv
    by (unfold len; by rewrite Z2Qc_inj_sub, Z2Qc_inj_1).
  apply at_rank_unit in Hv.
  - by apply (rank_unique (data_ d) (trunc_Qc (q * Qc_of_Z (len d - 1))%Qc)).
  - apply Qcmult_nonneg_nonneg; [done|]. rewrite <- Z2Qc_inj_0. apply (proj1 (Z2Qc_inj_le _ _)). lia.
Qed.

(** [|x - y| <= eps |y|] from [(1 - eps) y <= x <= (1 + eps) y], [y > 0]. *)
Lemma relative_error_check (eps x y : Qc) :
  (0 < y)%Qc -> ((1 - eps) * y <= x)%Qc -> (x <= (1 + eps) * y)%Qc ->
  (Qcabs (x - y) <= eps * Qcabs y)%Qc.
Proof.
  intros Hy H1 H2. rewrite (Qcabs_pos y) by (by apply Qclt_le_weak).
  apply Qcabs_diff_Qcle_condition. split; qcR; nra.
Qed.

(** The hypotheses of the accuracy theorem for the unit weights of a
    data set of values above [min_possible]. *)
Lemma unit_weights_facts m d :
  data_ d <> [] -> Forall (fun v => (min_possible_ m < v)%Qc) (data_ d) ->
  Forall (fun vw => (min_possible_ m < vw.1)%Qc /\ (0 < vw.2)%Qc) (unit_weights (data_ d)) /\
  (1 <= total (unit_weights (data_ d)))%Qc /\ 1 <= len d.
Proof.
  intros Hne Hvals.
  assert (Hn : 1 <= len d) by (unfold len; destruct (data_ d); [done | simpl; lia]).
  split; [|split; [|done]].
  - apply List.Forall_map. eapply List.Forall_impl; [|exact Hvals]. intros v Hv. by split.
  - rewrite total_unit. rewrite <- Z2Qc_inj_1. apply (proj1 (Z2Qc_inj_le _ _)).
    unfold len in Hn. lia.
Qed.

(** Every quantile in [[0, 1]] passes [quantile_check] on the sketch of a
    data set's values with unit weights. *)
Lemma quantile_check_passes eps offset m d s q :
  LogarithmicMapping_new eps offset = Ok m ->
  data_ d <> [] -> len d <= INT64_MAX ->
  Forall (fun v => (min_possible_ m < v)%Qc) (data_ d) ->
  BaseDDSketch.add_all (DDSketch_new m) (unit_weights (data_ d)) = Ok s ->
  (0 <= q)%Qc -> (q <= 1)%Qc ->
  quantile_check s d eps q = true.
Proof.
  intros Hm Hne Hmax Hvals Ha Hq0 Hq1.
  destruct (unit_weights_facts m d Hne Hvals) as (Hv & Ht & Hn).
  destruct (log_quantile_accuracy eps offset m _ q Hm Hv Ht Hq0 Hq1)
    as (s' & x & Ha' & Hx & v & Hin & Hrank & Hb1 & Hb2).
  rewrite Ha in Ha'. injection Ha' as <-.
  destruct (quantile_at_rank d q Hne Hmax (conj Hq0 Hq1)) as (y & Hy & Hyin & Hyr).
  pose proof (sketch_rank_dataset_rank d q v y Hq0 Hn Hrank Hyr) as <-.
  unfold quantile_check. rewrite Hx, Hy. apply bool_decide_eq_true_2.
  apply relative_error_check; [|done|done].
  pose proof (min_possible_nonneg _ _ _ Hm).
  eapply Qcle_lt_trans; [eassumption|]. by apply (proj1 (List.Forall_forall _ _) Hvals).
Qed.

(** C19: The sketch tests' accuracy check passes: a [DDSketch] with a
    [LogarithmicMapping] of relative accuracy [eps], fed every value of a
    non-empty data set of values above [min_possible] with weight [1],
    answers each test quantile within [eps * |dataset.quantile(q)|] of
    [DataSet::quantile(q)], and its [num_values], [sum] and [avg] are the
    data set's [len], [sum] and [avg]. *)
Theorem evaluate_sketch_accuracy_passes eps offset m d :
  LogarithmicMapping_new eps offset = Ok m ->
  data_ d <> [] -> len d <= INT64_MAX ->
  Forall (fun v => (min_possible_ m < v)%Qc) (data_ d) ->
  exists s, BaseDDSketch.add_all (DDSketch_new m) (unit_weights (data_ d)) = Ok s /\
    evaluate_sketch_accuracy s d eps = true.
Proof.
  intros Hm Hne Hmax Hvals.
  destruct (unit_weights_facts m d Hne Hvals) as (Hv & Ht & _).
  destruct (add_all_refines _ (unit_weights (data_ d)) (DDSketch_new_inv m)) as (s & Ha & Hs & Hr).
  { eapply List.Forall_impl; [|exact Hv]. by intros vw [_ ?]. }
  exists s. split; [done|].
  pose proof (ref_count _ _ _ Hr) as Hc. pose proof (ref_sum _ _ _ Hr) as Hsum.
  cbn [count_ sum_ DDSketch_new new] in Hc, Hsum.
  assert (Hcount : count_ s = Qc_of_Z (len d)).
  { rewrite Hc. fold (total (unit_weights (data_ d))). rewrite total_unit. unfold len. ring. }
  assert (Hsum' : sum_ s = DataSets.sum d).
  { rewrite Hsum. rewrite weighted_sum_unit. unfold DataSets.sum. ring. }
  unfold evaluate_sketch_accuracy. rewrite !andb_true_iff. split; [split; [split|]|].
  - apply (proj2 (forallb_forall _ _)). intros q Hq.
    destruct (proj1 (List.Forall_forall _ _) test_quantiles_range q Hq) as [Hq0 Hq1].
    by apply (quantile_check_passes eps offset m d s q).
  - apply bool_decide_eq_true_2. exact Hcount.
  - apply bool_decide_eq_true_2. exact Hsum'.
  - apply bool_decide_eq_true_2. unfold BaseDDSketch.avg, DataSets.avg. by rewrite Hcount, Hsum'.
Qed.

(** ** Witness *)

Lemma evaluate_sketch_accuracy_passes_witness :
  let d := mkDataSet [1%Qc; Q2Qc (5 # 2); Qc_of_Z 10; Qc_of_Z 100] in
  LogarithmicMapping_new (Q2Qc (1 # 3)) 0 = Ok example_mapping /\
  data_ d <> [] /\ len d <= INT64_MAX /\
  Forall (fun v => (min_possible_ example_mapping < v)%Qc) (data_ d) /\
  exists s, BaseDDSketch.add_all (DDSketch_new example_mapping) (unit_weights (data_ d)) = Ok s /\
    evaluate_sketch_accuracy s d (Q2Qc (1 # 3)) = true.
Proof.
  assert (Hm : LogarithmicMapping_new (Q2Qc (1 # 3)) 0 = Ok example_mapping) by (vm_compute; reflexivity).
  assert (Hv : Forall (fun v => (min_possible_ example_mapping < v)%Qc)
                 [1%Qc; Q2Qc (5 # 2); Qc_of_Z 10; Qc_of_Z 100]) by (repeat constructor; vm_compute; reflexivity).
  split; [done|]. split; [done|]. split; [vm_compute; congruence|]. split; [done|].
  apply (evaluate_sketch_accuracy_passes (Q2Qc (1 # 3)) 0); [done | done | vm_compute; congruence | done].
Defined.
