(* ===== verification/Examples.v ===== *)
(** * The example programs ([src/unnamed/part_001]) and the README usage

    The repository ships two example programs and a usage snippet:
    - the first example program (part_001 lines 30-122, built by the
      Makefile of lines 1-29) runs [example_test_distributions], which
      populates one default-constructed instance of seventeen data sets
      with ten values and prints them, [example_basic_ddsketch], which
      adds [1 .. 100] to a [DDSketch] of relative accuracy [0.01] and
      prints fifteen quantiles, and [example_uniform_forward_ddsketch],
      which prints [quantile(0.80)] and [rank(4)] of [UniformForward]
      with ten values ([LegacyExample]);
    - [ddsketch_examples.cpp] (lines 123-204, built by the CMake file of
      lines 205-213) merges the uniform-forward example into
      [example_test_distributions] and uses a relative accuracy of [0.05]
      ([DDSketchExamples]);
    - the README's usage section ([src/unnamed/part_002] lines 28-49) is
      [example_basic_ddsketch] with [0.01] ([readme_usage]).

    Printing ([operator<<], [std::cout.precision]) is not modelled: each
    function returns the values it prints.  [main] runs the functions in
    order; an exception thrown by one ends the program, which the model
    keeps as the [Throw] of the sequence.  The random data sets draw from
    a [RandomSource] ([RandomDatasets]); [seeds i] is the engine state the
    [std::random_device] of the [i]-th data set's [populate] seeds.

    The theorems compose the components: the quantiles the examples print
    are within the relative accuracy of the exact quantiles of
    [1 .. 100] ([SketchTests]' check, through [SketchQuantile]), and
    [main] of both programs returns normally with seventeen data sets of
    ten values, [quantile(0.80) = 7] and [rank(4) = 4], for every random
    source whose [Integers] draws stay in [int64_t] ([Populate]). *)

From S2P Require Import Prelude QcReals Store Sketch ExactMapping SketchSpec SketchQuantile Datasets UniformSqrt RandomDatasets Populate SketchTests.
From Stdlib Require Import Qcabs.
Import BaseDDSketch DataSets RandomDataSets.

Local Open Scope Z_scope.
Local Open Scope ddsketch_scope.

(** ** The sketch example *)

(** [ddsketch::DDSketch sketch(relative_accuracy)]: a
    [LogarithmicMapping(relative_accuracy)] with its default offset [0.0]
    and two [DenseStore]s. *)
Definition DDSketch (relative_accuracy : Qc) : result (@Sketch LogarithmicMapping) :=
  let* mapping := LogarithmicMapping_new relative_accuracy 0 in
  Ok (DDSketch_new mapping).

(** [for (auto value = 1; value <= total; ++value) sketch.add(value);]:
    the [int] converted to [double], with the default weight [1.0]. *)
Definition add_one_to (total : Z) (s : @Sketch LogarithmicMapping) : result (@Sketch LogarithmicMapping) :=
  for_loop (Z.to_nat total) 1 (fun value s => BaseDDSketch.add s (Qc_of_Z value) 1) s.

(** [quantiles = {0.01, 0.05, 0.10, 0.20, 0.25, 0.40, 0.50, 0.60, 0.75,
    0.85, 0.95, 0.96, 0.97, 0.98, 0.99}]. *)
Definition example_quantiles : list Qc :=
  map (fun p => Q2Qc (p # 100)) [1; 5; 10; 20; 25; 40; 50; 60; 75; 85; 95; 96; 97; 98; 99]%Z.

(** The body of [example_basic_ddsketch]: the sketch, the insertion loop,
    and the [get_quantile_value] of each quantile, which it prints. *)
Definition basic_ddsketch (relative_accuracy : Qc) (total : Z) : result (list (option Qc)) :=
  let* sketch := DDSketch relative_accuracy in
  let* sketch := add_one_to total sketch in
  Ok (map (get_quantile_value sketch) example_quantiles).

(** The README's usage section. *)
Definition readme_usage : result (list (option Qc)) := basic_ddsketch (Q2Qc (1 # 100)) 100.

(** ** The data-set examples *)

(** [UniformForward uniform_forward; uniform_forward.populate(size);]
    then [quantile(q)] and [rank(r)], printed with the data set. *)
Definition uniform_forward_example (size : Z) (q r : Qc) : result (DataSet * Qc * Index) :=
  let* d := populate_uniform_forward (mkDataSet []) size in
  let* x := DataSets.quantile d q in
  Ok (d, x, rank d r).

(** The seventeen [std::make_unique<...>()] of [example_test_distributions],
    with the constructors' default arguments. *)
Definition default_datasets : result (list Generator) :=
  let* exponential := Exponential_new (Qc_of_Z 100) in
  let* lognormal := Lognormal_new 0 1 (Qc_of_Z 100) in
  Ok [UniformForward; UniformBackward; NegativeUniformForward; NegativeUniformBackward;
      NumberLineBackward; UniformZoomIn; UniformZoomOut; UniformSqrt; Constant (Qc_of_Z 42);
      Random exponential; Random lognormal; Random (Normal (Q2Qc (374 # 10)) 1);
      Random (Laplace (Qc_of_Z 11278) (Qc_of_Z 100));
      Random (Bimodal (Q2Qc (173 # 10)) (Qc_of_Z (-2)) (Qc_of_Z 3));
      Random (Mixed 0 (Q2Qc (1 # 4)) (Q2Qc (1 # 10)) (Qc_of_Z 10) (Q2Qc (1 # 2)) (Q2Qc (9 # 10)));
      Random (Trimodal (Q2Qc (173 # 10)) (Qc_of_Z 5) 1 (Q2Qc (1 # 100)));
      Random (Integers (Q2Qc (43 # 10)) (Qc_of_Z 5))].

Section Distributions.
Context {Src : Type} `{RandomSource Src}.

(** [for (auto& dataset : datasets) dataset->populate(size);] over
    default-constructed data sets, in order; an exception ends the loop. *)
Fixpoint populate_each (gs : list Generator) (size : Z) (seeds : nat -> Src) (i : nat)
    : option (result (list DataSet)) :=
  match gs with
  | [] => Some (Ok [])
  | g :: gs' =>
      match populate g (mkDataSet []) size (seeds i) with
      | Some (Ok d) =>
          match populate_each gs' size seeds (S i) with
          | Some (Ok ds) => Some (Ok (d :: ds))
          | r => r
          end
      | Some (Throw e) => Some (Throw e)
      | None => None
      end
  end.

(** The data sets [example_test_distributions] builds, populates with
    [kDatasetSize = 10] values and prints. *)
Definition test_distributions (seeds : nat -> Src) : option (result (list DataSet)) :=
  match default_datasets with
  | Ok gs => populate_each gs 10 seeds 0
  | Throw e => Some (Throw e)
  end.

End Distributions.

(** [examples/] of the Makefile: three example functions. *)
Module LegacyExample.

Definition example_test_distributions {Src} `{RandomSource Src} (seeds : nat -> Src)
    : option (result (list DataSet)) :=
  test_distributions seeds.

Definition example_uniform_forward_ddsketch : result (DataSet * Qc * Index) :=
  uniform_forward_example 10 (Q2Qc (8 # 10)) (Qc_of_Z 4).

Definition example_basic_ddsketch : result (list (option Qc)) :=
  basic_ddsketch (Q2Qc (1 # 100)) 100.

Definition main {Src} `{RandomSource Src} (seeds : nat -> Src)
    : option (result (list DataSet * list (option Qc) * (DataSet * Qc * Index))) :=
  match example_test_distributions seeds with
  | Some (Ok ds) =>
      Some (let* xs := example_basic_ddsketch in
            let* u := example_uniform_forward_ddsketch in
            Ok (ds, xs, u))
  | Some (Throw e) => Some (Throw e)
  | None => None
  end.

End LegacyExample.

(** [ddsketch_examples.cpp] of the CMake build. *)
Module DDSketchExamples.

Definition example_test_distributions {Src} `{RandomSource Src} (seeds : nat -> Src)
    : option (result (list DataSet * (DataSet * Qc * Index))) :=
  match test_distributions seeds with
  | Some (Ok ds) => Some (let* u := uniform_forward_example 10 (Q2Qc (8 # 10)) (Qc_of_Z 4) in Ok (ds, u))
  | Some (Throw e) => Some (Throw e)
  | None => None
  end.

Definition example_basic_ddsketch : result (list (option Qc)) :=
  basic_ddsketch (Q2Qc (5 # 100)) 100.

Definition main {Src} `{RandomSource Src} (seeds : nat -> Src)
    : option (result (list DataSet * (DataSet * Qc * Index) * list (option Qc))) :=
  match example_test_distributions seeds with
  | Some (Ok (ds, u)) => Some (let* xs := example_basic_ddsketch in Ok (ds, u, xs))
  | Some (Throw e) => Some (Throw e)
  | None => None
  end.

End DDSketchExamples.

(** ** What the examples print *)

(** The exact quantiles of [1 .. 100] at [example_quantiles]: the value of
    rank [floor(q * 99)]. *)
Definition exact_quantiles : list Qc :=
  map Qc_of_Z [1; 5; 10; 20; 25; 40; 50; 60; 75; 85; 95; 96; 97; 98; 99].

(** A printed [get_quantile_value] is a number within [eps * |y|] of [y]. *)
Definition within (eps : Qc) (x : option Qc) (y : Qc) : Prop :=
  exists v, x = Some v /\ (Qcabs (v - y) <= eps * Qcabs y)%Qc.

(** ** The insertion loop *)

Lemma for_loop_add_all n j s :
  for_loop n j (fun value s => BaseDDSketch.add s (Qc_of_Z value) 1) s =
  BaseDDSketch.add_all s (unit_weights (map Qc_of_Z (seqZ j (Z.of_nat n)))).
Proof.
  revert j s. induction n as [|n IH]; intros j s; [done|].
  rewrite Nat2Z.inj_succ, seqZ_cons by lia. rewrite Z.pred_succ. cbn.
  destruct (BaseDDSketch.add s (Qc_of_Z j) 1); [|done]. cbn. by rewrite IH.
Qed.

Lemma example_quantiles_range : Forall (fun q => (0 <= q)%Qc /\ (q <= 1)%Qc) example_quantiles.
Proof. repeat constructor; vm_compute; congruence. Qed.

Lemma checks_within s d eps qs ys :
  Forall (fun q => quantile_check s d eps q = true) qs ->
  map (DataSets.quantile d) qs = map Ok ys ->
  Forall2 (within eps) (map (get_quantile_value s) qs) ys.
Proof.
  intros Hc. revert ys. induction Hc as [|q qs Hq _ IH]; intros [|y ys] Hm; try discriminate; constructor.
  - injection Hm as Hy _. unfold quantile_check in Hq. rewrite Hy in Hq.
    destruct (get_quantile_value s q) as [x|]; [|discriminate].
    exists x. split; [done|]. exact (bool_decide_eq_true_1 _ Hq).
  - apply IH. by injection Hm.
Qed.

(** [example_basic_ddsketch] with a relative accuracy whose mapping sends
    [1] to the stores prints values within that accuracy of the exact
    quantiles. *)
Lemma basic_ddsketch_within eps m :
  LogarithmicMapping_new eps 0 = Ok m -> (min_possible_ m < 1)%Qc ->
  exists xs, basic_ddsketch eps 100 = Ok xs /\ Forall2 (within eps) xs exact_quantiles.
Proof.
  intros Hm Hmin. set (d := mkDataSet (map Qc_of_Z (seqZ 1 100))).
  assert (Hvals : Forall (fun v => (min_possible_ m < v)%Qc) (data_ d)).
  { apply List.Forall_forall. intros v (k & <- & Hk)%in_map_iff.
    apply list_elem_of_In, elem_of_seqZ in Hk. eapply Qclt_le_trans; [exact Hmin|].
    rewrite <- Z2Qc_inj_1. apply (proj1 (Z2Qc_inj_le _ _)). lia. }
  destruct (add_all_refines _ (unit_weights (data_ d)) (DDSketch_new_inv m)) as (s & Ha & _).
  { apply List.Forall_map, List.Forall_forall. done. }
  exists (map (get_quantile_value s) example_quantiles).
  unfold basic_ddsketch, DDSketch. rewrite Hm. cbn [res_bind]. unfold add_one_to.
  rewrite for_loop_add_all. change (Z.of_nat (Z.to_nat 100)) with 100.
  change (map Qc_of_Z (seqZ 1 100)) with (data_ d). rewrite Ha. split; [done|]. apply (checks_within s d).
  - eapply List.Forall_impl; [|exact example_quantiles_range]. intros q [Hq0 Hq1].
    apply (quantile_check_passes eps 0 m d s q Hm); [vm_compute; congruence | vm_compute; congruence
      | done | done | done | done].
  - subst d. vm_compute. reflexivity.
Qed.

(** ** Running [main] *)

Lemma populate_each_ok {Src} `{RandomSource Src} gs size (seeds : nat -> Src) i :
  0 <= size ->
  Forall2 (fun g k => g <> EmptyDataSet /\ populate_ok g size (seeds k) = true) gs (seq i (List.length gs)) ->
  exists ds, populate_each gs size seeds i = Some (Ok ds) /\ List.length ds = List.length gs /\
    Forall (fun d => len d = size) ds.
Proof.
  intros Hs. revert i. induction gs as [|g gs IH]; intros i Hall; [by exists []|].
  inversion Hall as [|? ? ? ? [Hg Hok] Hrest]; subst.
  destruct (populate_spec g (mkDataSet []) size (seeds i) Hg) as (_ & Hpos & _).
  destruct (Hpos Hs Hok) as (d & Hd & Hl). destruct (IH (S i) Hrest) as (ds & Hds & Hlen & Hf).
  exists (d :: ds). cbn [populate_each]. rewrite Hd, Hds. split; [done|]. split; [simpl; lia | by constructor].
Qed.

(** The seventeen data sets are populated with ten values each when the
    draws of [Integers] (the seventeenth) stay in [int64_t]. *)
Lemma test_distributions_ok {Src} `{RandomSource Src} (seeds : nat -> Src) :
  casts_ok (Integers (Q2Qc (43 # 10)) (Qc_of_Z 5)) 10 (seeds 16%nat) = true ->
  exists ds, test_distributions seeds = Some (Ok ds) /\ List.length ds = 17%nat /\
    Forall (fun d => len d = 10) ds.
Proof.
  intros Hc. unfold test_distributions.
  destruct default_datasets as [gs|e] eqn:Hd; vm_compute in Hd; [|discriminate].
  injection Hd as <-. apply populate_each_ok; [lia|]. cbn [List.length seq].
  repeat (apply Forall2_cons; [split; [discriminate|]|]); try apply Forall2_nil.
  all: try reflexivity. unfold populate_ok. apply andb_true_iff. split; [reflexivity | exact Hc].
Qed.

Lemma uniform_forward_example_output :
  uniform_forward_example 10 (Q2Qc (8 # 10)) (Qc_of_Z 4) =
  Ok (mkDataSet (map Qc_of_Z (seqZ 0 10)), Qc_of_Z 7, 4).
Proof. vm_compute. reflexivity. Qed.

(** C39: The quantiles the example programs print are accurate: the
    first example program's [example_basic_ddsketch] and the README's
    usage (relative accuracy [0.01]) and [ddsketch_examples.cpp]'s
    (relative accuracy [0.05]) add [1 .. 100] to a [DDSketch] and print,
    for each of the fifteen quantiles, a number within the relative
    accuracy of the exact quantile of [1 .. 100]. *)
Theorem examples_print_accurate_quantiles :
  (exists xs, LegacyExample.example_basic_ddsketch = Ok xs /\
     Forall2 (within (Q2Qc (1 # 100))) xs exact_quantiles) /\
  (exists xs, DDSketchExamples.example_basic_ddsketch = Ok xs /\
     Forall2 (within (Q2Qc (5 # 100))) xs exact_quantiles) /\
  (exists xs, readme_usage = Ok xs /\ Forall2 (within (Q2Qc (1 # 100))) xs exact_quantiles).
Proof.
  unfold LegacyExample.example_basic_ddsketch, DDSketchExamples.example_basic_ddsketch, readme_usage.
  split; [|split];
    match goal with |- exists xs, basic_ddsketch ?e _ = _ /\ _ =>
      apply (basic_ddsketch_within e (mapping_of (LogarithmicMapping_new e 0))); vm_compute; reflexivity
    end.
Qed.

(** C40: [main] of both example programs returns normally, for every
    random source whose [Integers] draws stay in [int64_t]: it prints
    seventeen data sets of ten values, [UniformForward]'s ten values with
    [quantile(0.80) = 7] and [rank(4) = 4], and the quantiles of
    [example_basic_ddsketch]. *)
Theorem examples_main_returns {Src} `{RandomSource Src} (seeds : nat -> Src) :
  casts_ok (Integers (Q2Qc (43 # 10)) (Qc_of_Z 5)) 10 (seeds 16%nat) = true ->
  let uf := (mkDataSet (map Qc_of_Z (seqZ 0 10)), Qc_of_Z 7, 4) in
  (exists ds xs, LegacyExample.main seeds = Some (Ok (ds, xs, uf)) /\
     LegacyExample.example_basic_ddsketch = Ok xs /\
     List.length ds = 17%nat /\ Forall (fun d => len d = 10) ds) /\
  (exists ds xs, DDSketchExamples.main seeds = Some (Ok (ds, uf, xs)) /\
     DDSketchExamples.example_basic_ddsketch = Ok xs /\
     List.length ds = 17%nat /\ Forall (fun d => len d = 10) ds).
Proof.
  intros Hc uf. destruct (test_distributions_ok seeds Hc) as (ds & Hds & Hl & Hf).
  destruct (basic_ddsketch_within (Q2Qc (1 # 100)) (mapping_of (LogarithmicMapping_new (Q2Qc (1 # 100)) 0)))
    as (xs & Hxs & _); [vm_compute; reflexivity | vm_compute; reflexivity |].
  destruct (basic_ddsketch_within (Q2Qc (5 # 100)) (mapping_of (LogarithmicMapping_new (Q2Qc (5 # 100)) 0)))
    as (ys & Hys & _); [vm_compute; reflexivity | vm_compute; reflexivity |].
  split; [exists ds, xs | exists ds, ys]; (split; [|split; [assumption | split; assumption]]).
  - unfold LegacyExample.main, LegacyExample.example_test_distributions,
      LegacyExample.example_basic_ddsketch, LegacyExample.example_uniform_forward_ddsketch.
    by rewrite Hds, Hxs, uniform_forward_example_output.
  - unfold DDSketchExamples.main, DDSketchExamples.example_test_distributions,
      DDSketchExamples.example_basic_ddsketch.
    by rewrite Hds, Hys, uniform_forward_example_output.
Qed.

Lemma examples_main_returns_witness :
  casts_ok (Integers (Q2Qc (43 # 10)) (Qc_of_Z 5)) 10 ((fun _ => 0%nat) 16%nat) = true /\
  let uf := (mkDataSet (map Qc_of_Z (seqZ 0 10)), Qc_of_Z 7, 4) in
  (exists ds xs, LegacyExample.main (fun _ => 0%nat) = Some (Ok (ds, xs, uf)) /\
     LegacyExample.example_basic_ddsketch = Ok xs /\
     List.length ds = 17%nat /\ Forall (fun d => len d = 10) ds) /\
  (exists ds xs, DDSketchExamples.main (fun _ => 0%nat) = Some (Ok (ds, uf, xs)) /\
     DDSketchExamples.example_basic_ddsketch = Ok xs /\
     List.length ds = 17%nat /\ Forall (fun d => len d = 10) ds).
Proof.
  assert (Hc : casts_ok (Integers (Q2Qc (43 # 10)) (Qc_of_Z 5)) 10 ((fun _ => 0%nat) 16%nat) = true)
    by (vm_compute; reflexivity).
  split; [exact Hc|]. exact (examples_main_returns (fun _ => 0%nat) Hc).
Defined.
